(** * RadixTree: a shallow embedding of src/metadata/radixtree/radix_tree.cc

    The tree lives in a heap of fixed-size nodes addressed by global
    pointers.  Every entry point of the C++ class is written here as a
    function on an explicit machine state (heap cells, allocator, root),
    returning an [outcome]: a normal return, an assertion failure, a
    memory fault (what the C++ leaves undefined), or fuel exhaustion for
    the unbounded [for (;;)] / [while] loops.  Executions are sequential:
    a compare-and-swap is the real comparison against the cell, so its
    failure branches are present in the model even though a single
    thread never takes them. *)

From Stdlib Require Import ZArith List Bool Lia Arith Sorted.
From Stdlib Require Import Strings.Byte.
Import ListNotations.
Open Scope Z_scope.

(** ** Outcomes *)

Inductive fault : Type :=
| NullDeref              (* access through a null or untranslatable pointer *)
| KeyIndexOutOfRange     (* key[i] read past the caller's key bytes *)
| ChildIndexOutOfRange   (* child[i] with i >= 256 *)
| BufferOverflow.        (* memcpy of more than MAX_KEY_LEN bytes into Node::key *)

Inductive outcome (A : Type) : Type :=
| Ret (a : A)
| AssertFail
| Fault (f : fault)
| OutOfFuel.

Arguments Ret {A} a.
Arguments AssertFail {A}.
Arguments Fault {A} f.
Arguments OutOfFuel {A}.

Definition bind {A B} (c : outcome A) (k : A -> outcome B) : outcome B :=
  match c with
  | Ret a => k a
  | AssertFail => AssertFail
  | Fault f => Fault f
  | OutOfFuel => OutOfFuel
  end.

Notation "x <- c ;; k" := (bind c (fun x => k))
  (at level 61, c at next level, right associativity).
Notation "' pat <- c ;; k" := (bind c (fun x => match x with pat => k end))
  (at level 61, pat pattern, c at next level, right associativity).

(** ** Machine integers *)

Definition u64_mod : Z := 2 ^ 64.
Definition wrap64 (z : Z) : Z := z mod u64_mod.

(** ** Global pointers and tagged pointers *)

Definition Gptr := Z.

Record TagGptr : Type := mkTagGptr { gptr : Gptr; tag : Z }.

(** [TagGptr()] : the default-constructed tagged pointer. *)
Definition TagGptr0 : TagGptr := mkTagGptr 0 0.

(** Modelled from the spec: the class TagGptr is declared outside src/; a
    tagged pointer "is valid iff its gptr component is non-zero", and two
    tagged pointers "compare equal iff both halves match". *)
Definition IsValid (t : TagGptr) : bool := negb (gptr t =? 0).

Definition TagGptr_eqb (a b : TagGptr) : bool :=
  (gptr a =? gptr b) && (tag a =? tag b).

(** ** Build and header constants

    radix_tree.h is not part of src/: its constants are parameters of the
    development.  [NDEBUG] tells whether [assert] is compiled out;
    [char_signed] is the signedness of plain [char] on the target. *)

Record Config : Type := mkConfig {
  MAX_KEY_LEN : nat;
  OPEN_BOUNDARY_KEY : list byte;
  alloc_retry_cnt : Z;
  NDEBUG : bool;
  char_signed : bool
}.

(** ** Nodes and the heap *)

Record Node : Type := mkNode {
  key : list byte;            (* char key[MAX_KEY_LEN] *)
  prefix_size : nat;          (* size_t prefix_size *)
  child : byte -> Gptr;       (* Gptr child[256] *)
  value : TagGptr
}.

Definition set_key (n : Node) (k : list byte) : Node :=
  mkNode k (prefix_size n) (child n) (value n).
Definition set_prefix_size (n : Node) (s : nat) : Node :=
  mkNode (key n) s (child n) (value n).
Definition set_children (n : Node) (c : byte -> Gptr) : Node :=
  mkNode (key n) (prefix_size n) c (value n).
Definition set_value (n : Node) (v : TagGptr) : Node :=
  mkNode (key n) (prefix_size n) (child n) v.

Definition upd (c : byte -> Gptr) (b : byte) (q : Gptr) : byte -> Gptr :=
  fun b' => if Byte.eqb b' b then q else c b'.
Definition set_child (n : Node) (b : byte) (q : Gptr) : Node :=
  set_children n (upd (child n) b q).

(** The heap: cell number [i] (from 0) is the block at global pointer
    [i + 1]; pointer 0 is null.  [pressure] scripts the allocator: each
    call of [Alloc] consumes one entry, [true] meaning that this call
    returns 0; past the end of the script every call succeeds.  [freed]
    records the blocks handed back by [Free]. *)
Record Heap : Type := mkHeap {
  cells : list Node;
  pressure : list bool;
  freed : list Gptr
}.

Record RadixTree : Type := mkTree { heap : Heap; root : Gptr }.

Definition with_heap (t : RadixTree) (h : Heap) : RadixTree := mkTree h (root t).

Fixpoint list_set {A} (l : list A) (i : nat) (x : A) : list A :=
  match l, i with
  | [], _ => []
  | _ :: l', O => x :: l'
  | y :: l', S i' => y :: list_set l' i' x
  end.

(** [mmgr->GlobalToLocal]: the node a global pointer designates, if any. *)
Definition toLocal (h : Heap) (q : Gptr) : option Node :=
  if q <=? 0 then None else nth_error (cells h) (Z.to_nat q - 1).

(** A write through [(Node * )toLocal(q)]; the code only writes through
    pointers it has dereferenced. *)
Definition store (h : Heap) (q : Gptr) (n : Node) : Heap :=
  if q <=? 0 then h
  else mkHeap (list_set (cells h) (Z.to_nat q - 1) n) (pressure h) (freed h).

Section WithConfig.

Variable cfg : Config.

(** A block as the allocator hands it out.  [heap->Alloc] is not part of
    src/ and nothing states what a new block contains: that it is
    zero-filled is an assumption of this model.  The source relies on it,
    since it never writes the children of a new leaf nor the value of an
    intermediate node that gets a separate leaf. *)
Definition zero_node : Node :=
  mkNode (repeat x00%byte (MAX_KEY_LEN cfg)) 0 (fun _ => 0) TagGptr0.

(** [heap->Alloc(sizeof(Node))] *)
Definition Alloc (h : Heap) : Gptr * Heap :=
  match pressure h with
  | true :: rest => (0, mkHeap (cells h) rest (freed h))
  | false :: rest =>
      (Z.of_nat (length (cells h)) + 1,
       mkHeap (cells h ++ [zero_node]) rest (freed h))
  | [] =>
      (Z.of_nat (length (cells h)) + 1,
       mkHeap (cells h ++ [zero_node]) [] (freed h))
  end.

(** [heap->Free(p)] *)
Definition Free (h : Heap) (p : Gptr) : Heap :=
  mkHeap (cells h) (pressure h) (p :: freed h).

(** [assert(c)] *)
Definition assert (c : bool) : outcome unit :=
  if NDEBUG cfg then Ret tt else if c then Ret tt else AssertFail.

(** Dereference of [(Node * )toLocal(q)] after [assert(n)]. *)
Definition deref (h : Heap) (q : Gptr) : outcome Node :=
  match toLocal h q with
  | Some n => Ret n
  | None => if NDEBUG cfg then Fault NullDeref else AssertFail
  end.

(** ** Atomic primitives *)

(** A [Gptr *] as the code holds it: null, or the address of one child
    slot of a node. *)
Definition slot := option (Gptr * byte).

Definition read_slot (h : Heap) (p : slot) : outcome Gptr :=
  match p with
  | None => Fault NullDeref
  | Some (q, b) =>
      match toLocal h q with
      | Some n => Ret (child n b)
      | None => Fault NullDeref
      end
  end.

(** [cas64(target, old_value, new_value)]: returns the value seen. *)
Definition cas64 (h : Heap) (p : slot) (old_value new_value : Gptr)
  : outcome (Gptr * Heap) :=
  match p with
  | None => Fault NullDeref
  | Some (q, b) =>
      match toLocal h q with
      | Some n =>
          if child n b =? old_value
          then Ret (child n b, store h q (set_child n b new_value))
          else Ret (child n b, h)
      | None => Fault NullDeref
      end
  end.

(** [loadTagGptr(&n->value, tq)] for the node at [q]. *)
Definition loadTagGptr (h : Heap) (q : Gptr) : outcome TagGptr :=
  match toLocal h q with
  | Some n => Ret (value n)
  | None => Fault NullDeref
  end.

(** [casTagGptr(&n->value, old_value, new_value)] for the node at [q]. *)
Definition casTagGptr (h : Heap) (q : Gptr) (old_value new_value : TagGptr)
  : outcome (TagGptr * Heap) :=
  match toLocal h q with
  | Some n =>
      if TagGptr_eqb (value n) old_value
      then Ret (value n, store h q (set_value n new_value))
      else Ret (value n, h)
  | None => Fault NullDeref
  end.

(** ** Byte strings *)

Definition byte_ltb (a b : byte) : bool := (Byte.to_N a <? Byte.to_N b)%N.

(** Modelled from the spec: fam_memcmp comes from the fam atomics header,
    outside src/; the spec calls it a memcmp, so it compares the first
    [n] bytes as unsigned chars and only the sign of the result is kept. *)
Fixpoint fam_memcmp (s1 s2 : list byte) (n : nat) {struct n} : Z :=
  match n, s1, s2 with
  | S n', a :: s1', b :: s2' =>
      if byte_ltb a b then -1
      else if byte_ltb b a then 1
      else fam_memcmp s1' s2' n'
  | _, _, _ => 0
  end.

(** [key[i]] on a caller's buffer of [key_size] bytes. *)
Definition key_at (k : list byte) (i : nat) : outcome byte :=
  match nth_error k i with
  | Some b => Ret b
  | None => Fault KeyIndexOutOfRange
  end.

(** [s.data()[i]] on a std::string: the bytes, then the terminating NUL. *)
Definition data_at (s : list byte) (i : nat) : outcome byte :=
  if (i =? length s)%nat then Ret x00%byte else key_at s i.

(** [memcpy(node->key, key, key_size)] *)
Definition memcpy_key (n : Node) (k : list byte) : outcome Node :=
  if (length k <=? MAX_KEY_LEN cfg)%nat
  then Ret (set_key n (k ++ skipn (length k) (key n)))
  else Fault BufferOverflow.

Definition key_size_ok (k : list byte) : bool :=
  (0 <? length k)%nat && (length k <=? MAX_KEY_LEN cfg)%nat.

(** ** Construction *)

(** [RadixTree::RadixTree(Mmgr, Heap, Metrics, Root)] *)
Definition RadixTree_new (h : Heap) (Root : Gptr) : outcome RadixTree :=
  if Root =? 0 then
    let '(r, h1) := Alloc h in
    _ <- assert (negb (r =? 0)) ;;
    root_node <- deref h1 r ;;
    let root_node := set_prefix_size root_node 0 in
    let root_node := set_children root_node (fun _ => 0) in
    let root_node := set_value root_node TagGptr0 in
    Ret (mkTree (store h1 r root_node) r)
  else Ret (mkTree h Root).

Definition get_root (t : RadixTree) : Gptr := root t.

(** ** get *)

Fixpoint get_loop (fuel : nat) (h : Heap) (k : list byte) (q : Gptr)
  : outcome TagGptr :=
  match fuel with
  | O => OutOfFuel
  | S fuel' =>
      if q =? 0 then Ret TagGptr0
      else
        n <- deref h q ;;
        let result := fam_memcmp k (key n) (Nat.min (prefix_size n) (length k)) in
        if negb (result =? 0) then Ret TagGptr0
        else if (prefix_size n =? length k)%nat then loadTagGptr h q
        else
          b <- key_at k (prefix_size n) ;;
          q' <- read_slot h (Some (q, b)) ;;
          get_loop fuel' h k q'
  end.

(** [TagGptr RadixTree::get(const char *key, const size_t key_size)] *)
Definition get (fuel : nat) (t : RadixTree) (k : list byte) : outcome TagGptr :=
  _ <- assert (key_size_ok k) ;;
  get_loop fuel (heap t) k (root t).

(** ** destroy *)

(** The [for (;;)] retry loop around [casTagGptr] storing [(g, tag + 1)]. *)
Fixpoint cas_value_loop (fuel : nat) (h : Heap) (q : Gptr) (tq : TagGptr)
  (g : Gptr) : outcome (TagGptr * TagGptr * Heap) :=
  match fuel with
  | O => OutOfFuel
  | S fuel' =>
      let new_value := mkTagGptr g (wrap64 (tag tq + 1)) in
      '(seen_tq, h') <- casTagGptr h q tq new_value ;;
      if TagGptr_eqb seen_tq tq then Ret (tq, new_value, h')
      else cas_value_loop fuel' h' q seen_tq g
  end.

Fixpoint destroy_loop (fuel : nat) (h : Heap) (k : list byte) (q : Gptr)
  : outcome (TagGptr * Heap) :=
  match fuel with
  | O => OutOfFuel
  | S fuel' =>
      if q =? 0 then Ret (TagGptr0, h)
      else
        n <- deref h q ;;
        let result := fam_memcmp k (key n) (Nat.min (prefix_size n) (length k)) in
        if negb (result =? 0) then Ret (TagGptr0, h)
        else if (prefix_size n =? length k)%nat then
          tq <- loadTagGptr h q ;;
          '(old, _, h') <- cas_value_loop fuel h q tq 0 ;;
          Ret (old, h')
        else
          b <- key_at k (prefix_size n) ;;
          q' <- read_slot h (Some (q, b)) ;;
          destroy_loop fuel' h k q'
  end.

(** [TagGptr RadixTree::destroy(const char *key, const size_t key_size)] *)
Definition destroy (fuel : nat) (t : RadixTree) (k : list byte)
  : outcome (TagGptr * RadixTree) :=
  _ <- assert (key_size_ok k) ;;
  '(old, h') <- destroy_loop fuel (heap t) k (root t) ;;
  Ret (old, with_heap t h').

(** ** put *)

(** The local variables of [put] that survive an iteration of its outer
    [for (;;)]. *)
Record PutLocals : Type := mkLocals {
  l_p : slot;
  l_q : Gptr;
  l_new_leaf_ptr : Gptr;
  l_intermediate_node_ptr : Gptr;
  l_prefix_size : nat;
  l_existing : byte
}.

Definition set_pq (l : PutLocals) (p : slot) (q : Gptr) : PutLocals :=
  mkLocals p q (l_new_leaf_ptr l) (l_intermediate_node_ptr l)
           (l_prefix_size l) (l_existing l).
Definition set_q (l : PutLocals) (q : Gptr) : PutLocals := set_pq l (l_p l) q.
Definition set_split (l : PutLocals) (i : nat) (e : byte) : PutLocals :=
  mkLocals (l_p l) (l_q l) (l_new_leaf_ptr l) (l_intermediate_node_ptr l) i e.
Definition set_new_leaf_ptr (l : PutLocals) (g : Gptr) : PutLocals :=
  mkLocals (l_p l) (l_q l) g (l_intermediate_node_ptr l)
           (l_prefix_size l) (l_existing l).
Definition set_intermediate_node_ptr (l : PutLocals) (g : Gptr) : PutLocals :=
  mkLocals (l_p l) (l_q l) (l_new_leaf_ptr l) g
           (l_prefix_size l) (l_existing l).

(** [for (i = 0; i < max_i; i++) if (key[i] != n->key[i]) break;] *)
Fixpoint first_mismatch (k nk : list byte) (max_i : nat) {struct max_i}
  : nat :=
  match max_i, k, nk with
  | S m, a :: k', b :: nk' =>
      if Byte.eqb a b then S (first_mismatch k' nk' m) else O
  | _, _, _ => O
  end.

(** [if (ptr) heap->Free(ptr);] *)
Definition free_if (h : Heap) (ptr : Gptr) : Heap :=
  if ptr =? 0 then h else Free h ptr.

(** [while (ptr == 0 && (cnt--) > 0) ptr = heap->Alloc(sizeof(Node));] *)
Fixpoint alloc_retry (cnt : nat) (h : Heap) (ptr : Gptr) : Gptr * Heap :=
  match cnt with
  | O => (ptr, h)
  | S cnt' =>
      if ptr =? 0 then let '(ptr', h') := Alloc h in alloc_retry cnt' h' ptr'
      else (ptr, h)
  end.

(** The node behind a pointer the code already holds as a [Node *]. *)
Definition load_node (h : Heap) (q : Gptr) : outcome Node :=
  match toLocal h q with
  | Some n => Ret n
  | None => Fault NullDeref
  end.

(** [if (new_leaf_ptr == 0) { ... }]: allocate and fill the new leaf. *)
Definition make_leaf (h : Heap) (k : list byte) (v : Gptr) (new_leaf_ptr : Gptr)
  : outcome (Gptr * Heap) :=
  if new_leaf_ptr =? 0 then
    let '(ptr, h1) := alloc_retry (Z.to_nat (alloc_retry_cnt cfg)) h new_leaf_ptr in
    _ <- assert (negb (ptr =? 0)) ;;
    new_leaf <- deref h1 ptr ;;
    new_leaf <- memcpy_key new_leaf k ;;
    let new_leaf := set_prefix_size new_leaf (length k) in
    let new_leaf := set_value new_leaf (mkTagGptr v 0) in
    Ret (ptr, store h1 ptr new_leaf)
  else Ret (new_leaf_ptr, h).

(** [if (intermediate_node_ptr == 0) { ... }]: allocate the intermediate
    node, copy the whole key into it and clear its children. *)
Definition make_intermediate (h : Heap) (k : list byte)
  (intermediate_node_ptr : Gptr) : outcome (Gptr * Heap) :=
  if intermediate_node_ptr =? 0 then
    let '(ptr, h1) :=
      alloc_retry (Z.to_nat (alloc_retry_cnt cfg)) h intermediate_node_ptr in
    _ <- assert (negb (ptr =? 0)) ;;
    intermediate_node <- deref h1 ptr ;;
    intermediate_node <- memcpy_key intermediate_node k ;;
    let intermediate_node := set_children intermediate_node (fun _ => 0) in
    Ret (ptr, store h1 ptr intermediate_node)
  else Ret (intermediate_node_ptr, h).

(** How the inner [while (q != 0)] of [put] is left: by a [return], or by
    falling out of it (loop condition or [break]) with the locals. *)
Inductive descent : Type :=
| Returned (r : TagGptr)
| Fell (l : PutLocals).

Fixpoint put_descend (fuel : nat) (h : Heap) (k : list byte) (v : Gptr)
  (update : bool) (l : PutLocals) : outcome (descent * Heap) :=
  match fuel with
  | O => OutOfFuel
  | S fuel' =>
      if l_q l =? 0 then Ret (Fell l, h)
      else
        n <- deref h (l_q l) ;;
        let max_i := Nat.min (length k) (prefix_size n) in
        let i := first_mismatch k (key n) max_i in
        if (i <? prefix_size n)%nat then
          Ret (Fell (set_split l i (nth i (key n) x00%byte)), h)
        else
          _ <- (if update then Ret tt else assert (i =? prefix_size n)%nat) ;;
          if (length k =? i)%nat then
            let h := free_if h (l_intermediate_node_ptr l) in
            let h := free_if h (l_new_leaf_ptr l) in
            tq <- loadTagGptr h (l_q l) ;;
            if update then
              '(old, _, h') <- cas_value_loop fuel h (l_q l) tq v ;;
              Ret (Returned old, h')
            else if IsValid tq then Ret (Returned tq, h)
            else
              '(seen_tq, h') <-
                casTagGptr h (l_q l) tq (mkTagGptr v (wrap64 (tag tq + 1))) ;;
              if TagGptr_eqb seen_tq tq then Ret (Returned tq, h')
              else Ret (Fell l, h')
          else
            b <- key_at k i ;;
            let p := Some (l_q l, b) in
            q' <- read_slot h p ;;
            put_descend fuel' h k v update (set_pq l p q')
  end.

(** What follows the inner loop in one iteration of the outer [for (;;)]:
    case 1 (new leaf into an empty slot) or case 2 (split).  [again] is
    the next iteration, taken when the pointer swing fails. *)
Definition put_finish (again : Heap -> PutLocals -> outcome (TagGptr * Heap))
  (k : list byte) (v : Gptr) (h : Heap) (d : descent)
  : outcome (TagGptr * Heap) :=
  match d with
  | Returned r => Ret (r, h)
  | Fell l =>
      if l_q l =? 0 then
        (* case 1: no split, a new leaf goes into the empty slot *)
        '(new_leaf_ptr, h) <- make_leaf h k v (l_new_leaf_ptr l) ;;
        let l := set_new_leaf_ptr l new_leaf_ptr in
        '(seen_q, h) <- cas64 h (l_p l) (l_q l) new_leaf_ptr ;;
        if seen_q =? l_q l then
          Ret (TagGptr0, free_if h (l_intermediate_node_ptr l))
        else again h (set_q l seen_q)
      else
        (* case 2: split *)
        '(ip, h) <- make_intermediate h k (l_intermediate_node_ptr l) ;;
        let l := set_intermediate_node_ptr l ip in
        if (l_prefix_size l =? length k)%nat then
          intermediate_node <- load_node h ip ;;
          let intermediate_node :=
            set_value intermediate_node (mkTagGptr v 0) in
          let intermediate_node :=
            set_prefix_size intermediate_node (l_prefix_size l) in
          let intermediate_node :=
            set_child intermediate_node (l_existing l) (l_q l) in
          let h := store h ip intermediate_node in
          '(seen_q, h) <- cas64 h (l_p l) (l_q l) ip ;;
          if seen_q =? l_q l then
            Ret (TagGptr0, free_if h (l_new_leaf_ptr l))
          else again h (set_q l seen_q)
        else
          '(new_leaf_ptr, h) <- make_leaf h k v (l_new_leaf_ptr l) ;;
          let l := set_new_leaf_ptr l new_leaf_ptr in
          intermediate_node <- load_node h ip ;;
          b <- key_at k (l_prefix_size l) ;;
          let intermediate_node :=
            set_child intermediate_node b new_leaf_ptr in
          let intermediate_node :=
            set_prefix_size intermediate_node (l_prefix_size l) in
          let intermediate_node :=
            set_child intermediate_node (l_existing l) (l_q l) in
          let h := store h ip intermediate_node in
          '(seen_q, h) <- cas64 h (l_p l) (l_q l) ip ;;
          if seen_q =? l_q l then Ret (TagGptr0, h)
          else again h (set_q l seen_q)
  end.

(** The outer [for (;;)] of [put]. *)
Fixpoint put_loop (fuel : nat) (h : Heap) (k : list byte) (v : Gptr)
  (update : bool) (l : PutLocals) : outcome (TagGptr * Heap) :=
  match fuel with
  | O => OutOfFuel
  | S fuel' =>
      '(d, h) <- put_descend fuel h k v update l ;;
      put_finish (fun h l => put_loop fuel' h k v update l) k v h d
  end.

Definition put_init (t : RadixTree) : PutLocals :=
  mkLocals None (root t) 0 0 0%nat x00%byte.

(** [TagGptr RadixTree::put(const char *key, const size_t key_size,
                            Gptr value, UpdateFlags update)] *)
Definition put (fuel : nat) (t : RadixTree) (k : list byte) (v : Gptr)
  (update : bool) : outcome (TagGptr * RadixTree) :=
  _ <- assert (key_size_ok k) ;;
  '(r, h') <- put_loop fuel (heap t) k v update (put_init t) ;;
  Ret (r, with_heap t h').

(** ** Range scan *)

(** [struct RadixTree::Iter] (its declaration is in radix_tree.h; the
    fields are those the code uses).  [path] is the stack, top first. *)
Record Iter : Type := mkIter {
  node : Gptr;
  next_pos : Z;
  path : list (Gptr * Z);
  begin_key : list byte;
  begin_key_inclusive : bool;
  begin_key_open : bool;
  end_key : list byte;
  end_key_inclusive : bool;
  end_key_open : bool;
  it_key : list byte;
  it_value : TagGptr
}.

Definition set_node (it : Iter) (g : Gptr) : Iter :=
  mkIter g (next_pos it) (path it) (begin_key it) (begin_key_inclusive it)
         (begin_key_open it) (end_key it) (end_key_inclusive it)
         (end_key_open it) (it_key it) (it_value it).
Definition set_next_pos (it : Iter) (z : Z) : Iter :=
  mkIter (node it) z (path it) (begin_key it) (begin_key_inclusive it)
         (begin_key_open it) (end_key it) (end_key_inclusive it)
         (end_key_open it) (it_key it) (it_value it).
Definition set_path (it : Iter) (s : list (Gptr * Z)) : Iter :=
  mkIter (node it) (next_pos it) s (begin_key it) (begin_key_inclusive it)
         (begin_key_open it) (end_key it) (end_key_inclusive it)
         (end_key_open it) (it_key it) (it_value it).
Definition set_found (it : Iter) (k : list byte) (v : TagGptr) : Iter :=
  mkIter (node it) (next_pos it) (path it) (begin_key it)
         (begin_key_inclusive it) (begin_key_open it) (end_key it)
         (end_key_inclusive it) (end_key_open it) k v.

(** [n->child[i]] for a 64-bit index. *)
Definition child_at (n : Node) (i : Z) : outcome Gptr :=
  match Byte.of_N (Z.to_N i) with
  | Some b => Ret (child n b)
  | None => Fault ChildIndexOutOfRange
  end.

(** [(uint64_t)c] for a plain [char] holding the byte [b]. *)
Definition char_to_u64 (b : byte) : Z :=
  let z := Z.of_N (Byte.to_N b) in
  if char_signed cfg && (128 <=? z) then wrap64 (z - 256) else z.

(** [iter.path.push(make_pair(iter.node, iter.next_pos - 1));
     iter.node = q; iter.next_pos = 0;] *)
Definition descend (it : Iter) (q : Gptr) : Iter :=
  let it := set_path it ((node it, wrap64 (next_pos it - 1)) :: path it) in
  let it := set_node it q in
  set_next_pos it 0.

(** [for (; iter.next_pos <= bound; iter.next_pos++) { ... break; }] *)
Fixpoint child_scan (fuel : nat) (n : Node) (bound : Z) (it : Iter)
  : outcome Iter :=
  match fuel with
  | O => OutOfFuel
  | S fuel' =>
      if next_pos it <=? bound then
        q <- child_at n (wrap64 (next_pos it - 1)) ;;
        if q =? 0
        then child_scan fuel' n bound (set_next_pos it (wrap64 (next_pos it + 1)))
        else Ret (descend it q)
      else Ret it
  end.

(** [while (iter.next_pos == 257) { ... }]: the flag is [false] when the
    loop leaves the function by [return false]. *)
Fixpoint pop_path (s : list (Gptr * Z)) (it : Iter) : bool * Iter :=
  if next_pos it =? 257 then
    match s with
    | [] => (false, it)
    | parent :: s' =>
        let it := set_path it s' in
        let it := set_node it (fst parent) in
        let it := set_next_pos it (wrap64 (snd parent + 1 + 1)) in
        pop_path s' it
    end
  else (true, it).

(** [std::string((char * )&n->key, n->prefix_size)] *)
Definition node_key (n : Node) : list byte := firstn (prefix_size n) (key n).

Fixpoint next_value (fuel : nat) (h : Heap) (it : Iter) : outcome (bool * Iter) :=
  match fuel with
  | O => OutOfFuel
  | S fuel' =>
      if node it =? 0 then Ret (false, it)
      else
        match pop_path (path it) it with
        | (false, it) => Ret (false, it)
        | (true, it) =>
            n <- deref h (node it) ;;
            let k := end_key it in
            let result :=
              if end_key_open it then 1
              else fam_memcmp k (key n) (Nat.min (prefix_size n) (length k)) in
            if result <? 0 then Ret (false, it)
            else if 0 <? result then
              if next_pos it =? 0 then
                let it := set_next_pos it (wrap64 (next_pos it + 1)) in
                tq <- loadTagGptr h (node it) ;;
                if IsValid tq then Ret (true, set_found it (node_key n) tq)
                else
                  it <- child_scan fuel n 256 it ;;
                  next_value fuel' h it
              else
                it <- child_scan fuel n 256 it ;;
                next_value fuel' h it
            else if (prefix_size n =? length k)%nat then
              let it0 := set_node it 0 in
              if end_key_inclusive it then
                tq <- loadTagGptr h (node it) ;;
                if (next_pos it =? 0) && IsValid tq
                then Ret (true, set_found it0 (node_key n) tq)
                else Ret (false, it0)
              else Ret (false, it0)
            else
              let bounded (it : Iter) : outcome (bool * Iter) :=
                c <- data_at k (prefix_size n) ;;
                let upper_bound := char_to_u64 c in
                it <- child_scan fuel n (wrap64 (upper_bound + 1)) it ;;
                if wrap64 (upper_bound + 1) <? next_pos it
                then Ret (false, set_node it 0)
                else next_value fuel' h it in
              if next_pos it =? 0 then
                let it := set_next_pos it (wrap64 (next_pos it + 1)) in
                tq <- loadTagGptr h (node it) ;;
                if IsValid tq then Ret (true, set_found it (node_key n) tq)
                else bounded it
              else bounded it
        end
  end.

Fixpoint lower_bound_loop (fuel : nat) (h : Heap) (it : Iter)
  : outcome (bool * Iter) :=
  match fuel with
  | O => OutOfFuel
  | S fuel' =>
      if node it =? 0 then Ret (false, set_node it 0)
      else
        n <- deref h (node it) ;;
        let k := begin_key it in
        let result :=
          if begin_key_open it then -1
          else fam_memcmp k (key n) (Nat.min (prefix_size n) (length k)) in
        if 0 <? result then next_value fuel h (set_next_pos it 257)
        else if result <? 0 then next_value fuel h it
        else if (prefix_size n =? length k)%nat then
          if begin_key_inclusive it then next_value fuel h it
          else next_value fuel h (set_next_pos it 1)
        else
          idx <- data_at k (prefix_size n) ;;
          q <- read_slot h (Some (node it, idx)) ;;
          if negb (q =? 0) then
            let it := set_path it ((node it, Z.of_N (Byte.to_N idx)) :: path it) in
            lower_bound_loop fuel' h (set_node it q)
          else
            next_value fuel h (set_next_pos it (Z.of_N (Byte.to_N idx) + 1))
  end.

(** [bool RadixTree::lower_bound(Iter &iter)] *)
Definition lower_bound (fuel : nat) (t : RadixTree) (it : Iter)
  : outcome (bool * Iter) :=
  let it := set_node it (root t) in
  let it := set_next_pos it 0 in
  _ <- assert (match it_key it with [] => true | _ => false end) ;;
  let it := set_found it (it_key it) TagGptr0 in
  lower_bound_loop fuel (heap t) it.

Definition bytes_eqb (a b : list byte) : bool :=
  if list_eq_dec Byte.byte_eq_dec a b then true else false.

(** [operator<] of std::string: lexicographic on unsigned chars. *)
Fixpoint bytes_ltb (a b : list byte) : bool :=
  match a, b with
  | _, [] => false
  | [], _ :: _ => true
  | x :: a', y :: b' =>
      if byte_ltb x y then true
      else if byte_ltb y x then false
      else bytes_ltb a' b'
  end.

(** The first part of [scan]: the iterator is reset and the boundaries
    are recorded.  The test for an open begin boundary reads
    [iter.end_key_inclusive] before this call has assigned it, so it sees
    the value the iterator came in with. *)
Definition scan_init (it : Iter)
  (begin_k : list byte) (begin_inclusive : bool)
  (end_k : list byte) (end_inclusive : bool) : Iter :=
  let begin_open :=
    bytes_eqb begin_k (OPEN_BOUNDARY_KEY cfg)
    && Bool.eqb (end_key_inclusive it) false in
  let end_open :=
    bytes_eqb end_k (OPEN_BOUNDARY_KEY cfg) && Bool.eqb end_inclusive false in
  mkIter 0 0 [] begin_k begin_inclusive begin_open
         end_k end_inclusive end_open [] TagGptr0.

(** [int RadixTree::scan(Iter &iter, char *key, size_t &key_size,
       TagGptr &val, begin_key, begin_key_size, begin_key_inclusive,
       end_key, end_key_size, end_key_inclusive)].
    The result is [Some (key, val)] for return code 0 and [None] for -1. *)
Definition scan (fuel : nat) (t : RadixTree) (it : Iter)
  (begin_k : list byte) (begin_inclusive : bool)
  (end_k : list byte) (end_inclusive : bool)
  : outcome (option (list byte * TagGptr) * Iter) :=
  _ <- assert (key_size_ok begin_k) ;;
  _ <- assert (key_size_ok end_k) ;;
  let it := scan_init it begin_k begin_inclusive end_k end_inclusive in
  if bytes_eqb begin_k end_k && begin_inclusive && end_inclusive then
    val <- get fuel t begin_k ;;
    if IsValid val then Ret (Some (begin_k, val), it) else Ret (None, it)
  else if (begin_key_open it || end_key_open it) || bytes_ltb begin_k end_k then
    '(found, it) <- lower_bound fuel t it ;;
    if found then Ret (Some (it_key it, it_value it), it) else Ret (None, it)
  else Ret (None, it).

(** [int RadixTree::get_next(Iter &iter, char *key, size_t &key_size,
                             TagGptr &val)] *)
Definition get_next (fuel : nat) (t : RadixTree) (it : Iter)
  : outcome (option (list byte * TagGptr) * Iter) :=
  '(found, it) <- next_value fuel (heap t) it ;;
  if found then Ret (Some (it_key it, it_value it), it) else Ret (None, it).

(** The keys a client collects: one [scan], then [get_next] until it
    reports not-found. *)
Fixpoint get_all (calls fuel : nat) (t : RadixTree) (it : Iter)
  : outcome (list (list byte * TagGptr)) :=
  match calls with
  | O => OutOfFuel
  | S calls' =>
      '(r, it) <- get_next fuel t it ;;
      match r with
      | None => Ret []
      | Some kv => rest <- get_all calls' fuel t it ;; Ret (kv :: rest)
      end
  end.

Definition scan_all (calls fuel : nat) (t : RadixTree) (it : Iter)
  (begin_k : list byte) (begin_inclusive : bool)
  (end_k : list byte) (end_inclusive : bool)
  : outcome (list (list byte * TagGptr)) :=
  '(r, it) <- scan fuel t it begin_k begin_inclusive end_k end_inclusive ;;
  match r with
  | None => Ret []
  | Some kv => rest <- get_all calls fuel t it ;; Ret (kv :: rest)
  end.

(** ** Variants for consistent DRAM caching *)

(** How the inner loop of [putC] is left; a [return] carries the node
    pointer, the new tagged value and the old one. *)
Inductive descentC : Type :=
| ReturnedC (q : Gptr) (new_value old_value : TagGptr)
| FellC (l : PutLocals).

Fixpoint putC_descend (fuel : nat) (h : Heap) (k : list byte) (v : Gptr)
  (l : PutLocals) : outcome (descentC * Heap) :=
  match fuel with
  | O => OutOfFuel
  | S fuel' =>
      if l_q l =? 0 then Ret (FellC l, h)
      else
        n <- deref h (l_q l) ;;
        let maxi := Nat.min (length k) (prefix_size n) in
        let i := first_mismatch k (key n) maxi in
        if (i <? prefix_size n)%nat then
          Ret (FellC (set_split l i (nth i (key n) x00%byte)), h)
        else if (length k =? i)%nat then
          let h := free_if h (l_intermediate_node_ptr l) in
          let h := free_if h (l_new_leaf_ptr l) in
          tq <- loadTagGptr h (l_q l) ;;
          '(old, new_value, h') <- cas_value_loop fuel h (l_q l) tq v ;;
          Ret (ReturnedC (l_q l) new_value old, h')
        else
          b <- key_at k i ;;
          let p := Some (l_q l, b) in
          q' <- read_slot h p ;;
          putC_descend fuel' h k v (set_pq l p q')
  end.

Definition putC_finish
  (again : Heap -> PutLocals -> outcome (Gptr * TagGptr * TagGptr * Heap))
  (k : list byte) (v : Gptr) (h : Heap) (d : descentC)
  : outcome (Gptr * TagGptr * TagGptr * Heap) :=
  match d with
  | ReturnedC q new_value old_value => Ret (q, new_value, old_value, h)
  | FellC l =>
      if l_q l =? 0 then
        '(new_leaf_ptr, h) <- make_leaf h k v (l_new_leaf_ptr l) ;;
        let l := set_new_leaf_ptr l new_leaf_ptr in
        '(seen_q, h) <- cas64 h (l_p l) (l_q l) new_leaf_ptr ;;
        if seen_q =? l_q l then
          Ret (new_leaf_ptr, mkTagGptr v 0, TagGptr0,
               free_if h (l_intermediate_node_ptr l))
        else again h (set_q l seen_q)
      else
        '(ip, h) <- make_intermediate h k (l_intermediate_node_ptr l) ;;
        let l := set_intermediate_node_ptr l ip in
        if (l_prefix_size l =? length k)%nat then
          intermediate_node <- load_node h ip ;;
          let intermediate_node :=
            set_value intermediate_node (mkTagGptr v 0) in
          let intermediate_node :=
            set_prefix_size intermediate_node (l_prefix_size l) in
          let intermediate_node :=
            set_child intermediate_node (l_existing l) (l_q l) in
          let h := store h ip intermediate_node in
          '(seen_q, h) <- cas64 h (l_p l) (l_q l) ip ;;
          if seen_q =? l_q l then
            Ret (ip, mkTagGptr v 0, TagGptr0, free_if h (l_new_leaf_ptr l))
          else again h (set_q l seen_q)
        else
          '(new_leaf_ptr, h) <- make_leaf h k v (l_new_leaf_ptr l) ;;
          let l := set_new_leaf_ptr l new_leaf_ptr in
          intermediate_node <- load_node h ip ;;
          b <- key_at k (l_prefix_size l) ;;
          let intermediate_node :=
            set_child intermediate_node b new_leaf_ptr in
          let intermediate_node :=
            set_prefix_size intermediate_node (l_prefix_size l) in
          let intermediate_node :=
            set_child intermediate_node (l_existing l) (l_q l) in
          let h := store h ip intermediate_node in
          '(seen_q, h) <- cas64 h (l_p l) (l_q l) ip ;;
          if seen_q =? l_q l
          then Ret (new_leaf_ptr, mkTagGptr v 0, TagGptr0, h)
          else again h (set_q l seen_q)
  end.

Fixpoint putC_loop (fuel : nat) (h : Heap) (k : list byte) (v : Gptr)
  (l : PutLocals) : outcome (Gptr * TagGptr * TagGptr * Heap) :=
  match fuel with
  | O => OutOfFuel
  | S fuel' =>
      '(d, h) <- putC_descend fuel h k v l ;;
      putC_finish (fun h l => putC_loop fuel' h k v l) k v h d
  end.

(** [std::pair<Gptr, TagGptr> RadixTree::putC(const char *key,
       const size_t key_size, Gptr value, TagGptr &old_value)]:
    the result is (node pointer, new value, old value, tree). *)
Definition putC (fuel : nat) (t : RadixTree) (k : list byte) (v : Gptr)
  : outcome (Gptr * TagGptr * TagGptr * RadixTree) :=
  _ <- assert (key_size_ok k) ;;
  '(q, new_value, old_value, h') <- putC_loop fuel (heap t) k v (put_init t) ;;
  Ret (q, new_value, old_value, with_heap t h').

(** [TagGptr RadixTree::putC(Gptr const key_ptr, Gptr value,
                             TagGptr &old_value)] *)
Definition putC_ptr (fuel : nat) (t : RadixTree) (key_ptr : Gptr) (v : Gptr)
  : outcome (TagGptr * TagGptr * RadixTree) :=
  _ <- assert (negb (key_ptr =? 0)) ;;
  _ <- deref (heap t) key_ptr ;;
  tq <- loadTagGptr (heap t) key_ptr ;;
  '(old, new_value, h') <- cas_value_loop fuel (heap t) key_ptr tq v ;;
  Ret (new_value, old, with_heap t h').

Fixpoint getC_loop (fuel : nat) (h : Heap) (k : list byte) (q : Gptr)
  : outcome (Gptr * TagGptr) :=
  match fuel with
  | O => OutOfFuel
  | S fuel' =>
      if q =? 0 then Ret (0, TagGptr0)
      else
        n <- deref h q ;;
        let result := fam_memcmp k (key n) (Nat.min (prefix_size n) (length k)) in
        if negb (result =? 0) then Ret (0, TagGptr0)
        else if (prefix_size n =? length k)%nat then
          tq <- loadTagGptr h q ;;
          Ret (q, tq)
        else
          b <- key_at k (prefix_size n) ;;
          q' <- read_slot h (Some (q, b)) ;;
          getC_loop fuel' h k q'
  end.

(** [std::pair<Gptr, TagGptr> RadixTree::getC(const char *key,
                                               const size_t key_size)] *)
Definition getC (fuel : nat) (t : RadixTree) (k : list byte)
  : outcome (Gptr * TagGptr) :=
  _ <- assert (key_size_ok k) ;;
  getC_loop fuel (heap t) k (root t).

(** [TagGptr RadixTree::getC(Gptr const key_ptr)] *)
Definition getC_ptr (t : RadixTree) (key_ptr : Gptr) : outcome TagGptr :=
  _ <- assert (negb (key_ptr =? 0)) ;;
  _ <- deref (heap t) key_ptr ;;
  loadTagGptr (heap t) key_ptr.

Fixpoint destroyC_loop (fuel : nat) (h : Heap) (k : list byte) (q : Gptr)
  : outcome (Gptr * TagGptr * TagGptr * Heap) :=
  match fuel with
  | O => OutOfFuel
  | S fuel' =>
      if q =? 0 then Ret (0, TagGptr0, TagGptr0, h)
      else
        n <- deref h q ;;
        let result := fam_memcmp k (key n) (Nat.min (prefix_size n) (length k)) in
        if negb (result =? 0) then Ret (0, TagGptr0, TagGptr0, h)
        else if (prefix_size n =? length k)%nat then
          tq <- loadTagGptr h q ;;
          '(old, new_value, h') <- cas_value_loop fuel h q tq 0 ;;
          Ret (q, new_value, old, h')
        else
          b <- key_at k (prefix_size n) ;;
          q' <- read_slot h (Some (q, b)) ;;
          destroyC_loop fuel' h k q'
  end.

(** [std::pair<Gptr, TagGptr> RadixTree::destroyC(const char *key,
       const size_t key_size, TagGptr &old_value)]: the result is
    (node pointer, new value, old value, tree); on the not-found paths
    the source leaves [old_value] untouched, shown here as [TagGptr0]. *)
Definition destroyC (fuel : nat) (t : RadixTree) (k : list byte)
  : outcome (Gptr * TagGptr * TagGptr * RadixTree) :=
  _ <- assert (key_size_ok k) ;;
  '(q, new_value, old, h') <- destroyC_loop fuel (heap t) k (root t) ;;
  Ret (q, new_value, old, with_heap t h').

(** [TagGptr RadixTree::destroyC(Gptr const key_ptr, TagGptr &old_value)] *)
Definition destroyC_ptr (fuel : nat) (t : RadixTree) (key_ptr : Gptr)
  : outcome (TagGptr * TagGptr * RadixTree) :=
  _ <- assert (negb (key_ptr =? 0)) ;;
  _ <- deref (heap t) key_ptr ;;
  tq <- loadTagGptr (heap t) key_ptr ;;
  '(old, new_value, h') <- cas_value_loop fuel (heap t) key_ptr tq 0 ;;
  Ret (new_value, old, with_heap t h').

End WithConfig.

(** ** Listing the tree *)

Section Listing.

Variable cfg : Config.

(** [TagGptr::gptr_nomark()] is declared outside src/: it is a parameter
    of the listing. *)
Variable gptr_nomark : TagGptr -> Gptr.

(** The counters [recursive_list] takes by reference, all [uint64_t], and
    the calls of the callback [f] made so far, oldest first: a call
    receives the node's key buffer, its prefix size and the value's
    pointer. *)
Record Listing : Type := mkListing {
  level : Z;
  depth : Z;
  value_cnt : Z;
  node_cnt : Z;
  reported : list (list byte * nat * Gptr)
}.

(** [for (int i = 0; i < 256; i++) body(i)] *)
Fixpoint for_each {S} (body : nat -> S -> outcome S) (l : list nat) (s : S)
  : outcome S :=
  match l with
  | [] => Ret s
  | i :: l' => s' <- body i s ;; for_each body l' s'
  end.

(** [void RadixTree::recursive_list(Gptr parent, f, uint64_t &level,
       uint64_t &depth, uint64_t &value_cnt, uint64_t &node_cnt)] *)
Fixpoint recursive_list (fuel : nat) (h : Heap) (parent : Gptr) (s : Listing)
  : outcome Listing :=
  match fuel with
  | O => OutOfFuel
  | S fuel' =>
      if parent =? 0 then Ret s
      else
        n <- deref cfg h parent ;;
        let s :=
          if IsValid (value n) then
            mkListing (level s) (depth s) (wrap64 (value_cnt s + 1))
                      (node_cnt s)
                      (reported s
                       ++ [(key n, prefix_size n, gptr_nomark (value n))])
          else s in
        let s := mkListing (level s) (depth s) (value_cnt s)
                           (wrap64 (node_cnt s + 1)) (reported s) in
        let s := mkListing (level s) (Z.max (level s) (depth s))
                           (value_cnt s) (node_cnt s) (reported s) in
        let s := mkListing (wrap64 (level s + 1)) (depth s) (value_cnt s)
                           (node_cnt s) (reported s) in
        s <- for_each (fun i s => q <- child_at n (Z.of_nat i) ;;
                                  recursive_list fuel' h q s)
                      (seq 0 256) s ;;
        Ret (mkListing (wrap64 (level s - 1)) (depth s) (value_cnt s)
                       (node_cnt s) (reported s))
  end.

(** [void RadixTree::list(f)]: the result holds the calls of [f] and the
    counters the function prints. *)
Definition RadixTree_list (fuel : nat) (t : RadixTree) : outcome Listing :=
  recursive_list fuel (heap t) (root t) (mkListing 0 0 0 0 []).

End Listing.


(** * Specification *)

(** The predicates and functions the properties are stated with. *)

Section InvariantsDefs.

Variable cfg : Config.

(** Invariant 2 of the data model, for one child slot. *)
Definition child_ok (h : Heap) (n : Node) (b : byte) : Prop :=
  child n b <> 0 ->
  exists m, toLocal h (child n b) = Some m /\
            (prefix_size n < prefix_size m)%nat /\
            firstn (prefix_size n) (key m) = firstn (prefix_size n) (key n) /\
            nth_error (key m) (prefix_size n) = Some b.

Definition node_ok (h : Heap) (n : Node) : Prop :=
  (prefix_size n <= length (key n))%nat /\
  length (key n) = MAX_KEY_LEN cfg /\
  forall b, child_ok h n b.

Definition heap_ok (h : Heap) : Prop :=
  forall q n, toLocal h q = Some n -> node_ok h n.

(** The tree state: every block of the heap is a sound node and the root
    is a node with an empty prefix. *)
Definition wf (t : RadixTree) : Prop :=
  heap_ok (heap t) /\
  exists r, toLocal (heap t) (root t) = Some r /\ prefix_size r = 0%nat.

(** [arrives h k m p0 q0 p q]: starting with pointer [q0] held in slot
    [p0], [m] descent steps along key [k], each through a node whose whole
    prefix the key matches and outruns, lead to pointer [q] held in slot
    [p]. *)
Inductive arrives (h : Heap) (k : list byte)
  : nat -> slot -> Gptr -> slot -> Gptr -> Prop :=
| arrives_here p q : arrives h k 0 p q p q
| arrives_down p q n b p' q' m :
    toLocal h q = Some n ->
    firstn (prefix_size n) k = firstn (prefix_size n) (key n) ->
    nth_error k (prefix_size n) = Some b ->
    arrives h k m (Some (q, b)) (child n b) p' q' ->
    arrives h k (S m) p q p' q'.

(** The slot [p] holds [q] and belongs to a node the key runs through. *)
Definition slot_of (h : Heap) (k : list byte) (p : slot) (q : Gptr) : Prop :=
  match p with
  | None => True
  | Some (pn, b) =>
      exists par, toLocal h pn = Some par /\ child par b = q /\
                  firstn (prefix_size par) k = firstn (prefix_size par) (key par) /\
                  nth_error k (prefix_size par) = Some b
  end.

(** Where a descent stops. *)
Inductive stop (h : Heap) (k : list byte) (q : Gptr) : Prop :=
| stop_null : q = 0 -> stop h k q
| stop_mismatch n :
    toLocal h q = Some n ->
    firstn (Nat.min (prefix_size n) (length k)) k
      <> firstn (Nat.min (prefix_size n) (length k)) (key n) ->
    stop h k q
| stop_exact n :
    toLocal h q = Some n ->
    firstn (prefix_size n) k = firstn (prefix_size n) (key n) ->
    prefix_size n = length k ->
    stop h k q
| stop_short n :
    toLocal h q = Some n ->
    firstn (length k) k = firstn (length k) (key n) ->
    (length k < prefix_size n)%nat ->
    stop h k q.

End InvariantsDefs.

Section DescentDefs.

Variable cfg : Config.

(** One descent step, as each loop condition sees it. *)
Record step_facts (h : Heap) (k : list byte) (q : Gptr) (n : Node) (b : byte)
  : Prop := mkStepFacts {
  sf_nonnull : (q =? 0) = false;
  sf_deref : deref cfg h q = Ret n;
  sf_memcmp :
    fam_memcmp k (key n) (Nat.min (prefix_size n) (length k)) = 0;
  sf_size : (prefix_size n =? length k)%nat = false;
  sf_size' : (length k =? prefix_size n)%nat = false;
  sf_key_at : key_at k (prefix_size n) = Ret b;
  sf_slot : read_slot h (Some (q, b)) = Ret (child n b);
  sf_mismatch :
    first_mismatch k (key n) (Nat.min (length k) (prefix_size n))
    = prefix_size n
}.

End DescentDefs.

Section PrimitivesDefs.

Variable cfg : Config.

(** The heap after a successful allocation of the block [ptr]. *)
Definition extended (h h' : Heap) (ptr : Gptr) : Prop :=
  ptr = Z.of_nat (length (cells h)) + 1 /\
  cells h' = cells h ++ [zero_node cfg] /\
  freed h' = freed h.

(** Every one of the next [cnt] calls of [Alloc] fails. *)
Definition exhausted (cnt : nat) (h : Heap) : Prop :=
  firstn cnt (pressure h) = repeat true cnt.

End PrimitivesDefs.

Section PutEffectDefs.

Variable cfg : Config.

(** The key as [memcpy] leaves it in a zero-filled buffer. *)
Definition key_buffer (k : list byte) : list byte :=
  k ++ skipn (length k) (repeat x00%byte (MAX_KEY_LEN cfg)).

Definition leaf_node (k : list byte) (v : Gptr) : Node :=
  mkNode (key_buffer k) (length k) (fun _ => 0) (mkTagGptr v 0).

(** The intermediate node right after its allocation. *)
Definition blank_intermediate (k : list byte) : Node :=
  mkNode (key_buffer k) 0 (fun _ => 0) TagGptr0.

(** [h1] is [h] with one more block, at [ptr], holding [n]. *)
Definition fresh_store (h h1 : Heap) (ptr : Gptr) (n : Node) : Prop :=
  exists h0, extended cfg h h0 ptr /\ h1 = store h0 ptr n.

End PutEffectDefs.

Section PutSequentialDefs.

Variable cfg : Config.

Definition locals_at (p : slot) (q : Gptr) : PutLocals :=
  mkLocals p q 0 0 0%nat x00%byte.

(** The new value a successful update stores over [tq]. *)
Definition bumped (g : Gptr) (tq : TagGptr) : TagGptr :=
  mkTagGptr g (wrap64 (tag tq + 1)).

(** The intermediate node of a split when the key ends at the split
    point, and when it needs a separate leaf at [lp]. *)
Definition split_node_here (k : list byte) (v : Gptr) (n : Node) (q : Gptr)
  : Node :=
  set_child
    (set_prefix_size (set_value (blank_intermediate cfg k) (mkTagGptr v 0))
                     (length k))
    (nth (length k) (key n) x00%byte) q.

Definition split_node_leaf (k : list byte) (n : Node) (i : nat) (kb : byte)
  (lp q : Gptr) : Node :=
  set_child
    (set_prefix_size (set_child (blank_intermediate cfg k) kb lp) i)
    (nth i (key n) x00%byte) q.

End PutSequentialDefs.

(** The node [q], holding [n], is the one the descent for [k] ends at. *)
Definition found (t : RadixTree) (k : list byte) (q : Gptr) (n : Node) : Prop :=
  exists m p,
    (m <= length k)%nat /\
    arrives (heap t) k m None (root t) p q /\
    toLocal (heap t) q = Some n /\
    firstn (prefix_size n) k = firstn (prefix_size n) (key n) /\
    prefix_size n = length k.

(** [h'] has the nodes of [h], with the same keys, prefix sizes and
    children. *)
Definition same_shape (h h' : Heap) : Prop :=
  forall x,
    match toLocal h x, toLocal h' x with
    | Some n, Some n' =>
        key n' = key n /\ prefix_size n' = prefix_size n /\ child n' = child n
    | None, None => True
    | _, _ => False
    end.

(** [h'] is [h] with the fresh nodes [news] added and the child slot [b]
    of the node at [pn] redirected to [top]. *)
Record grafted (h h' : Heap) (pn : Gptr) (par : Node) (b : byte) (top : Gptr)
  (news : list (Gptr * Node)) : Prop := mkGrafted {
  gr_parent : toLocal h pn = Some par;
  gr_parent' : toLocal h' pn = Some (set_child par b top);
  gr_news : forall x n, In (x, n) news ->
                        toLocal h x = None /\ toLocal h' x = Some n;
  gr_rest : forall x, x <> pn -> (forall n, ~ In (x, n) news) ->
                      toLocal h' x = toLocal h x
}.

Section PutCasesDefs.

Variable cfg : Config.

(** The three ways [put] grafts nodes under the slot that held [q]: a
    leaf into an empty slot, an intermediate node that carries the value,
    an intermediate node with a separate leaf. *)
Inductive graft_kind (h : Heap) (k : list byte) (v : Gptr) (q : Gptr)
  : Gptr -> list (Gptr * Node) -> Prop :=
| gk_leaf lp :
    q = 0 -> graft_kind h k v q lp [(lp, leaf_node cfg k v)]
| gk_here n ip :
    toLocal h q = Some n ->
    firstn (length k) k = firstn (length k) (key n) ->
    (length k < prefix_size n)%nat ->
    graft_kind h k v q ip [(ip, split_node_here cfg k v n q)]
| gk_split n ip lp i kb :
    toLocal h q = Some n ->
    i = first_mismatch k (key n) (Nat.min (length k) (prefix_size n)) ->
    (i < Nat.min (length k) (prefix_size n))%nat ->
    nth_error k i = Some kb ->
    ip <> lp ->
    graft_kind h k v q ip
      [(ip, split_node_leaf cfg k n i kb lp q); (lp, leaf_node cfg k v)].

Inductive put_effect (t : RadixTree) (k : list byte) (v : Gptr) (u : bool)
  : TagGptr -> RadixTree -> Prop :=
| pe_swap q n :
    found t k q n -> u || negb (IsValid (value n)) = true ->
    put_effect t k v u (value n)
      (with_heap t (store (heap t) q (set_value n (bumped v (value n)))))
| pe_keep q n :
    found t k q n -> u || negb (IsValid (value n)) = false ->
    put_effect t k v u (value n) t
| pe_graft m pn b par top news h' :
    (m <= length k)%nat ->
    arrives (heap t) k m None (root t) (Some (pn, b)) (child par b) ->
    firstn (prefix_size par) k = firstn (prefix_size par) (key par) ->
    nth_error k (prefix_size par) = Some b ->
    grafted (heap t) h' pn par b top news ->
    graft_kind (heap t) k v (child par b) top news ->
    (length k <= MAX_KEY_LEN cfg)%nat ->
    put_effect t k v u TagGptr0 (with_heap t h').

End PutCasesDefs.

Section PutShapeDefs.

Variable cfg : Config.

(** Where the descent of [put] ends in a well-formed tree, and what the
    rest of [put] computes from there. *)
Inductive put_shape (t : RadixTree) (k : list byte) (v : Gptr) (u : bool)
  (res : outcome (TagGptr * Heap)) : Prop :=
| ps_found q n :
    found t k q n ->
    res = (if u || negb (IsValid (value n))
           then Ret (value n,
                     store (heap t) q (set_value n (bumped v (value n))))
           else Ret (value n, heap t)) ->
    put_shape t k v u res
| ps_slot m pn b par :
    (m <= length k)%nat ->
    arrives (heap t) k m None (root t) (Some (pn, b)) (child par b) ->
    toLocal (heap t) pn = Some par ->
    firstn (prefix_size par) k = firstn (prefix_size par) (key par) ->
    nth_error k (prefix_size par) = Some b ->
    (forall q n, ~ found t k q n) ->
    (child par b = 0 /\
     res = ('(lp, h1) <- make_leaf cfg (heap t) k v 0 ;;
            Ret (TagGptr0, store h1 pn (set_child par b lp))))
    \/ (exists n,
          toLocal (heap t) (child par b) = Some n /\
          firstn (length k) k = firstn (length k) (key n) /\
          (length k < prefix_size n)%nat /\
          res = ('(ip, h1) <- make_intermediate cfg (heap t) k 0 ;;
                 Ret (TagGptr0,
                      store (store h1 ip
                               (split_node_here cfg k v n (child par b)))
                            pn (set_child par b ip))))
    \/ (exists n,
          toLocal (heap t) (child par b) = Some n /\
          firstn (Nat.min (prefix_size n) (length k)) k
            <> firstn (Nat.min (prefix_size n) (length k)) (key n) /\
          let i := first_mismatch k (key n)
                     (Nat.min (length k) (prefix_size n)) in
          res = ('(ip, h1) <- make_intermediate cfg (heap t) k 0 ;;
                 '(lp, h2) <- make_leaf cfg h1 k v 0 ;;
                 Ret (TagGptr0,
                      store (store h2 ip
                               (split_node_leaf cfg k n i (nth i k x00%byte)
                                                lp (child par b)))
                            pn (set_child par b ip)))) ->
    put_shape t k v u res.

End PutShapeDefs.

Definition empty_heap : Heap := mkHeap [] [] [].

(** What [destroy] does at the node pointer a cached lookup returns. *)
Definition tombstone (h : Heap) (r : Gptr * TagGptr)
  : outcome (Gptr * TagGptr * TagGptr * Heap) :=
  let '(q, _) := r in
  if q =? 0 then Ret (0, TagGptr0, TagGptr0, h)
  else match toLocal h q with
       | Some n =>
           Ret (q, bumped 0 (value n), value n,
                store h q (set_value n (bumped 0 (value n))))
       | None => Fault NullDeref
       end.

(** The heap after a deletion: untouched, or one value slot bumped. *)
Inductive value_bump (g : Gptr) (h : Heap) : Heap -> Prop :=
| vb_none : value_bump g h h
| vb_store q n :
    toLocal h q = Some n ->
    value_bump g h (store h q (set_value n (bumped g (value n)))).

(** [putC] is [put] with [update] on, returning more. *)
Definition forget (r : Gptr * TagGptr * TagGptr * Heap) : outcome (TagGptr * Heap) :=
  let '(_, _, old, h) := r in Ret (old, h).

Definition forget_descent (r : descentC * Heap) : outcome (descent * Heap) :=
  match r with
  | (ReturnedC _ _ old, h) => Ret (Returned old, h)
  | (FellC l, h) => Ret (Fell l, h)
  end.

Section StatedDefs.

Variable cfg : Config.

(** The value-mutating entry points. *)
Inductive operation : Type :=
| Put (k : list byte) (v : Gptr) (update : bool)
| Destroy (k : list byte)
| PutC (k : list byte) (v : Gptr)
| PutC_ptr (key_ptr : Gptr) (v : Gptr)
| DestroyC (k : list byte)
| DestroyC_ptr (key_ptr : Gptr).

(** The tree an operation leaves behind. *)
Definition run (fuel : nat) (t : RadixTree) (o : operation) : outcome RadixTree :=
  match o with
  | Put k v u => '(_, t') <- put cfg fuel t k v u ;; Ret t'
  | Destroy k => '(_, t') <- destroy cfg fuel t k ;; Ret t'
  | PutC k v => '(_, _, _, t') <- putC cfg fuel t k v ;; Ret t'
  | PutC_ptr q v => '(_, _, t') <- putC_ptr cfg fuel t q v ;; Ret t'
  | DestroyC k => '(_, _, _, t') <- destroyC cfg fuel t k ;; Ret t'
  | DestroyC_ptr q => '(_, _, t') <- destroyC_ptr cfg fuel t q ;; Ret t'
  end.

(** Fuel that lets the descent of an operation reach its end. *)
Definition enough (o : operation) : nat :=
  match o with
  | Put k _ _ | PutC k _ => length k + 2
  | _ => 0
  end.

(** A value slot after a mutation, against what it held before: the same,
    or the next tag in 64-bit arithmetic. *)
Definition tag_step (old new : TagGptr) : Prop :=
  new = old \/ tag new = wrap64 (tag old + 1).

End StatedDefs.

(** [a] is [b], unless it ran out of fuel. *)
Definition fuel_le {A} (a b : outcome A) : Prop := a = OutOfFuel \/ a = b.

Section WalkDefs.

Variable cfg : Config.

(** [n->child[i]] for an index below 256, null beyond. *)
Definition child_ix (n : Node) (i : nat) : Gptr :=
  match Byte.of_nat i with
  | Some b => child n b
  | None => 0
  end.

(** What a node contributes itself: its key and value, when valid. *)
Definition own (n : Node) : list (list byte * TagGptr) :=
  if IsValid (value n) then [(node_key n, value n)] else [].

(** The valid values in the subtree of [q], in the order of a depth-first
    walk that visits a node before its children and the children in
    ascending byte order, to depth [d]. *)
Fixpoint walk (d : nat) (h : Heap) (q : Gptr) : list (list byte * TagGptr) :=
  match d with
  | O => []
  | S d' =>
      match toLocal h q with
      | None => []
      | Some n =>
          own n ++ flat_map (fun i => walk d' h (child_ix n i)) (seq 0 256)
      end
  end.

(** The part of the walk below [n] from child [i] on. *)
Definition below (d : nat) (h : Heap) (n : Node) (i : nat)
  : list (list byte * TagGptr) :=
  flat_map (fun j => walk d h (child_ix n j)) (seq i (256 - i)).

(** The whole tree: no chain of nodes is longer than MAX_KEY_LEN + 1. *)
Definition contents (t : RadixTree) : list (list byte * TagGptr) :=
  walk (S (MAX_KEY_LEN cfg)) (heap t) (root t).

End WalkDefs.

Section IterateDefs.

Variable cfg : Config.

(** The iterator stands at node [q], position [pos], with stack [s], and
    has an open end boundary. *)
Definition at_pos (it : Iter) (q : Gptr) (pos : Z) (s : list (Gptr * Z))
  : Prop :=
  node it = q /\ next_pos it = pos /\ path it = s /\ end_key_open it = true.

(** The pairs that successive calls of [next_value] yield from [it] on,
    up to the call that returns false. *)
Inductive outputs (h : Heap) : Iter -> list (list byte * TagGptr) -> Prop :=
| out_done it it' f :
    next_value cfg f h it = Ret (false, it') -> outputs h it []
| out_next it it' f ys :
    next_value cfg f h it = Ret (true, it') ->
    outputs h it' ys ->
    outputs h it ((it_key it', it_value it') :: ys).

End IterateDefs.

Section ScanAllDefs.

Variable cfg : Config.

(** The iterator as [scan] over open boundaries and [lower_bound] hand it
    to [next_value]. *)
Definition open_start (t : RadixTree) (it : Iter) : Iter :=
  let it1 :=
    scan_init cfg it (OPEN_BOUNDARY_KEY cfg) false
              (OPEN_BOUNDARY_KEY cfg) false in
  let it2 := set_next_pos (set_node it1 (root t)) 0 in
  set_found it2 (it_key it2) TagGptr0.

End ScanAllDefs.

(** Lexicographic order on unsigned bytes. *)
Definition bytes_lt (a b : list byte) : Prop := bytes_ltb a b = true.

Section InsertedDefs.

Variable cfg : Config.

(** [built S t]: [t] comes from the constructor by calls of [put] and
    [destroy] that returned; [S] lists the keys that were put. *)
Inductive built : list (list byte) -> RadixTree -> Prop :=
| built_new h t :
    heap_ok cfg h -> RadixTree_new cfg h 0 = Ret t -> built [] t
| built_put S t k v u fuel r t' :
    built S t -> key_size_ok cfg k = true -> (length k + 2 <= fuel)%nat ->
    put cfg fuel t k v u = Ret (r, t') -> built (k :: S) t'
| built_destroy S t k fuel r t' :
    built S t -> destroy cfg fuel t k = Ret (r, t') -> built S t'.

End InsertedDefs.

(** [linked h r q]: child pointers lead from the node at [r] to [q]. *)
Inductive linked (h : Heap) (r : Gptr) : Gptr -> Prop :=
| linked_here : linked h r r
| linked_child q n b :
    linked h r q -> toLocal h q = Some n -> linked h r (child n b).

(** The iterator stands on a node of the tree rooted at [r], or on none,
    and its stack holds nodes of that tree. *)
Definition iter_linked (h : Heap) (r : Gptr) (it : Iter) : Prop :=
  (node it = 0 \/ linked h r (node it)) /\
  Forall (fun e => linked h r (fst e)) (path it).


(** What a call of [next_value] that returns [b] has put in the iterator:
    the key and the valid value of a node of the tree. *)
Definition yields (h : Heap) (r : Gptr) (b : bool) (it : Iter) : Prop :=
  b = true ->
  exists q n, linked h r q /\ toLocal h q = Some n /\
              it_key it = node_key n /\ it_value it = value n /\
              IsValid (value n) = true.

(** The key a call of the listing callback can read, [size] bytes of the
    buffer, and the pointer that comes with it. *)
Definition call_view (c : list byte * nat * Gptr) : list byte * Gptr :=
  let '(k, size, g) := c in (firstn size k, g).

(** [listed gptr_nomark ws s s']: from [s] to [s'] the listing has called
    back once for each entry of [ws], in order, counted them, and is back
    at the level it started from. *)
Definition listed (gptr_nomark : TagGptr -> Gptr)
  (ws : list (list byte * TagGptr)) (s s' : Listing) : Prop :=
  level s' = level s /\
  value_cnt s' = wrap64 (value_cnt s + Z.of_nat (length ws)) /\
  exists new,
    reported s' = reported s ++ new /\
    map call_view new = map (fun kv => (fst kv, gptr_nomark (snd kv))) ws.


(** The level and the value counter are [uint64_t] values. *)
Definition in_range (s : Listing) : Prop :=
  0 <= level s < u64_mod /\ 0 <= value_cnt s < u64_mod.


(** The map a client has in mind: the pointer of each key, 0 for a key
    without a value. *)
Definition map_set (m : list byte -> Gptr) (k : list byte) (v : Gptr)
  : list byte -> Gptr :=
  fun k' => if bytes_eqb k' k then v else m k'.

Section MapDefs.

Variable cfg : Config.

(** [tracks m t]: the tree [t] was made by the constructor and by calls of
    [put] and [destroy] that returned, and [m] is the map these calls
    describe: a [put] binds its key, unless it comes without [update] to
    a key that has a value; a [destroy] unbinds its key. *)
Inductive tracks : (list byte -> Gptr) -> RadixTree -> Prop :=
| tracks_new h t :
    heap_ok cfg h -> RadixTree_new cfg h 0 = Ret t -> tracks (fun _ => 0) t
| tracks_put m t k v u fuel r t' :
    tracks m t -> key_size_ok cfg k = true -> (length k + 2 <= fuel)%nat ->
    put cfg fuel t k v u = Ret (r, t') ->
    tracks (if u || (m k =? 0) then map_set m k v else m) t'
| tracks_destroy m t k fuel r t' :
    tracks m t -> key_size_ok cfg k = true -> (length k + 2 <= fuel)%nat ->
    destroy cfg fuel t k = Ret (r, t') ->
    tracks (map_set m k 0) t'.

(** The nodes that end the descent of a key hold the pointer the map has
    for it, and a key with a pointer has such a node. *)
Definition agrees (m : list byte -> Gptr) (t : RadixTree) : Prop :=
  forall k,
    (forall q n, found t k q n -> gptr (value n) = m k) /\
    (m k <> 0 -> exists q n, found t k q n /\ gptr (value n) = m k).

End MapDefs.


Section ValueCasDefs.

Variable cfg : Config.

(** [value_cas fuel t o q old g]: run on the tree [t], the operation [o]
    reaches a compare-and-swap on the value slot of the node at [q], which
    holds [old], to store the pointer [g].  A key-based operation reaches
    it at the node of its key, the one [getC] returns; a [put] without
    [update] only when the value it finds there is not valid.  A
    pointer-based operation reaches it at the node it is given. *)
Inductive value_cas (fuel : nat) (t : RadixTree)
  : operation -> Gptr -> TagGptr -> Gptr -> Prop :=
| vc_put k v u q old :
    getC cfg fuel t k = Ret (q, old) -> q <> 0 ->
    u || negb (IsValid old) = true ->
    value_cas fuel t (Put k v u) q old v
| vc_destroy k q old :
    getC cfg fuel t k = Ret (q, old) -> q <> 0 ->
    value_cas fuel t (Destroy k) q old 0
| vc_putC k v q old :
    getC cfg fuel t k = Ret (q, old) -> q <> 0 ->
    value_cas fuel t (PutC k v) q old v
| vc_putC_ptr q v old :
    getC_ptr cfg t q = Ret old ->
    value_cas fuel t (PutC_ptr q v) q old v
| vc_destroyC k q old :
    getC cfg fuel t k = Ret (q, old) -> q <> 0 ->
    value_cas fuel t (DestroyC k) q old 0
| vc_destroyC_ptr q old :
    getC_ptr cfg t q = Ret old ->
    value_cas fuel t (DestroyC_ptr q) q old 0.

(** The two ways an operation leaves the value slots of the nodes: one
    slot swapped, at the node where it reaches its compare-and-swap, or
    none. *)
Definition swaps (fuel : nat) (t t' : RadixTree) (o : operation) : Prop :=
  (exists q n g,
      value_cas fuel t o q (value n) g /\
      toLocal (heap t) q = Some n /\
      heap t' = store (heap t) q (set_value n (bumped g (value n))))
  \/ ((forall q old g, ~ value_cas fuel t o q old g) /\
      forall x n, toLocal (heap t) x = Some n ->
                  exists n', toLocal (heap t') x = Some n' /\
                             value n' = value n).

End ValueCasDefs.

Section ScanResultDefs.

Variable cfg : Config.

(** [scan_result t it0 bk bi ek ei r it]: a client that called [scan] on
    [t] with the iterator [it0] and the boundaries [bk], [ek], and then
    [get_next] any number of times, every call having returned, has just
    been handed the result [r]; the iterator is now [it]. *)
Inductive scan_result (t : RadixTree) (it0 : Iter)
  (bk : list byte) (bi : bool) (ek : list byte) (ei : bool)
  : option (list byte * TagGptr) -> Iter -> Prop :=
| sr_scan fuel r it :
    scan cfg fuel t it0 bk bi ek ei = Ret (r, it) ->
    scan_result t it0 bk bi ek ei r it
| sr_next fuel r it r' it' :
    scan_result t it0 bk bi ek ei r it ->
    get_next cfg fuel t it = Ret (r', it') ->
    scan_result t it0 bk bi ek ei r' it'.

(** What a result a scan has handed out says about the tree. *)
Definition entry_stored (S : list (list byte)) (t : RadixTree)
  (r : option (list byte * TagGptr)) : Prop :=
  forall k tq, r = Some (k, tq) ->
    In k S /\ IsValid tq = true /\
    forall f, (length k + 2 <= f)%nat -> get cfg f t k = Ret tq.

End ScanResultDefs.

(** ** Concrete configurations, keys, trees and iterators *)

(** A build with assertions and one without; 64-byte keys, signed char. *)
Definition cfg64 : Config := mkConfig 64 [x00%byte] 3 false true.

Definition cfg64_ndebug : Config := mkConfig 64 [x00%byte] 3 true true.

Definition the {A} (d : A) (o : outcome A) : A :=
  match o with Ret a => a | _ => d end.

Definition keyA : list byte := ["A"%byte].

Definition keyAB : list byte := ["A"%byte; "B"%byte].

Definition key0 : list byte := ["0"%byte].

(** The empty tree, and the trees holding "A" -> 100 and "AB" -> 200. *)
Definition tree0 : RadixTree :=
  the (mkTree empty_heap 0) (RadixTree_new cfg64 empty_heap 0).

Definition tree_A : RadixTree :=
  the tree0 (r <- put cfg64 3 tree0 keyA 100 true ;; Ret (snd r)).

Definition tree_AB : RadixTree :=
  the tree0 (r <- put cfg64 4 tree0 keyAB 200 true ;; Ret (snd r)).

(** "A" put and destroyed again. *)
Definition tree_A_destroyed : RadixTree :=
  the tree_A (r <- destroy cfg64 3 tree_A keyA ;; Ret (snd r)).

(** A tree whose allocator fails from now on. *)
Definition tree0_pressed : RadixTree :=
  the (mkTree empty_heap 0)
      (RadixTree_new cfg64 (mkHeap [] [false; true; true; true] []) 0).

(** A tree with one key, "A", whose value slot holds [tq]. *)
Definition tree_tagged (tq : TagGptr) : RadixTree :=
  mkTree
    (mkHeap
       [mkNode (repeat x00%byte 64) 0 (upd (fun _ => 0) "A"%byte 2) TagGptr0;
        mkNode (keyA ++ repeat x00%byte 63) 1 (fun _ => 0) tq]
       [] [])
    1.

Definition u64_max : Z := 18446744073709551615.

(** An iterator that has not been used, and one left by a scan whose end
    boundary was inclusive. *)
Definition iter_fresh : Iter :=
  mkIter 0 0 [] [] false false [] false false [] TagGptr0.

Definition iter_used : Iter :=
  mkIter 0 0 [] keyA true false keyAB true false [] TagGptr0.

(** The tree holding the two-byte key NUL "A" -> 1, and the iterator as
    the point query for that key leaves it. *)
Definition key0A : list byte := [x00%byte; "A"%byte].

Definition tree_0A : RadixTree :=
  the tree0 (r <- put cfg64 4 tree0 key0A 1 true ;; Ret (snd r)).

Definition iter_reused : Iter :=
  mkIter 0 0 [] key0A true false key0A true false [] TagGptr0.

(** The tree holding "AB", with an allocator that serves one more block
    and then fails three times; and a key that splits its leaf. *)
Definition keyAC : list byte := ["A"%byte; "C"%byte].

Definition tree_AB_pressed : RadixTree :=
  with_heap tree_AB
    (mkHeap (cells (heap tree_AB)) [false; true; true; true]
            (freed (heap tree_AB))).

(** * Properties *)

(** ** Lists and heap cells *)

Lemma nth_error_list_set_same {A} (l : list A) i x :
  (i < length l)%nat -> nth_error (list_set l i x) i = Some x.
Proof.
  revert i; induction l as [|y l IH]; intros [|i] H; simpl in *; try lia; auto.
  apply IH; lia.
Qed.

Lemma nth_error_list_set_other {A} (l : list A) i j x :
  i <> j -> nth_error (list_set l i x) j = nth_error l j.
Proof.
  revert i j; induction l as [|y l IH]; intros [|i] [|j] H; simpl; auto;
    congruence.
Qed.

Lemma length_list_set {A} (l : list A) i x : length (list_set l i x) = length l.
Proof.
  revert i; induction l as [|y l IH]; intros [|i]; simpl; auto.
Qed.

Lemma toLocal_Some_pos h q n : toLocal h q = Some n -> 0 < q.
Proof.
  unfold toLocal; destruct (q <=? 0) eqn:E; [discriminate|]; intros _.
  apply Z.leb_gt in E; lia.
Qed.

Lemma toLocal_Some_bound h q n :
  toLocal h q = Some n -> 0 < q <= Z.of_nat (length (cells h)).
Proof.
  intros H; pose proof (toLocal_Some_pos _ _ _ H) as Hp.
  unfold toLocal in H; destruct (q <=? 0); [discriminate|].
  assert (Hn : nth_error (cells h) (Z.to_nat q - 1) <> None) by congruence.
  apply nth_error_Some in Hn; lia.
Qed.

Lemma toLocal_null h : toLocal h 0 = None.
Proof. reflexivity. Qed.

Lemma toLocal_store_same h q n n' :
  toLocal h q = Some n -> toLocal (store h q n') q = Some n'.
Proof.
  intros H; pose proof (toLocal_Some_bound _ _ _ H) as Hb.
  unfold store, toLocal.
  destruct (q <=? 0) eqn:E; [apply Z.leb_le in E; lia|]; simpl.
  apply nth_error_list_set_same; lia.
Qed.

Lemma toLocal_store_other h q q' n' :
  q <> q' -> toLocal (store h q n') q' = toLocal h q'.
Proof.
  intros H; unfold store, toLocal.
  destruct (q <=? 0) eqn:E; auto; simpl.
  destruct (q' <=? 0) eqn:E'; auto.
  apply Z.leb_gt in E, E'.
  apply nth_error_list_set_other; lia.
Qed.

Lemma cells_store_length h q n : length (cells (store h q n)) = length (cells h).
Proof.
  unfold store; destruct (q <=? 0); simpl; auto using length_list_set.
Qed.

Lemma pressure_store h q n : pressure (store h q n) = pressure h.
Proof. unfold store; destruct (q <=? 0); reflexivity. Qed.

Lemma freed_store h q n : freed (store h q n) = freed h.
Proof. unfold store; destruct (q <=? 0); reflexivity. Qed.

Lemma TagGptr_eqb_refl t : TagGptr_eqb t t = true.
Proof. unfold TagGptr_eqb; now rewrite !Z.eqb_refl. Qed.

Lemma TagGptr_eqb_eq a b : TagGptr_eqb a b = true <-> a = b.
Proof.
  unfold TagGptr_eqb; destruct a, b; simpl; rewrite andb_true_iff, !Z.eqb_eq.
  split; [intros [-> ->]; reflexivity | intros H; inversion H; auto].
Qed.

Lemma byte_eqb_eq a b : Byte.eqb a b = true <-> a = b.
Proof.
  split; [apply Byte.byte_dec_bl | apply Byte.byte_dec_lb].
Qed.

Lemma byte_eqb_refl a : Byte.eqb a a = true.
Proof. now apply byte_eqb_eq. Qed.

Lemma upd_same c b q : upd c b q b = q.
Proof. unfold upd; now rewrite byte_eqb_refl. Qed.

Lemma upd_other c b b' q : b' <> b -> upd c b q b' = c b'.
Proof.
  intros H; unfold upd; destruct (Byte.eqb b' b) eqn:E; auto.
  apply byte_eqb_eq in E; contradiction.
Qed.

Lemma byte_ltb_irrefl a : byte_ltb a a = false.
Proof. unfold byte_ltb; apply N.ltb_irrefl. Qed.

Lemma byte_to_N_inj a b : Byte.to_N a = Byte.to_N b -> a = b.
Proof.
  intros H; apply (f_equal Byte.of_N) in H.
  rewrite !Byte.of_to_N in H; congruence.
Qed.

Lemma byte_ltb_total a b : byte_ltb a b = false -> byte_ltb b a = false -> a = b.
Proof.
  unfold byte_ltb; rewrite !N.ltb_ge; intros; apply byte_to_N_inj; lia.
Qed.

(** ** Comparing keys *)

Lemma fam_memcmp_zero_iff a b m :
  (m <= length a)%nat -> (m <= length b)%nat ->
  fam_memcmp a b m = 0 <-> firstn m a = firstn m b.
Proof.
  revert a b; induction m as [|m IH]; intros a b Ha Hb; simpl.
  - split; reflexivity.
  - destruct a as [|x a]; [simpl in Ha; lia|].
    destruct b as [|y b]; [simpl in Hb; lia|].
    simpl in *.
    destruct (byte_ltb x y) eqn:E1.
    + split; [lia|]. intros H; inversion H; subst.
      rewrite byte_ltb_irrefl in E1; discriminate.
    + destruct (byte_ltb y x) eqn:E2.
      * split; [lia|]. intros H; inversion H; subst.
        rewrite byte_ltb_irrefl in E2; discriminate.
      * rewrite (byte_ltb_total _ _ E1 E2).
        rewrite IH by lia. split; [intros ->; reflexivity|].
        intros H; now inversion H.
Qed.

Lemma first_mismatch_le a b m : (first_mismatch a b m <= m)%nat.
Proof.
  revert a b; induction m as [|m IH]; intros [|x a] [|y b]; simpl; try lia.
  destruct (Byte.eqb x y); [specialize (IH a b)|]; lia.
Qed.

Lemma first_mismatch_prefix a b m :
  firstn (first_mismatch a b m) a = firstn (first_mismatch a b m) b.
Proof.
  revert a b; induction m as [|m IH]; intros [|x a] [|y b]; simpl; auto.
  destruct (Byte.eqb x y) eqn:E; simpl; auto.
  apply byte_eqb_eq in E; subst; now rewrite IH.
Qed.

Lemma first_mismatch_differs a b m :
  (m <= length a)%nat -> (m <= length b)%nat ->
  (first_mismatch a b m < m)%nat ->
  exists x y, nth_error a (first_mismatch a b m) = Some x /\
              nth_error b (first_mismatch a b m) = Some y /\ x <> y.
Proof.
  revert a b; induction m as [|m IH]; intros a b Ha Hb Hlt; [lia|].
  destruct a as [|x a]; [simpl in Ha; lia|].
  destruct b as [|y b]; [simpl in Hb; lia|].
  simpl in *. destruct (Byte.eqb x y) eqn:E.
  - simpl. apply IH; lia.
  - exists x, y; simpl; repeat split; auto.
    intros ->; rewrite byte_eqb_refl in E; discriminate.
Qed.

Lemma first_mismatch_full a b m :
  (m <= length a)%nat -> (m <= length b)%nat ->
  first_mismatch a b m = m <-> firstn m a = firstn m b.
Proof.
  intros Ha Hb; split.
  - intros H; pose proof (first_mismatch_prefix a b m) as P.
    now rewrite H in P.
  - intros H.
    destruct (Nat.eq_dec (first_mismatch a b m) m) as [|N]; auto.
    pose proof (first_mismatch_le a b m).
    destruct (first_mismatch_differs a b m Ha Hb) as (x & y & Hx & Hy & Hxy);
      [lia|].
    exfalso; apply Hxy.
    assert (Hi : (first_mismatch a b m < m)%nat) by lia.
    pose proof (nth_error_firstn m a (first_mismatch a b m)) as Fa.
    pose proof (nth_error_firstn m b (first_mismatch a b m)) as Fb.
    apply Nat.ltb_lt in Hi. rewrite Hi in Fa, Fb.
    congruence.
Qed.

Lemma nth_error_nth_default {A} (l : list A) i x d :
  nth_error l i = Some x -> nth i l d = x.
Proof. intros H; now apply nth_error_nth. Qed.

Lemma firstn_prefix_trans {A} (a b : list A) m m' :
  (m <= m')%nat -> firstn m' a = firstn m' b -> firstn m a = firstn m b.
Proof.
  intros Hle H.
  rewrite <- (Nat.min_l m m') by exact Hle.
  rewrite <- !firstn_firstn. now rewrite H.
Qed.

(** ** Well-formed trees *)

Section Invariants.

Variable cfg : Config.

Lemma arrives_slot_of h k m p0 q0 p q :
  arrives h k m p0 q0 p q -> slot_of h k p0 q0 -> slot_of h k p q.
Proof.
  induction 1; intros Hs; auto.
  apply IHarrives. simpl. exists n; auto.
Qed.

Lemma arrives_trans h k m1 m2 p0 q0 p1 q1 p2 q2 :
  arrives h k m1 p0 q0 p1 q1 -> arrives h k m2 p1 q1 p2 q2 ->
  arrives h k (m1 + m2) p0 q0 p2 q2.
Proof.
  induction 1; intros Hnext; simpl; auto.
  econstructor; eauto.
Qed.

Lemma nth_error_Some_lt {A} (l : list A) i x :
  nth_error l i = Some x -> (i < length l)%nat.
Proof. intros H; apply nth_error_Some; congruence. Qed.

Lemma lt_nth_error_Some {A} (l : list A) i :
  (i < length l)%nat -> exists x, nth_error l i = Some x.
Proof.
  intros H; destruct (nth_error l i) eqn:E; eauto.
  apply nth_error_None in E; lia.
Qed.

(** Under the invariant every descent stops within [length k] steps. *)
Lemma descent_stops h k :
  heap_ok cfg h ->
  forall d q0 n0 p0,
    toLocal h q0 = Some n0 -> (length k - prefix_size n0 <= d)%nat ->
    exists m p q, (m <= length k - prefix_size n0)%nat /\
                  arrives h k m p0 q0 p q /\ stop h k q.
Proof.
  intros Hok; induction d as [|d IH]; intros q0 n0 p0 Hq0 Hd.
  - (* the prefix is at least as long as the key *)
    exists 0%nat, p0, q0; split; [lia|]; split; [constructor|].
    destruct (list_eq_dec Byte.byte_eq_dec
                (firstn (Nat.min (prefix_size n0) (length k)) k)
                (firstn (Nat.min (prefix_size n0) (length k)) (key n0)))
      as [E|N].
    + rewrite Nat.min_r in E by lia.
      destruct (Nat.eq_dec (prefix_size n0) (length k)) as [E'|N'].
      * eapply stop_exact; eauto. now rewrite E'.
      * eapply stop_short; eauto. lia.
    + eapply stop_mismatch; eauto.
  - destruct (le_lt_dec (length k) (prefix_size n0)) as [Hle|Hlt].
    + apply (IH q0 n0 p0 Hq0). lia.
    + destruct (list_eq_dec Byte.byte_eq_dec
                  (firstn (prefix_size n0) k)
                  (firstn (prefix_size n0) (key n0))) as [E|N].
      * destruct (lt_nth_error_Some k (prefix_size n0) Hlt) as [b Hb].
        destruct (Z.eq_dec (child n0 b) 0) as [Ec|Nc].
        -- exists 1%nat, (Some (q0, b)), (child n0 b).
           split; [lia|]. split.
           ++ econstructor; eauto. constructor.
           ++ now apply stop_null.
        -- destruct (Hok _ _ Hq0) as (_ & _ & Hch).
           destruct (Hch b Nc) as (mc & Hmc & Hps & _).
           destruct (IH (child n0 b) mc (Some (q0, b)) Hmc)
             as (m & p & q & Hm & Harr & Hstop); [lia|].
           exists (S m), p, q. split; [lia|]. split; auto.
           econstructor; eauto.
      * exists 0%nat, p0, q0; split; [lia|]; split; [constructor|].
        eapply stop_mismatch; eauto.
        now rewrite Nat.min_l by lia.
Qed.

End Invariants.

(** ** The descent shared by get, destroy and put *)

Section Descent.

Variable cfg : Config.

Lemma deref_Some h q n : toLocal h q = Some n -> deref cfg h q = Ret n.
Proof. unfold deref; now intros ->. Qed.

Lemma eqb_0_mapped h q n : toLocal h q = Some n -> (q =? 0) = false.
Proof. intros H; apply toLocal_Some_pos in H; apply Z.eqb_neq; lia. Qed.

Lemma step_facts_intro h k q n b :
  heap_ok cfg h ->
  toLocal h q = Some n ->
  firstn (prefix_size n) k = firstn (prefix_size n) (key n) ->
  nth_error k (prefix_size n) = Some b ->
  step_facts cfg h k q n b.
Proof.
  intros Hok Hq Hpre Hb.
  pose proof (nth_error_Some_lt _ _ _ Hb) as Hlt.
  destruct (Hok _ _ Hq) as (Hlen & _ & _).
  constructor.
  - eapply eqb_0_mapped; eauto.
  - now apply deref_Some.
  - rewrite Nat.min_l by lia. apply fam_memcmp_zero_iff; auto; lia.
  - apply Nat.eqb_neq; lia.
  - apply Nat.eqb_neq; lia.
  - unfold key_at; now rewrite Hb.
  - simpl; now rewrite Hq.
  - rewrite Nat.min_r by lia. apply first_mismatch_full; auto; lia.
Qed.

Lemma get_loop_arrives h k m p0 q0 p q :
  heap_ok cfg h -> arrives h k m p0 q0 p q ->
  forall f, get_loop cfg (m + f) h k q0 = get_loop cfg f h k q.
Proof.
  intros Hok; induction 1 as [|p q n b p' q' m Hq Hpre Hb _ IH]; intros f; auto.
  destruct (step_facts_intro _ _ _ _ _ Hok Hq Hpre Hb).
  simpl. rewrite sf_nonnull0, sf_deref0; simpl.
  rewrite sf_memcmp0; simpl. rewrite sf_size0, sf_key_at0; simpl.
  rewrite Hq; simpl. apply IH.
Qed.

Lemma getC_loop_arrives h k m p0 q0 p q :
  heap_ok cfg h -> arrives h k m p0 q0 p q ->
  forall f, getC_loop cfg (m + f) h k q0 = getC_loop cfg f h k q.
Proof.
  intros Hok; induction 1 as [|p q n b p' q' m Hq Hpre Hb _ IH]; intros f; auto.
  destruct (step_facts_intro _ _ _ _ _ Hok Hq Hpre Hb).
  simpl. rewrite sf_nonnull0, sf_deref0; simpl.
  rewrite sf_memcmp0; simpl. rewrite sf_size0, sf_key_at0; simpl.
  rewrite Hq; simpl. apply IH.
Qed.

Lemma destroy_loop_arrives h k m p0 q0 p q :
  heap_ok cfg h -> arrives h k m p0 q0 p q ->
  forall f, destroy_loop cfg (m + f) h k q0 = destroy_loop cfg f h k q.
Proof.
  intros Hok; induction 1 as [|p q n b p' q' m Hq Hpre Hb _ IH]; intros f; auto.
  destruct (step_facts_intro _ _ _ _ _ Hok Hq Hpre Hb).
  simpl. rewrite sf_nonnull0, sf_deref0; simpl.
  rewrite sf_memcmp0; simpl. rewrite sf_size0, sf_key_at0; simpl.
  rewrite Hq; simpl. apply IH.
Qed.

Lemma destroyC_loop_arrives h k m p0 q0 p q :
  heap_ok cfg h -> arrives h k m p0 q0 p q ->
  forall f, destroyC_loop cfg (m + f) h k q0 = destroyC_loop cfg f h k q.
Proof.
  intros Hok; induction 1 as [|p q n b p' q' m Hq Hpre Hb _ IH]; intros f; auto.
  destruct (step_facts_intro _ _ _ _ _ Hok Hq Hpre Hb).
  simpl. rewrite sf_nonnull0, sf_deref0; simpl.
  rewrite sf_memcmp0; simpl. rewrite sf_size0, sf_key_at0; simpl.
  rewrite Hq; simpl. apply IH.
Qed.

Lemma put_descend_arrives h k v u m p0 q0 p q :
  heap_ok cfg h -> arrives h k m p0 q0 p q ->
  forall f l, l_p l = p0 -> l_q l = q0 ->
    put_descend cfg (m + f) h k v u l
    = put_descend cfg f h k v u (set_pq l p q).
Proof.
  intros Hok; induction 1 as [|p q n b p' q' m Hq Hpre Hb _ IH];
    intros f l Hp Hl.
  - simpl. destruct l; simpl in *; subst; reflexivity.
  - destruct (step_facts_intro _ _ _ _ _ Hok Hq Hpre Hb).
    simpl. rewrite Hl, sf_nonnull0, sf_deref0; simpl.
    rewrite sf_mismatch0, Nat.ltb_irrefl.
    assert (Ha : (if u then Ret tt
                  else assert cfg (prefix_size n =? prefix_size n)%nat)
                 = Ret tt).
    { destruct u; auto. unfold assert. rewrite Nat.eqb_refl.
      now destruct (NDEBUG cfg). }
    rewrite Ha; simpl. rewrite sf_size'0, sf_key_at0; simpl.
    rewrite Hq; simpl. rewrite IH by reflexivity. reflexivity.
Qed.

Lemma putC_descend_arrives h k v m p0 q0 p q :
  heap_ok cfg h -> arrives h k m p0 q0 p q ->
  forall f l, l_p l = p0 -> l_q l = q0 ->
    putC_descend cfg (m + f) h k v l
    = putC_descend cfg f h k v (set_pq l p q).
Proof.
  intros Hok; induction 1 as [|p q n b p' q' m Hq Hpre Hb _ IH];
    intros f l Hp Hl.
  - simpl. destruct l; simpl in *; subst; reflexivity.
  - destruct (step_facts_intro _ _ _ _ _ Hok Hq Hpre Hb).
    simpl. rewrite Hl, sf_nonnull0, sf_deref0; simpl.
    rewrite sf_mismatch0, Nat.ltb_irrefl.
    rewrite sf_size'0, sf_key_at0; simpl.
    rewrite Hq; simpl. rewrite IH by reflexivity. reflexivity.
Qed.

End Descent.

(** ** Allocation and the atomic primitives, sequentially *)

Section Primitives.

Variable cfg : Config.

Lemma cas_value_loop_hit f h q n g :
  toLocal h q = Some n ->
  cas_value_loop (S f) h q (value n) g
  = Ret (value n, mkTagGptr g (wrap64 (tag (value n) + 1)),
         store h q (set_value n (mkTagGptr g (wrap64 (tag (value n) + 1))))).
Proof.
  intros Hq; simpl. unfold casTagGptr. rewrite Hq, TagGptr_eqb_refl; simpl.
  now rewrite TagGptr_eqb_refl.
Qed.

Lemma casTagGptr_hit h q n new_value :
  toLocal h q = Some n ->
  casTagGptr h q (value n) new_value
  = Ret (value n, store h q (set_value n new_value)).
Proof.
  intros Hq; unfold casTagGptr. now rewrite Hq, TagGptr_eqb_refl.
Qed.

Lemma cas64_hit h pn b par new_value :
  toLocal h pn = Some par ->
  cas64 h (Some (pn, b)) (child par b) new_value
  = Ret (child par b, store h pn (set_child par b new_value)).
Proof.
  intros Hq; unfold cas64. now rewrite Hq, Z.eqb_refl.
Qed.

Lemma cas64_hit_null h pn b par new_value :
  toLocal h pn = Some par -> child par b = 0 ->
  cas64 h (Some (pn, b)) 0 new_value
  = Ret (0, store h pn (set_child par b new_value)).
Proof.
  intros Hq Hc; unfold cas64. now rewrite Hq, Hc.
Qed.

Lemma extended_fresh h h' ptr : extended cfg h h' ptr -> toLocal h ptr = None.
Proof.
  intros (-> & _ & _). unfold toLocal.
  destruct (_ <=? 0); auto. apply nth_error_None. lia.
Qed.

Lemma extended_new h h' ptr :
  extended cfg h h' ptr -> toLocal h' ptr = Some (zero_node cfg).
Proof.
  intros (-> & Hc & _). unfold toLocal.
  destruct (_ <=? 0) eqn:E; [apply Z.leb_le in E; lia|].
  rewrite Hc, nth_error_app2 by lia.
  replace (_ - _ - _)%nat with 0%nat by lia. reflexivity.
Qed.

Lemma extended_old h h' ptr x :
  extended cfg h h' ptr -> x <> ptr -> toLocal h' x = toLocal h x.
Proof.
  intros (-> & Hc & _) Hx. unfold toLocal.
  destruct (x <=? 0) eqn:E; auto. apply Z.leb_gt in E.
  rewrite Hc.
  destruct (lt_dec (Z.to_nat x - 1) (length (cells h))) as [L|L].
  - now rewrite nth_error_app1.
  - assert (N : nth_error (cells h) (Z.to_nat x - 1) = None)
      by (apply nth_error_None; lia).
    rewrite N. apply nth_error_None. rewrite length_app; simpl. lia.
Qed.

Lemma extended_ptr_pos h h' ptr : extended cfg h h' ptr -> 0 < ptr.
Proof. intros (-> & _); lia. Qed.

Lemma Alloc_cases h :
  (fst (Alloc cfg h) = 0 /\ cells (snd (Alloc cfg h)) = cells h /\
   freed (snd (Alloc cfg h)) = freed h /\
   exists rest, pressure h = true :: rest /\ pressure (snd (Alloc cfg h)) = rest)
  \/ (extended cfg h (snd (Alloc cfg h)) (fst (Alloc cfg h)) /\
      pressure (snd (Alloc cfg h)) = tl (pressure h) /\
      hd false (pressure h) = false).
Proof.
  unfold Alloc, extended. destruct (pressure h) as [|[|] rest]; simpl.
  - right; auto.
  - left; repeat split; eauto.
  - right; auto.
Qed.

Lemma alloc_retry_nonnull cnt h ptr :
  ptr <> 0 -> alloc_retry cfg cnt h ptr = (ptr, h).
Proof.
  intros H; destruct cnt; simpl; auto.
  apply Z.eqb_neq in H; now rewrite H.
Qed.

Lemma alloc_retry_cases cnt h :
  let r := alloc_retry cfg cnt h 0 in
  (fst r = 0 /\ cells (snd r) = cells h /\ freed (snd r) = freed h)
  \/ extended cfg h (snd r) (fst r).
Proof.
  revert h; induction cnt as [|cnt IH]; intros h; simpl; auto.
  destruct (Alloc cfg h) as [p h1] eqn:EA.
  pose proof (Alloc_cases h) as HA; rewrite EA in HA; simpl in HA.
  destruct HA as [(-> & Hc & Hf & _)|(Hext & _)].
  - specialize (IH h1); simpl in IH.
    destruct IH as [(? & ? & ?)|(? & ? & ?)]; [left|right].
    + repeat split; congruence.
    + unfold extended; repeat split; congruence.
  - right. rewrite alloc_retry_nonnull; auto.
    apply extended_ptr_pos in Hext; lia.
Qed.

Lemma alloc_retry_exhausted cnt h :
  exhausted cnt h -> fst (alloc_retry cfg cnt h 0) = 0.
Proof.
  unfold exhausted; revert h; induction cnt as [|cnt IH]; intros h H; simpl; auto.
  unfold Alloc. destruct (pressure h) as [|[|] rest] eqn:E; simpl in H;
    try discriminate.
  apply IH; simpl. now inversion H.
Qed.

Lemma alloc_retry_healthy cnt h :
  pressure h = [] -> (0 < cnt)%nat ->
  extended cfg h (snd (alloc_retry cfg cnt h 0)) (fst (alloc_retry cfg cnt h 0))
  /\ pressure (snd (alloc_retry cfg cnt h 0)) = [].
Proof.
  intros Hp Hc; destruct cnt; [lia|]. simpl.
  unfold Alloc; rewrite Hp.
  rewrite alloc_retry_nonnull by lia. simpl.
  unfold extended; simpl; auto.
Qed.

End Primitives.

(** ** What a sequential put does to the heap *)

Section PutEffect.

Variable cfg : Config.

Lemma fresh_store_new h h1 ptr n :
  fresh_store cfg h h1 ptr n -> toLocal h1 ptr = Some n.
Proof.
  intros (h0 & He & ->). eapply toLocal_store_same, extended_new; eauto.
Qed.

Lemma fresh_store_fresh h h1 ptr n :
  fresh_store cfg h h1 ptr n -> toLocal h ptr = None.
Proof. intros (h0 & He & _). eapply extended_fresh; eauto. Qed.

Lemma fresh_store_old h h1 ptr n x :
  fresh_store cfg h h1 ptr n -> x <> ptr -> toLocal h1 x = toLocal h x.
Proof.
  intros (h0 & He & ->) Hx.
  rewrite toLocal_store_other by congruence. eapply extended_old; eauto.
Qed.

Lemma fresh_store_mapped h h1 ptr n x m :
  fresh_store cfg h h1 ptr n -> toLocal h x = Some m -> toLocal h1 x = Some m.
Proof.
  intros H Hx. rewrite (fresh_store_old _ _ _ _ x H); auto.
  intros ->. rewrite (fresh_store_fresh _ _ _ _ H) in Hx. discriminate.
Qed.

Lemma fresh_store_pos h h1 ptr n : fresh_store cfg h h1 ptr n -> 0 < ptr.
Proof. intros (h0 & He & _). eapply extended_ptr_pos; eauto. Qed.

Lemma make_leaf_Ret h k v lp h1 :
  make_leaf cfg h k v 0 = Ret (lp, h1) ->
  fresh_store cfg h h1 lp (leaf_node cfg k v) /\ (length k <= MAX_KEY_LEN cfg)%nat.
Proof.
  unfold make_leaf; simpl.
  destruct (alloc_retry cfg _ h 0) as [ptr h0] eqn:EA.
  pose proof (alloc_retry_cases cfg (Z.to_nat (alloc_retry_cnt cfg)) h) as HA.
  rewrite EA in HA; simpl in HA.
  destruct HA as [(-> & _)|Hext].
  - unfold assert, deref; simpl. destruct (NDEBUG cfg); simpl; discriminate.
  - pose proof (extended_ptr_pos _ _ _ _ Hext) as Hpos.
    unfold assert, deref.
    replace (ptr =? 0) with false by (symmetry; apply Z.eqb_neq; lia).
    rewrite (extended_new _ _ _ _ Hext); simpl.
    assert (Hb : (if NDEBUG cfg then Ret tt else Ret tt) = @Ret unit tt)
      by (destruct (NDEBUG cfg); auto).
    rewrite Hb; simpl. unfold memcpy_key.
    destruct (length k <=? MAX_KEY_LEN cfg)%nat eqn:EL; simpl; [|discriminate].
    intros H; inversion H; subst. split.
    + exists h0; split; auto.
    + now apply Nat.leb_le.
Qed.

Lemma make_intermediate_Ret h k ip h1 :
  make_intermediate cfg h k 0 = Ret (ip, h1) ->
  fresh_store cfg h h1 ip (blank_intermediate cfg k)
  /\ (length k <= MAX_KEY_LEN cfg)%nat.
Proof.
  unfold make_intermediate; simpl.
  destruct (alloc_retry cfg _ h 0) as [ptr h0] eqn:EA.
  pose proof (alloc_retry_cases cfg (Z.to_nat (alloc_retry_cnt cfg)) h) as HA.
  rewrite EA in HA; simpl in HA.
  destruct HA as [(-> & _)|Hext].
  - unfold assert, deref; simpl. destruct (NDEBUG cfg); simpl; discriminate.
  - pose proof (extended_ptr_pos _ _ _ _ Hext) as Hpos.
    unfold assert, deref.
    replace (ptr =? 0) with false by (symmetry; apply Z.eqb_neq; lia).
    rewrite (extended_new _ _ _ _ Hext); simpl.
    assert (Hb : (if NDEBUG cfg then Ret tt else Ret tt) = @Ret unit tt)
      by (destruct (NDEBUG cfg); auto).
    rewrite Hb; simpl. unfold memcpy_key.
    destruct (length k <=? MAX_KEY_LEN cfg)%nat eqn:EL; simpl; [|discriminate].
    intros H; inversion H; subst. split.
    + exists h0; split; auto.
    + now apply Nat.leb_le.
Qed.

(** With every retry failing, the allocation code stops at its assertion
    when assertions are compiled in, and goes on to dereference the null
    pointer when they are not. *)
Lemma make_leaf_exhausted h k v :
  exhausted (Z.to_nat (alloc_retry_cnt cfg)) h ->
  make_leaf cfg h k v 0
  = if NDEBUG cfg then Fault NullDeref else AssertFail.
Proof.
  intros He. unfold make_leaf; simpl.
  destruct (alloc_retry cfg _ h 0) as [ptr h0] eqn:EA.
  pose proof (alloc_retry_exhausted cfg _ h He) as H0.
  rewrite EA in H0; simpl in H0; subst ptr.
  unfold assert, deref; simpl. now destruct (NDEBUG cfg).
Qed.

Lemma make_intermediate_exhausted h k :
  exhausted (Z.to_nat (alloc_retry_cnt cfg)) h ->
  make_intermediate cfg h k 0
  = if NDEBUG cfg then Fault NullDeref else AssertFail.
Proof.
  intros He. unfold make_intermediate; simpl.
  destruct (alloc_retry cfg _ h 0) as [ptr h0] eqn:EA.
  pose proof (alloc_retry_exhausted cfg _ h He) as H0.
  rewrite EA in H0; simpl in H0; subst ptr.
  unfold assert, deref; simpl. now destruct (NDEBUG cfg).
Qed.

Lemma make_leaf_healthy h k v :
  pressure h = [] -> 0 < alloc_retry_cnt cfg ->
  (length k <= MAX_KEY_LEN cfg)%nat ->
  exists lp h1, make_leaf cfg h k v 0 = Ret (lp, h1) /\ pressure h1 = [].
Proof.
  intros Hp Hc Hk. unfold make_leaf; simpl.
  destruct (alloc_retry_healthy cfg (Z.to_nat (alloc_retry_cnt cfg)) h Hp)
    as (Hext & Hp'); [lia|].
  destruct (alloc_retry cfg _ h 0) as [ptr h0] eqn:EA; simpl in *.
  pose proof (extended_ptr_pos _ _ _ _ Hext) as Hpos.
  unfold assert, deref.
  replace (ptr =? 0) with false by (symmetry; apply Z.eqb_neq; lia).
  rewrite (extended_new _ _ _ _ Hext); simpl.
  assert (Hb : (if NDEBUG cfg then Ret tt else Ret tt) = @Ret unit tt)
    by (destruct (NDEBUG cfg); auto).
  rewrite Hb; simpl. unfold memcpy_key.
  apply Nat.leb_le in Hk; rewrite Hk; simpl.
  eexists _, _; split; [reflexivity|]. now rewrite pressure_store.
Qed.

Lemma make_intermediate_healthy h k :
  pressure h = [] -> 0 < alloc_retry_cnt cfg ->
  (length k <= MAX_KEY_LEN cfg)%nat ->
  exists ip h1, make_intermediate cfg h k 0 = Ret (ip, h1) /\ pressure h1 = [].
Proof.
  intros Hp Hc Hk. unfold make_intermediate; simpl.
  destruct (alloc_retry_healthy cfg (Z.to_nat (alloc_retry_cnt cfg)) h Hp)
    as (Hext & Hp'); [lia|].
  destruct (alloc_retry cfg _ h 0) as [ptr h0] eqn:EA; simpl in *.
  pose proof (extended_ptr_pos _ _ _ _ Hext) as Hpos.
  unfold assert, deref.
  replace (ptr =? 0) with false by (symmetry; apply Z.eqb_neq; lia).
  rewrite (extended_new _ _ _ _ Hext); simpl.
  assert (Hb : (if NDEBUG cfg then Ret tt else Ret tt) = @Ret unit tt)
    by (destruct (NDEBUG cfg); auto).
  rewrite Hb; simpl. unfold memcpy_key.
  apply Nat.leb_le in Hk; rewrite Hk; simpl.
  eexists _, _; split; [reflexivity|]. now rewrite pressure_store.
Qed.

End PutEffect.

Section PutSequential.

Variable cfg : Config.

Ltac put_simpl :=
  cbn [bind put_finish put_descend set_pq set_q set_split set_new_leaf_ptr
       set_intermediate_node_ptr l_q l_p l_new_leaf_ptr
       l_intermediate_node_ptr l_prefix_size l_existing locals_at].

Lemma assert_true : assert cfg true = Ret tt.
Proof. unfold assert; now destruct (NDEBUG cfg). Qed.

Lemma put_loop_unfold f h k v u l :
  put_loop cfg (S f) h k v u l
  = ('(d, h') <- put_descend cfg (S f) h k v u l ;;
     put_finish cfg (fun h l => put_loop cfg f h k v u l) k v h' d).
Proof. reflexivity. Qed.

(** The key ends exactly at an existing node: its value slot is swapped,
    or kept when [update] is off and the value is valid. *)
Lemma put_loop_exact h k v u m p0 q0 p q n f :
  heap_ok cfg h -> arrives h k m p0 q0 p q ->
  toLocal h q = Some n ->
  firstn (prefix_size n) k = firstn (prefix_size n) (key n) ->
  prefix_size n = length k ->
  put_loop cfg (S (m + f)) h k v u (locals_at p0 q0)
  = if u || negb (IsValid (value n))
    then Ret (value n, store h q (set_value n (bumped v (value n))))
    else Ret (value n, h).
Proof.
  intros Hok Harr Hq Hpre Hps.
  rewrite put_loop_unfold, <- Nat.add_succ_r.
  rewrite (put_descend_arrives cfg h k v u m p0 q0 p q Hok Harr) by reflexivity.
  destruct (Hok _ _ Hq) as (Hlen & _ & _).
  put_simpl.
  rewrite (eqb_0_mapped _ _ _ Hq), (deref_Some cfg _ _ _ Hq).
  cbn [bind].
  assert (Hi : first_mismatch k (key n) (Nat.min (length k) (prefix_size n))
               = prefix_size n).
  { rewrite Nat.min_r by lia. apply first_mismatch_full; auto; lia. }
  rewrite Hi, Nat.ltb_irrefl, Nat.eqb_refl, assert_true.
  assert (Ha : (if u then Ret tt else Ret tt) = @Ret unit tt)
    by (destruct u; auto).
  rewrite Ha. cbn [bind]. rewrite Hps, Nat.eqb_refl.
  unfold free_if; cbn [Z.eqb]. unfold loadTagGptr; rewrite Hq. cbn [bind].
  destruct u; cbn [orb].
  - rewrite (cas_value_loop_hit _ _ _ _ _ Hq). reflexivity.
  - destruct (IsValid (value n)); cbn [negb].
    + reflexivity.
    + fold (bumped v (value n)).
      rewrite (casTagGptr_hit _ _ _ _ Hq). cbn [bind].
      rewrite TagGptr_eqb_refl. reflexivity.
Qed.

(** The descent runs into an empty child slot: case 1. *)
Lemma put_loop_null h k v u m p0 q0 pn b par f :
  heap_ok cfg h -> arrives h k m p0 q0 (Some (pn, b)) 0 ->
  toLocal h pn = Some par -> child par b = 0 ->
  put_loop cfg (S (m + f)) h k v u (locals_at p0 q0)
  = ('(lp, h1) <- make_leaf cfg h k v 0 ;;
     Ret (TagGptr0, store h1 pn (set_child par b lp))).
Proof.
  intros Hok Harr Hpn Hch.
  rewrite put_loop_unfold, <- Nat.add_succ_r.
  rewrite (put_descend_arrives cfg h k v u m p0 q0 _ _ Hok Harr) by reflexivity.
  put_simpl; cbn [Z.eqb]; put_simpl.
  destruct (make_leaf cfg h k v 0) as [[lp h1]| | |] eqn:EL; cbn [bind]; auto.
  destruct (make_leaf_Ret _ _ _ _ _ _ EL) as (Hfs & _).
  put_simpl.
  pose proof (fresh_store_mapped _ _ _ _ _ _ _ Hfs Hpn) as Hpn1.
  rewrite (cas64_hit_null _ _ _ _ _ Hpn1 Hch). reflexivity.
Qed.

(** The key is a proper prefix of the node's prefix: the intermediate
    node carries the value itself. *)
Lemma put_loop_short h k v u m p0 q0 pn b par n f :
  heap_ok cfg h -> arrives h k m p0 q0 (Some (pn, b)) (child par b) ->
  toLocal h pn = Some par -> toLocal h (child par b) = Some n ->
  firstn (length k) k = firstn (length k) (key n) ->
  (length k < prefix_size n)%nat ->
  put_loop cfg (S (m + f)) h k v u (locals_at p0 q0)
  = ('(ip, h1) <- make_intermediate cfg h k 0 ;;
     Ret (TagGptr0,
          store (store h1 ip (split_node_here cfg k v n (child par b)))
                pn (set_child par b ip))).
Proof.
  intros Hok Harr Hpn Hq Hpre Hlt.
  rewrite put_loop_unfold, <- Nat.add_succ_r.
  rewrite (put_descend_arrives cfg h k v u m p0 q0 _ _ Hok Harr) by reflexivity.
  destruct (Hok _ _ Hq) as (Hlen & _ & _).
  put_simpl.
  rewrite (eqb_0_mapped _ _ _ Hq), (deref_Some cfg _ _ _ Hq).
  cbn [bind].
  assert (Hi : first_mismatch k (key n) (Nat.min (length k) (prefix_size n))
               = length k).
  { rewrite Nat.min_l by lia. apply first_mismatch_full; auto; lia. }
  rewrite Hi.
  replace (length k <? prefix_size n)%nat with true
    by (symmetry; apply Nat.ltb_lt; lia).
  put_simpl.
  rewrite (eqb_0_mapped _ _ _ Hq).
  destruct (make_intermediate cfg h k 0) as [[ip h1]| | |] eqn:EI;
    cbn [bind]; auto.
  destruct (make_intermediate_Ret _ _ _ _ _ EI) as (Hfs & _).
  put_simpl.
  rewrite Nat.eqb_refl. unfold load_node.
  rewrite (fresh_store_new _ _ _ _ _ Hfs). cbn [bind].
  assert (Hne : ip <> pn).
  { intros ->. rewrite (fresh_store_fresh _ _ _ _ _ Hfs) in Hpn. discriminate. }
  pose proof (fresh_store_mapped _ _ _ _ _ _ _ Hfs Hpn) as Hpn1.
  rewrite <- (toLocal_store_other h1 ip pn
                (split_node_here cfg k v n (child par b)) Hne) in Hpn1.
  rewrite (cas64_hit _ _ _ _ _ Hpn1). cbn [bind].
  rewrite Z.eqb_refl. reflexivity.
Qed.

(** The key leaves the node's prefix at position [i]: the intermediate
    node gets the old node and a new leaf as its two children. *)
Lemma put_loop_mismatch h k v u m p0 q0 pn b par n f :
  heap_ok cfg h -> arrives h k m p0 q0 (Some (pn, b)) (child par b) ->
  toLocal h pn = Some par -> toLocal h (child par b) = Some n ->
  firstn (Nat.min (prefix_size n) (length k)) k
    <> firstn (Nat.min (prefix_size n) (length k)) (key n) ->
  let i := first_mismatch k (key n) (Nat.min (length k) (prefix_size n)) in
  put_loop cfg (S (m + f)) h k v u (locals_at p0 q0)
  = ('(ip, h1) <- make_intermediate cfg h k 0 ;;
     '(lp, h2) <- make_leaf cfg h1 k v 0 ;;
     Ret (TagGptr0,
          store (store h2 ip
                   (split_node_leaf cfg k n i (nth i k x00%byte) lp (child par b)))
                pn (set_child par b ip))).
Proof.
  intros Hok Harr Hpn Hq Hpre i.
  rewrite put_loop_unfold, <- Nat.add_succ_r.
  rewrite (put_descend_arrives cfg h k v u m p0 q0 _ _ Hok Harr) by reflexivity.
  destruct (Hok _ _ Hq) as (Hlen & _ & _).
  put_simpl.
  rewrite (eqb_0_mapped _ _ _ Hq), (deref_Some cfg _ _ _ Hq).
  cbn [bind]. fold i.
  assert (Hi : (i < Nat.min (length k) (prefix_size n))%nat).
  { pose proof (first_mismatch_le k (key n)
                  (Nat.min (length k) (prefix_size n))) as Hle. fold i in Hle.
    destruct (Nat.eq_dec i (Nat.min (length k) (prefix_size n))) as [E|]; [|lia].
    exfalso; apply Hpre. rewrite (Nat.min_comm (prefix_size n)).
    apply first_mismatch_full; auto; lia. }
  replace (i <? prefix_size n)%nat with true
    by (symmetry; apply Nat.ltb_lt; lia).
  put_simpl.
  rewrite (eqb_0_mapped _ _ _ Hq).
  destruct (make_intermediate cfg h k 0) as [[ip h1]| | |] eqn:EI;
    cbn [bind]; auto.
  destruct (make_intermediate_Ret _ _ _ _ _ EI) as (Hfs & _).
  put_simpl.
  replace (i =? length k)%nat with false
    by (symmetry; apply Nat.eqb_neq; lia).
  destruct (make_leaf cfg h1 k v 0) as [[lp h2]| | |] eqn:EL; cbn [bind]; auto.
  destruct (make_leaf_Ret _ _ _ _ _ _ EL) as (Hfl & _).
  put_simpl.
  unfold load_node.
  rewrite (fresh_store_mapped _ _ _ _ _ _ _ Hfl
             (fresh_store_new _ _ _ _ _ Hfs)).
  cbn [bind]. unfold key_at.
  destruct (lt_nth_error_Some k i) as [kb Hkb]; [lia|].
  rewrite Hkb. cbn [bind]. rewrite (nth_error_nth_default _ _ _ x00%byte Hkb).
  assert (Hne : ip <> pn).
  { intros ->. rewrite (fresh_store_fresh _ _ _ _ _ Hfs) in Hpn. discriminate. }
  pose proof (fresh_store_mapped _ _ _ _ _ _ _ Hfl
                (fresh_store_mapped _ _ _ _ _ _ _ Hfs Hpn)) as Hpn2.
  rewrite <- (toLocal_store_other h2 ip pn
                (split_node_leaf cfg k n i kb lp (child par b)) Hne) in Hpn2.
  fold (split_node_leaf cfg k n i kb lp (child par b)).
  rewrite (cas64_hit _ _ _ _ _ Hpn2). cbn [bind].
  rewrite Z.eqb_refl. reflexivity.
Qed.

End PutSequential.

(** ** Lookups and deletions at the end of the descent *)

Section Lookup.

Variable cfg : Config.

Lemma memcmp_nonzero_b k n :
  (prefix_size n <= length (key n))%nat ->
  firstn (Nat.min (prefix_size n) (length k)) k
    <> firstn (Nat.min (prefix_size n) (length k)) (key n) ->
  negb (fam_memcmp k (key n) (Nat.min (prefix_size n) (length k)) =? 0) = true.
Proof.
  intros Hlen Hne. apply negb_true_iff, Z.eqb_neq. intros E.
  apply Hne. apply fam_memcmp_zero_iff; auto; lia.
Qed.

Lemma memcmp_zero_b k n m :
  (m <= length k)%nat -> (m <= length (key n))%nat ->
  firstn m k = firstn m (key n) ->
  negb (fam_memcmp k (key n) m =? 0) = false.
Proof.
  intros H1 H2 E. apply negb_false_iff, Z.eqb_eq.
  apply fam_memcmp_zero_iff; auto.
Qed.

(** [get] at each kind of stopping point. *)
Lemma get_loop_stop h k q f :
  heap_ok cfg h -> stop h k q ->
  get_loop cfg (S f) h k q
  = match toLocal h q with
    | None => Ret TagGptr0
    | Some n =>
        if list_eq_dec Byte.byte_eq_dec
             (firstn (Nat.min (prefix_size n) (length k)) k)
             (firstn (Nat.min (prefix_size n) (length k)) (key n))
        then if (prefix_size n =? length k)%nat then Ret (value n)
             else Fault KeyIndexOutOfRange
        else Ret TagGptr0
    end.
Proof.
  intros Hok [Hz|n Hq Hne|n Hq Hpre Hps|n Hq Hpre Hlt].
  - subst; reflexivity.
  - destruct (Hok _ _ Hq) as (Hlen & _ & _).
    simpl. rewrite (eqb_0_mapped _ _ _ Hq), (deref_Some cfg _ _ _ Hq), Hq.
    simpl. rewrite memcmp_nonzero_b by auto.
    destruct (list_eq_dec _ _ _); [contradiction|reflexivity].
  - destruct (Hok _ _ Hq) as (Hlen & _ & _).
    simpl. rewrite (eqb_0_mapped _ _ _ Hq), (deref_Some cfg _ _ _ Hq), Hq.
    simpl. rewrite Nat.min_l by lia.
    rewrite memcmp_zero_b by (auto; lia).
    rewrite Hps, Nat.eqb_refl. unfold loadTagGptr; rewrite Hq.
    destruct (list_eq_dec _ _ _) as [|N]; [reflexivity|].
    exfalso; apply N. now rewrite <- Hps.
  - destruct (Hok _ _ Hq) as (Hlen & _ & _).
    simpl. rewrite (eqb_0_mapped _ _ _ Hq), (deref_Some cfg _ _ _ Hq), Hq.
    simpl. rewrite Nat.min_r by lia.
    rewrite memcmp_zero_b by (auto; lia).
    replace (prefix_size n =? length k)%nat with false
      by (symmetry; apply Nat.eqb_neq; lia).
    unfold key_at.
    replace (nth_error k (prefix_size n)) with (@None byte)
      by (symmetry; apply nth_error_None; lia).
    simpl. destruct (list_eq_dec _ _ _) as [|N]; [reflexivity|].
    contradiction.
Qed.

Lemma getC_loop_exact h k q n f :
  heap_ok cfg h -> toLocal h q = Some n ->
  firstn (prefix_size n) k = firstn (prefix_size n) (key n) ->
  prefix_size n = length k ->
  getC_loop cfg (S f) h k q = Ret (q, value n).
Proof.
  intros Hok Hq Hpre Hps. destruct (Hok _ _ Hq) as (Hlen & _ & _).
  simpl. rewrite (eqb_0_mapped _ _ _ Hq), (deref_Some cfg _ _ _ Hq).
  simpl. rewrite Nat.min_l by lia.
  rewrite memcmp_zero_b by (auto; lia).
  rewrite Hps, Nat.eqb_refl. unfold loadTagGptr; now rewrite Hq.
Qed.

Lemma getC_loop_other h k q f :
  heap_ok cfg h -> stop h k q ->
  (forall n, toLocal h q = Some n ->
             firstn (prefix_size n) k = firstn (prefix_size n) (key n) ->
             prefix_size n <> length k) ->
  getC_loop cfg (S f) h k q = Ret (0, TagGptr0)
  \/ getC_loop cfg (S f) h k q = Fault KeyIndexOutOfRange.
Proof.
  intros Hok [Hz|n Hq Hne|n Hq Hpre Hps|n Hq Hpre Hlt] Hno.
  - subst; left; reflexivity.
  - destruct (Hok _ _ Hq) as (Hlen & _ & _). left.
    simpl. rewrite (eqb_0_mapped _ _ _ Hq), (deref_Some cfg _ _ _ Hq).
    simpl. now rewrite memcmp_nonzero_b by auto.
  - exfalso; eapply Hno; eauto.
  - destruct (Hok _ _ Hq) as (Hlen & _ & _). right.
    simpl. rewrite (eqb_0_mapped _ _ _ Hq), (deref_Some cfg _ _ _ Hq).
    simpl. rewrite Nat.min_r by lia.
    rewrite memcmp_zero_b by (auto; lia).
    replace (prefix_size n =? length k)%nat with false
      by (symmetry; apply Nat.eqb_neq; lia).
    unfold key_at.
    replace (nth_error k (prefix_size n)) with (@None byte)
      by (symmetry; apply nth_error_None; lia).
    reflexivity.
Qed.

Lemma destroy_loop_exact h k q n f :
  heap_ok cfg h -> toLocal h q = Some n ->
  firstn (prefix_size n) k = firstn (prefix_size n) (key n) ->
  prefix_size n = length k ->
  destroy_loop cfg (S f) h k q
  = Ret (value n, store h q (set_value n (bumped 0 (value n)))).
Proof.
  intros Hok Hq Hpre Hps. destruct (Hok _ _ Hq) as (Hlen & _ & _).
  cbn [destroy_loop].
  rewrite (eqb_0_mapped _ _ _ Hq), (deref_Some cfg _ _ _ Hq).
  cbn [bind]. rewrite Nat.min_l by lia.
  rewrite memcmp_zero_b by (auto; lia).
  rewrite Hps, Nat.eqb_refl. unfold loadTagGptr; rewrite Hq. cbn [bind].
  rewrite (cas_value_loop_hit _ _ _ _ _ Hq). reflexivity.
Qed.

Lemma destroyC_loop_exact h k q n f :
  heap_ok cfg h -> toLocal h q = Some n ->
  firstn (prefix_size n) k = firstn (prefix_size n) (key n) ->
  prefix_size n = length k ->
  destroyC_loop cfg (S f) h k q
  = Ret (q, bumped 0 (value n), value n,
         store h q (set_value n (bumped 0 (value n)))).
Proof.
  intros Hok Hq Hpre Hps. destruct (Hok _ _ Hq) as (Hlen & _ & _).
  cbn [destroyC_loop].
  rewrite (eqb_0_mapped _ _ _ Hq), (deref_Some cfg _ _ _ Hq).
  cbn [bind]. rewrite Nat.min_l by lia.
  rewrite memcmp_zero_b by (auto; lia).
  rewrite Hps, Nat.eqb_refl. unfold loadTagGptr; rewrite Hq. cbn [bind].
  rewrite (cas_value_loop_hit _ _ _ _ _ Hq). reflexivity.
Qed.

Lemma wf_descent t k :
  wf cfg t ->
  exists m p q, (m <= length k)%nat /\
                arrives (heap t) k m None (root t) p q /\ stop (heap t) k q.
Proof.
  intros (Hok & r & Hr & Hps).
  destruct (descent_stops cfg (heap t) k Hok (length k) (root t) r None Hr)
    as (m & p & q & Hm & Ha & Hs); [lia|].
  exists m, p, q; repeat split; auto; lia.
Qed.

(** A cached lookup names a node exactly when the descent ends at a node
    whose whole prefix is the key. *)
Lemma getC_loop_found t k fuel q tq :
  wf cfg t -> (length k + 2 <= fuel)%nat ->
  getC_loop cfg fuel (heap t) k (root t) = Ret (q, tq) -> q <> 0 ->
  exists n, found t k q n /\ value n = tq.
Proof.
  intros Hwf Hf Hg Hq0. pose proof Hwf as (Hok & _).
  destruct (wf_descent t k Hwf) as (m & p & q' & Hm & Ha & Hs).
  replace fuel with (m + S (fuel - m - 1))%nat in Hg by lia.
  rewrite (getC_loop_arrives cfg _ _ _ _ _ _ _ Hok Ha) in Hg.
  destruct Hs as [Hz|n Hq Hne|n Hq Hpre Hps|n Hq Hpre Hlt].
  - subst; simpl in Hg. inversion Hg; congruence.
  - destruct (getC_loop_other (heap t) k q' (fuel - m - 1) Hok) as [E|E].
    + eapply stop_mismatch; eauto.
    + intros n' Hn' Hp' Hs'. rewrite Hq in Hn'; inversion Hn'; subst n'.
      apply Hne. rewrite Nat.min_l by lia. exact Hp'.
    + rewrite E in Hg; inversion Hg; congruence.
    + rewrite E in Hg; discriminate.
  - rewrite (getC_loop_exact _ _ _ _ _ Hok Hq Hpre Hps) in Hg.
    inversion Hg; subst. exists n; split; auto.
    exists m, p; auto.
  - destruct (getC_loop_other (heap t) k q' (fuel - m - 1) Hok) as [E|E].
    + eapply stop_short; eauto.
    + intros n' Hn' Hp' Hs'. rewrite Hq in Hn'; inversion Hn'; subst n'. lia.
    + rewrite E in Hg; inversion Hg; congruence.
    + rewrite E in Hg; discriminate.
Qed.

Lemma get_getC fuel h k q :
  get_loop cfg fuel h k q = (r <- getC_loop cfg fuel h k q ;; Ret (snd r)).
Proof.
  revert q; induction fuel as [|fuel IH]; intros q; simpl; auto.
  destruct (q =? 0); auto.
  destruct (deref cfg h q); simpl; auto.
  destruct (negb _); auto.
  destruct (_ =? _)%nat.
  - destruct (loadTagGptr h q); reflexivity.
  - destruct (key_at _ _); simpl; auto.
    destruct (toLocal h q); simpl; auto.
Qed.

(** A lookup that returns a valid value has found the key's node. *)
Lemma get_loop_found t k fuel tq :
  wf cfg t -> (length k + 2 <= fuel)%nat ->
  get_loop cfg fuel (heap t) k (root t) = Ret tq -> IsValid tq = true ->
  exists q n, found t k q n /\ value n = tq.
Proof.
  intros Hwf Hf Hg Hv. rewrite get_getC in Hg.
  destruct (getC_loop cfg fuel (heap t) k (root t)) as [[q tq']| | |] eqn:E;
    try discriminate.
  simpl in Hg; inversion Hg; subst tq'.
  destruct (Z.eq_dec q 0) as [->|Hq].
  - (* a null pointer comes with the default value *)
    exfalso.
    assert (tq = TagGptr0); [|subst; discriminate].
    clear Hv Hg Hf. revert E. generalize (root t).
    induction fuel as [|fuel IH]; intros g; simpl; [discriminate|].
    destruct (g =? 0) eqn:Eg; [intros H; now inversion H|].
    destruct (deref cfg (heap t) g); simpl; try discriminate.
    destruct (negb _); [intros H; now inversion H|].
    destruct (_ =? _)%nat.
    + destruct (loadTagGptr (heap t) g); simpl; try discriminate.
      intros H; inversion H; subst. apply Z.eqb_neq in Eg; congruence.
    + destruct (key_at _ _); simpl; try discriminate.
      destruct (toLocal (heap t) g); simpl; try discriminate. apply IH.
  - destruct (getC_loop_found t k fuel q tq Hwf Hf E Hq) as (n & Hfound & Hval).
    eauto.
Qed.

Lemma found_get t k q n fuel :
  wf cfg t -> (length k + 2 <= fuel)%nat -> found t k q n ->
  get_loop cfg fuel (heap t) k (root t) = Ret (value n).
Proof.
  intros (Hok & _) Hf (m & p & Hm & Ha & Hq & Hpre & Hps).
  replace fuel with (m + S (fuel - m - 1))%nat by lia.
  rewrite (get_loop_arrives cfg _ _ _ _ _ _ _ Hok Ha).
  rewrite get_getC, (getC_loop_exact _ _ _ _ _ Hok Hq Hpre Hps). reflexivity.
Qed.

Lemma found_getC t k q n fuel :
  wf cfg t -> (length k + 2 <= fuel)%nat -> found t k q n ->
  getC_loop cfg fuel (heap t) k (root t) = Ret (q, value n).
Proof.
  intros (Hok & _) Hf (m & p & Hm & Ha & Hq & Hpre & Hps).
  replace fuel with (m + S (fuel - m - 1))%nat by lia.
  rewrite (getC_loop_arrives cfg _ _ _ _ _ _ _ Hok Ha).
  apply getC_loop_exact; auto.
Qed.

Lemma found_destroy t k q n fuel :
  wf cfg t -> (length k + 2 <= fuel)%nat -> found t k q n ->
  destroy_loop cfg fuel (heap t) k (root t)
  = Ret (value n, store (heap t) q (set_value n (bumped 0 (value n)))).
Proof.
  intros (Hok & _) Hf (m & p & Hm & Ha & Hq & Hpre & Hps).
  replace fuel with (m + S (fuel - m - 1))%nat by lia.
  rewrite (destroy_loop_arrives cfg _ _ _ _ _ _ _ Hok Ha).
  apply destroy_loop_exact; auto.
Qed.

Lemma found_put t k q n fuel v u :
  wf cfg t -> (length k + 2 <= fuel)%nat -> found t k q n ->
  put_loop cfg fuel (heap t) k v u (locals_at None (root t))
  = if u || negb (IsValid (value n))
    then Ret (value n, store (heap t) q (set_value n (bumped v (value n))))
    else Ret (value n, heap t).
Proof.
  intros (Hok & _) Hf (m & p & Hm & Ha & Hq & Hpre & Hps).
  replace fuel with (S (m + (fuel - m - 1)))%nat by lia.
  eapply put_loop_exact; eauto.
Qed.

End Lookup.

(** ** Heaps that differ in value slots only *)

Section Shape.

Variable cfg : Config.

Lemma same_shape_set_value h q n tv :
  toLocal h q = Some n -> same_shape h (store h q (set_value n tv)).
Proof.
  intros Hq x. destruct (Z.eq_dec q x) as [<-|Hne].
  - rewrite Hq, (toLocal_store_same _ _ _ _ Hq). simpl; auto.
  - rewrite toLocal_store_other by auto.
    destruct (toLocal h x); auto.
Qed.

Lemma same_shape_Some h h' x n :
  same_shape h h' -> toLocal h x = Some n ->
  exists n', toLocal h' x = Some n' /\ key n' = key n /\
             prefix_size n' = prefix_size n /\ child n' = child n.
Proof.
  intros Hs Hx. specialize (Hs x). rewrite Hx in Hs.
  destruct (toLocal h' x) as [n'|]; [|contradiction]. eauto.
Qed.

Lemma same_shape_Some_rev h h' x n' :
  same_shape h h' -> toLocal h' x = Some n' ->
  exists n, toLocal h x = Some n /\ key n' = key n /\
            prefix_size n' = prefix_size n /\ child n' = child n.
Proof.
  intros Hs Hx. specialize (Hs x). rewrite Hx in Hs.
  destruct (toLocal h x) as [n|]; [|contradiction]. eauto.
Qed.

Lemma same_shape_heap_ok h h' :
  same_shape h h' -> heap_ok cfg h -> heap_ok cfg h'.
Proof.
  intros Hs Hok x n' Hx.
  destruct (same_shape_Some_rev _ _ _ _ Hs Hx) as (n & Hn & Hk & Hp & Hc).
  destruct (Hok _ _ Hn) as (Hlen & Hmax & Hch).
  split; [rewrite Hk, Hp; auto|]. split; [rewrite Hk; auto|].
  intros b Hb. rewrite Hc in Hb |- *.
  destruct (Hch b Hb) as (mc & Hmc & H1 & H2 & H3).
  destruct (same_shape_Some _ _ _ _ Hs Hmc) as (mc' & Hmc' & Hk' & Hp' & _).
  exists mc'. rewrite Hk', Hp', Hk, Hp. auto.
Qed.

Lemma same_shape_arrives h h' k m p0 q0 p q :
  same_shape h h' -> arrives h k m p0 q0 p q -> arrives h' k m p0 q0 p q.
Proof.
  intros Hs; induction 1 as [|p q n b p' q' m Hq Hpre Hb _ IH]; [constructor|].
  destruct (same_shape_Some _ _ _ _ Hs Hq) as (n' & Hn' & Hk & Hp & Hc).
  apply (arrives_down h' k p q n' b p' q' m); auto.
  - now rewrite Hk, Hp.
  - now rewrite Hp.
  - now rewrite Hc.
Qed.

Lemma wf_set_value t q n tv :
  wf cfg t -> toLocal (heap t) q = Some n ->
  wf cfg (with_heap t (store (heap t) q (set_value n tv))).
Proof.
  intros (Hok & r & Hr & Hps) Hq.
  pose proof (same_shape_set_value _ _ _ tv Hq) as Hs.
  split; simpl.
  - eapply same_shape_heap_ok; eauto.
  - destruct (same_shape_Some _ _ _ _ Hs Hr) as (r' & Hr' & _ & Hp & _).
    exists r'; split; auto. congruence.
Qed.

Lemma found_set_value t k q n tv :
  found t k q n ->
  found (with_heap t (store (heap t) q (set_value n tv))) k q (set_value n tv).
Proof.
  intros (m & p & Hm & Ha & Hq & Hpre & Hps).
  exists m, p; simpl. repeat split; auto.
  - eapply same_shape_arrives; eauto. now apply same_shape_set_value.
  - eapply toLocal_store_same; eauto.
Qed.

Lemma with_heap_same t : with_heap t (heap t) = t.
Proof. now destruct t. Qed.

End Shape.

(** ** Grafting new nodes under a child slot *)

Section Graft.

Variable cfg : Config.

Lemma grafted_old h h' pn par b top news x n :
  grafted h h' pn par b top news -> toLocal h x = Some n -> x <> pn ->
  toLocal h' x = Some n.
Proof.
  intros G Hx Hne. rewrite (gr_rest _ _ _ _ _ _ _ G x Hne); auto.
  intros n' Hin. destruct (gr_news _ _ _ _ _ _ _ G _ _ Hin) as (E & _).
  congruence.
Qed.

Lemma grafted_keeps h h' pn par b top news x n :
  grafted h h' pn par b top news -> toLocal h x = Some n ->
  exists n', toLocal h' x = Some n' /\ key n' = key n /\
             prefix_size n' = prefix_size n /\ value n' = value n.
Proof.
  intros G Hx. destruct (Z.eq_dec x pn) as [->|Hne].
  - rewrite (gr_parent _ _ _ _ _ _ _ G) in Hx. inversion Hx; subst.
    exists (set_child n b top); split; [apply G|]. simpl; auto.
  - exists n; split; auto. eapply grafted_old; eauto.
Qed.

Lemma grafted_cases h h' pn par b top news x n' :
  grafted h h' pn par b top news -> toLocal h' x = Some n' ->
  (x = pn /\ n' = set_child par b top)
  \/ In (x, n') news
  \/ (x <> pn /\ toLocal h x = Some n').
Proof.
  intros G Hx. destruct (Z.eq_dec x pn) as [->|Hne].
  - left; split; auto. rewrite (gr_parent' _ _ _ _ _ _ _ G) in Hx. congruence.
  - right.
    assert (D : (exists n, In (x, n) news) \/ (forall n, ~ In (x, n) news)).
    { clear. induction news as [|[y m] l IH].
      - right; intros n [].
      - destruct (Z.eq_dec x y) as [->|N].
        + left; exists m; now left.
        + destruct IH as [(n & Hn)|Hn].
          * left; exists n; now right.
          * right; intros n [E|I]; [inversion E; congruence|].
            eapply Hn; eauto. }
    destruct D as [(n & Hin)|Hno].
    + left. destruct (gr_news _ _ _ _ _ _ _ G _ _ Hin) as (_ & E).
      rewrite E in Hx; inversion Hx; subst; auto.
    + right; split; auto. rewrite <- (gr_rest _ _ _ _ _ _ _ G x Hne Hno); auto.
Qed.

Lemma child_ok_mono h h' n b :
  (forall x m, toLocal h x = Some m ->
     exists m', toLocal h' x = Some m' /\ key m' = key m /\
                prefix_size m' = prefix_size m) ->
  child_ok h n b -> child_ok h' n b.
Proof.
  intros Hk Hc Hb. destruct (Hc Hb) as (m & Hm & H1 & H2 & H3).
  destruct (Hk _ _ Hm) as (m' & Hm' & Ek & Ep).
  exists m'. rewrite Ek, Ep. auto.
Qed.

(** A graft keeps the heap sound when the new nodes are sound and [top]
    is a proper child for the slot. *)
Lemma grafted_heap_ok h h' pn par b top news :
  heap_ok cfg h -> grafted h h' pn par b top news ->
  (forall x n, In (x, n) news -> node_ok cfg h' n) ->
  child_ok h' (set_child par b top) b ->
  heap_ok cfg h'.
Proof.
  intros Hok G Hnews Htop x n' Hx.
  assert (Hk : forall x m, toLocal h x = Some m ->
     exists m', toLocal h' x = Some m' /\ key m' = key m /\
                prefix_size m' = prefix_size m).
  { intros y m Hy. destruct (grafted_keeps _ _ _ _ _ _ _ _ _ G Hy)
      as (m' & ? & ? & ? & _). eauto. }
  destruct (grafted_cases _ _ _ _ _ _ _ _ _ G Hx) as [(-> & ->)|[Hin|(Hne & Hold)]].
  - destruct (Hok _ _ (gr_parent _ _ _ _ _ _ _ G)) as (Hlen & Hmax & Hch).
    split; [exact Hlen|]. split; [exact Hmax|].
    intros b'. destruct (Byte.byte_eq_dec b' b) as [->|Nb]; [exact Htop|].
    intros Hb. simpl in Hb |- *. rewrite upd_other in Hb |- * by auto.
    exact (child_ok_mono h h' par b' Hk (Hch b') Hb).
  - eapply Hnews; eauto.
  - destruct (Hok _ _ Hold) as (Hlen & Hmax & Hch).
    split; [exact Hlen|]. split; [exact Hmax|].
    intros b'. exact (child_ok_mono h h' n' b' Hk (Hch b')).
Qed.

Lemma length_key_buffer k :
  (length k <= MAX_KEY_LEN cfg)%nat ->
  length (key_buffer cfg k) = MAX_KEY_LEN cfg.
Proof.
  intros H. unfold key_buffer.
  rewrite length_app, length_skipn, repeat_length. lia.
Qed.

Lemma firstn_key_buffer k m :
  (m <= length k)%nat -> firstn m (key_buffer cfg k) = firstn m k.
Proof.
  intros H. unfold key_buffer. rewrite firstn_app.
  replace (m - length k)%nat with 0%nat by lia. simpl. apply app_nil_r.
Qed.

Lemma nth_error_key_buffer k i :
  (i < length k)%nat -> nth_error (key_buffer cfg k) i = nth_error k i.
Proof. intros H. unfold key_buffer. now rewrite nth_error_app1. Qed.

End Graft.

(** ** The effect of put on a well-formed tree *)

Section PutCases.

Variable cfg : Config.

Lemma arrives_last h k m p0 q0 p q :
  arrives h k m p0 q0 p q ->
  (m = 0%nat /\ p = p0 /\ q = q0)
  \/ exists pn b par,
       p = Some (pn, b) /\ toLocal h pn = Some par /\ child par b = q /\
       firstn (prefix_size par) k = firstn (prefix_size par) (key par) /\
       nth_error k (prefix_size par) = Some b.
Proof.
  induction 1 as [|p q n b p' q' m Hq Hpre Hb _ IH]; [left; auto|].
  right. destruct IH as [(Hm & Hp & Hq')|IH]; auto.
  subst. exists q, b, n; auto.
Qed.

Lemma grafted_leaf h h1 pn par b lp n :
  toLocal h pn = Some par -> fresh_store cfg h h1 lp n ->
  grafted h (store h1 pn (set_child par b lp)) pn par b lp [(lp, n)].
Proof.
  intros Hpn Hfs.
  assert (Hne : lp <> pn).
  { intros ->. rewrite (fresh_store_fresh _ _ _ _ _ Hfs) in Hpn. discriminate. }
  pose proof (fresh_store_mapped _ _ _ _ _ _ _ Hfs Hpn) as Hpn1.
  constructor; auto.
  - eapply toLocal_store_same; eauto.
  - intros x m [E|[]]; inversion E; subst. split.
    + eapply fresh_store_fresh; eauto.
    + rewrite toLocal_store_other by congruence.
      eapply fresh_store_new; eauto.
  - intros x Hx Hno. rewrite toLocal_store_other by congruence.
    eapply fresh_store_old; eauto.
    intros ->. eapply Hno; left; reflexivity.
Qed.

Lemma grafted_here h h1 pn par b ip n0 n :
  toLocal h pn = Some par -> fresh_store cfg h h1 ip n0 ->
  grafted h (store (store h1 ip n) pn (set_child par b ip)) pn par b ip
          [(ip, n)].
Proof.
  intros Hpn Hfs.
  assert (Hne : ip <> pn).
  { intros ->. rewrite (fresh_store_fresh _ _ _ _ _ Hfs) in Hpn. discriminate. }
  pose proof (fresh_store_mapped _ _ _ _ _ _ _ Hfs Hpn) as Hpn1.
  constructor; auto.
  - eapply toLocal_store_same. rewrite toLocal_store_other; eauto.
  - intros x m [E|[]]; inversion E; subst. split.
    + eapply fresh_store_fresh; eauto.
    + rewrite toLocal_store_other by congruence.
      eapply toLocal_store_same, fresh_store_new; eauto.
  - intros x Hx Hno. rewrite !toLocal_store_other; try congruence.
    + eapply fresh_store_old; eauto.
      intros ->. eapply Hno; left; reflexivity.
    + intros ->. eapply Hno; left; reflexivity.
Qed.

Lemma grafted_split h h1 h2 pn par b ip lp n0 n l :
  toLocal h pn = Some par ->
  fresh_store cfg h h1 ip n0 -> fresh_store cfg h1 h2 lp l ->
  ip <> lp /\
  grafted h (store (store h2 ip n) pn (set_child par b ip)) pn par b ip
          [(ip, n); (lp, l)].
Proof.
  intros Hpn Hfs Hfl.
  assert (Hne : ip <> pn).
  { intros ->. rewrite (fresh_store_fresh _ _ _ _ _ Hfs) in Hpn. discriminate. }
  pose proof (fresh_store_mapped _ _ _ _ _ _ _ Hfs Hpn) as Hpn1.
  pose proof (fresh_store_mapped _ _ _ _ _ _ _ Hfl Hpn1) as Hpn2.
  assert (Hne2 : lp <> pn).
  { intros ->. rewrite (fresh_store_fresh _ _ _ _ _ Hfl) in Hpn1. discriminate. }
  assert (Hne3 : ip <> lp).
  { intros ->. pose proof (fresh_store_new _ _ _ _ _ Hfs) as E.
    rewrite (fresh_store_fresh _ _ _ _ _ Hfl) in E. discriminate. }
  split; auto.
  pose proof (fresh_store_mapped _ _ _ _ _ _ _ Hfl
                (fresh_store_new _ _ _ _ _ Hfs)) as Hip2.
  constructor; auto.
  - eapply toLocal_store_same. rewrite toLocal_store_other; eauto.
  - intros x m [E|[E|[]]]; inversion E; subst.
    + split; [eapply fresh_store_fresh; eauto|].
      rewrite toLocal_store_other by congruence.
      eapply toLocal_store_same; eauto.
    + split.
      * destruct (toLocal h x) eqn:Ex; auto.
        pose proof (fresh_store_mapped _ _ _ _ _ _ _ Hfs Ex) as M.
        rewrite (fresh_store_fresh _ _ _ _ _ Hfl) in M. discriminate.
      * rewrite !toLocal_store_other by congruence.
        eapply fresh_store_new; eauto.
  - intros x Hx Hno.
    assert (x <> ip) by (intros ->; eapply Hno; left; reflexivity).
    assert (x <> lp) by (intros ->; eapply Hno; right; left; reflexivity).
    rewrite !toLocal_store_other by congruence.
    rewrite (fresh_store_old _ _ _ _ _ x Hfl) by auto.
    eapply fresh_store_old; eauto.
Qed.

End PutCases.

Section PutShape.

Variable cfg : Config.

Lemma arrives_deterministic h k m1 p0 q0 p1 q1 :
  arrives h k m1 p0 q0 p1 q1 ->
  forall m2 p2 q2, arrives h k m2 p0 q0 p2 q2 -> (m1 <= m2)%nat ->
  arrives h k (m2 - m1) p1 q1 p2 q2.
Proof.
  induction 1 as [|p q n b p' q' m Hq Hpre Hb _ IH]; intros m2 p2 q2 H2 Hle.
  - now rewrite Nat.sub_0_r.
  - inversion H2 as [|? ? n0 b0 ? ? ? Hq0 Hpre0 Hb0 Hrest]; subst; [lia|].
    rewrite Hq in Hq0; inversion Hq0; subst n0.
    assert (b0 = b) by congruence. subst b0.
    apply IH; auto. lia.
Qed.

(** A descent that has stopped cannot be continued. *)
Lemma stop_no_step h k q m p p' q' :
  stop h k q -> arrives h k m p q p' q' -> m = 0%nat.
Proof.
  intros Hs Ha. destruct m as [|m]; auto. exfalso.
  inversion Ha as [|? ? n0 b0 ? ? ? Hq0 Hpre0 Hb0 Hrest]; subst.
  pose proof (nth_error_Some_lt _ _ _ Hb0) as Hlt.
  destruct Hs as [Hz|n' Hq Hne|n' Hq Hpre Hps|n' Hq Hpre Hl].
  - subst. rewrite toLocal_null in Hq0. discriminate.
  - rewrite Hq in Hq0; inversion Hq0; subst n'.
    apply Hne. now rewrite Nat.min_l by lia.
  - rewrite Hq in Hq0; inversion Hq0; subst n'. lia.
  - rewrite Hq in Hq0; inversion Hq0; subst n'. lia.
Qed.

Lemma put_loop_shape t k v u fuel :
  wf cfg t -> (length k + 2 <= fuel)%nat ->
  put_shape cfg t k v u
    (put_loop cfg fuel (heap t) k v u (locals_at None (root t))).
Proof.
  intros Hwf Hf. pose proof Hwf as (Hok & r & Hr & Hr0).
  destruct (wf_descent cfg t k Hwf) as (m & p & q & Hm & Ha & Hs).
  replace fuel with (S (m + (fuel - m - 1)))%nat by lia.
  assert (Hnf : (forall n, toLocal (heap t) q = Some n ->
                   firstn (prefix_size n) k = firstn (prefix_size n) (key n) ->
                   prefix_size n <> length k) ->
                forall q1 n1, ~ found t k q1 n1).
  { intros Hno q1 n1 (m1 & p1 & Hm1 & Ha1 & Hq1 & Hpre1 & Hps1).
    assert (Hs1 : stop (heap t) k q1) by (eapply stop_exact; eauto).
    destruct (le_lt_dec m m1) as [L|L].
    - pose proof (arrives_deterministic _ _ _ _ _ _ _ Ha _ _ _ Ha1 L) as D.
      pose proof (stop_no_step _ _ _ _ _ _ _ Hs D) as E.
      rewrite E in D. inversion D; subst. eapply Hno; eauto.
    - assert (L' : (m1 <= m)%nat) by lia.
      pose proof (arrives_deterministic _ _ _ _ _ _ _ Ha1 _ _ _ Ha L') as D.
      pose proof (stop_no_step _ _ _ _ _ _ _ Hs1 D) as E. lia. }
  destruct (arrives_last _ _ _ _ _ _ _ Ha)
    as [(-> & -> & ->)|(pn & b & par & -> & Hpn & Hch & Hpre & Hb)].
  - (* the descent stops at the root, whose prefix is empty *)
    destruct Hs as [Hz|n Hq Hne|n Hq Hpre Hps|n Hq Hpre Hl].
    + subst. rewrite Hz, toLocal_null in Hr. discriminate.
    + rewrite Hq in Hr; inversion Hr; subst n. rewrite Hr0 in Hne.
      simpl in Hne. congruence.
    + eapply ps_found.
      * exists 0%nat, None; repeat split; eauto.
      * eapply put_loop_exact; eauto.
    + rewrite Hq in Hr; inversion Hr; subst n. lia.
  - subst q.
    destruct Hs as [Hz|n Hq Hne|n Hq Hpre' Hps|n Hq Hpre' Hl].
    + eapply ps_slot; eauto.
      * apply Hnf. intros n Hn. rewrite Hz, toLocal_null in Hn. discriminate.
      * left; split; auto. eapply put_loop_null; eauto. now rewrite <- Hz.
    + eapply ps_slot; eauto.
      * apply Hnf. intros n' Hn' Hp' Hs'.
        rewrite Hq in Hn'; inversion Hn'; subst n'.
        apply Hne. rewrite Nat.min_l by lia. exact Hp'.
      * right; right. exists n; split; auto. split; auto.
        eapply put_loop_mismatch; eauto.
    + eapply ps_found.
      * exists m, (Some (pn, b)); repeat split; eauto.
      * eapply put_loop_exact; eauto.
    + eapply ps_slot; eauto.
      * apply Hnf. intros n' Hn' Hp' Hs'.
        rewrite Hq in Hn'; inversion Hn'; subst n'. lia.
      * right; left. exists n; repeat split; auto.
        eapply put_loop_short; eauto.
Qed.

End PutShape.

Section PutOutcome.

Variable cfg : Config.

Lemma mismatch_index_lt k n :
  (prefix_size n <= length (key n))%nat ->
  firstn (Nat.min (prefix_size n) (length k)) k
    <> firstn (Nat.min (prefix_size n) (length k)) (key n) ->
  (first_mismatch k (key n) (Nat.min (length k) (prefix_size n))
   < Nat.min (length k) (prefix_size n))%nat.
Proof.
  intros Hlen Hne.
  pose proof (first_mismatch_le k (key n)
                (Nat.min (length k) (prefix_size n))) as Hle.
  destruct (Nat.eq_dec
              (first_mismatch k (key n) (Nat.min (length k) (prefix_size n)))
              (Nat.min (length k) (prefix_size n))) as [E|]; [|lia].
  exfalso; apply Hne. rewrite (Nat.min_comm (prefix_size n)).
  apply first_mismatch_full; auto; lia.
Qed.

(** Whenever [put] returns on a well-formed tree, it has had one of the
    effects of [put_effect]. *)
Lemma put_loop_effect t k v u fuel r h' :
  wf cfg t -> (length k + 2 <= fuel)%nat ->
  put_loop cfg fuel (heap t) k v u (locals_at None (root t)) = Ret (r, h') ->
  put_effect cfg t k v u r (with_heap t h').
Proof.
  intros Hwf Hf Hput. pose proof Hwf as (Hok & _).
  destruct (put_loop_shape cfg t k v u fuel Hwf Hf)
    as [q n Hfound Hres|m pn b par Hm Ha Hpn Hpre Hb Hnf Hres].
  - rewrite Hres in Hput.
    destruct (u || negb (IsValid (value n))) eqn:E; inversion Hput; subst.
    + now apply pe_swap.
    + rewrite with_heap_same. eapply pe_keep; eauto.
  - destruct Hres as [(Hz & Hres)|[(n & Hq & Hpre' & Hlt & Hres)
                                  |(n & Hq & Hne & Hres)]];
      rewrite Hres in Hput; clear Hres.
    + destruct (make_leaf cfg (heap t) k v 0) as [[lp h1]| | |] eqn:EL;
        try discriminate.
      simpl in Hput; inversion Hput; subst.
      destruct (make_leaf_Ret _ _ _ _ _ _ EL) as (Hfs & Hk).
      eapply pe_graft; eauto.
      * eapply grafted_leaf; eauto.
      * now apply gk_leaf.
    + destruct (make_intermediate cfg (heap t) k 0) as [[ip h1]| | |] eqn:EI;
        try discriminate.
      simpl in Hput; inversion Hput; subst.
      destruct (make_intermediate_Ret _ _ _ _ _ EI) as (Hfs & Hk).
      eapply pe_graft; eauto.
      * eapply grafted_here; eauto.
      * eapply gk_here; eauto.
    + destruct (make_intermediate cfg (heap t) k 0) as [[ip h1]| | |] eqn:EI;
        try discriminate.
      simpl in Hput.
      destruct (make_leaf cfg h1 k v 0) as [[lp h2]| | |] eqn:EL;
        try discriminate.
      simpl in Hput; inversion Hput; subst.
      destruct (make_intermediate_Ret _ _ _ _ _ EI) as (Hfs & Hk).
      destruct (make_leaf_Ret _ _ _ _ _ _ EL) as (Hfl & _).
      destruct (Hok _ _ Hq) as (Hlen & _ & _).
      pose proof (mismatch_index_lt k n Hlen Hne) as Hi.
      destruct (lt_nth_error_Some k
                  (first_mismatch k (key n)
                     (Nat.min (length k) (prefix_size n)))) as [kb Hkb]; [lia|].
      rewrite (nth_error_nth_default _ _ _ x00%byte Hkb).
      destruct (grafted_split cfg (heap t) h1 h2 pn par b ip lp _
                  (split_node_leaf cfg k n
                     (first_mismatch k (key n)
                        (Nat.min (length k) (prefix_size n)))
                     kb lp (child par b)) _ Hpn Hfs Hfl) as (Hne' & G).
      eapply pe_graft; eauto.
      eapply gk_split; eauto.
Qed.

(** With a heap that is not under pressure, [put] returns. *)
Lemma put_loop_returns t k v u fuel :
  wf cfg t -> (length k + 2 <= fuel)%nat ->
  pressure (heap t) = [] -> 0 < alloc_retry_cnt cfg ->
  (length k <= MAX_KEY_LEN cfg)%nat ->
  exists r h',
    put_loop cfg fuel (heap t) k v u (locals_at None (root t)) = Ret (r, h')
    /\ pressure h' = [].
Proof.
  intros Hwf Hf Hp Hc Hk.
  destruct (put_loop_shape cfg t k v u fuel Hwf Hf)
    as [q n Hfound Hres|m pn b par Hm Ha Hpn Hpre Hb Hnf Hres].
  - rewrite Hres. destruct (u || negb (IsValid (value n))); eauto.
    eexists _, _; split; [reflexivity|]. now rewrite pressure_store.
  - destruct Hres as [(Hz & Hres)|[(n & Hq & Hpre' & Hlt & Hres)
                                  |(n & Hq & Hne & Hres)]];
      rewrite Hres; clear Hres.
    + destruct (make_leaf_healthy cfg (heap t) k v Hp Hc Hk)
        as (lp & h1 & -> & Hp1).
      simpl. eexists _, _; split; [reflexivity|]. now rewrite pressure_store.
    + destruct (make_intermediate_healthy cfg (heap t) k Hp Hc Hk)
        as (ip & h1 & -> & Hp1).
      simpl. eexists _, _; split; [reflexivity|].
      now rewrite !pressure_store.
    + destruct (make_intermediate_healthy cfg (heap t) k Hp Hc Hk)
        as (ip & h1 & -> & Hp1).
      destruct (make_leaf_healthy cfg h1 k v Hp1 Hc Hk)
        as (lp & h2 & E & Hp2).
      simpl. rewrite E. simpl.
      eexists _, _; split; [reflexivity|]. now rewrite !pressure_store.
Qed.

(** With every allocation retry failing and no node for the key, [put]
    never returns: it stops at the assertion on the new pointer, or,
    without assertions, goes on to dereference the null pointer. *)
Lemma put_loop_exhausted t k v u fuel :
  wf cfg t -> (length k + 2 <= fuel)%nat ->
  exhausted (Z.to_nat (alloc_retry_cnt cfg)) (heap t) ->
  (forall q n, ~ found t k q n) ->
  put_loop cfg fuel (heap t) k v u (locals_at None (root t))
  = if NDEBUG cfg then Fault NullDeref else AssertFail.
Proof.
  intros Hwf Hf He Hnone.
  destruct (put_loop_shape cfg t k v u fuel Hwf Hf)
    as [q n Hfound Hres|m pn b par Hm Ha Hpn Hpre Hb Hnf Hres].
  - exfalso; eapply Hnone; eauto.
  - destruct Hres as [(Hz & Hres)|[(n & Hq & Hpre' & Hlt & Hres)
                                  |(n & Hq & Hne & Hres)]];
      rewrite Hres; clear Hres.
    + rewrite make_leaf_exhausted by auto. now destruct (NDEBUG cfg).
    + rewrite make_intermediate_exhausted by auto. now destruct (NDEBUG cfg).
    + rewrite make_intermediate_exhausted by auto. now destruct (NDEBUG cfg).
Qed.

End PutOutcome.

(** ** put keeps the tree well formed *)

Section PutPreserves.

Variable cfg : Config.

Lemma firstn_eq_nth_error {A} (a b : list A) m i :
  firstn m a = firstn m b -> (i < m)%nat -> nth_error a i = nth_error b i.
Proof.
  intros H Hi.
  pose proof (nth_error_firstn m a i) as Fa.
  pose proof (nth_error_firstn m b i) as Fb.
  apply Nat.ltb_lt in Hi. rewrite Hi in Fa, Fb. congruence.
Qed.

(** The split point lies beyond the parent's prefix. *)
Lemma split_point_below h k par b n :
  heap_ok cfg h -> toLocal h (child par b) = Some n ->
  (exists pn, toLocal h pn = Some par) ->
  firstn (prefix_size par) k = firstn (prefix_size par) (key par) ->
  nth_error k (prefix_size par) = Some b ->
  (first_mismatch k (key n) (Nat.min (length k) (prefix_size n))
   < Nat.min (length k) (prefix_size n))%nat ->
  (prefix_size par
   < first_mismatch k (key n) (Nat.min (length k) (prefix_size n)))%nat.
Proof.
  intros Hok Hq (pn & Hpn) Hpre Hb Hi.
  destruct (Hok _ _ Hpn) as (_ & _ & Hch).
  destruct (Hok _ _ Hq) as (Hlen & _ & _).
  assert (Hnz : child par b <> 0)
    by (apply toLocal_Some_pos in Hq; lia).
  destruct (Hch b Hnz) as (n' & Hn' & Hps & Hpre' & Hb').
  rewrite Hq in Hn'; inversion Hn'; subst n'.
  set (i := first_mismatch k (key n) (Nat.min (length k) (prefix_size n))) in *.
  destruct (first_mismatch_differs k (key n)
              (Nat.min (length k) (prefix_size n))) as (x & y & Hx & Hy & Hxy);
    try lia. fold i in Hx, Hy.
  destruct (lt_eq_lt_dec i (prefix_size par)) as [[L|E]|G]; auto; exfalso.
  - apply Hxy.
    assert (E1 : nth_error k i = nth_error (key n) i).
    { apply (firstn_eq_nth_error _ _ (prefix_size par)); auto. congruence. }
    congruence.
  - rewrite E in Hx, Hy. congruence.
Qed.

Lemma put_effect_wf t k v u r t' :
  wf cfg t -> put_effect cfg t k v u r t' -> wf cfg t'.
Proof.
  intros Hwf He. pose proof Hwf as (Hok & rt & Hrt & Hrt0).
  destruct He as [q n (m & p & _ & _ & Hq & _) _| |
                  m pn b par top news h' Hm Ha Hpre Hb G K Hk]; auto.
  - now apply wf_set_value.
  - pose proof (nth_error_Some_lt _ _ _ Hb) as Hlt.
    assert (Hleaf : node_ok cfg h' (leaf_node cfg k v)).
    { split; [|split].
      - simpl. rewrite length_key_buffer; auto.
      - simpl. now apply length_key_buffer.
      - intros b' Hb'. simpl in Hb'. congruence. }
    assert (Htop : forall nt, toLocal h' top = Some nt ->
                     key nt = key_buffer cfg k ->
                     (prefix_size par < prefix_size nt)%nat ->
                     child_ok h' (set_child par b top) b).
    { intros nt Hnt Hkey Hps _. exists nt. simpl. rewrite upd_same.
      split; auto. split; auto. rewrite Hkey. split.
      - rewrite firstn_key_buffer by lia. auto.
      - rewrite nth_error_key_buffer by lia. auto. }
    split; simpl.
    + destruct K as [lp Hz|n ip Hq Hpre' Hl|n ip lp i kb Hq Hi Hil Hkb Hne].
      * eapply grafted_heap_ok; eauto.
        -- intros x n [E|[]]; inversion E; subst. auto.
        -- apply (Htop (leaf_node cfg k v)); auto.
           apply (gr_news _ _ _ _ _ _ _ G); now left.
      * destruct (Hok _ _ Hq) as (Hlen & _ & _).
        destruct (grafted_keeps _ _ _ _ _ _ _ _ _ G Hq)
          as (n' & Hn' & Ek & Ep & _).
        eapply grafted_heap_ok; eauto.
        -- intros x nx [E|[]]; inversion E; subst. split; [|split].
           ++ simpl. rewrite length_key_buffer; auto.
           ++ simpl. now apply length_key_buffer.
           ++ intros b' Hb'. simpl in Hb' |- *.
              destruct (Byte.byte_eq_dec b' (nth (length k) (key n) x00%byte))
                as [->|Nb].
              ** rewrite upd_same. exists n'. rewrite Ek, Ep.
                 split; auto. split; auto. split.
                 --- rewrite firstn_key_buffer by lia. auto.
                 --- apply nth_error_nth'. lia.
              ** rewrite upd_other in Hb' by auto. congruence.
        -- apply (Htop (split_node_here cfg k v n (child par b))); auto.
           apply (gr_news _ _ _ _ _ _ _ G); now left.
      * destruct (Hok _ _ Hq) as (Hlen & _ & _).
        destruct (grafted_keeps _ _ _ _ _ _ _ _ _ G Hq)
          as (n' & Hn' & Ek & Ep & _).
        assert (Hpi : (prefix_size par < i)%nat).
        { subst i. eapply split_point_below; eauto.
          exists pn. apply G. }
        eapply grafted_heap_ok; eauto.
        -- intros x nx [E|[E|[]]]; inversion E; subst x nx; auto.
           split; [|split].
           ++ simpl. rewrite length_key_buffer; auto. lia.
           ++ simpl. now apply length_key_buffer.
           ++ intros b' Hb'. simpl in Hb' |- *.
              destruct (Byte.byte_eq_dec b' (nth i (key n) x00%byte))
                as [->|Nb].
              ** rewrite upd_same. exists n'. rewrite Ek, Ep.
                 split; auto. split; [lia|]. split.
                 --- rewrite firstn_key_buffer by lia. subst i.
                     symmetry. apply first_mismatch_prefix.
                 --- apply nth_error_nth'. lia.
              ** rewrite upd_other in Hb' |- * by auto.
                 destruct (Byte.byte_eq_dec b' kb) as [->|Nk].
                 --- rewrite upd_same.
                     exists (leaf_node cfg k v). split.
                     +++ apply (gr_news _ _ _ _ _ _ _ G). right; now left.
                     +++ simpl. split; [lia|]. split; auto.
                         rewrite nth_error_key_buffer by lia. auto.
                 --- rewrite upd_other in Hb' by auto. congruence.
        -- apply (Htop (split_node_leaf cfg k n i kb lp (child par b))); auto.
           apply (gr_news _ _ _ _ _ _ _ G); now left.
    + destruct (grafted_keeps _ _ _ _ _ _ _ _ _ G Hrt)
        as (rt' & Hrt' & _ & Ep & _).
      exists rt'; split; auto. congruence.
Qed.

End PutPreserves.

(** ** Looking up the key that was just put *)

Section PutThenGet.

Variable cfg : Config.

Lemma arrives_snoc_inv h k m p0 q0 pn b q :
  arrives h k m p0 q0 (Some (pn, b)) q ->
  (m = 0%nat /\ p0 = Some (pn, b) /\ q0 = q)
  \/ exists m' p1 par,
       m = S m' /\ arrives h k m' p0 q0 p1 pn /\
       toLocal h pn = Some par /\ child par b = q.
Proof.
  remember (Some (pn, b)) as p eqn:Ep.
  induction 1 as [|p q1 n b1 p' q' m Hq Hpre Hb Hrest IH]; [left; auto|].
  right. destruct (IH Ep) as [(-> & E1 & E2)|(m' & p1 & par & -> & Ha & Hpn & Hc)].
  - subst p'. inversion E1; subst.
    exists 0%nat, p, n. repeat split; auto. constructor.
  - exists (S m'), p1, par. repeat split; auto.
    econstructor; eauto.
Qed.

Lemma arrives_ps_le h k m p q p1 q1 n n1 :
  heap_ok cfg h -> arrives h k m p q p1 q1 ->
  toLocal h q = Some n -> toLocal h q1 = Some n1 ->
  (prefix_size n + m <= prefix_size n1)%nat.
Proof.
  intros Hok Ha; revert n.
  induction Ha as [|p q n0 b p' q' m Hq Hpre Hb Hrest IH]; intros n Hn Hn1.
  - rewrite Hn in Hn1; inversion Hn1; lia.
  - rewrite Hq in Hn; inversion Hn; subst n0.
    destruct (Hok _ _ Hq) as (_ & _ & Hch).
    assert (Hnz : child n b <> 0).
    { inversion Hrest as [|? ? nc ? ? ? ? Hc]; subst.
      - apply toLocal_Some_pos in Hn1; lia.
      - apply toLocal_Some_pos in Hc; lia. }
    destruct (Hch b Hnz) as (mc & Hmc & Hps & _).
    specialize (IH mc Hmc Hn1). lia.
Qed.

(** A descent only reads nodes whose prefix is shorter than that of the
    node it arrives at. *)
Lemma arrives_frame h h' k m p q p1 q1 n1 :
  heap_ok cfg h -> arrives h k m p q p1 q1 ->
  toLocal h q1 = Some n1 ->
  (forall x nx, toLocal h x = Some nx ->
                (prefix_size nx < prefix_size n1)%nat ->
                toLocal h' x = Some nx) ->
  arrives h' k m p q p1 q1.
Proof.
  intros Hok Ha Hn1 Hsame.
  induction Ha as [|p q n0 b p' q' m Hq Hpre Hb Hrest IH]; [constructor|].
  pose proof (arrives_ps_le _ _ _ _ _ _ _ _ _ Hok
                (arrives_down h k p q n0 b p' q' m Hq Hpre Hb Hrest) Hq Hn1)
    as L.
  apply (arrives_down h' k p q n0 b p' q' m); auto.
  apply Hsame; auto. lia.
Qed.

Lemma get_loop_exact h k q n f :
  heap_ok cfg h -> toLocal h q = Some n ->
  firstn (prefix_size n) k = firstn (prefix_size n) (key n) ->
  prefix_size n = length k ->
  get_loop cfg (S f) h k q = Ret (value n).
Proof.
  intros. rewrite get_getC, (getC_loop_exact cfg h k q n); auto.
Qed.

(** After a put that stores (any update, or an insertion), the key's
    lookup returns the value that was put. *)
Lemma put_effect_get t k v u r t' fuel :
  wf cfg t -> put_effect cfg t k v u r t' ->
  u = true \/ IsValid r = false ->
  (length k + 2 <= fuel)%nat ->
  exists tg, get_loop cfg fuel (heap t') k (root t') = Ret (mkTagGptr v tg).
Proof.
  intros Hwf He Hu Hf.
  pose proof (put_effect_wf cfg _ _ _ _ _ _ Hwf He) as Hwf'.
  pose proof Hwf as (Hok & _). pose proof Hwf' as (Hok' & _).
  destruct He as [q n Hfound _|q n Hfound Hkeep|
                  m pn b par top news h' Hm Ha Hpre Hb G K Hk].
  - exists (wrap64 (tag (value n) + 1)).
    rewrite (found_get cfg _ k q (set_value n (bumped v (value n))));
      auto using found_set_value.
  - exfalso. apply orb_false_iff in Hkeep as (-> & Hv).
    apply negb_false_iff in Hv. destruct Hu; congruence.
  - simpl in *.
    pose proof (nth_error_Some_lt _ _ _ Hb) as Hlt.
    destruct (arrives_snoc_inv _ _ _ _ _ _ _ _ Ha)
      as [(_ & E & _)|(m' & p1 & par' & -> & Ha' & Hpn & Hc)];
      [discriminate|].
    rewrite (gr_parent _ _ _ _ _ _ _ G) in Hpn. inversion Hpn; subst par'.
    assert (Ha1 : arrives h' k (S m') None (root t) (Some (pn, b)) top).
    { replace (S m') with (m' + 1)%nat by lia.
      eapply arrives_trans.
      - apply (arrives_frame (heap t) h' k m' None (root t) p1 pn par Hok Ha'
                 (gr_parent _ _ _ _ _ _ _ G)).
        intros x nx Hx Hps. eapply grafted_old; eauto.
        intros ->. rewrite (gr_parent _ _ _ _ _ _ _ G) in Hx.
        inversion Hx; subst. lia.
      - eapply (arrives_down h' k p1 pn (set_child par b top) b).
        + apply G.
        + exact Hpre.
        + exact Hb.
        + simpl. rewrite upd_same. constructor. }
    destruct K as [lp Hz|n ip Hq Hpre' Hl|n ip lp i kb Hq Hi Hil Hkb Hne].
    + exists 0. replace fuel with (S m' + S (fuel - m' - 2))%nat by lia.
      rewrite (get_loop_arrives cfg _ _ _ _ _ _ _ Hok' Ha1).
      destruct (gr_news _ _ _ _ _ _ _ G lp (leaf_node cfg k v)) as (_ & Hlp);
        [now left|].
      rewrite (get_loop_exact _ _ _ _ _ Hok' Hlp); auto.
      simpl. now rewrite firstn_key_buffer.
    + exists 0. replace fuel with (S m' + S (fuel - m' - 2))%nat by lia.
      rewrite (get_loop_arrives cfg _ _ _ _ _ _ _ Hok' Ha1).
      destruct (gr_news _ _ _ _ _ _ _ G ip
                  (split_node_here cfg k v n (child par b))) as (_ & Hip);
        [now left|].
      rewrite (get_loop_exact _ _ _ _ _ Hok' Hip); auto.
      simpl. now rewrite firstn_key_buffer.
    + exists 0.
      destruct (gr_news _ _ _ _ _ _ _ G ip
                  (split_node_leaf cfg k n i kb lp (child par b)))
        as (_ & Hip); [now left|].
      destruct (gr_news _ _ _ _ _ _ _ G lp (leaf_node cfg k v)) as (_ & Hlp);
        [right; now left|].
      destruct (Hok _ _ Hq) as (Hlen & _ & _).
      destruct (first_mismatch_differs k (key n)
                  (Nat.min (length k) (prefix_size n)))
        as (x & y & Hx & Hy & Hxy); try lia.
      rewrite <- Hi in Hx, Hy.
      assert (x = kb) by congruence. subst x.
      assert (Hy' : nth i (key n) x00%byte = y)
        by (now apply nth_error_nth_default).
      assert (Ha2 : arrives h' k (S m' + 1) None (root t) (Some (ip, kb)) lp).
      { eapply arrives_trans; eauto.
        eapply (arrives_down h' k _ ip
                  (split_node_leaf cfg k n i kb lp (child par b)) kb).
        - exact Hip.
        - simpl. rewrite firstn_key_buffer by lia. reflexivity.
        - simpl. exact Hkb.
        - simpl. rewrite Hy', upd_other by auto. rewrite upd_same.
          constructor. }
      assert (S m' <= length k)%nat by lia.
      assert (Hmk : (S m' + 1 <= length k)%nat).
      { (* the split point lies beyond the parent's prefix *)
        destruct Hwf' as (_ & rt' & Hrt' & Hrt0'). simpl in Hrt'.
        pose proof (arrives_ps_le _ _ _ _ _ _ _ _ _ Hok' Ha1 Hrt' Hip) as P.
        simpl in P. lia. }
      replace fuel with (S m' + 1 + S (fuel - m' - 3))%nat by lia.
      rewrite (get_loop_arrives cfg _ _ _ _ _ _ _ Hok' Ha2).
      rewrite (get_loop_exact _ _ _ _ _ Hok' Hlp); auto.
      simpl. now rewrite firstn_key_buffer.
Qed.

End PutThenGet.

(** ** Building trees *)

Section Building.

Variable cfg : Config.

Lemma heap_ok_no_cells h : cells h = [] -> heap_ok cfg h.
Proof.
  intros E q n H. apply toLocal_Some_bound in H. rewrite E in H.
  simpl in H. lia.
Qed.

Lemma extended_keeps h h' ptr x n :
  extended cfg h h' ptr -> toLocal h x = Some n -> toLocal h' x = Some n.
Proof.
  intros He Hx. rewrite (extended_old cfg _ _ _ x He); auto.
  intros ->. rewrite (extended_fresh cfg _ _ _ He) in Hx. discriminate.
Qed.

(** The constructor builds a well-formed tree over a sound heap. *)
Lemma wf_new h t :
  heap_ok cfg h -> RadixTree_new cfg h 0 = Ret t -> wf cfg t.
Proof.
  intros Hok. unfold RadixTree_new. simpl.
  destruct (Alloc cfg h) as [r h1] eqn:EA.
  pose proof (Alloc_cases cfg h) as HA. rewrite EA in HA; simpl in HA.
  destruct HA as [(-> & _)|(Hext & _)].
  - unfold assert, deref; simpl. destruct (NDEBUG cfg); discriminate.
  - pose proof (extended_ptr_pos _ _ _ _ Hext) as Hpos.
    unfold assert, deref.
    replace (r =? 0) with false by (symmetry; apply Z.eqb_neq; lia).
    rewrite (extended_new _ _ _ _ Hext); simpl.
    assert (Hb : (if NDEBUG cfg then Ret tt else Ret tt) = @Ret unit tt)
      by (destruct (NDEBUG cfg); auto).
    rewrite Hb; simpl. intros E; inversion E; subst t; clear E.
    pose proof (extended_new _ _ _ _ Hext) as Hnew.
    split; simpl.
    + intros x n Hx. destruct (Z.eq_dec r x) as [<-|Hne].
      * rewrite (toLocal_store_same _ _ _ _ Hnew) in Hx.
        inversion Hx; subst n; clear Hx. split; [|split]; simpl.
        -- lia.
        -- apply repeat_length.
        -- intros b Hb'. simpl in Hb'. congruence.
      * rewrite toLocal_store_other in Hx by auto.
        rewrite (extended_old _ _ _ _ x Hext) in Hx by congruence.
        destruct (Hok _ _ Hx) as (Hlen & Hmax & Hch).
        split; [exact Hlen|]. split; [exact Hmax|].
        intros b. apply (child_ok_mono h); auto.
        intros y m Hy. exists m. split; auto.
        rewrite toLocal_store_other.
        -- eapply extended_keeps; eauto.
        -- intros <-. rewrite (extended_fresh _ _ _ _ Hext) in Hy.
           discriminate.
    + eexists; split; [eapply toLocal_store_same; eauto|reflexivity].
Qed.

Lemma assert_key_ok k : key_size_ok cfg k = true ->
  assert cfg (key_size_ok cfg k) = Ret tt.
Proof. intros ->. apply assert_true. Qed.

Lemma assert_Ret {A} c (f : outcome A) r :
  (_ <- assert cfg c ;; f) = Ret r -> f = Ret r.
Proof.
  unfold assert. destruct (NDEBUG cfg); simpl; auto.
  destruct c; simpl; auto. discriminate.
Qed.

Lemma assert_bind {A} c (f : outcome A) :
  assert cfg c = Ret tt -> (_ <- assert cfg c ;; f) = f.
Proof. now intros ->. Qed.

Lemma assert_Ret_passes {A} c (f : outcome A) r :
  (_ <- assert cfg c ;; f) = Ret r -> assert cfg c = Ret tt.
Proof.
  unfold assert. destruct (NDEBUG cfg); simpl; auto.
  destruct c; simpl; auto. discriminate.
Qed.

Lemma put_unfold fuel t k v u :
  put cfg fuel t k v u
  = (_ <- assert cfg (key_size_ok cfg k) ;;
     '(r, h') <- put_loop cfg fuel (heap t) k v u (locals_at None (root t)) ;;
     Ret (r, with_heap t h')).
Proof. reflexivity. Qed.

(** [put] keeps the tree well formed. *)
Lemma wf_put fuel t k v u r t' :
  wf cfg t -> (length k + 2 <= fuel)%nat ->
  put cfg fuel t k v u = Ret (r, t') -> wf cfg t'.
Proof.
  intros Hwf Hf Hput. rewrite put_unfold in Hput.
  apply assert_Ret in Hput.
  destruct (put_loop cfg fuel (heap t) k v u (locals_at None (root t)))
    as [[r' h']| | |] eqn:E; try discriminate.
  simpl in Hput; inversion Hput; subst.
  eapply put_effect_wf; eauto. eapply put_loop_effect; eauto.
Qed.

Lemma destroy_unfold fuel t k :
  destroy cfg fuel t k
  = (_ <- assert cfg (key_size_ok cfg k) ;;
     '(old, h') <- destroy_loop cfg fuel (heap t) k (root t) ;;
     Ret (old, with_heap t h')).
Proof. reflexivity. Qed.

End Building.

(** ** destroy and the cached variants, in terms of the lookup *)

Section Variants.

Variable cfg : Config.

Lemma destroyC_loop_getC f h k q0 :
  destroyC_loop cfg f h k q0 = (r <- getC_loop cfg f h k q0 ;; tombstone h r).
Proof.
  revert q0; induction f as [|f IH]; intros q0; [reflexivity|].
  cbn [destroyC_loop getC_loop].
  destruct (q0 =? 0) eqn:E0; [reflexivity|].
  unfold deref. destruct (toLocal h q0) as [n|] eqn:Eq.
  - cbn [bind]. destruct (negb _); [reflexivity|].
    destruct (_ =? _)%nat.
    + unfold loadTagGptr. rewrite Eq. cbn [bind tombstone].
      rewrite E0, Eq, (cas_value_loop_hit _ _ _ _ _ Eq). reflexivity.
    + destruct (key_at _ _); cbn [bind]; auto.
      cbn [read_slot]. rewrite Eq. cbn [bind]. apply IH.
  - destruct (NDEBUG cfg); reflexivity.
Qed.

Lemma destroy_destroyC f h k q0 :
  destroy_loop cfg f h k q0
  = (r <- destroyC_loop cfg f h k q0 ;;
     let '(_, _, old, h') := r in Ret (old, h')).
Proof.
  revert q0; induction f as [|f IH]; intros q0; [reflexivity|].
  cbn [destroyC_loop destroy_loop].
  destruct (q0 =? 0) eqn:E0; [reflexivity|].
  destruct (deref cfg h q0) as [n| | |]; cbn [bind]; auto.
  destruct (negb _); [reflexivity|].
  destruct (_ =? _)%nat.
  - destruct (loadTagGptr h q0); cbn [bind]; auto.
    destruct (cas_value_loop (S f) h q0 a 0) as [[[o nv] h']| | |];
      reflexivity.
  - destruct (key_at _ _); cbn [bind]; auto.
    destruct (read_slot h _); cbn [bind]; auto.
Qed.

Lemma destroyC_loop_effect f h k q0 q nv old h' :
  destroyC_loop cfg f h k q0 = Ret (q, nv, old, h') -> value_bump 0 h h'.
Proof.
  rewrite destroyC_loop_getC.
  destruct (getC_loop cfg f h k q0) as [[q1 tq]| | |]; try discriminate.
  cbn [bind tombstone]. destruct (q1 =? 0).
  - intros E; inversion E; subst. constructor.
  - destruct (toLocal h q1) eqn:Eq; try discriminate.
    intros E; inversion E; subst. now constructor.
Qed.

Lemma destroy_loop_effect f h k q0 old h' :
  destroy_loop cfg f h k q0 = Ret (old, h') -> value_bump 0 h h'.
Proof.
  rewrite destroy_destroyC.
  destruct (destroyC_loop cfg f h k q0) as [[[[q nv] o] h1]| | |] eqn:E;
    try discriminate.
  cbn [bind]. intros H; inversion H; subst.
  eapply destroyC_loop_effect; eauto.
Qed.

Lemma value_bump_same_shape g h h' : value_bump g h h' -> same_shape h h'.
Proof.
  intros [|q n Hq].
  - intros x. destruct (toLocal h x); auto.
  - now apply same_shape_set_value.
Qed.

Lemma value_bump_wf g t h' :
  wf cfg t -> value_bump g (heap t) h' -> wf cfg (with_heap t h').
Proof.
  intros Hwf [|q n Hq].
  - now rewrite with_heap_same.
  - now apply wf_set_value.
Qed.

Lemma wf_destroy fuel t k r t' :
  wf cfg t -> destroy cfg fuel t k = Ret (r, t') -> wf cfg t'.
Proof.
  intros Hwf Hd. rewrite destroy_unfold in Hd. apply assert_Ret in Hd.
  destruct (destroy_loop cfg fuel (heap t) k (root t)) as [[o h']| | |] eqn:E;
    try discriminate.
  simpl in Hd; inversion Hd; subst.
  eapply value_bump_wf; eauto. eapply destroy_loop_effect; eauto.
Qed.

Lemma put_descend_putC f h k v l :
  put_descend cfg f h k v true l
  = (r <- putC_descend cfg f h k v l ;; forget_descent r).
Proof.
  revert l; induction f as [|f IH]; intros l; [reflexivity|].
  cbn [put_descend putC_descend].
  destruct (l_q l =? 0); [reflexivity|].
  destruct (deref cfg h (l_q l)) as [n| | |]; cbn [bind]; auto.
  destruct (_ <? _)%nat; [reflexivity|].
  destruct (_ =? _)%nat.
  - destruct (loadTagGptr _ _); cbn [bind]; auto.
    destruct (cas_value_loop (S f) _ _ _ _) as [[[o nv] h']| | |];
      reflexivity.
  - destruct (key_at _ _); cbn [bind]; auto.
    destruct (read_slot h _); cbn [bind]; auto.
Qed.

Lemma put_finish_putC again againC k v h d :
  (forall h l, again h l = (r <- againC h l ;; forget r)) ->
  (r <- forget_descent (d, h) ;;
   let '(d', h') := r in put_finish cfg again k v h' d')
  = (r <- putC_finish cfg againC k v h d ;; forget r).
Proof.
  intros Hag. destruct d as [q nv old|l]; [reflexivity|].
  cbn [forget_descent bind put_finish putC_finish].
  destruct (l_q l =? 0).
  - destruct (make_leaf cfg h k v _) as [[lp h1]| | |]; cbn [bind]; auto.
    destruct (cas64 h1 _ _ _) as [[seen h2]| | |]; cbn [bind]; auto.
    destruct (seen =? _); [reflexivity|apply Hag].
  - destruct (make_intermediate cfg h k _) as [[ip h1]| | |]; cbn [bind]; auto.
    destruct (_ =? _)%nat.
    + destruct (load_node h1 ip); cbn [bind]; auto.
      destruct (cas64 _ _ _ _) as [[seen h2]| | |]; cbn [bind]; auto.
      destruct (seen =? _); [reflexivity|apply Hag].
    + destruct (make_leaf cfg h1 k v _) as [[lp h2]| | |]; cbn [bind]; auto.
      destruct (load_node h2 ip); cbn [bind]; auto.
      destruct (key_at _ _); cbn [bind]; auto.
      destruct (cas64 _ _ _ _) as [[seen h3]| | |]; cbn [bind]; auto.
      destruct (seen =? _); [reflexivity|apply Hag].
Qed.

Lemma put_loop_putC f h k v l :
  put_loop cfg f h k v true l = (r <- putC_loop cfg f h k v l ;; forget r).
Proof.
  revert h l; induction f as [|f IH]; intros h l; [reflexivity|].
  rewrite put_loop_unfold. cbn [putC_loop].
  rewrite put_descend_putC.
  destruct (putC_descend cfg (S f) h k v l) as [[d h1]| | |]; cbn [bind]; auto.
  pose proof (put_finish_putC
                (fun h l => put_loop cfg f h k v true l)
                (fun h l => putC_loop cfg f h k v l) k v h1 d IH) as P.
  destruct d as [q nv old|l1]; cbn [forget_descent bind] in P |- *; exact P.
Qed.

End Variants.

(** * The properties of the specification *)

Section Stated.

Variable cfg : Config.

Lemma get_unfold fuel t k :
  get cfg fuel t k
  = (_ <- assert cfg (key_size_ok cfg k) ;;
     get_loop cfg fuel (heap t) k (root t)).
Proof. reflexivity. Qed.

Lemma getC_unfold fuel t k :
  getC cfg fuel t k
  = (_ <- assert cfg (key_size_ok cfg k) ;;
     getC_loop cfg fuel (heap t) k (root t)).
Proof. reflexivity. Qed.

(** C1 (round trip).  On a well-formed tree, for a non-empty key of at
    most MAX_KEY_LEN bytes and a value other than 0: with a heap that is
    not under pressure [put] with update on returns, and after any such
    [put] that returns, [get] of the key returns a valid tagged value
    whose gptr is the value put. *)
Theorem put_get_roundtrip (t : RadixTree) (k : list byte) (v : Gptr)
  (fuel : nat) :
  wf cfg t -> key_size_ok cfg k = true -> v <> 0 ->
  (length k + 2 <= fuel)%nat ->
  (pressure (heap t) = [] -> 0 < alloc_retry_cnt cfg ->
   exists r t', put cfg fuel t k v true = Ret (r, t'))
  /\ (forall r t', put cfg fuel t k v true = Ret (r, t') ->
      exists tq, get cfg fuel t' k = Ret tq /\ IsValid tq = true /\ gptr tq = v).
Proof.
  intros Hwf Hk Hv Hf. split.
  - intros Hp Hc.
    pose proof Hk as Hmax.
    apply andb_true_iff in Hmax as (_ & Hmax). apply Nat.leb_le in Hmax.
    destruct (put_loop_returns cfg t k v true fuel Hwf Hf Hp Hc Hmax)
      as (r & h' & E & _).
    exists r, (with_heap t h').
    now rewrite put_unfold, (assert_key_ok cfg k Hk), E.
  - intros r t' Hput. rewrite put_unfold in Hput. apply assert_Ret in Hput.
    destruct (put_loop cfg fuel (heap t) k v true (locals_at None (root t)))
      as [[r' h']| | |] eqn:E; try discriminate.
    simpl in Hput; inversion Hput; subst r' t'; clear Hput.
    pose proof (put_loop_effect cfg t k v true fuel r h' Hwf Hf E) as He.
    destruct (put_effect_get cfg t k v true r _ fuel Hwf He (or_introl eq_refl) Hf)
      as (tg & Hg).
    exists (mkTagGptr v tg). rewrite get_unfold, (assert_key_ok cfg k Hk).
    simpl in *. rewrite Hg. repeat split.
    unfold IsValid; simpl. apply negb_true_iff, Z.eqb_neq; auto.
Qed.

(** C2 (update guard).  When the key is present with a valid value, [put]
    with update off returns the existing tagged value and leaves the
    tree exactly as it was, so every node field and a later [get] are
    unchanged. *)
Theorem put_no_update_keeps_tree (t : RadixTree) (k : list byte)
  (tq : TagGptr) (v2 : Gptr) (fuel : nat) :
  wf cfg t -> (length k + 2 <= fuel)%nat ->
  get cfg fuel t k = Ret tq -> IsValid tq = true ->
  put cfg fuel t k v2 false = Ret (tq, t)
  /\ get cfg fuel t k = Ret tq.
Proof.
  intros Hwf Hf Hg Hv. split; auto.
  rewrite get_unfold in Hg.
  pose proof (assert_Ret_passes cfg _ _ _ Hg) as Ha.
  apply assert_Ret in Hg.
  destruct (get_loop_found cfg t k fuel tq Hwf Hf Hg Hv) as (q & n & Hfound & <-).
  rewrite put_unfold, Ha. cbn [bind].
  rewrite (found_put cfg t k q n fuel v2 false Hwf Hf Hfound).
  rewrite Hv. simpl. now rewrite with_heap_same.
Qed.

(** C3 (delete, then get and put).  When the key is present, [destroy]
    returns its value; afterwards [get] returns an invalid tagged value,
    the next [put] of the key, with either update flag, returns that
    invalid value as the prior one, and [get] then yields the value put. *)
Theorem destroy_then_put (t : RadixTree) (k : list byte) (tq : TagGptr)
  (fuel : nat) :
  wf cfg t -> (length k + 2 <= fuel)%nat ->
  get cfg fuel t k = Ret tq -> IsValid tq = true ->
  exists t1 tq1,
    destroy cfg fuel t k = Ret (tq, t1) /\
    get cfg fuel t1 k = Ret tq1 /\ IsValid tq1 = false /\
    forall v u, exists t2 tq2,
      put cfg fuel t1 k v u = Ret (tq1, t2) /\
      get cfg fuel t2 k = Ret tq2 /\ gptr tq2 = v.
Proof.
  intros Hwf Hf Hg Hv.
  rewrite get_unfold in Hg.
  pose proof (assert_Ret_passes cfg _ _ _ Hg) as Ha.
  apply assert_Ret in Hg.
  destruct (get_loop_found cfg t k fuel tq Hwf Hf Hg Hv) as (q & n & Hfound & <-).
  pose proof Hfound as (m & p & _ & _ & Hq & _).
  set (n1 := set_value n (bumped 0 (value n))).
  set (t1 := with_heap t (store (heap t) q n1)).
  assert (Hwf1 : wf cfg t1) by (now apply wf_set_value).
  assert (Hfound1 : found t1 k q n1) by (now apply found_set_value).
  exists t1, (bumped 0 (value n)). split; [|split; [|split]].
  - rewrite destroy_unfold, Ha. cbn [bind].
    now rewrite (found_destroy cfg t k q n fuel Hwf Hf Hfound).
  - rewrite get_unfold, Ha. cbn [bind].
    now rewrite (found_get cfg t1 k q n1 fuel Hwf1 Hf Hfound1).
  - reflexivity.
  - intros v u.
    set (n2 := set_value n1 (bumped v (value n1))).
    exists (with_heap t1 (store (heap t1) q n2)), (bumped v (value n1)).
    split; [|split].
    + rewrite put_unfold, Ha. cbn [bind].
      rewrite (found_put cfg t1 k q n1 fuel v u Hwf1 Hf Hfound1).
      replace (u || negb (IsValid (value n1))) with true
        by (destruct u; reflexivity).
      reflexivity.
    + rewrite get_unfold, Ha. cbn [bind].
      pose proof Hfound1 as (m1 & p1 & _ & _ & Hq1 & _).
      apply (found_get cfg _ k q n2 fuel).
      * subst n2. apply wf_set_value; auto.
      * exact Hf.
      * subst n2. now apply found_set_value.
    + reflexivity.
Qed.

Lemma wrap64_succ z : 0 <= z < u64_mod - 1 -> wrap64 (z + 1) = z + 1.
Proof. intros H. unfold wrap64. apply Z.mod_small. lia. Qed.

Lemma value_bump_tag_step g h h' x n :
  value_bump g h h' -> toLocal h x = Some n ->
  exists n', toLocal h' x = Some n' /\ tag_step (value n) (value n').
Proof.
  intros [|q m Hq] Hx.
  - exists n; split; auto. now left.
  - destruct (Z.eq_dec q x) as [<-|Hne].
    + rewrite Hq in Hx; inversion Hx; subst m.
      eexists; split; [eapply toLocal_store_same; eauto|]. right; reflexivity.
    + exists n; split; [now rewrite toLocal_store_other|now left].
Qed.

Lemma put_effect_tag_step t k v u r t' x n :
  put_effect cfg t k v u r t' -> toLocal (heap t) x = Some n ->
  exists n', toLocal (heap t') x = Some n' /\ tag_step (value n) (value n').
Proof.
  intros [q m (? & ? & _ & _ & Hq & _) _| |
          ? pn b par top news h' _ _ _ _ G _ _] Hx.
  - apply (value_bump_tag_step v (heap t)); auto. now constructor.
  - exists n; split; auto. now left.
  - destruct (grafted_keeps _ _ _ _ _ _ _ _ _ G Hx) as (n' & Hn' & _ & _ & Hv).
    exists n'; split; auto. left; auto.
Qed.

Lemma cas_value_loop_effect f h q tq g old nv h' :
  loadTagGptr h q = Ret tq ->
  cas_value_loop f h q tq g = Ret (old, nv, h') -> value_bump g h h'.
Proof.
  unfold loadTagGptr. destruct (toLocal h q) as [n|] eqn:Eq; try discriminate.
  intros E; inversion E; subst tq. destruct f; [discriminate|].
  rewrite (cas_value_loop_hit _ _ _ _ _ Eq).
  intros H; inversion H; subst. now constructor.
Qed.

(** C10 (destroy of a tombstone), as the code has it.  When the key's
    node exists and its value is invalid, [destroy] returns that invalid
    value and still swaps the slot: afterwards the node holds gptr 0 and
    the tag plus one in 64-bit arithmetic, which is the old tag plus one
    whenever the old tag is below 2^64 - 1; [destroyC] does the same. *)
Theorem destroy_tombstone_bumps_tag (t : RadixTree) (k : list byte)
  (q : Gptr) (tq : TagGptr) (fuel : nat) :
  wf cfg t -> (length k + 2 <= fuel)%nat ->
  getC cfg fuel t k = Ret (q, tq) -> q <> 0 -> IsValid tq = false ->
  exists t',
    destroy cfg fuel t k = Ret (tq, t') /\
    destroyC cfg fuel t k
      = Ret (q, mkTagGptr 0 (wrap64 (tag tq + 1)), tq, t') /\
    getC cfg fuel t' k = Ret (q, mkTagGptr 0 (wrap64 (tag tq + 1))) /\
    (0 <= tag tq < u64_mod - 1 -> wrap64 (tag tq + 1) = tag tq + 1).
Proof.
  intros Hwf Hf Hg Hq0 Hv.
  rewrite getC_unfold in Hg.
  pose proof (assert_Ret_passes cfg _ _ _ Hg) as Ha.
  apply assert_Ret in Hg.
  destruct (getC_loop_found cfg t k fuel q tq Hwf Hf Hg Hq0)
    as (n & Hfound & <-).
  pose proof Hfound as (m & p & _ & _ & Hq & _).
  set (n1 := set_value n (bumped 0 (value n))).
  exists (with_heap t (store (heap t) q n1)).
  split; [|split; [|split]].
  - rewrite destroy_unfold, Ha. cbn [bind].
    now rewrite (found_destroy cfg t k q n fuel Hwf Hf Hfound).
  - unfold destroyC. rewrite Ha. cbn [bind].
    rewrite destroyC_loop_getC, Hg. cbn [bind tombstone].
    apply Z.eqb_neq in Hq0. rewrite Hq0, Hq. reflexivity.
  - rewrite getC_unfold, Ha. cbn [bind].
    apply (found_getC cfg _ k q n1 fuel); auto.
    + now apply wf_set_value.
    + now apply found_set_value.
  - apply wrap64_succ.
Qed.

End Stated.

(** * The range scan against the recursive walk *)

(** ** More fuel does not change a result *)

Section Fuel.

Variable cfg : Config.

Lemma fuel_le_refl {A} (a : outcome A) : fuel_le a a.
Proof. now right. Qed.

Lemma fuel_le_bind {A B} (c1 c2 : outcome A) (k1 k2 : A -> outcome B) :
  fuel_le c1 c2 -> (forall a, fuel_le (k1 a) (k2 a)) ->
  fuel_le (bind c1 k1) (bind c2 k2).
Proof.
  intros [->| ->] Hk; [now left|].
  destruct c2; simpl; auto using fuel_le_refl.
Qed.

Lemma fuel_le_Ret {A} (a b : outcome A) x : fuel_le a b -> a = Ret x -> b = Ret x.
Proof. intros [->| ->]; [discriminate|auto]. Qed.

Lemma child_scan_mono f n bound it :
  fuel_le (child_scan f n bound it) (child_scan (S f) n bound it).
Proof.
  revert it; induction f as [|f IH]; intros it; [now left|].
  cbn [child_scan]. destruct (next_pos it <=? bound); [|apply fuel_le_refl].
  apply fuel_le_bind; [apply fuel_le_refl|].
  intros q. destruct (q =? 0); [apply IH|apply fuel_le_refl].
Qed.

Lemma next_value_mono f h it :
  fuel_le (next_value cfg f h it) (next_value cfg (S f) h it).
Proof.
  revert it; induction f as [|f IH]; intros it; [now left|].
  cbn [next_value]. destruct (node it =? 0); [apply fuel_le_refl|].
  destruct (pop_path (path it) it) as [[|] it1]; [|apply fuel_le_refl].
  apply fuel_le_bind; [apply fuel_le_refl|]. intros n.
  destruct (_ <? 0); [apply fuel_le_refl|].
  destruct (0 <? _).
  { destruct (next_pos it1 =? 0).
    - apply fuel_le_bind; [apply fuel_le_refl|]. intros tq.
      destruct (IsValid tq); [apply fuel_le_refl|].
      apply fuel_le_bind; [apply child_scan_mono|]. intros it2. apply IH.
    - apply fuel_le_bind; [apply child_scan_mono|]. intros it2. apply IH. }
  destruct (_ =? _)%nat; [apply fuel_le_refl|].
  assert (Hb : forall it2,
    fuel_le
      (c <- data_at (end_key it1) (prefix_size n) ;;
       it3 <- child_scan (S f) n (wrap64 (char_to_u64 cfg c + 1)) it2 ;;
       (if wrap64 (char_to_u64 cfg c + 1) <? next_pos it3
        then Ret (false, set_node it3 0)
        else next_value cfg f h it3))
      (c <- data_at (end_key it1) (prefix_size n) ;;
       it3 <- child_scan (S (S f)) n (wrap64 (char_to_u64 cfg c + 1)) it2 ;;
       (if wrap64 (char_to_u64 cfg c + 1) <? next_pos it3
        then Ret (false, set_node it3 0)
        else next_value cfg (S f) h it3))).
  { intros it2. apply fuel_le_bind; [apply fuel_le_refl|]. intros c.
    apply fuel_le_bind; [apply child_scan_mono|]. intros it3.
    destruct (_ <? _); [apply fuel_le_refl|apply IH]. }
  destruct (next_pos it1 =? 0); [|apply Hb].
  apply fuel_le_bind; [apply fuel_le_refl|]. intros tq.
  destruct (IsValid tq); [apply fuel_le_refl|apply Hb].
Qed.

Lemma child_scan_more f f' n bound it x :
  child_scan f n bound it = Ret x -> (f <= f')%nat ->
  child_scan f' n bound it = Ret x.
Proof.
  intros H Hle; induction Hle; auto.
  eapply fuel_le_Ret; [apply child_scan_mono|exact IHHle].
Qed.

Lemma next_value_more f f' h it x :
  next_value cfg f h it = Ret x -> (f <= f')%nat ->
  next_value cfg f' h it = Ret x.
Proof.
  intros H Hle; induction Hle; auto.
  eapply fuel_le_Ret; [apply next_value_mono|exact IHHle].
Qed.

End Fuel.

(** ** The recursive walk *)

Section Walk.

Variable cfg : Config.

Lemma walk_null d h : walk d h 0 = [].
Proof. destruct d; reflexivity. Qed.

Lemma below_step d h n i :
  (i < 256)%nat ->
  below d h n i = walk d h (child_ix n i) ++ below d h n (S i).
Proof.
  intros Hi. unfold below.
  replace (256 - i)%nat with (S (256 - S i)) by lia. reflexivity.
Qed.

Lemma below_end d h n i : (256 <= i)%nat -> below d h n i = [].
Proof.
  intros Hi. unfold below. replace (256 - i)%nat with 0%nat by lia.
  reflexivity.
Qed.

Lemma below_skip d h n i j :
  (i <= j)%nat -> (j <= 256)%nat ->
  (forall j', (i <= j' < j)%nat -> child_ix n j' = 0) ->
  below d h n i = below d h n j.
Proof.
  intros Hij Hj Hz.
  induction Hij as [|j Hij IH]; auto.
  rewrite IH; [|lia|intros; apply Hz; lia].
  rewrite (below_step d h n j) by lia.
  rewrite (Hz j) by lia. now rewrite walk_null.
Qed.

Lemma walk_unfold d h q n :
  toLocal h q = Some n -> walk (S d) h q = own n ++ below d h n 0.
Proof. intros H. simpl. now rewrite H. Qed.

Lemma child_ix_byte n i b :
  Byte.of_nat i = Some b -> child_ix n i = child n b.
Proof. unfold child_ix. now intros ->. Qed.

Lemma byte_of_nat_lt i : (i < 256)%nat -> exists b, Byte.of_nat i = Some b.
Proof.
  intros Hi. destruct (Byte.of_nat i) as [b|] eqn:E; eauto.
  apply Byte.of_nat_None_iff in E. lia.
Qed.

Lemma child_at_ix n i :
  (i < 256)%nat -> child_at n (Z.of_nat i) = Ret (child_ix n i).
Proof.
  intros Hi. unfold child_at, child_ix.
  rewrite Byte.of_N_via_nat.
  replace (N.to_nat (Z.to_N (Z.of_nat i))) with i by lia.
  destruct (byte_of_nat_lt i Hi) as (b & ->). reflexivity.
Qed.

End Walk.

(** ** Running the iterator *)

Section Iterate.

Variable cfg : Config.

Lemma outputs_same h it it2 ys :
  (forall f, next_value cfg (S f) h it = next_value cfg (S f) h it2) ->
  outputs cfg h it2 ys -> outputs cfg h it ys.
Proof.
  intros E H. destruct H as [it2 it' f H|it2 it' f ys H Hr].
  - destruct f; [discriminate|]. rewrite <- E in H. eapply out_done; eauto.
  - destruct f; [discriminate|]. rewrite <- E in H. eapply out_next; eauto.
Qed.

Lemma outputs_silent h it it2 ys F :
  (forall f, (F <= f)%nat ->
             next_value cfg (S f) h it = next_value cfg f h it2) ->
  outputs cfg h it2 ys -> outputs cfg h it ys.
Proof.
  intros E H. destruct H as [it2 it' f H|it2 it' f ys H Hr].
  - apply (next_value_more cfg f (Nat.max f F)) in H; [|lia].
    rewrite <- E in H by lia. eapply out_done; eauto.
  - apply (next_value_more cfg f (Nat.max f F)) in H; [|lia].
    rewrite <- E in H by lia. eapply out_next; eauto.
Qed.

Lemma pop_path_stay s it :
  next_pos it <> 257 -> pop_path s it = (true, it).
Proof.
  intros H. apply Z.eqb_neq in H. destruct s; simpl; now rewrite H.
Qed.

Lemma wrap64_small z : 0 <= z < u64_mod -> wrap64 z = z.
Proof. intros H. unfold wrap64. now apply Z.mod_small. Qed.

(** The loop over the children from index [i] on: it stops at the first
    child that is not null and descends, or runs to the end. *)
Lemma child_scan_finds n it q s j c :
  forall k i f,
    (i + k = j)%nat -> (j < 256)%nat ->
    at_pos it q (Z.of_nat i + 1) s ->
    (forall j', (i <= j' < j)%nat -> child_ix n j' = 0) ->
    child_ix n j = c -> c <> 0 ->
    (k < f)%nat ->
    exists it', child_scan f n 256 it = Ret it' /\
                at_pos it' c 0 ((q, Z.of_nat j) :: s).
Proof.
  intros k; revert it; induction k as [|k IH];
    intros it i f Hik Hj (Hn & Hp & Hs & Ho) Hz Hc Hc0 Hf;
    (destruct f as [|f]; [lia|]); cbn [child_scan]; rewrite Hp.
  - replace i with j in * by lia.
    replace (Z.of_nat j + 1 <=? 256) with true
      by (symmetry; apply Z.leb_le; lia).
    replace (Z.of_nat j + 1 - 1) with (Z.of_nat j) by lia.
    rewrite wrap64_small by (unfold u64_mod; lia).
    rewrite child_at_ix by lia. cbn [bind]. rewrite Hc.
    apply Z.eqb_neq in Hc0. rewrite Hc0.
    eexists; split; [reflexivity|].
    unfold at_pos, descend; simpl. rewrite Hn, Hp, Hs, Ho.
    replace (Z.of_nat j + 1 - 1) with (Z.of_nat j) by lia.
    rewrite wrap64_small by (unfold u64_mod; lia). auto.
  - replace (Z.of_nat i + 1 <=? 256) with true
      by (symmetry; apply Z.leb_le; lia).
    replace (Z.of_nat i + 1 - 1) with (Z.of_nat i) by lia.
    rewrite wrap64_small by (unfold u64_mod; lia).
    rewrite child_at_ix by lia. cbn [bind].
    rewrite (Hz i) by lia. cbn [Z.eqb].
    apply (IH _ (S i)); auto; try lia.
    + unfold at_pos; simpl. rewrite Hn, Hs, Ho.
      rewrite wrap64_small by (unfold u64_mod; lia).
      repeat split; auto. lia.
    + intros j' Hj'. apply Hz. lia.
Qed.

Lemma child_scan_ends n it q s :
  forall k i f,
    (i + k = 256)%nat ->
    at_pos it q (Z.of_nat i + 1) s ->
    (forall j', (i <= j' < 256)%nat -> child_ix n j' = 0) ->
    (k < f)%nat ->
    exists it', child_scan f n 256 it = Ret it' /\ at_pos it' q 257 s.
Proof.
  intros k; revert it; induction k as [|k IH];
    intros it i f Hik (Hn & Hp & Hs & Ho) Hz Hf;
    (destruct f as [|f]; [lia|]); cbn [child_scan]; rewrite Hp.
  - replace i with 256%nat in * by lia.
    replace (Z.of_nat 256 + 1 <=? 256) with false by reflexivity.
    eexists; split; [reflexivity|]. unfold at_pos. auto.
  - replace (Z.of_nat i + 1 <=? 256) with true
      by (symmetry; apply Z.leb_le; lia).
    replace (Z.of_nat i + 1 - 1) with (Z.of_nat i) by lia.
    rewrite wrap64_small by (unfold u64_mod; lia).
    rewrite child_at_ix by lia. cbn [bind].
    rewrite (Hz i) by lia. cbn [Z.eqb].
    apply (IH _ (S i)); auto; try lia.
    + unfold at_pos; simpl. rewrite Hn, Hs, Ho.
      rewrite wrap64_small by (unfold u64_mod; lia).
      repeat split; auto. lia.
    + intros j' Hj'. apply Hz. lia.
Qed.

End Iterate.

Section Traverse.

Variable cfg : Config.

Lemma at_pos_nonnull h it q pos s n :
  at_pos it q pos s -> toLocal h q = Some n -> (node it =? 0) = false.
Proof.
  intros (Hn & _) Hq. rewrite Hn. eapply eqb_0_mapped; eauto.
Qed.

(** At position 0 a valid value is yielded. *)
Lemma nv_yield h it q s n f :
  at_pos it q 0 s -> toLocal h q = Some n -> IsValid (value n) = true ->
  exists it', next_value cfg (S f) h it = Ret (true, it') /\
              at_pos it' q 1 s /\
              it_key it' = node_key n /\ it_value it' = value n.
Proof.
  intros Hat Hq Hv. pose proof Hat as (Hn & Hp & Hs & Ho).
  cbn [next_value]. rewrite (at_pos_nonnull _ _ _ _ _ _ Hat Hq).
  rewrite pop_path_stay by lia.
  rewrite Hn, (deref_Some cfg _ _ _ Hq). cbn [bind].
  rewrite Ho, Hp. cbn [Z.ltb Z.compare Z.eqb].
  unfold loadTagGptr. cbn [node set_next_pos]. rewrite ?Hn, Hq. cbn [bind].
  rewrite Hv. eexists; split; [reflexivity|].
  unfold at_pos; simpl. rewrite Hn, Hs, Ho. auto.
Qed.

(** At position 0 an invalid value is passed over. *)
Lemma nv_skip_value h it q s n :
  at_pos it q 0 s -> toLocal h q = Some n -> IsValid (value n) = false ->
  exists it1, at_pos it1 q 1 s /\
    forall f, next_value cfg (S f) h it = next_value cfg (S f) h it1.
Proof.
  intros Hat Hq Hv. pose proof Hat as (Hn & Hp & Hs & Ho).
  exists (set_next_pos it 1). split.
  - unfold at_pos; simpl. auto.
  - intros f. cbn [next_value].
    cbn [node set_next_pos path next_pos end_key_open end_key].
    rewrite (at_pos_nonnull _ _ _ _ _ _ Hat Hq).
    rewrite !pop_path_stay by (simpl; lia).
    cbn [node set_next_pos path next_pos end_key_open end_key].
    rewrite Hn, (deref_Some cfg _ _ _ Hq). cbn [bind].
    rewrite Ho, Hp. cbn [Z.ltb Z.compare Z.eqb].
    unfold loadTagGptr. cbn [node set_next_pos]. rewrite ?Hn, Hq. cbn [bind].
    rewrite Hv. reflexivity.
Qed.

(** At a child position the children are scanned. *)
Lemma nv_children h it q pos s n f :
  at_pos it q pos s -> 1 <= pos <= 256 -> toLocal h q = Some n ->
  next_value cfg (S f) h it
  = (it2 <- child_scan (S f) n 256 it ;; next_value cfg f h it2).
Proof.
  intros Hat Hpos Hq. pose proof Hat as (Hn & Hp & Hs & Ho).
  cbn [next_value]. rewrite (at_pos_nonnull _ _ _ _ _ _ Hat Hq).
  rewrite pop_path_stay by lia.
  rewrite Hn, (deref_Some cfg _ _ _ Hq). cbn [bind].
  rewrite Ho, Hp. cbn [Z.ltb Z.compare].
  replace (pos =? 0) with false by (symmetry; apply Z.eqb_neq; lia).
  reflexivity.
Qed.

(** At position 257 the iterator returns to the parent's next child. *)
Lemma nv_pop h it c pn pb s nc np :
  at_pos it c 257 ((pn, pb) :: s) ->
  toLocal h c = Some nc -> toLocal h pn = Some np -> 0 <= pb <= 255 ->
  exists it4, at_pos it4 pn (pb + 2) s /\
    forall f, next_value cfg (S f) h it = next_value cfg (S f) h it4.
Proof.
  intros Hat Hc Hpn Hpb. pose proof Hat as (Hn & Hp & Hs & Ho).
  exists (set_next_pos (set_node (set_path it s) pn) (wrap64 (pb + 1 + 1))).
  split.
  - unfold at_pos; simpl. rewrite wrap64_small by (unfold u64_mod; lia).
    repeat split; auto. lia.
  - intros f. cbn [next_value].
    rewrite (at_pos_nonnull _ _ _ _ _ _ Hat Hc).
    cbn [node set_next_pos set_node set_path path].
    rewrite (eqb_0_mapped _ _ _ Hpn).
    rewrite Hs. cbn [pop_path]. rewrite Hp. cbn [Z.eqb Pos.eqb fst snd].
    reflexivity.
Qed.

(** At position 257 with an empty stack the traversal is over. *)
Lemma nv_end h it q n f :
  at_pos it q 257 [] -> toLocal h q = Some n ->
  next_value cfg (S f) h it = Ret (false, it).
Proof.
  intros Hat Hq. pose proof Hat as (Hn & Hp & Hs & Ho).
  cbn [next_value]. rewrite (at_pos_nonnull _ _ _ _ _ _ Hat Hq).
  rewrite Hs. cbn [pop_path]. rewrite Hp. reflexivity.
Qed.

Lemma first_child n i :
  (i <= 256)%nat ->
  (forall j', (i <= j' < 256)%nat -> child_ix n j' = 0)
  \/ exists j, (i <= j < 256)%nat /\ child_ix n j <> 0 /\
               forall j', (i <= j' < j)%nat -> child_ix n j' = 0.
Proof.
  intros Hi. remember (256 - i)%nat as k eqn:Ek.
  revert i Hi Ek; induction k as [|k IH]; intros i Hi Ek.
  - left; intros; lia.
  - destruct (Z.eq_dec (child_ix n i) 0) as [E|N].
    + destruct (IH (S i)) as [Hz|(j & Hj & Hc & Hz)]; try lia.
      * left. intros j' Hj'. destruct (Nat.eq_dec j' i) as [->|]; auto.
        apply Hz; lia.
      * right. exists j. split; [lia|]. split; auto.
        intros j' Hj'. destruct (Nat.eq_dec j' i) as [->|]; auto.
        apply Hz; lia.
    + right. exists i. split; [lia|]. split; auto. intros; lia.
Qed.

Lemma child_ix_mapped h n j :
  heap_ok cfg h -> (exists q, toLocal h q = Some n) -> child_ix n j <> 0 ->
  exists b nc, Byte.of_nat j = Some b /\ child_ix n j = child n b /\
               toLocal h (child n b) = Some nc /\
               (prefix_size n < prefix_size nc)%nat /\
               firstn (prefix_size n) (key nc) = firstn (prefix_size n) (key n)
               /\ nth_error (key nc) (prefix_size n) = Some b.
Proof.
  intros Hok (q & Hq) Hc. unfold child_ix in *.
  destruct (Byte.of_nat j) as [b|] eqn:Eb; [|congruence].
  destruct (Hok _ _ Hq) as (_ & _ & Hch).
  destruct (Hch b Hc) as (nc & Hnc & H1 & H2 & H3).
  exists b, nc. repeat split; auto.
Qed.

(** Started at a node, the iterator yields its subtree in the order of
    the walk and then stands at position 257 of that node. *)
Lemma traverse h :
  heap_ok cfg h ->
  forall d q n s ys,
    toLocal h q = Some n ->
    (MAX_KEY_LEN cfg - prefix_size n < d)%nat ->
    (forall it, at_pos it q 257 s -> outputs cfg h it ys) ->
    forall it, at_pos it q 0 s -> outputs cfg h it (walk d h q ++ ys).
Proof.
  intros Hok. induction d as [|d IHd]; intros q n s ys Hq Hd Hk; [lia|].
  assert (Hpos : forall k i, (i + k = 256)%nat ->
            forall it, at_pos it q (Z.of_nat i + 1) s ->
                       outputs cfg h it (below d h n i ++ ys)).
  { induction k as [k IHk] using lt_wf_ind. intros i Hik it Hat.
    destruct (Nat.eq_dec i 256) as [->|Hne].
    { rewrite below_end by lia. apply Hk. exact Hat. }
    destruct (first_child n i) as [Hz|(j & Hj & Hc & Hz)]; [lia| |].
    - (* no child left *)
      rewrite (below_skip d h n i 256), below_end by (auto; lia).
      destruct (child_scan_ends n it q s k i (S k) Hik Hat Hz)
        as (it' & Hcs & Hat'); [lia|].
      apply (outputs_silent cfg h it it' _ k); [|now apply Hk].
      intros f Hf.
      rewrite (nv_children h it q _ s n f Hat) by (auto; lia).
      rewrite (child_scan_more _ _ _ _ _ _ Hcs) by lia. reflexivity.
    - (* the next child is at index j *)
      destruct (child_ix_mapped h n j Hok (ex_intro _ q Hq) Hc)
        as (b & nc & Hb & Hcb & Hnc & Hps & _).
      destruct (Hok _ _ Hnc) as (Hlen & Hmax & _).
      destruct (child_scan_finds n it q s j (child_ix n j) (j - i) i
                  (S (j - i))) as (it' & Hcs & Hat'); auto; try lia.
      apply (outputs_silent cfg h it it' _ (j - i)).
      { intros f Hf.
        rewrite (nv_children h it q _ s n f Hat) by (auto; lia).
        rewrite (child_scan_more _ _ _ _ _ _ Hcs) by lia. reflexivity. }
      rewrite (below_skip d h n i j), (below_step d h n j) by (auto; lia).
      rewrite <- app_assoc. rewrite Hcb in *.
      apply (IHd (child n b) nc ((q, Z.of_nat j) :: s)); auto; [lia|].
      intros it3 Hat3.
      destruct (nv_pop h it3 (child n b) q (Z.of_nat j) s nc n Hat3 Hnc Hq)
        as (it4 & Hat4 & Hsame); [lia|].
      apply (outputs_same cfg h it3 it4); auto.
      apply (IHk (k - (j - i) - 1)%nat) with (i := S j); try lia.
      replace (Z.of_nat (S j) + 1) with (Z.of_nat j + 2) by lia.
      exact Hat4. }
  intros it Hat. rewrite (walk_unfold d h q n Hq), <- app_assoc.
  unfold own. destruct (IsValid (value n)) eqn:Hv.
  - destruct (nv_yield h it q s n 0 Hat Hq Hv) as (it' & Hnv & Hat' & Hk' & Hv').
    simpl. rewrite <- Hk', <- Hv'.
    eapply out_next; eauto. apply (Hpos 256%nat 0%nat); auto.
  - destruct (nv_skip_value h it q s n Hat Hq Hv) as (it1 & Hat1 & Hsame).
    simpl. apply (outputs_same cfg h it it1); auto.
    apply (Hpos 256%nat 0%nat); auto.
Qed.

End Traverse.

Section ScanAll.

Variable cfg : Config.

Lemma outputs_root t :
  wf cfg t ->
  forall it, at_pos it (root t) 0 [] ->
             outputs cfg (heap t) it (contents cfg t).
Proof.
  intros (Hok & r & Hr & Hr0) it Hat.
  rewrite <- (app_nil_r (contents cfg t)).
  apply (traverse cfg (heap t) Hok (S (MAX_KEY_LEN cfg)) (root t) r [] []);
    auto; [lia|].
  intros it' Hat'. apply (out_done cfg (heap t) it' it' 1).
  eapply nv_end; eauto.
Qed.

Lemma outputs_get_all t it ys :
  outputs cfg (heap t) it ys ->
  exists F, forall fuel calls,
    (F <= fuel)%nat -> (length ys < calls)%nat ->
    get_all cfg calls fuel t it = Ret ys.
Proof.
  induction 1 as [it it' f H|it it' f ys H Hr (F & IH)].
  - exists f. intros fuel calls Hf Hc. destruct calls as [|calls]; [simpl in Hc; lia|].
    cbn [get_all]. unfold get_next.
    rewrite (next_value_more cfg f fuel _ _ _ H Hf). reflexivity.
  - exists (Nat.max f F). intros fuel calls Hf Hc.
    destruct calls as [|calls]; [simpl in Hc; lia|].
    cbn [get_all]. unfold get_next.
    rewrite (next_value_more cfg f fuel _ _ _ H) by lia. cbn [bind].
    rewrite IH by (simpl in Hc; lia). reflexivity.
Qed.

Lemma bytes_eqb_refl a : bytes_eqb a a = true.
Proof. unfold bytes_eqb. destruct (list_eq_dec _ a a); congruence. Qed.

Lemma open_start_at t it :
  end_key_inclusive it = false -> at_pos (open_start cfg t it) (root t) 0 [].
Proof.
  intros He. unfold at_pos, open_start, scan_init; simpl.
  rewrite bytes_eqb_refl. auto.
Qed.

(** A scan with both boundaries open starts [next_value] at the root. *)
Lemma scan_open_unfold t it fuel :
  wf cfg t -> key_size_ok cfg (OPEN_BOUNDARY_KEY cfg) = true ->
  end_key_inclusive it = false ->
  scan cfg (S fuel) t it (OPEN_BOUNDARY_KEY cfg) false
       (OPEN_BOUNDARY_KEY cfg) false
  = ('(found, it') <- next_value cfg (S fuel) (heap t) (open_start cfg t it) ;;
     if found then Ret (Some (it_key it', it_value it'), it')
     else Ret (None, it')).
Proof.
  intros (Hok & r & Hr & Hr0) Hk He. unfold scan.
  rewrite (assert_key_ok cfg _ Hk). cbn [bind].
  unfold open_start, scan_init. rewrite He, bytes_eqb_refl.
  cbn [andb orb Bool.eqb begin_key_open end_key_open].
  unfold lower_bound. cbn [it_key set_next_pos set_node].
  rewrite assert_true. cbn [bind lower_bound_loop].
  cbn [node set_found set_next_pos set_node begin_key_open begin_key].
  rewrite (eqb_0_mapped _ _ _ Hr), (deref_Some cfg _ _ _ Hr).
  cbn [bind Z.ltb Z.compare]. reflexivity.
Qed.

Lemma outputs_scan_all t it it0 ys :
  wf cfg t -> key_size_ok cfg (OPEN_BOUNDARY_KEY cfg) = true ->
  end_key_inclusive it = false ->
  it0 = open_start cfg t it ->
  outputs cfg (heap t) it0 ys ->
  exists F, forall fuel calls,
    (F <= fuel)%nat -> (length ys < calls)%nat ->
    scan_all cfg calls fuel t it (OPEN_BOUNDARY_KEY cfg) false
             (OPEN_BOUNDARY_KEY cfg) false
    = Ret ys.
Proof.
  intros Hwf Hk He E0 Hout.
  destruct Hout as [it0 it' f H|it0 it' f ys H Hr]; subst it0.
  - exists (S f). intros fuel calls Hf Hc.
    destruct fuel as [|fuel]; [lia|]. unfold scan_all.
    rewrite (scan_open_unfold t it fuel Hwf Hk He).
    rewrite (next_value_more cfg f (S fuel) _ _ _ H) by lia. reflexivity.
  - destruct (outputs_get_all t it' ys Hr) as (F & HF).
    exists (S (Nat.max f F)). intros fuel calls Hf Hc.
    destruct fuel as [|fuel]; [lia|]. unfold scan_all.
    rewrite (scan_open_unfold t it fuel Hwf Hk He).
    rewrite (next_value_more cfg f (S fuel) _ _ _ H) by lia. cbn [bind].
    rewrite HF by (simpl in Hc; lia). reflexivity.
Qed.

(** The scan over open boundaries, followed by [get_next] until
    not-found, returns the contents of the tree. *)
Lemma scan_all_contents t it :
  wf cfg t -> key_size_ok cfg (OPEN_BOUNDARY_KEY cfg) = true ->
  end_key_inclusive it = false ->
  exists F, forall fuel calls,
    (F <= fuel)%nat -> (length (contents cfg t) < calls)%nat ->
    scan_all cfg calls fuel t it (OPEN_BOUNDARY_KEY cfg) false
             (OPEN_BOUNDARY_KEY cfg) false
    = Ret (contents cfg t).
Proof.
  intros Hwf Hk He.
  apply (outputs_scan_all t it (open_start cfg t it)); auto.
  apply outputs_root; auto. now apply open_start_at.
Qed.

End ScanAll.

(** ** The walk is in ascending key order *)

Section Order.

Variable cfg : Config.

Lemma bytes_ltb_irrefl a : bytes_ltb a a = false.
Proof.
  induction a as [|x a IH]; simpl; auto. now rewrite byte_ltb_irrefl.
Qed.

Lemma bytes_lt_proper_prefix a b :
  (length a < length b)%nat -> firstn (length a) b = a -> bytes_lt a b.
Proof.
  unfold bytes_lt. revert b; induction a as [|x a IH]; intros [|y b] Hl Hp;
    simpl in *; try lia; auto.
  inversion Hp; subst. rewrite byte_ltb_irrefl.
  rewrite H1. apply IH; [lia|auto].
Qed.

Lemma bytes_lt_differ m a b x y :
  firstn m a = firstn m b ->
  nth_error a m = Some x -> nth_error b m = Some y ->
  byte_ltb x y = true -> bytes_lt a b.
Proof.
  unfold bytes_lt. revert a b; induction m as [|m IH]; intros [|x0 a] [|y0 b];
    simpl; try discriminate.
  - intros _ Hx Hy Hlt. inversion Hx; inversion Hy; subst. now rewrite Hlt.
  - intros Hp Hx Hy Hlt. inversion Hp; subst.
    rewrite byte_ltb_irrefl. eauto.
Qed.

Lemma byte_ltb_of_nat i j bi bj :
  Byte.of_nat i = Some bi -> Byte.of_nat j = Some bj -> (i < j)%nat ->
  byte_ltb bi bj = true.
Proof.
  intros Hi Hj Hlt. apply Byte.to_of_nat in Hi, Hj.
  unfold byte_ltb. rewrite !Byte.to_N_via_nat, Hi, Hj.
  apply N.ltb_lt. lia.
Qed.

Lemma sorted_app {A} (R : A -> A -> Prop) l1 l2 :
  StronglySorted R l1 -> StronglySorted R l2 ->
  (forall x y, In x l1 -> In y l2 -> R x y) ->
  StronglySorted R (l1 ++ l2).
Proof.
  induction 1 as [|x l1 Hs IH Hx]; intros H2 Hc; simpl; auto.
  constructor.
  - apply IH; auto. intros; apply Hc; simpl; auto.
  - apply Forall_app. split; auto.
    apply Forall_forall. intros y Hy. apply Hc; simpl; auto.
Qed.

Lemma sorted_flat_map_seq {A} (R : A -> A -> Prop) (G : nat -> list A) :
  forall k i,
    (forall j, StronglySorted R (G j)) ->
    (forall j1 j2 x y, (i <= j1 < j2)%nat -> (j2 < i + k)%nat ->
                       In x (G j1) -> In y (G j2) -> R x y) ->
    StronglySorted R (flat_map G (seq i k)).
Proof.
  induction k as [|k IH]; intros i Hs Hc; simpl; [constructor|].
  apply sorted_app; auto.
  - apply IH; auto. intros j1 j2 x y H1 H2. apply Hc; lia.
  - intros x y Hx Hy. apply in_flat_map in Hy as (j & Hj & Hy).
    apply in_seq in Hj. apply (Hc i j); auto; lia.
Qed.

Lemma map_flat_map {A B C} (f : B -> C) (g : A -> list B) l :
  map f (flat_map g l) = flat_map (fun x => map f (g x)) l.
Proof.
  induction l as [|x l IH]; simpl; auto. now rewrite map_app, IH.
Qed.

Lemma length_node_key h q n :
  heap_ok cfg h -> toLocal h q = Some n ->
  length (node_key n) = prefix_size n.
Proof.
  intros Hok Hq. destruct (Hok _ _ Hq) as (Hlen & _).
  unfold node_key. rewrite length_firstn. lia.
Qed.

(** Every key of the walk from a node starts with the node's prefix. *)
Lemma walk_extends h :
  heap_ok cfg h ->
  forall d q n k tq,
    toLocal h q = Some n -> In (k, tq) (walk d h q) ->
    firstn (prefix_size n) k = firstn (prefix_size n) (key n) /\
    (prefix_size n <= length k)%nat.
Proof.
  intros Hok. induction d as [|d IH]; intros q n k tq Hq Hin; [destruct Hin|].
  rewrite (walk_unfold d h q n Hq) in Hin.
  apply in_app_iff in Hin as [Hin|Hin].
  - unfold own in Hin. destruct (IsValid (value n)); [|destruct Hin].
    destruct Hin as [E|[]]. inversion E; subst.
    rewrite (length_node_key h q n Hok Hq). split; auto.
    unfold node_key. rewrite firstn_firstn. now rewrite Nat.min_id.
  - apply in_flat_map in Hin as (j & Hj & Hin).
    assert (Hc : child_ix n j <> 0).
    { intros E. rewrite E, walk_null in Hin. destruct Hin. }
    destruct (child_ix_mapped cfg h n j Hok (ex_intro _ q Hq) Hc)
      as (b & nc & Hb & Hcb & Hnc & Hps & Hpre & Hnth).
    rewrite Hcb in Hin.
    destruct (IH _ _ _ _ Hnc Hin) as (Hk & Hl).
    split; [|lia].
    rewrite <- Hpre. apply (firstn_prefix_trans _ _ _ (prefix_size nc)); auto.
    lia.
Qed.

(** The keys below child [b] of a node continue its prefix with [b]. *)
Lemma walk_child_keys h d q n j b k tq :
  heap_ok cfg h -> toLocal h q = Some n -> Byte.of_nat j = Some b ->
  In (k, tq) (walk d h (child_ix n j)) ->
  firstn (prefix_size n) k = firstn (prefix_size n) (key n) /\
  nth_error k (prefix_size n) = Some b.
Proof.
  intros Hok Hq Hb Hin.
  assert (Hc : child_ix n j <> 0).
  { intros E. rewrite E, walk_null in Hin. destruct Hin. }
  destruct (child_ix_mapped cfg h n j Hok (ex_intro _ q Hq) Hc)
    as (b' & nc & Hb' & Hcb & Hnc & Hps & Hpre & Hnth).
  assert (b' = b) by congruence. subst b'.
  rewrite Hcb in Hin.
  destruct (walk_extends h Hok _ _ _ _ _ Hnc Hin) as (Hk & Hl).
  split.
  - rewrite <- Hpre. apply (firstn_prefix_trans _ _ _ (prefix_size nc)); auto.
    lia.
  - rewrite <- Hnth. apply (firstn_eq_nth_error _ _ (prefix_size nc)); auto.
Qed.

Lemma walk_sorted h :
  heap_ok cfg h ->
  forall d q, StronglySorted bytes_lt (map fst (walk d h q)).
Proof.
  intros Hok. induction d as [|d IH]; intros q; [constructor|].
  cbn [walk]. destruct (toLocal h q) as [n|] eqn:Hq; [|constructor].
  rewrite map_app, map_flat_map. apply sorted_app.
  - unfold own. destruct (IsValid (value n)); simpl; repeat constructor.
  - apply sorted_flat_map_seq.
    + intros j. apply IH.
    + intros j1 j2 x y Hj1 Hj2 Hx Hy.
      apply in_map_iff in Hx as ([k1 t1] & <- & Hx).
      apply in_map_iff in Hy as ([k2 t2] & <- & Hy).
      destruct (byte_of_nat_lt j1) as (b1 & Hb1); [lia|].
      destruct (byte_of_nat_lt j2) as (b2 & Hb2); [lia|].
      destruct (walk_child_keys h d q n j1 b1 k1 t1 Hok Hq Hb1 Hx) as (P1 & N1).
      destruct (walk_child_keys h d q n j2 b2 k2 t2 Hok Hq Hb2 Hy) as (P2 & N2).
      simpl. apply (bytes_lt_differ (prefix_size n) k1 k2 b1 b2); auto.
      * congruence.
      * eapply byte_ltb_of_nat; eauto. lia.
  - intros x y Hx Hy.
    unfold own in Hx. destruct (IsValid (value n)); [|destruct Hx].
    destruct Hx as [<-|[]]. simpl.
    apply in_flat_map in Hy as (j & Hj & Hy). apply in_seq in Hj.
    apply in_map_iff in Hy as ([k2 t2] & <- & Hy).
    destruct (byte_of_nat_lt j) as (b & Hb); [lia|].
    destruct (walk_child_keys h d q n j b k2 t2 Hok Hq Hb Hy) as (P2 & N2).
    simpl. apply bytes_lt_proper_prefix.
    + rewrite (length_node_key h q n Hok Hq).
      eapply nth_error_Some_lt; eauto.
    + rewrite (length_node_key h q n Hok Hq). exact P2.
Qed.

Lemma sorted_NoDup l :
  StronglySorted bytes_lt l -> NoDup l.
Proof.
  induction 1 as [|x l Hs IH Hx]; constructor; auto.
  intros Hin. rewrite Forall_forall in Hx. specialize (Hx x Hin).
  unfold bytes_lt in Hx. rewrite bytes_ltb_irrefl in Hx. discriminate.
Qed.

End Order.

(** ** The walk holds exactly the keys that lookups find *)

Section Membership.

Variable cfg : Config.

Lemma walk_In_arrives h :
  heap_ok cfg h ->
  forall d q0 n0 k tq p0,
    toLocal h q0 = Some n0 -> In (k, tq) (walk d h q0) ->
    exists m p q n,
      arrives h k m p0 q0 p q /\ toLocal h q = Some n /\
      firstn (prefix_size n) k = firstn (prefix_size n) (key n) /\
      prefix_size n = length k /\ value n = tq /\ IsValid tq = true /\
      (prefix_size n0 + m <= length k)%nat.
Proof.
  intros Hok. induction d as [|d IH]; intros q0 n0 k tq p0 Hq0 Hin;
    [destruct Hin|].
  rewrite (walk_unfold d h q0 n0 Hq0) in Hin.
  apply in_app_iff in Hin as [Hin|Hin].
  - unfold own in Hin. destruct (IsValid (value n0)) eqn:Hv; [|destruct Hin].
    destruct Hin as [E|[]]. inversion E; subst.
    exists 0%nat, p0, q0, n0.
    rewrite (length_node_key cfg h q0 n0 Hok Hq0).
    repeat split; auto; [constructor| |lia].
    unfold node_key. rewrite firstn_firstn. now rewrite Nat.min_id.
  - apply in_flat_map in Hin as (j & Hj & Hin). apply in_seq in Hj.
    destruct (byte_of_nat_lt j) as (b & Hb); [lia|].
    destruct (walk_child_keys cfg h d q0 n0 j b k tq Hok Hq0 Hb Hin)
      as (Hpre & Hnth).
    assert (Hc : child_ix n0 j <> 0).
    { intros E. rewrite E, walk_null in Hin. destruct Hin. }
    destruct (child_ix_mapped cfg h n0 j Hok (ex_intro _ q0 Hq0) Hc)
      as (b' & nc & Hb' & Hcb & Hnc & Hps & _).
    assert (b' = b) by congruence. subst b'. rewrite Hcb in Hin.
    destruct (IH _ _ _ _ (Some (q0, b)) Hnc Hin)
      as (m & p & q & n & Ha & Hq & Hk & Hl & Hv & Hval & Hm).
    exists (S m), p, q, n. repeat split; auto; [|lia].
    econstructor; eauto.
Qed.

Lemma arrives_In_walk h k m p0 q0 p q :
  heap_ok cfg h -> arrives h k m p0 q0 p q ->
  forall n0 n d,
    toLocal h q0 = Some n0 -> toLocal h q = Some n ->
    firstn (prefix_size n) k = firstn (prefix_size n) (key n) ->
    prefix_size n = length k -> IsValid (value n) = true ->
    (MAX_KEY_LEN cfg - prefix_size n0 < d)%nat ->
    In (k, value n) (walk d h q0).
Proof.
  intros Hok. induction 1 as [p q|p q1 n1 b p' q' m Hq1 Hpre1 Hb1 Hrest IH];
    intros n0 n d Hq0 Hq Hpre Hps Hv Hd; (destruct d as [|d]; [lia|]).
  - rewrite Hq0 in Hq; inversion Hq; subst n0.
    rewrite (walk_unfold d h q n Hq0). apply in_app_iff. left.
    unfold own. rewrite Hv. left. f_equal.
    unfold node_key. rewrite <- Hpre, Hps. apply firstn_all.
  - rewrite Hq0 in Hq1; inversion Hq1; subst n1.
    rewrite (walk_unfold d h q1 n0 Hq0). apply in_app_iff. right.
    assert (Hc : child n0 b <> 0).
    { inversion Hrest as [|? ? nc ? ? ? ? Hc]; subst.
      - apply toLocal_Some_pos in Hq; lia.
      - apply toLocal_Some_pos in Hc; lia. }
    destruct (Hok _ _ Hq0) as (_ & _ & Hch).
    destruct (Hch b Hc) as (nc & Hnc & Hlt & _).
    destruct (Hok _ _ Hnc) as (Hlen & Hmax & _).
    apply in_flat_map. exists (Byte.to_nat b). split.
    + apply in_seq. pose proof (Byte.to_nat_bounded b). lia.
    + rewrite (child_ix_byte n0 _ b (Byte.of_to_nat b)).
      apply (IH nc n d); auto. lia.
Qed.

(** The contents of a tree are its keys with a valid value. *)
Lemma contents_found t k tq :
  wf cfg t ->
  In (k, tq) (contents cfg t) <->
  exists q n, found t k q n /\ value n = tq /\ IsValid tq = true.
Proof.
  intros (Hok & r & Hr & Hr0). split.
  - intros Hin.
    destruct (walk_In_arrives (heap t) Hok _ _ _ _ _ None Hr Hin)
      as (m & p & q & n & Ha & Hq & Hk & Hl & Hv & Hval & Hm).
    exists q, n. split; auto. exists m, p. repeat split; auto. lia.
  - intros (q & n & (m & p & Hm & Ha & Hq & Hk & Hl) & <- & Hval).
    apply (arrives_In_walk (heap t) k m None (root t) p q Hok Ha r n); auto.
    lia.
Qed.

Lemma found_key t k q n :
  heap_ok cfg (heap t) -> found t k q n -> k = node_key n.
Proof.
  intros Hok (m & p & _ & _ & Hq & Hpre & Hps).
  unfold node_key. rewrite <- Hpre, Hps. symmetry. apply firstn_all.
Qed.

End Membership.

(** ** Keys a put does not create *)

Section PutFrame.

Variable cfg : Config.

Lemma arrives_from_null h k m p p' q n :
  arrives h k m p 0 p' q -> toLocal h q = Some n -> False.
Proof.
  intros Ha Hq. inversion Ha as [|? ? n0 ? ? ? ? H0]; subst.
  - apply toLocal_Some_pos in Hq; lia.
  - apply toLocal_Some_pos in H0; lia.
Qed.

Lemma arrives_any_slot h k m p0 q0 p q :
  arrives h k m p0 q0 p q -> forall p0', exists p', arrives h k m p0' q0 p' q.
Proof.
  induction 1 as [|p q n b p' q' m Hq Hpre Hb Hrest _]; intros p0'.
  - exists p0'. constructor.
  - exists p'. econstructor; eauto.
Qed.

Lemma same_shape_sym h h' : same_shape h h' -> same_shape h' h.
Proof.
  intros Hs x. specialize (Hs x).
  destruct (toLocal h x), (toLocal h' x); auto.
  destruct Hs as (-> & -> & ->). auto.
Qed.

(** A descent in the grafted heap either stays on old nodes, or runs
    through the redirected slot into the new nodes. *)
Lemma grafted_arrives h h' pn par b top news k m p0 q0 p q :
  heap_ok cfg h -> grafted h h' pn par b top news ->
  arrives h' k m p0 q0 p q ->
  (q0 <> 0 -> exists n0, toLocal h q0 = Some n0) ->
  arrives h k m p0 q0 p q
  \/ exists m1 p1 m2,
       m = (m1 + 1 + m2)%nat /\ arrives h k m1 p0 q0 p1 pn /\
       firstn (prefix_size par) k = firstn (prefix_size par) (key par) /\
       nth_error k (prefix_size par) = Some b /\
       arrives h' k m2 (Some (pn, b)) top p q.
Proof.
  intros Hok G Ha.
  induction Ha as [p q|p q n b1 p' q' m Hq Hpre Hb Hrest IH]; intros Hmap.
  - left; constructor.
  - pose proof (toLocal_Some_pos _ _ _ Hq) as Hpos.
    destruct Hmap as (n0 & Hn0); [lia|].
    assert (Hstep : forall nh,
               toLocal h q = Some nh -> prefix_size nh = prefix_size n ->
               key nh = key n -> child nh b1 = child n b1 ->
               arrives h k (S m) p q p' q'
               \/ exists m1 p1 m2,
                    S m = (m1 + 1 + m2)%nat /\ arrives h k m1 p q p1 pn /\
                    firstn (prefix_size par) k
                    = firstn (prefix_size par) (key par) /\
                    nth_error k (prefix_size par) = Some b /\
                    arrives h' k m2 (Some (pn, b)) top p' q').
    { intros nh Hnh Eps Ekey Ech.
      assert (Hdown : forall m1 p1 q1,
                 arrives h k m1 (Some (q, b1)) (child n b1) p1 q1 ->
                 arrives h k (S m1) p q p1 q1).
      { intros m1 p1 q1 A. apply (arrives_down h k p q nh b1 p1 q1 m1); auto.
        - now rewrite Eps, Ekey.
        - now rewrite Eps.
        - now rewrite Ech. }
      destruct IH as [L|(m1 & p1 & m2 & -> & A1 & P & B & R)].
      - intros Hc. rewrite <- Ech in Hc |- *.
        destruct (Hok _ _ Hnh) as (_ & _ & Hch).
        destruct (Hch b1 Hc) as (nc & Hnc & _). eauto.
      - left. now apply Hdown.
      - right. exists (S m1), p1, m2. repeat split; auto. }
    destruct (grafted_cases _ _ _ _ _ _ _ _ _ G Hq)
      as [(-> & ->)|[Hin|(Hne & Hold)]].
    + pose proof (gr_parent _ _ _ _ _ _ _ G) as Hpar.
      destruct (Byte.byte_eq_dec b1 b) as [->|Nb].
      * right. exists 0%nat, p, m. simpl in Hrest. rewrite upd_same in Hrest.
        repeat split; auto. constructor.
      * apply (Hstep par); auto. simpl. now rewrite upd_other.
    + destruct (gr_news _ _ _ _ _ _ _ G _ _ Hin) as (E & _). congruence.
    + apply (Hstep n); auto.
Qed.

(** Below an old child of the redirected slot nothing has changed. *)
Lemma grafted_arrives_below h h' pn par b top news k m p0 c nc p q :
  heap_ok cfg h -> grafted h h' pn par b top news ->
  toLocal h c = Some nc -> (prefix_size par < prefix_size nc)%nat ->
  arrives h' k m p0 c p q -> arrives h k m p0 c p q.
Proof.
  intros Hok G Hc Hlt Ha.
  destruct (grafted_arrives _ _ _ _ _ _ _ _ _ _ _ _ _ Hok G Ha)
    as [L|(m1 & p1 & m2 & _ & A1 & _)]; eauto.
  exfalso.
  pose proof (arrives_ps_le cfg _ _ _ _ _ _ _ _ _ Hok A1 Hc
                (gr_parent _ _ _ _ _ _ _ G)). lia.
Qed.

Lemma exact_key_buffer k k0 :
  length k0 = length k ->
  firstn (length k0) k = firstn (length k0) (key_buffer cfg k0) -> k = k0.
Proof.
  intros Hl H. rewrite firstn_key_buffer in H by lia.
  rewrite firstn_all in H. rewrite Hl, firstn_all in H. exact H.
Qed.

(** A key found along old nodes of the grafted heap was found before. *)
Lemma grafted_found_old t h' pn par b top news k m p q n :
  wf cfg t -> grafted (heap t) h' pn par b top news ->
  (m <= length k)%nat -> arrives (heap t) k m None (root t) p q ->
  toLocal h' q = Some n ->
  firstn (prefix_size n) k = firstn (prefix_size n) (key n) ->
  prefix_size n = length k ->
  exists n1, found t k q n1 /\ value n1 = value n.
Proof.
  intros (Hok & r & Hr & _) G Hm Ha Hq Hpre Hps.
  pose proof (toLocal_Some_pos _ _ _ Hq) as Hpos.
  assert (Hold : exists n1, toLocal (heap t) q = Some n1).
  { destruct (arrives_last _ _ _ _ _ _ _ Ha)
      as [(_ & _ & ->)|(pn' & b' & par' & _ & Hpn' & Hc & _)]; eauto.
    destruct (Hok _ _ Hpn') as (_ & _ & Hch).
    destruct (Hch b') as (nc & Hnc & _); [lia|]. rewrite Hc in Hnc. eauto. }
  destruct Hold as (n1 & Hn1).
  destruct (grafted_keeps _ _ _ _ _ _ _ _ _ G Hn1)
    as (n' & Hn' & Ek & Ep & Ev).
  assert (n' = n) by congruence. subst n'.
  exists n1. split; auto.
  exists m, p. rewrite <- Ek, <- Ep. auto.
Qed.

End PutFrame.

Section PutKeeps.

Variable cfg : Config.

(** Through the redirected slot a lookup reaches the new nodes, which
    carry the key that was put, or the old child. *)
Lemma graft_kind_found t h' pn par b top news k0 v k m1 p1 m2 p q n :
  wf cfg t -> grafted (heap t) h' pn par b top news ->
  graft_kind cfg (heap t) k0 v (child par b) top news ->
  (m1 + 1 + m2 <= length k)%nat ->
  arrives (heap t) k m1 None (root t) p1 pn ->
  firstn (prefix_size par) k = firstn (prefix_size par) (key par) ->
  nth_error k (prefix_size par) = Some b ->
  arrives h' k m2 (Some (pn, b)) top p q ->
  toLocal h' q = Some n ->
  firstn (prefix_size n) k = firstn (prefix_size n) (key n) ->
  prefix_size n = length k -> IsValid (value n) = true ->
  k = k0 \/ exists n1, found t k q n1 /\ value n1 = value n.
Proof.
  intros Hwf G K Hm A1 P B R Hq Hpre Hps Hv.
  pose proof Hwf as (Hok & _).
  pose proof (gr_parent _ _ _ _ _ _ _ G) as Hpar.
  assert (Hleaf : forall lp m3 p3,
             toLocal h' lp = Some (leaf_node cfg k0 v) ->
             arrives h' k m3 p3 lp p q -> k = k0).
  { intros lp m3 p3 Hlp A.
    inversion A as [|? ? n0 b1 ? ? m4 H0 _ _ Hrest]; subst.
    - rewrite Hlp in Hq; inversion Hq; subst n. simpl in Hps, Hpre.
      now apply (exact_key_buffer cfg).
    - rewrite Hlp in H0; inversion H0; subst n0. simpl in Hrest.
      destruct (arrives_from_null _ _ _ _ _ _ _ Hrest Hq). }
  assert (Hchild : forall m3 p3 nq,
             toLocal (heap t) (child par b) = Some nq -> (S m3 <= m2)%nat ->
             arrives h' k m3 p3 (child par b) p q ->
             exists n1, found t k q n1 /\ value n1 = value n).
  { intros m3 p3 nq Hnq Hle A.
    destruct (Hok _ _ Hpar) as (_ & _ & Hch).
    destruct (Hch b) as (nc & Hnc & Hlt & _);
      [apply toLocal_Some_pos in Hnq; lia|].
    assert (nc = nq) by congruence. subst nc.
    pose proof (grafted_arrives_below cfg _ _ _ _ _ _ _ _ _ _ _ _ _ _
                  Hok G Hnq Hlt A) as A'.
    destruct (arrives_any_slot _ _ _ _ _ _ _ A' (Some (pn, b))) as (p' & A'').
    pose proof (arrives_trans _ _ _ _ _ _ _ _ _ _ A1
                  (arrives_down _ k p1 pn par b p' q m3 Hpar P B A'')) as A2.
    apply (grafted_found_old cfg t h' pn par b top news k (m1 + S m3) p' q n);
      auto. lia. }
  destruct K as [lp Hz|nq ip Hnq Hpre0 Hl|nq ip lp i kb Hnq Hi Hil Hkb Hne].
  - left. apply (Hleaf lp m2 (Some (pn, b))); auto.
    apply (gr_news _ _ _ _ _ _ _ G); now left.
  - destruct (gr_news _ _ _ _ _ _ _ G ip
                (split_node_here cfg k0 v nq (child par b))) as (_ & Hip);
      [now left|].
    inversion R as [|? ? n0 b1 ? ? m3 H0 _ _ Hrest]; subst.
    + left. rewrite Hip in Hq; inversion Hq; subst n. simpl in Hps, Hpre.
      now apply (exact_key_buffer cfg).
    + right. rewrite Hip in H0; inversion H0; subst n0. simpl in Hrest.
      destruct (Byte.byte_eq_dec b1 (nth (length k0) (key nq) x00%byte))
        as [->|Nb].
      * rewrite upd_same in Hrest. eapply (Hchild m3 _ nq); eauto.
      * rewrite upd_other in Hrest by auto.
        destruct (arrives_from_null _ _ _ _ _ _ _ Hrest Hq).
  - destruct (gr_news _ _ _ _ _ _ _ G ip
                (split_node_leaf cfg k0 nq i kb lp (child par b)))
      as (_ & Hip); [now left|].
    destruct (gr_news _ _ _ _ _ _ _ G lp (leaf_node cfg k0 v)) as (_ & Hlp);
      [right; now left|].
    inversion R as [|? ? n0 b1 ? ? m3 H0 _ _ Hrest]; subst.
    + rewrite Hip in Hq; inversion Hq; subst n. discriminate.
    + rewrite Hip in H0; inversion H0; subst n0. simpl in Hrest.
      destruct (Byte.byte_eq_dec b1 (nth (first_mismatch k0 (key nq)
                  (Nat.min (length k0) (prefix_size nq))) (key nq) x00%byte))
        as [->|Nb].
      * right. rewrite upd_same in Hrest. eapply (Hchild m3 _ nq); eauto.
      * rewrite upd_other in Hrest by auto.
        destruct (Byte.byte_eq_dec b1 kb) as [->|Nk].
        -- left. rewrite upd_same in Hrest. eapply Hleaf; eauto.
        -- rewrite upd_other in Hrest by auto.
           destruct (arrives_from_null _ _ _ _ _ _ _ Hrest Hq).
Qed.

(** After a put, a key with a valid value is the key that was put or a key
    that had that value before. *)
Lemma put_effect_found t k0 v u r t' k q n :
  wf cfg t -> put_effect cfg t k0 v u r t' ->
  found t' k q n -> IsValid (value n) = true ->
  k = k0 \/ exists n1, found t k q n1 /\ value n1 = value n.
Proof.
  intros Hwf He Hf Hv. pose proof Hwf as (Hok & rt & Hrt & Hrt0).
  destruct He as [q0 n0 Hf0 _|q0 n0 _ _|
                  m0 pn b par top news h' Hm0 Ha0 Hpre0 Hb0 G K Hk].
  - destruct Hf as (m & p & Hm & Ha & Hq & Hpre & Hps). simpl in *.
    pose proof Hf0 as (_ & _ & _ & _ & Hq0 & _).
    pose proof (same_shape_set_value (heap t) q0 n0
                  (bumped v (value n0)) Hq0) as Hs.
    apply same_shape_sym in Hs.
    pose proof (same_shape_arrives _ _ _ _ _ _ _ _ Hs Ha) as Ha'.
    destruct (Z.eq_dec q0 q) as [->|Hne].
    + left. rewrite (toLocal_store_same _ _ _ _ Hq0) in Hq.
      inversion Hq; subst n. simpl in Hpre, Hps.
      assert (Hfk : found t k q n0) by (exists m, p; auto).
      rewrite (found_key cfg t k q n0 Hok Hfk).
      now rewrite (found_key cfg t k0 q n0 Hok Hf0).
    + right. rewrite toLocal_store_other in Hq by auto.
      exists n. split; auto. exists m, p; auto.
  - right. exists n; auto.
  - destruct Hf as (m & p & Hm & Ha & Hq & Hpre & Hps). simpl in *.
    destruct (grafted_arrives cfg _ _ _ _ _ _ _ _ _ _ _ _ _ Hok G Ha)
      as [L|(m1 & p1 & m2 & -> & A1 & P & B & R)]; [eauto| |].
    + right. eapply grafted_found_old; eauto.
    + eapply graft_kind_found; eauto.
Qed.

End PutKeeps.

(** ** Trees built by put and destroy *)

Section Inserted.

Variable cfg : Config.

(** The root the constructor makes has no child and no value. *)
Lemma new_root h t :
  RadixTree_new cfg h 0 = Ret t ->
  exists n, toLocal (heap t) (root t) = Some n /\
            child n = (fun _ => 0) /\ value n = TagGptr0.
Proof.
  unfold RadixTree_new. simpl.
  destruct (Alloc cfg h) as [r h1] eqn:EA.
  pose proof (Alloc_cases cfg h) as HA. rewrite EA in HA; simpl in HA.
  destruct HA as [(-> & _)|(Hext & _)].
  - unfold assert, deref; simpl. destruct (NDEBUG cfg); discriminate.
  - pose proof (extended_ptr_pos _ _ _ _ Hext) as Hpos.
    unfold assert, deref.
    replace (r =? 0) with false by (symmetry; apply Z.eqb_neq; lia).
    rewrite (extended_new _ _ _ _ Hext); simpl.
    assert (Hb : (if NDEBUG cfg then Ret tt else Ret tt) = @Ret unit tt)
      by (destruct (NDEBUG cfg); auto).
    rewrite Hb; simpl. intros E; inversion E; subst t; clear E. simpl.
    eexists. split; [|split].
    + eapply toLocal_store_same, extended_new; eauto.
    + reflexivity.
    + reflexivity.
Qed.

Lemma new_found h t k q n :
  RadixTree_new cfg h 0 = Ret t -> found t k q n -> value n = TagGptr0.
Proof.
  intros Hnew (m & p & _ & Ha & Hq & _).
  destruct (new_root h t Hnew) as (r & Hr & Hc & Hv).
  inversion Ha as [|? ? n0 b ? ? ? H0 _ _ Hrest]; subst.
  - congruence.
  - rewrite Hr in H0; inversion H0; subst n0. rewrite Hc in Hrest.
    destruct (arrives_from_null _ _ _ _ _ _ _ Hrest Hq).
Qed.

(** A deletion makes no value valid. *)
Lemma value_bump_found t h' k q n :
  value_bump 0 (heap t) h' -> found (with_heap t h') k q n ->
  IsValid (value n) = true -> found t k q n.
Proof.
  intros [|q0 n0 Hq0] Hf Hv.
  - now rewrite with_heap_same in Hf.
  - destruct Hf as (m & p & Hm & Ha & Hq & Hpre & Hps). simpl in *.
    pose proof (same_shape_sym _ _ (same_shape_set_value (heap t) q0 n0
                  (bumped 0 (value n0)) Hq0)) as Hs.
    destruct (Z.eq_dec q0 q) as [->|Hne].
    + rewrite (toLocal_store_same _ _ _ _ Hq0) in Hq.
      inversion Hq; subst n. discriminate.
    + rewrite toLocal_store_other in Hq by auto.
      exists m, p. repeat split; auto.
      eapply same_shape_arrives; eauto.
Qed.

(** Every tree that was built is well formed, and a key with a valid value
    in it is one of the keys that were put. *)
Lemma built_inv S t :
  built cfg S t ->
  wf cfg t /\ Forall (fun k => key_size_ok cfg k = true) S /\
  forall k q n, found t k q n -> IsValid (value n) = true -> In k S.
Proof.
  induction 1 as [h t Hok Hnew|S t k0 v u fuel r t' _ IH Hk Hf Hput
                  |S t k0 fuel r t' _ IH Hd].
  - split; [eapply wf_new; eauto|]. split; [constructor|].
    intros k q n Hfound Hv.
    rewrite (new_found h t k q n Hnew Hfound) in Hv. discriminate.
  - destruct IH as (Hwf & HS & Hin).
    split; [eapply wf_put; eauto|]. split; [constructor; auto|].
    intros k q n Hfound Hv.
    rewrite put_unfold in Hput. apply assert_Ret in Hput.
    destruct (put_loop cfg fuel (heap t) k0 v u (locals_at None (root t)))
      as [[r' h']| | |] eqn:E; try discriminate.
    simpl in Hput; inversion Hput; subst r' t'.
    pose proof (put_loop_effect cfg _ _ _ _ _ _ _ Hwf Hf E) as He.
    destruct (put_effect_found cfg _ _ _ _ _ _ _ _ _ Hwf He Hfound Hv)
      as [->|(n1 & Hf1 & Ev)]; [now left|].
    right. apply (Hin k q n1); auto. now rewrite Ev.
  - destruct IH as (Hwf & HS & Hin).
    split; [eapply wf_destroy; eauto|]. split; [auto|].
    intros k q n Hfound Hv.
    rewrite destroy_unfold in Hd. apply assert_Ret in Hd.
    destruct (destroy_loop cfg fuel (heap t) k0 (root t))
      as [[o h']| | |] eqn:E; try discriminate.
    simpl in Hd; inversion Hd; subst o t'.
    apply (Hin k q n); auto.
    eapply value_bump_found; eauto. eapply destroy_loop_effect; eauto.
Qed.

End Inserted.

(** ** The open scan of a built tree *)

Section OpenScan.

Variable cfg : Config.

(** X11 (the open scan).  Over a tree built by puts of the keys [S] and
    by deletions, a scan with both boundaries [OPEN_BOUNDARY_KEY] and
    exclusive, started on an iterator whose [end_key_inclusive] field is
    clear, followed by [get_next] until it reports the end, returns: it
    yields the keys of
    [S] whose lookup is valid, with their values, in strictly ascending
    order of [std::string]'s [operator<], so each of them once.  The allocator is
    the model's: a block [Alloc] hands out is zero-filled ([zero_node]),
    which the source relies on and does not establish. *)
Theorem open_scan_yields_inserted_keys (S : list (list byte))
  (t : RadixTree) (it : Iter) :
  built cfg S t ->
  key_size_ok cfg (OPEN_BOUNDARY_KEY cfg) = true ->
  end_key_inclusive it = false ->
  exists ys,
    (exists F, forall fuel calls,
        (F <= fuel)%nat -> (length ys < calls)%nat ->
        scan_all cfg calls fuel t it (OPEN_BOUNDARY_KEY cfg) false
                 (OPEN_BOUNDARY_KEY cfg) false = Ret ys)
    /\ StronglySorted bytes_lt (map fst ys)
    /\ NoDup (map fst ys)
    /\ forall k tq,
         In (k, tq) ys <->
         In k S /\ IsValid tq = true /\
         forall fuel, (length k + 2 <= fuel)%nat -> get cfg fuel t k = Ret tq.
Proof.
  intros Hb Hopen Hit.
  destruct (built_inv cfg S t Hb) as (Hwf & HS & Hin).
  pose proof Hwf as (Hok & _).
  exists (contents cfg t). split; [|split; [|split]].
  - now apply scan_all_contents.
  - apply (walk_sorted cfg); auto.
  - apply sorted_NoDup, (walk_sorted cfg); auto.
  - intros k tq. rewrite (contents_found cfg t k tq Hwf). split.
    + intros (q & n & Hf & <- & Hv).
      pose proof (Hin k q n Hf Hv) as HkS.
      split; [exact HkS|]. split; [exact Hv|].
      intros fuel Hfuel. rewrite get_unfold.
      rewrite Forall_forall in HS.
      rewrite (assert_bind cfg _ _ (assert_key_ok cfg k (HS k HkS))).
      eapply found_get; eauto.
    + intros (_ & Hv & Hg).
      specialize (Hg (length k + 2)%nat (le_n _)).
      rewrite get_unfold in Hg. apply assert_Ret in Hg.
      destruct (get_loop_found cfg t k _ tq Hwf (le_n _) Hg Hv)
        as (q & n & Hf & Ev).
      exists q, n. subst tq. auto.
Qed.

End OpenScan.

(** * Further properties of the tree operations *)

Section Effects.

Variable cfg : Config.

(** What a value-mutating entry point does to a well-formed tree: the
    effect of a [put], or one value slot bumped. *)
Lemma run_cases t t' o fuel :
  wf cfg t -> (enough o <= fuel)%nat -> run cfg fuel t o = Ret t' ->
  (exists k v u r, put_effect cfg t k v u r t')
  \/ (exists g h', value_bump g (heap t) h' /\ t' = with_heap t h').
Proof.
  intros Hwf Hf Hrun.
  destruct o as [k v u|k|k v|q v|k|q]; cbn [run enough] in *.
  - destruct (put cfg fuel t k v u) as [[r t1]| | |] eqn:E; try discriminate.
    simpl in Hrun; inversion Hrun; subst t1.
    rewrite put_unfold in E. apply assert_Ret in E.
    destruct (put_loop cfg fuel (heap t) k v u _) as [[r' h']| | |] eqn:EL;
      try discriminate.
    simpl in E; inversion E; subst.
    left. exists k, v, u, r. eapply put_loop_effect; eauto.
  - destruct (destroy cfg fuel t k) as [[r t1]| | |] eqn:E; try discriminate.
    simpl in Hrun; inversion Hrun; subst t1.
    rewrite destroy_unfold in E. apply assert_Ret in E.
    destruct (destroy_loop cfg fuel (heap t) k _) as [[r' h']| | |] eqn:EL;
      try discriminate.
    simpl in E; inversion E; subst.
    right. exists 0, h'. split; auto. eapply destroy_loop_effect; eauto.
  - destruct (putC cfg fuel t k v) as [[[[q nv] old] t1]| | |] eqn:E;
      try discriminate.
    simpl in Hrun; inversion Hrun; subst t1.
    unfold putC in E. apply assert_Ret in E.
    destruct (putC_loop cfg fuel (heap t) k v _)
      as [[[[q' nv'] old'] h']| | |] eqn:EL; try discriminate.
    simpl in E; inversion E; subst.
    assert (EP : put_loop cfg fuel (heap t) k v true (locals_at None (root t))
                 = Ret (old, h')).
    { rewrite put_loop_putC. unfold locals_at. unfold put_init in EL.
      now rewrite EL. }
    left. exists k, v, true, old. eapply put_loop_effect; eauto.
  - destruct (putC_ptr cfg fuel t q v) as [[[nv old] t1]| | |] eqn:E;
      try discriminate.
    simpl in Hrun; inversion Hrun; subst t1.
    unfold putC_ptr in E. apply assert_Ret in E.
    destruct (deref cfg (heap t) q); try discriminate. cbn [bind] in E.
    destruct (loadTagGptr (heap t) q) as [tq| | |] eqn:EL; try discriminate.
    cbn [bind] in E.
    destruct (cas_value_loop fuel (heap t) q tq v)
      as [[[o' nv'] h']| | |] eqn:EC; try discriminate.
    simpl in E; inversion E; subst.
    right. exists v, h'. split; auto. eapply cas_value_loop_effect; eauto.
  - destruct (destroyC cfg fuel t k) as [[[[q nv] old] t1]| | |] eqn:E;
      try discriminate.
    simpl in Hrun; inversion Hrun; subst t1.
    unfold destroyC in E. apply assert_Ret in E.
    destruct (destroyC_loop cfg fuel (heap t) k _)
      as [[[[q' nv'] old'] h']| | |] eqn:EL; try discriminate.
    simpl in E; inversion E; subst.
    right. exists 0, h'. split; auto. eapply destroyC_loop_effect; eauto.
  - destruct (destroyC_ptr cfg fuel t q) as [[[nv old] t1]| | |] eqn:E;
      try discriminate.
    simpl in Hrun; inversion Hrun; subst t1.
    unfold destroyC_ptr in E. apply assert_Ret in E.
    destruct (deref cfg (heap t) q); try discriminate. cbn [bind] in E.
    destruct (loadTagGptr (heap t) q) as [tq| | |] eqn:EL; try discriminate.
    cbn [bind] in E.
    destruct (cas_value_loop fuel (heap t) q tq 0)
      as [[[o' nv'] h']| | |] eqn:EC; try discriminate.
    simpl in E; inversion E; subst.
    right. exists 0, h'. split; auto. eapply cas_value_loop_effect; eauto.
Qed.

Lemma put_effect_root t k v u r t' :
  put_effect cfg t k v u r t' -> root t' = root t.
Proof. intros []; reflexivity. Qed.

(** X2 (the invariant is kept).  Every value-mutating entry point ([put],
    [destroy], [putC] and [destroyC] by key or by node pointer) that
    returns on a well-formed tree leaves a well-formed tree with the same
    root: every block of the heap still is a node whose prefix fits its
    key buffer, and every non-null child still points to a node with a
    strictly longer prefix that extends its parent's by the slot's byte.  The allocator is
    the model's: a block [Alloc] hands out is zero-filled ([zero_node]),
    which the source relies on and does not establish. *)
Theorem operations_keep_tree_well_formed (t t' : RadixTree) (o : operation)
  (fuel : nat) :
  wf cfg t -> (enough o <= fuel)%nat -> run cfg fuel t o = Ret t' ->
  wf cfg t' /\ root t' = root t.
Proof.
  intros Hwf Hf Hrun.
  destruct (run_cases t t' o fuel Hwf Hf Hrun)
    as [(k & v & u & r & He)|(g & h' & Hb & ->)].
  - split; [eapply put_effect_wf; eauto|eapply put_effect_root; eauto].
  - split; [eapply value_bump_wf; eauto|reflexivity].
Qed.

Lemma flat_map_nil {A B} (f : A -> list B) l :
  (forall x, In x l -> f x = []) -> flat_map f l = [].
Proof.
  induction l as [|x l IH]; intros H; simpl; auto.
  rewrite (H x) by now left. apply IH. intros y Hy. apply H. now right.
Qed.

(** The root of a new tree, seen from [get]. *)
Lemma get_loop_bare_root h k r n f :
  toLocal h r = Some n -> prefix_size n = 0%nat -> child n = (fun _ => 0) ->
  k <> [] ->
  get_loop cfg (S (S f)) h k r = Ret TagGptr0.
Proof.
  intros Hr Hps Hc Hk. destruct k as [|b k]; [congruence|].
  cbn [get_loop]. rewrite (eqb_0_mapped _ _ _ Hr), (deref_Some cfg _ _ _ Hr).
  cbn [bind]. rewrite Hps. simpl. rewrite Hr. simpl. now rewrite Hc.
Qed.

(** X1 (a new tree is empty).  On a sound heap whose allocator does not
    fail the constructor returns; the tree it returns is well formed, a
    depth-first walk of it finds no valid value, and [get] of every key
    returns the default, invalid tagged pointer. *)
Theorem new_tree_is_empty (h : Heap) :
  heap_ok cfg h ->
  (pressure h = [] -> exists t, RadixTree_new cfg h 0 = Ret t)
  /\ forall t, RadixTree_new cfg h 0 = Ret t ->
       wf cfg t /\ contents cfg t = [] /\
       forall k fuel, key_size_ok cfg k = true -> (2 <= fuel)%nat ->
                      get cfg fuel t k = Ret TagGptr0.
Proof.
  intros Hok. split.
  - intros Hp. unfold RadixTree_new, Alloc. rewrite Hp. simpl.
    unfold assert, deref, toLocal.
    replace (Z.of_nat (length (cells h)) + 1 =? 0) with false
      by (symmetry; apply Z.eqb_neq; lia).
    replace (Z.of_nat (length (cells h)) + 1 <=? 0) with false
      by (symmetry; apply Z.leb_gt; lia).
    simpl.
    replace (Z.to_nat (Z.of_nat (length (cells h)) + 1) - 1)%nat
      with (length (cells h)) by lia.
    rewrite nth_error_app2, Nat.sub_diag by lia. simpl.
    destruct (NDEBUG cfg); simpl; eauto.
  - intros t Hnew.
    pose proof (wf_new cfg h t Hok Hnew) as Hwf.
    destruct (new_root cfg h t Hnew) as (n & Hr & Hc & Hv).
    destruct Hwf as (Hok' & r & Hr' & Hps).
    assert (r = n) by congruence. subst r.
    split; [split; eauto|]. split.
    + unfold contents. rewrite (walk_unfold _ _ _ _ Hr).
      unfold own. rewrite Hv. simpl.
      unfold below. rewrite Nat.sub_0_r.
      apply flat_map_nil. intros j _. unfold child_ix. rewrite Hc.
      destruct (Byte.of_nat j); apply walk_null.
    + intros k fuel Hk Hf. rewrite get_unfold, (assert_key_ok cfg k Hk).
      cbn [bind]. destruct fuel as [|[|f]]; try lia.
      apply (get_loop_bare_root (heap t) k (root t) n); auto.
      intros ->. discriminate.
Qed.

End Effects.

Section Lookups.

Variable cfg : Config.

(** The pair a cached lookup returns: a null pointer comes with the
    default value, any other pointer is a node holding the value. *)
Lemma getC_loop_null fuel h k q0 tq :
  getC_loop cfg fuel h k q0 = Ret (0, tq) -> tq = TagGptr0.
Proof.
  revert q0; induction fuel as [|fuel IH]; intros q0; simpl; [discriminate|].
  destruct (q0 =? 0) eqn:E0; [intros H; now inversion H|].
  destruct (deref cfg h q0) as [n| | |]; simpl; try discriminate.
  destruct (negb _); [intros H; now inversion H|].
  destruct (_ =? _)%nat.
  - destruct (loadTagGptr h q0); simpl; try discriminate.
    intros H; inversion H; subst. discriminate.
  - destruct (key_at _ _); simpl; try discriminate.
    destruct (toLocal h q0); simpl; try discriminate. apply IH.
Qed.

Lemma getC_loop_ptr fuel h k q0 q tq :
  getC_loop cfg fuel h k q0 = Ret (q, tq) -> q <> 0 ->
  exists n, toLocal h q = Some n /\ value n = tq.
Proof.
  revert q0; induction fuel as [|fuel IH]; intros q0; simpl; [discriminate|].
  destruct (q0 =? 0) eqn:E0; [intros H; inversion H; congruence|].
  destruct (deref cfg h q0) as [n| | |]; simpl; try discriminate.
  destruct (negb _); [intros H; inversion H; congruence|].
  destruct (_ =? _)%nat.
  - unfold loadTagGptr. destruct (toLocal h q0) as [n0|] eqn:Eq; simpl;
      try discriminate.
    intros H _; inversion H; subst. eauto.
  - destruct (key_at _ _); simpl; try discriminate.
    destruct (toLocal h q0); simpl; try discriminate. apply IH.
Qed.

(** What [get] returns for a key that is not found. *)
Lemma get_loop_not_found t k fuel tq :
  wf cfg t -> (length k + 2 <= fuel)%nat ->
  (forall q n, ~ found t k q n) ->
  get_loop cfg fuel (heap t) k (root t) = Ret tq -> tq = TagGptr0.
Proof.
  intros Hwf Hf Hnf Hg. rewrite get_getC in Hg.
  destruct (getC_loop cfg fuel (heap t) k (root t)) as [[q tq']| | |] eqn:E;
    try discriminate.
  simpl in Hg; inversion Hg; subst tq'.
  destruct (Z.eq_dec q 0) as [->|Hq].
  - eapply getC_loop_null; eauto.
  - destruct (getC_loop_found cfg t k fuel q tq Hwf Hf E Hq) as (n & Hn & _).
    destruct (Hnf q n Hn).
Qed.

(** [get] on a well-formed tree: the value of the node found, the default
    value, or a read past the key. *)
Lemma get_loop_cases t k fuel :
  wf cfg t -> (length k + 2 <= fuel)%nat ->
  (exists q n, found t k q n /\
               get_loop cfg fuel (heap t) k (root t) = Ret (value n))
  \/ ((forall q n, ~ found t k q n) /\
      (get_loop cfg fuel (heap t) k (root t) = Ret TagGptr0
       \/ get_loop cfg fuel (heap t) k (root t) = Fault KeyIndexOutOfRange)).
Proof.
  intros Hwf Hf. pose proof Hwf as (Hok & _).
  destruct (wf_descent cfg t k Hwf) as (m & p & q & Hm & Ha & Hs).
  assert (D : (exists n, toLocal (heap t) q = Some n /\
                 firstn (prefix_size n) k = firstn (prefix_size n) (key n) /\
                 prefix_size n = length k)
              \/ (forall n, toLocal (heap t) q = Some n ->
                    firstn (prefix_size n) k = firstn (prefix_size n) (key n) ->
                    prefix_size n <> length k)).
  { destruct Hs as [Hz|n Hq Hne|n Hq Hpre Hps|n Hq Hpre Hlt].
    - right. intros n Hn. subst. discriminate.
    - right. intros n' Hn' Hpre' Hps'. assert (n' = n) by congruence. subst n'.
      apply Hne. rewrite Hps', Nat.min_id, <- Hps'. exact Hpre'.
    - left. eauto.
    - right. intros n' Hn' _ Hps'. assert (n' = n) by congruence. subst n'.
      lia. }
  destruct D as [(n & Hq & Hpre & Hps)|Hno].
  - left. exists q, n.
    assert (Hfound : found t k q n) by (exists m, p; auto).
    split; auto. eapply found_get; eauto.
  - right. split.
    + intros q1 n1 (m1 & p1 & Hm1 & Ha1 & Hq1 & Hpre1 & Hps1).
      assert (Hs1 : stop (heap t) k q1) by (eapply stop_exact; eauto).
      destruct (le_lt_dec m m1) as [L|L].
      * pose proof (arrives_deterministic _ _ _ _ _ _ _ Ha _ _ _ Ha1 L) as A.
        pose proof (stop_no_step _ _ _ _ _ _ _ Hs A) as Z.
        inversion A; subst; try lia. eapply Hno; eauto.
      * assert (L' : (m1 <= m)%nat) by lia.
        pose proof (arrives_deterministic _ _ _ _ _ _ _ Ha1 _ _ _ Ha L') as A.
        pose proof (stop_no_step _ _ _ _ _ _ _ Hs1 A) as Z. lia.
    + replace fuel with (m + S (fuel - m - 1))%nat by lia.
      rewrite (get_loop_arrives cfg _ _ _ _ _ _ _ Hok Ha).
      rewrite get_getC.
      destruct (getC_loop_other cfg _ _ _ (fuel - m - 1) Hok Hs Hno) as [E|E];
        rewrite E; auto.
Qed.

(** X4 (a key that was never put).  In a tree built by [put]s and
    [destroy]s, [get] of a key that is none of the keys put never returns
    a valid value: it returns an invalid tagged pointer, or it reads the
    key past its end (when a longer key with this prefix sits where the
    descent ends).  The allocator is
    the model's: a block [Alloc] hands out is zero-filled ([zero_node]),
    which the source relies on and does not establish. *)
Theorem get_of_key_never_put (S : list (list byte)) (t : RadixTree)
  (k : list byte) (fuel : nat) :
  built cfg S t -> ~ In k S -> key_size_ok cfg k = true ->
  (length k + 2 <= fuel)%nat ->
  get cfg fuel t k = Fault KeyIndexOutOfRange
  \/ exists tq, get cfg fuel t k = Ret tq /\ IsValid tq = false.
Proof.
  intros Hb Hk Hok Hf.
  destruct (built_inv cfg S t Hb) as (Hwf & _ & Hin).
  rewrite get_unfold, (assert_key_ok cfg k Hok). cbn [bind].
  destruct (get_loop_cases t k fuel Hwf Hf)
    as [(q & n & Hfound & E)|(_ & [E|E])]; rewrite E; auto.
  - right. exists (value n). split; auto.
    destruct (IsValid (value n)) eqn:Hv; auto.
    destruct (Hk (Hin k q n Hfound Hv)).
  - right. exists TagGptr0. auto.
Qed.

(** X15 (the value returned is the prior value).  Whenever [get] of a key
    returns a tagged value on a well-formed tree, [destroy] of that key
    returns the same tagged value, and so does every [put] of that key
    that returns. *)
Theorem put_and_destroy_return_prior_value (t : RadixTree) (k : list byte)
  (tq : TagGptr) (fuel : nat) :
  wf cfg t -> (length k + 2 <= fuel)%nat ->
  get cfg fuel t k = Ret tq ->
  (exists t', destroy cfg fuel t k = Ret (tq, t'))
  /\ forall v u r t', put cfg fuel t k v u = Ret (r, t') -> r = tq.
Proof.
  intros Hwf Hf Hg. pose proof Hwf as (Hok & _).
  rewrite get_unfold in Hg.
  pose proof (assert_Ret_passes cfg _ _ _ Hg) as Ha.
  apply assert_Ret in Hg. split.
  - rewrite destroy_unfold, (assert_bind cfg _ _ Ha).
    rewrite destroy_destroyC, destroyC_loop_getC.
    rewrite get_getC in Hg.
    destruct (getC_loop cfg fuel (heap t) k (root t)) as [[q tq']| | |] eqn:E;
      try discriminate.
    simpl in Hg; inversion Hg; subst tq'. cbn [bind tombstone].
    destruct (q =? 0) eqn:E0.
    + apply Z.eqb_eq in E0; subst q.
      rewrite (getC_loop_null _ _ _ _ _ E). simpl. eauto.
    + apply Z.eqb_neq in E0.
      destruct (getC_loop_ptr _ _ _ _ _ _ E E0) as (n & Hn & <-).
      rewrite Hn. simpl. eauto.
  - intros v u r t' Hput. rewrite put_unfold in Hput. apply assert_Ret in Hput.
    destruct (put_loop_shape cfg t k v u fuel Hwf Hf)
      as [q n Hfound Hres|m pn b par Hm Ha' Hpn Hpre Hb Hnf Hres].
    + rewrite (found_get cfg t k q n fuel Hwf Hf Hfound) in Hg.
      inversion Hg; subst tq. rewrite Hres in Hput.
      destruct (u || negb (IsValid (value n))); simpl in Hput;
        now inversion Hput.
    + rewrite (get_loop_not_found t k fuel tq Hwf Hf Hnf Hg).
      destruct Hres as [(_ & Hres)|[(n & _ & _ & _ & Hres)|(n & _ & _ & Hres)]];
        rewrite Hres in Hput; clear Hres.
      * destruct (make_leaf cfg (heap t) k v 0) as [[lp h1]| | |];
          simpl in Hput; try discriminate. now inversion Hput.
      * destruct (make_intermediate cfg (heap t) k 0) as [[ip h1]| | |];
          simpl in Hput; try discriminate. now inversion Hput.
      * destruct (make_intermediate cfg (heap t) k 0) as [[ip h1]| | |];
          simpl in Hput; try discriminate.
        destruct (make_leaf cfg h1 k v 0) as [[lp h2]| | |];
          simpl in Hput; try discriminate. now inversion Hput.
Qed.

(** X16 (what a put without update tells its caller).  A [put] with
    update off that returns on a well-formed tree either returns a valid
    prior value and has left the tree exactly as it was, or returns an
    invalid one and has stored its value: [get] then yields it.  The allocator is
    the model's: a block [Alloc] hands out is zero-filled ([zero_node]),
    which the source relies on and does not establish. *)
Theorem put_no_update_stores_iff_prior_invalid (t : RadixTree)
  (k : list byte) (v : Gptr) (r : TagGptr) (t' : RadixTree) (fuel : nat) :
  wf cfg t -> (length k + 2 <= fuel)%nat ->
  put cfg fuel t k v false = Ret (r, t') ->
  (IsValid r = true /\ t' = t)
  \/ (IsValid r = false /\
      exists tg, get cfg fuel t' k = Ret (mkTagGptr v tg)).
Proof.
  intros Hwf Hf Hput. rewrite put_unfold in Hput.
  pose proof (assert_Ret_passes cfg _ _ _ Hput) as Ha.
  apply assert_Ret in Hput.
  destruct (put_loop cfg fuel (heap t) k v false (locals_at None (root t)))
    as [[r' h']| | |] eqn:E; try discriminate.
  simpl in Hput; inversion Hput; subst r' t'; clear Hput.
  pose proof (put_loop_effect cfg _ _ _ _ _ _ _ Hwf Hf E) as He.
  assert (Hget : IsValid r = false ->
                 exists tg, get cfg fuel (with_heap t h') k
                            = Ret (mkTagGptr v tg)).
  { intros Hr. rewrite get_unfold, (assert_bind cfg _ _ Ha).
    eapply put_effect_get; eauto. }
  destruct (IsValid r) eqn:Hr; [left; split; auto|right; auto].
  inversion He as [q n Hfound Hu Er Et|q n Hfound Hu Er Et|
                   m pn b par top news h2 Hm Ha' Hpre Hb G K Hk Er Et].
  - subst r. simpl in Hu. rewrite Hr in Hu. discriminate.
  - reflexivity.
  - subst r. discriminate.
Qed.

End Lookups.

Section Tombstones.

Variable cfg : Config.

Lemma getC_ptr_mapped t q n :
  toLocal (heap t) q = Some n -> getC_ptr cfg t q = Ret (value n).
Proof.
  intros Hq. unfold getC_ptr.
  rewrite (eqb_0_mapped _ _ _ Hq). cbn [negb].
  rewrite assert_true, (deref_Some cfg _ _ _ Hq). cbn [bind].
  unfold loadTagGptr. now rewrite Hq.
Qed.

(** X3 (deletion leaves a tombstone).  A [destroy] that returns changes
    nothing but, at most, the value slot of one node: the root, the number
    of blocks, the allocator and the list of freed blocks are the same,
    and every node keeps its key, its prefix size and all its children.
    No node is unlinked or freed. *)
Theorem destroy_changes_one_value_slot_only (t t' : RadixTree)
  (k : list byte) (old : TagGptr) (fuel : nat) :
  destroy cfg fuel t k = Ret (old, t') ->
  root t' = root t /\
  length (cells (heap t')) = length (cells (heap t)) /\
  pressure (heap t') = pressure (heap t) /\
  freed (heap t') = freed (heap t) /\
  (forall x n, toLocal (heap t) x = Some n ->
     exists n', toLocal (heap t') x = Some n' /\ key n' = key n /\
                prefix_size n' = prefix_size n /\ child n' = child n) /\
  exists q, forall x, x <> q -> toLocal (heap t') x = toLocal (heap t) x.
Proof.
  intros Hd. rewrite destroy_unfold in Hd. apply assert_Ret in Hd.
  destruct (destroy_loop cfg fuel (heap t) k (root t)) as [[o h']| | |] eqn:E;
    try discriminate.
  simpl in Hd; inversion Hd; subst o t'; clear Hd. simpl.
  pose proof (destroy_loop_effect cfg _ _ _ _ _ _ E) as Hb.
  split; [reflexivity|].
  destruct Hb as [|q n Hq].
  - repeat split; auto; [eauto|]. exists 0; auto.
  - rewrite cells_store_length, pressure_store, freed_store.
    repeat split; auto.
    + intros x n0 Hx.
      apply (same_shape_Some _ _ x n0
               (same_shape_set_value (heap t) q n _ Hq) Hx).
    + exists q. intros x Hx. now apply toLocal_store_other.
Qed.

(** X8 (the cached lookup).  [getC] returns what [get] returns, together
    with the pointer of the node that holds it: a null pointer only with
    the default value, and otherwise a pointer at which the
    pointer-based [getC] reads that same value.  Conversely, whenever
    [get] returns, [getC] returns its value. *)
Theorem getC_returns_value_and_its_node (t : RadixTree) (k : list byte)
  (fuel : nat) :
  (forall q tq, getC cfg fuel t k = Ret (q, tq) ->
     get cfg fuel t k = Ret tq /\
     (q = 0 -> tq = TagGptr0) /\
     (q <> 0 -> getC_ptr cfg t q = Ret tq))
  /\ (forall tq, get cfg fuel t k = Ret tq ->
        exists q, getC cfg fuel t k = Ret (q, tq)).
Proof.
  split.
  - intros q tq Hg. rewrite getC_unfold in Hg.
    pose proof (assert_Ret_passes cfg _ _ _ Hg) as Ha.
    apply assert_Ret in Hg.
    split; [|split].
    + rewrite get_unfold, (assert_bind cfg _ _ Ha), get_getC, Hg. reflexivity.
    + intros ->. eapply getC_loop_null; eauto.
    + intros Hq. destruct (getC_loop_ptr cfg _ _ _ _ _ _ Hg Hq) as (n & Hn & <-).
      now apply getC_ptr_mapped.
  - intros tq Hg. rewrite get_unfold in Hg.
    pose proof (assert_Ret_passes cfg _ _ _ Hg) as Ha.
    apply assert_Ret in Hg. rewrite get_getC in Hg.
    rewrite getC_unfold, (assert_bind cfg _ _ Ha).
    destruct (getC_loop cfg fuel (heap t) k (root t)) as [[q tq']| | |];
      try discriminate.
    simpl in Hg; inversion Hg; subst. eauto.
Qed.

(** X9 (the cached deletion).  When [destroyC] returns a null pointer it
    has changed nothing, and [destroy] reports the key as absent.
    Otherwise the pointer is the one [getC] finds for the key, [destroy]
    returns the same old value and leaves the same tree, and the new value
    returned, gptr 0 with the old tag plus one in 64-bit arithmetic, is
    what the node holds afterwards. *)
Theorem destroyC_is_destroy_with_the_node (t t' : RadixTree) (k : list byte)
  (q : Gptr) (nv old : TagGptr) (fuel : nat) :
  destroyC cfg fuel t k = Ret (q, nv, old, t') ->
  (q = 0 /\ t' = t /\ destroy cfg fuel t k = Ret (TagGptr0, t))
  \/ (q <> 0 /\
      getC cfg fuel t k = Ret (q, old) /\
      destroy cfg fuel t k = Ret (old, t') /\
      nv = mkTagGptr 0 (wrap64 (tag old + 1)) /\
      getC_ptr cfg t' q = Ret nv).
Proof.
  intros Hd. unfold destroyC in Hd.
  pose proof (assert_Ret_passes cfg _ _ _ Hd) as Ha.
  apply assert_Ret in Hd.
  rewrite destroy_unfold, getC_unfold, !(assert_bind cfg _ _ Ha).
  rewrite destroy_destroyC.
  rewrite destroyC_loop_getC in Hd |- *.
  destruct (getC_loop cfg fuel (heap t) k (root t)) as [[q1 tq]| | |] eqn:E;
    try discriminate.
  cbn [bind tombstone] in Hd |- *.
  destruct (q1 =? 0) eqn:E0.
  - simpl in Hd |- *. inversion Hd; subst. left.
    rewrite with_heap_same. auto.
  - apply Z.eqb_neq in E0.
    destruct (getC_loop_ptr cfg _ _ _ _ _ _ E E0) as (n & Hn & <-).
    rewrite Hn in Hd |- *. simpl in Hd |- *. inversion Hd; subst. right.
    repeat split; auto.
    apply (getC_ptr_mapped _ q (set_value n (bumped 0 (value n)))).
    simpl. eapply toLocal_store_same; eauto.
Qed.

End Tombstones.

(** ** putC, sequentially *)

Section PutCSequential.

Variable cfg : Config.

Ltac putC_simpl :=
  cbn [bind putC_finish putC_descend set_pq set_q set_split set_new_leaf_ptr
       set_intermediate_node_ptr l_q l_p l_new_leaf_ptr
       l_intermediate_node_ptr l_prefix_size l_existing locals_at].

Lemma putC_loop_unfold f h k v l :
  putC_loop cfg (S f) h k v l
  = ('(d, h') <- putC_descend cfg (S f) h k v l ;;
     putC_finish cfg (fun h l => putC_loop cfg f h k v l) k v h' d).
Proof. reflexivity. Qed.

Lemma putC_loop_exact h k v m p0 q0 p q n f :
  heap_ok cfg h -> arrives h k m p0 q0 p q ->
  toLocal h q = Some n ->
  firstn (prefix_size n) k = firstn (prefix_size n) (key n) ->
  prefix_size n = length k ->
  putC_loop cfg (S (m + f)) h k v (locals_at p0 q0)
  = Ret (q, bumped v (value n), value n,
         store h q (set_value n (bumped v (value n)))).
Proof.
  intros Hok Harr Hq Hpre Hps.
  rewrite putC_loop_unfold, <- Nat.add_succ_r.
  rewrite (putC_descend_arrives cfg h k v m p0 q0 p q Hok Harr) by reflexivity.
  destruct (Hok _ _ Hq) as (Hlen & _ & _).
  putC_simpl.
  rewrite (eqb_0_mapped _ _ _ Hq), (deref_Some cfg _ _ _ Hq).
  cbn [bind].
  assert (Hi : first_mismatch k (key n) (Nat.min (length k) (prefix_size n))
               = prefix_size n).
  { rewrite Nat.min_r by lia. apply first_mismatch_full; auto; lia. }
  rewrite Hi, Nat.ltb_irrefl, Hps, Nat.eqb_refl.
  unfold free_if; cbn [Z.eqb]. unfold loadTagGptr; rewrite Hq. cbn [bind].
  rewrite (cas_value_loop_hit _ _ _ _ _ Hq). reflexivity.
Qed.

Lemma putC_loop_null h k v m p0 q0 pn b par f :
  heap_ok cfg h -> arrives h k m p0 q0 (Some (pn, b)) 0 ->
  toLocal h pn = Some par -> child par b = 0 ->
  putC_loop cfg (S (m + f)) h k v (locals_at p0 q0)
  = ('(lp, h1) <- make_leaf cfg h k v 0 ;;
     Ret (lp, mkTagGptr v 0, TagGptr0, store h1 pn (set_child par b lp))).
Proof.
  intros Hok Harr Hpn Hch.
  rewrite putC_loop_unfold, <- Nat.add_succ_r.
  rewrite (putC_descend_arrives cfg h k v m p0 q0 _ _ Hok Harr) by reflexivity.
  putC_simpl; cbn [Z.eqb]; putC_simpl.
  destruct (make_leaf cfg h k v 0) as [[lp h1]| | |] eqn:EL; cbn [bind]; auto.
  destruct (make_leaf_Ret _ _ _ _ _ _ EL) as (Hfs & _).
  putC_simpl.
  pose proof (fresh_store_mapped _ _ _ _ _ _ _ Hfs Hpn) as Hpn1.
  rewrite (cas64_hit_null _ _ _ _ _ Hpn1 Hch). reflexivity.
Qed.

Lemma putC_loop_short h k v m p0 q0 pn b par n f :
  heap_ok cfg h -> arrives h k m p0 q0 (Some (pn, b)) (child par b) ->
  toLocal h pn = Some par -> toLocal h (child par b) = Some n ->
  firstn (length k) k = firstn (length k) (key n) ->
  (length k < prefix_size n)%nat ->
  putC_loop cfg (S (m + f)) h k v (locals_at p0 q0)
  = ('(ip, h1) <- make_intermediate cfg h k 0 ;;
     Ret (ip, mkTagGptr v 0, TagGptr0,
          store (store h1 ip (split_node_here cfg k v n (child par b)))
                pn (set_child par b ip))).
Proof.
  intros Hok Harr Hpn Hq Hpre Hlt.
  rewrite putC_loop_unfold, <- Nat.add_succ_r.
  rewrite (putC_descend_arrives cfg h k v m p0 q0 _ _ Hok Harr) by reflexivity.
  destruct (Hok _ _ Hq) as (Hlen & _ & _).
  putC_simpl.
  rewrite (eqb_0_mapped _ _ _ Hq), (deref_Some cfg _ _ _ Hq).
  cbn [bind].
  assert (Hi : first_mismatch k (key n) (Nat.min (length k) (prefix_size n))
               = length k).
  { rewrite Nat.min_l by lia. apply first_mismatch_full; auto; lia. }
  rewrite Hi.
  replace (length k <? prefix_size n)%nat with true
    by (symmetry; apply Nat.ltb_lt; lia).
  putC_simpl.
  rewrite (eqb_0_mapped _ _ _ Hq).
  destruct (make_intermediate cfg h k 0) as [[ip h1]| | |] eqn:EI;
    cbn [bind]; auto.
  destruct (make_intermediate_Ret _ _ _ _ _ EI) as (Hfs & _).
  putC_simpl.
  rewrite Nat.eqb_refl. unfold load_node.
  rewrite (fresh_store_new _ _ _ _ _ Hfs). cbn [bind].
  assert (Hne : ip <> pn).
  { intros ->. rewrite (fresh_store_fresh _ _ _ _ _ Hfs) in Hpn. discriminate. }
  pose proof (fresh_store_mapped _ _ _ _ _ _ _ Hfs Hpn) as Hpn1.
  rewrite <- (toLocal_store_other h1 ip pn
                (split_node_here cfg k v n (child par b)) Hne) in Hpn1.
  rewrite (cas64_hit _ _ _ _ _ Hpn1). cbn [bind].
  rewrite Z.eqb_refl. reflexivity.
Qed.

Lemma putC_loop_mismatch h k v m p0 q0 pn b par n f :
  heap_ok cfg h -> arrives h k m p0 q0 (Some (pn, b)) (child par b) ->
  toLocal h pn = Some par -> toLocal h (child par b) = Some n ->
  firstn (Nat.min (prefix_size n) (length k)) k
    <> firstn (Nat.min (prefix_size n) (length k)) (key n) ->
  let i := first_mismatch k (key n) (Nat.min (length k) (prefix_size n)) in
  putC_loop cfg (S (m + f)) h k v (locals_at p0 q0)
  = ('(ip, h1) <- make_intermediate cfg h k 0 ;;
     '(lp, h2) <- make_leaf cfg h1 k v 0 ;;
     Ret (lp, mkTagGptr v 0, TagGptr0,
          store (store h2 ip
                   (split_node_leaf cfg k n i (nth i k x00%byte) lp (child par b)))
                pn (set_child par b ip))).
Proof.
  intros Hok Harr Hpn Hq Hpre i.
  rewrite putC_loop_unfold, <- Nat.add_succ_r.
  rewrite (putC_descend_arrives cfg h k v m p0 q0 _ _ Hok Harr) by reflexivity.
  destruct (Hok _ _ Hq) as (Hlen & _ & _).
  putC_simpl.
  rewrite (eqb_0_mapped _ _ _ Hq), (deref_Some cfg _ _ _ Hq).
  cbn [bind]. fold i.
  assert (Hi : (i < Nat.min (length k) (prefix_size n))%nat)
    by (apply mismatch_index_lt; auto).
  replace (i <? prefix_size n)%nat with true
    by (symmetry; apply Nat.ltb_lt; lia).
  putC_simpl.
  rewrite (eqb_0_mapped _ _ _ Hq).
  destruct (make_intermediate cfg h k 0) as [[ip h1]| | |] eqn:EI;
    cbn [bind]; auto.
  destruct (make_intermediate_Ret _ _ _ _ _ EI) as (Hfs & _).
  putC_simpl.
  replace (i =? length k)%nat with false
    by (symmetry; apply Nat.eqb_neq; lia).
  destruct (make_leaf cfg h1 k v 0) as [[lp h2]| | |] eqn:EL; cbn [bind]; auto.
  destruct (make_leaf_Ret _ _ _ _ _ _ EL) as (Hfl & _).
  putC_simpl.
  unfold load_node.
  rewrite (fresh_store_mapped _ _ _ _ _ _ _ Hfl
             (fresh_store_new _ _ _ _ _ Hfs)).
  cbn [bind]. unfold key_at.
  destruct (lt_nth_error_Some k i) as [kb Hkb]; [lia|].
  rewrite Hkb. cbn [bind]. rewrite (nth_error_nth_default _ _ _ x00%byte Hkb).
  assert (Hne : ip <> pn).
  { intros ->. rewrite (fresh_store_fresh _ _ _ _ _ Hfs) in Hpn. discriminate. }
  pose proof (fresh_store_mapped _ _ _ _ _ _ _ Hfl
                (fresh_store_mapped _ _ _ _ _ _ _ Hfs Hpn)) as Hpn2.
  rewrite <- (toLocal_store_other h2 ip pn
                (split_node_leaf cfg k n i kb lp (child par b)) Hne) in Hpn2.
  fold (split_node_leaf cfg k n i kb lp (child par b)).
  rewrite (cas64_hit _ _ _ _ _ Hpn2). cbn [bind].
  rewrite Z.eqb_refl. reflexivity.
Qed.

End PutCSequential.

Section PutCResult.

Variable cfg : Config.

(** Among the nodes a put grafts, the one whose prefix is the whole key
    is where lookups of the key end, and it holds the value put. *)
Lemma graft_key_node t k v m pn b par top news h' :
  wf cfg t -> wf cfg (with_heap t h') -> (m <= length k)%nat ->
  arrives (heap t) k m None (root t) (Some (pn, b)) (child par b) ->
  firstn (prefix_size par) k = firstn (prefix_size par) (key par) ->
  nth_error k (prefix_size par) = Some b ->
  grafted (heap t) h' pn par b top news ->
  graft_kind cfg (heap t) k v (child par b) top news ->
  forall q n', In (q, n') news -> prefix_size n' = length k ->
    found (with_heap t h') k q n' /\ value n' = mkTagGptr v 0.
Proof.
  intros Hwf Hwf' Hm Ha Hpre Hb G K q n' Hin Hps.
  pose proof Hwf as (Hok & _). pose proof Hwf' as (Hok' & _).
  simpl in Hok'.
  pose proof (nth_error_Some_lt _ _ _ Hb) as Hlt.
  destruct (arrives_snoc_inv _ _ _ _ _ _ _ _ Ha)
    as [(_ & E & _)|(m' & p1 & par' & -> & Ha' & Hpn & Hc)];
    [discriminate|].
  rewrite (gr_parent _ _ _ _ _ _ _ G) in Hpn. inversion Hpn; subst par'.
  assert (Ha1 : arrives h' k (S m') None (root t) (Some (pn, b)) top).
  { replace (S m') with (m' + 1)%nat by lia.
    eapply arrives_trans.
    - apply (arrives_frame cfg (heap t) h' k m' None (root t) p1 pn par Hok Ha'
               (gr_parent _ _ _ _ _ _ _ G)).
      intros x nx Hx Hpsx. eapply grafted_old; eauto.
      intros ->. rewrite (gr_parent _ _ _ _ _ _ _ G) in Hx.
      inversion Hx; subst. lia.
    - eapply (arrives_down h' k p1 pn (set_child par b top) b).
      + apply G.
      + exact Hpre.
      + exact Hb.
      + simpl. rewrite upd_same. constructor. }
  destruct (gr_news _ _ _ _ _ _ _ G q n' Hin) as (_ & Hq').
  destruct K as [lp Hz|n ip Hq Hpre' Hl|n ip lp i kb Hq Hi Hil Hkb Hne].
  - destruct Hin as [E|[]]. inversion E; subst q n'. split; [|reflexivity].
    exists (S m'), (Some (pn, b)). simpl. repeat split; auto.
    now rewrite firstn_key_buffer.
  - destruct Hin as [E|[]]. inversion E; subst q n'. split; [|reflexivity].
    exists (S m'), (Some (pn, b)). simpl. repeat split; auto.
    now rewrite firstn_key_buffer.
  - destruct Hin as [E|[E|[]]]; inversion E; subst q n'.
    + simpl in Hps. lia.
    + split; [|reflexivity].
      destruct (gr_news _ _ _ _ _ _ _ G ip
                  (split_node_leaf cfg k n i kb lp (child par b)))
        as (_ & Hip); [now left|].
      destruct (Hok _ _ Hq) as (Hlen & _ & _).
      destruct (first_mismatch_differs k (key n)
                  (Nat.min (length k) (prefix_size n)))
        as (x & y & Hx & Hy & Hxy); try lia.
      rewrite <- Hi in Hx, Hy.
      assert (x = kb) by congruence. subst x.
      assert (Hy' : nth i (key n) x00%byte = y)
        by (now apply nth_error_nth_default).
      assert (Ha2 : arrives h' k (S m' + 1) None (root t) (Some (ip, kb)) lp).
      { eapply arrives_trans; eauto.
        eapply (arrives_down h' k _ ip
                  (split_node_leaf cfg k n i kb lp (child par b)) kb).
        - exact Hip.
        - simpl. rewrite firstn_key_buffer by lia. reflexivity.
        - simpl. exact Hkb.
        - simpl. rewrite Hy', upd_other by auto. rewrite upd_same.
          constructor. }
      assert (Hmk : (S m' + 1 <= length k)%nat).
      { destruct Hwf' as (_ & rt' & Hrt' & Hrt0'). simpl in Hrt'.
        pose proof (arrives_ps_le cfg _ _ _ _ _ _ _ _ _ Hok' Ha1 Hrt' Hip) as P.
        simpl in P. lia. }
      exists (S m' + 1)%nat, (Some (ip, kb)). simpl. repeat split; auto.
      now rewrite firstn_key_buffer.
Qed.

(** What [putC] returns on a well-formed tree: the old value and heap of
    [put] with update on, the node where the key now ends, and the value
    that node now holds. *)
Lemma putC_loop_result t k v fuel q nv old h' :
  wf cfg t -> (length k + 2 <= fuel)%nat ->
  putC_loop cfg fuel (heap t) k v (locals_at None (root t))
  = Ret (q, nv, old, h') ->
  put_loop cfg fuel (heap t) k v true (locals_at None (root t)) = Ret (old, h')
  /\ gptr nv = v
  /\ exists n', found (with_heap t h') k q n' /\ value n' = nv.
Proof.
  intros Hwf Hf HC. pose proof Hwf as (Hok & _).
  assert (HP : put_loop cfg fuel (heap t) k v true (locals_at None (root t))
               = Ret (old, h')) by (rewrite put_loop_putC, HC; reflexivity).
  split; [exact HP|].
  pose proof (put_loop_effect cfg _ _ _ _ _ _ _ Hwf Hf HP) as He.
  pose proof (put_effect_wf cfg _ _ _ _ _ _ Hwf He) as Hwf'.
  destruct (put_loop_shape cfg t k v true fuel Hwf Hf)
    as [q1 n Hfound _|m pn b par Hm Ha Hpn Hpre Hb Hnf Hres].
  - pose proof Hfound as (m & p & Hm & Ha & Hq & Hpre & Hps).
    replace fuel with (S (m + (fuel - m - 1)))%nat in HC by lia.
    rewrite (putC_loop_exact cfg _ _ _ _ _ _ _ _ _ _ Hok Ha Hq Hpre Hps) in HC.
    inversion HC; subst. split; [reflexivity|].
    exists (set_value n (bumped v (value n))). split; [|reflexivity].
    now apply found_set_value.
  - replace fuel with (S (m + (fuel - m - 1)))%nat in HC by lia.
    pose proof (nth_error_Some_lt _ _ _ Hb) as Hlt.
    destruct Hres as [(Hz & _)|[(n & Hq & Hpre' & Hl & _)|(n & Hq & Hne & _)]].
    + rewrite Hz in Ha.
      rewrite (putC_loop_null cfg _ _ _ _ _ _ _ _ _ _ Hok Ha Hpn Hz) in HC.
      destruct (make_leaf cfg (heap t) k v 0) as [[lp h1]| | |] eqn:EL;
        try discriminate.
      simpl in HC; inversion HC; subst. split; [reflexivity|].
      destruct (make_leaf_Ret _ _ _ _ _ _ EL) as (Hfs & Hk).
      rewrite <- Hz in Ha.
      destruct (graft_key_node t k v m pn b par q [(q, leaf_node cfg k v)]
                  _ Hwf Hwf' Hm Ha Hpre Hb
                  (grafted_leaf cfg _ _ _ _ b _ _ Hpn Hfs)
                  (gk_leaf cfg _ _ _ _ q Hz) q (leaf_node cfg k v))
        as (F & V); [now left|reflexivity|].
      eauto.
    + rewrite (putC_loop_short cfg _ _ _ _ _ _ _ _ _ _ _ Hok Ha Hpn Hq Hpre' Hl)
        in HC.
      destruct (make_intermediate cfg (heap t) k 0) as [[ip h1]| | |] eqn:EI;
        try discriminate.
      simpl in HC; inversion HC; subst. split; [reflexivity|].
      destruct (make_intermediate_Ret _ _ _ _ _ EI) as (Hfs & Hk).
      destruct (graft_key_node t k v m pn b par q
                  [(q, split_node_here cfg k v n (child par b))]
                  _ Hwf Hwf' Hm Ha Hpre Hb
                  (grafted_here cfg _ _ _ _ b _ _ _ Hpn Hfs)
                  (gk_here cfg _ _ _ _ n q Hq Hpre' Hl) q
                  (split_node_here cfg k v n (child par b)))
        as (F & V); [now left|reflexivity|].
      eauto.
    + rewrite (putC_loop_mismatch cfg _ _ _ _ _ _ _ _ _ _ _ Hok Ha Hpn Hq Hne)
        in HC.
      destruct (make_intermediate cfg (heap t) k 0) as [[ip h1]| | |] eqn:EI;
        try discriminate.
      simpl in HC.
      destruct (make_leaf cfg h1 k v 0) as [[lp h2]| | |] eqn:EL;
        try discriminate.
      simpl in HC; inversion HC; subst. split; [reflexivity|].
      destruct (make_intermediate_Ret _ _ _ _ _ EI) as (Hfs & Hk).
      destruct (make_leaf_Ret _ _ _ _ _ _ EL) as (Hfl & _).
      destruct (Hok _ _ Hq) as (Hlen & _ & _).
      pose proof (mismatch_index_lt k n Hlen Hne) as Hi.
      destruct (lt_nth_error_Some k
                  (first_mismatch k (key n)
                     (Nat.min (length k) (prefix_size n)))) as [kb Hkb]; [lia|].
      rewrite (nth_error_nth_default _ _ _ x00%byte Hkb) in *.
      destruct (grafted_split cfg (heap t) h1 h2 pn par b ip q _
                  (split_node_leaf cfg k n
                     (first_mismatch k (key n)
                        (Nat.min (length k) (prefix_size n)))
                     kb q (child par b)) _ Hpn Hfs Hfl) as (Hne' & G).
      destruct (graft_key_node t k v m pn b par ip _ _ Hwf Hwf' Hm Ha Hpre Hb G
                  (gk_split cfg _ _ _ _ n ip q _ kb Hq eq_refl Hi Hkb Hne')
                  q (leaf_node cfg k v))
        as (F & V); [right; now left|reflexivity|].
      eauto.
Qed.

(** X7 (the cached put).  When [putC] returns on a well-formed tree, [put]
    with update on returns the same old value and leaves the same tree;
    the new tagged value [putC] returns carries the gptr put, and the
    pointer it returns is the node of the key: [getC] of the key now
    returns that pointer with that value, and the pointer-based [getC]
    reads the value there.  The allocator is
    the model's: a block [Alloc] hands out is zero-filled ([zero_node]),
    which the source relies on and does not establish. *)
Theorem putC_is_put_with_the_node (t t' : RadixTree) (k : list byte)
  (v q : Gptr) (nv old : TagGptr) (fuel : nat) :
  wf cfg t -> (length k + 2 <= fuel)%nat ->
  putC cfg fuel t k v = Ret (q, nv, old, t') ->
  put cfg fuel t k v true = Ret (old, t') /\
  gptr nv = v /\
  getC cfg fuel t' k = Ret (q, nv) /\
  getC_ptr cfg t' q = Ret nv.
Proof.
  intros Hwf Hf HC. unfold putC in HC.
  pose proof (assert_Ret_passes cfg _ _ _ HC) as Ha.
  apply assert_Ret in HC.
  destruct (putC_loop cfg fuel (heap t) k v (put_init t))
    as [[[[q' nv'] old'] h']| | |] eqn:E; try discriminate.
  simpl in HC; inversion HC; subst q' nv' old' t'; clear HC.
  destruct (putC_loop_result t k v fuel q nv old h' Hwf Hf E)
    as (HP & Hg & n' & Hfound & Hv).
  assert (Hwf' : wf cfg (with_heap t h')).
  { eapply put_effect_wf; eauto. eapply put_loop_effect; eauto. }
  split; [|split; [exact Hg|split]].
  - rewrite put_unfold, (assert_bind cfg _ _ Ha), HP. reflexivity.
  - rewrite getC_unfold, (assert_bind cfg _ _ Ha).
    rewrite (found_getC cfg _ k q n' fuel Hwf' Hf Hfound). now rewrite Hv.
  - destruct Hfound as (_ & _ & _ & _ & Hq & _).
    rewrite <- Hv. now apply getC_ptr_mapped.
Qed.

(** X10 (the pointer-based variants).  When [getC] finds the node of a key,
    the pointer-based [putC] and [destroyC] applied to that pointer return
    what the key-based ones return for the key and leave the same tree;
    the old value they report is the one [getC] saw. *)
Theorem pointer_variants_act_on_the_key (t : RadixTree) (k : list byte)
  (q : Gptr) (tq : TagGptr) (fuel : nat) :
  wf cfg t -> (length k + 2 <= fuel)%nat ->
  getC cfg fuel t k = Ret (q, tq) -> q <> 0 ->
  (forall v, exists nv t',
      putC_ptr cfg fuel t q v = Ret (nv, tq, t') /\
      putC cfg fuel t k v = Ret (q, nv, tq, t') /\
      nv = mkTagGptr v (wrap64 (tag tq + 1)))
  /\ exists nv t',
      destroyC_ptr cfg fuel t q = Ret (nv, tq, t') /\
      destroyC cfg fuel t k = Ret (q, nv, tq, t') /\
      nv = mkTagGptr 0 (wrap64 (tag tq + 1)).
Proof.
  intros Hwf Hf Hg Hq0. pose proof Hwf as (Hok & _).
  rewrite getC_unfold in Hg.
  pose proof (assert_Ret_passes cfg _ _ _ Hg) as Ha.
  apply assert_Ret in Hg.
  destruct (getC_loop_found cfg t k fuel q tq Hwf Hf Hg Hq0)
    as (n & Hfound & <-).
  pose proof Hfound as (m & p & Hm & Harr & Hq & Hpre & Hps).
  assert (Hfuel : fuel = S (m + (fuel - m - 1))) by lia.
  assert (Hptr : forall g,
             _ <- assert cfg (negb (q =? 0)) ;;
             _ <- deref cfg (heap t) q ;;
             tq <- loadTagGptr (heap t) q ;;
             '(old, new_value, h') <- cas_value_loop fuel (heap t) q tq g ;;
             Ret (new_value, old, with_heap t h')
             = Ret (bumped g (value n), value n,
                    with_heap t (store (heap t) q
                                   (set_value n (bumped g (value n)))))).
  { intros g. rewrite (eqb_0_mapped _ _ _ Hq). cbn [negb].
    rewrite assert_true, (deref_Some cfg _ _ _ Hq). cbn [bind].
    unfold loadTagGptr. rewrite Hq. cbn [bind].
    rewrite Hfuel, (cas_value_loop_hit _ _ _ _ _ Hq). reflexivity. }
  split.
  - intros v. eexists _, _. split; [apply (Hptr v)|]. split; [|reflexivity].
    unfold putC. rewrite (assert_bind cfg _ _ Ha).
    unfold put_init. fold (locals_at None (root t)). rewrite Hfuel.
    rewrite (putC_loop_exact cfg _ _ _ _ _ _ _ _ _ _ Hok Harr Hq Hpre Hps).
    reflexivity.
  - eexists _, _. split; [apply (Hptr 0)|]. split; [|reflexivity].
    unfold destroyC. rewrite (assert_bind cfg _ _ Ha). rewrite Hfuel.
    replace (S (m + (fuel - m - 1)))%nat with (m + S (fuel - m - 1))%nat by lia.
    rewrite (destroyC_loop_arrives cfg _ _ _ _ _ _ _ Hok Harr).
    rewrite (destroyC_loop_exact cfg _ _ _ _ _ Hok Hq Hpre Hps). reflexivity.
Qed.

End PutCResult.

(** ** Other keys are left alone *)

Section OtherKeys.

Variable cfg : Config.

(** A descent in the old heap either survives the graft as it is, or ran
    through the slot that was redirected. *)
Lemma grafted_arrives_fwd h h' pn par b top news k m p0 q0 p q :
  grafted h h' pn par b top news ->
  arrives h k m p0 q0 p q ->
  arrives h' k m p0 q0 p q
  \/ exists m1 p1 m2,
       m = (m1 + 1 + m2)%nat /\ arrives h' k m1 p0 q0 p1 pn /\
       firstn (prefix_size par) k = firstn (prefix_size par) (key par) /\
       nth_error k (prefix_size par) = Some b /\
       arrives h k m2 (Some (pn, b)) (child par b) p q.
Proof.
  intros G Ha.
  induction Ha as [p q|p q n b1 p' q' m Hq Hpre Hb Hrest IH];
    [left; constructor|].
  pose proof (gr_parent _ _ _ _ _ _ _ G) as Hpar.
  assert (Hstep : forall nh,
             toLocal h' q = Some nh -> prefix_size nh = prefix_size n ->
             key nh = key n -> child nh b1 = child n b1 ->
             arrives h' k (S m) p q p' q'
             \/ exists m1 p1 m2,
                  S m = (m1 + 1 + m2)%nat /\ arrives h' k m1 p q p1 pn /\
                  firstn (prefix_size par) k
                  = firstn (prefix_size par) (key par) /\
                  nth_error k (prefix_size par) = Some b /\
                  arrives h k m2 (Some (pn, b)) (child par b) p' q').
  { intros nh Hnh Eps Ekey Ech.
    assert (Hdown : forall m1 p1 q1,
               arrives h' k m1 (Some (q, b1)) (child n b1) p1 q1 ->
               arrives h' k (S m1) p q p1 q1).
    { intros m1 p1 q1 A. apply (arrives_down h' k p q nh b1 p1 q1 m1); auto.
      - now rewrite Eps, Ekey.
      - now rewrite Eps.
      - now rewrite Ech. }
    destruct IH as [L|(m1 & p1 & m2 & -> & A1 & P & B & R)].
    - left. now apply Hdown.
    - right. exists (S m1), p1, m2. repeat split; auto. }
  destruct (Z.eq_dec q pn) as [->|Hne].
  - rewrite Hpar in Hq. inversion Hq; subst n.
    destruct (Byte.byte_eq_dec b1 b) as [->|Nb].
    + right. exists 0%nat, p, m. repeat split; auto. constructor.
    + apply (Hstep (set_child par b top)); auto; [apply G|].
      simpl. now rewrite upd_other.
  - apply (Hstep n); auto. eapply grafted_old; eauto.
Qed.

(** Below an old child nothing is redirected. *)
Lemma grafted_arrives_below_fwd h h' pn par b top news k m p0 c p q :
  heap_ok cfg h -> grafted h h' pn par b top news ->
  arrives h k m p0 c p q ->
  forall nc, toLocal h c = Some nc ->
             (prefix_size par < prefix_size nc)%nat ->
             arrives h' k m p0 c p q.
Proof.
  intros Hok G Ha.
  induction Ha as [p q|p q n b1 p' q' m Hq Hpre Hb Hrest IH];
    intros nc Hc Hlt; [constructor|].
  rewrite Hq in Hc; inversion Hc; subst nc.
  assert (Hne : q <> pn).
  { intros ->. rewrite (gr_parent _ _ _ _ _ _ _ G) in Hq.
    inversion Hq; subst. lia. }
  apply (arrives_down h' k p q n b1 p' q' m); auto.
  - eapply grafted_old; eauto.
  - destruct (Z.eq_dec (child n b1) 0) as [E|E].
    + rewrite E in Hrest |- *.
      inversion Hrest as [|? ? n0 ? ? ? ? H0]; subst; [constructor|].
      apply toLocal_Some_pos in H0; lia.
    + destruct (Hok _ _ Hq) as (_ & _ & Hch).
      destruct (Hch b1 E) as (n2 & Hn2 & Hps2 & _).
      apply (IH n2); auto. lia.
Qed.

(** The first node of a descent that ends at the key's node carries a
    prefix of the key. *)
Lemma arrives_first_prefix h k m p0 c p q nc n :
  arrives h k m p0 c p q -> toLocal h c = Some nc -> toLocal h q = Some n ->
  firstn (prefix_size n) k = firstn (prefix_size n) (key n) ->
  prefix_size n = length k ->
  firstn (prefix_size nc) k = firstn (prefix_size nc) (key nc) /\
  (prefix_size nc <= length k)%nat.
Proof.
  intros Ha Hc Hq Hpre Hps.
  inversion Ha as [|? ? n0 b1 ? ? ? H0 Hpre0 Hb0 _]; subst.
  - assert (nc = n) by congruence. subst nc. split; auto. lia.
  - assert (n0 = nc) by congruence. subst n0. split; auto.
    apply nth_error_Some_lt in Hb0. lia.
Qed.

(** A key found before a put of another key is found afterwards, at the
    same node and with the same value. *)
Lemma put_effect_found_fwd t k0 v u r t' k q n :
  wf cfg t -> put_effect cfg t k0 v u r t' ->
  found t k q n -> k <> k0 ->
  exists n', found t' k q n' /\ value n' = value n.
Proof.
  intros Hwf He Hf Hk. pose proof Hwf as (Hok & rt & Hrt & Hrt0).
  pose proof (put_effect_wf cfg _ _ _ _ _ _ Hwf He) as Hwf'.
  destruct He as [q0 n0 Hf0 _|q0 n0 _ _|
                  m0 pn b par top news h' Hm0 Ha0 Hpre0 Hb0 G K Hk0].
  - pose proof Hf0 as (_ & _ & _ & _ & Hq0 & _).
    destruct (Z.eq_dec q0 q) as [->|Hne].
    + exfalso. apply Hk.
      pose proof Hf as (_ & _ & _ & _ & Hq & _).
      assert (n0 = n) by congruence. subst n0.
      rewrite (found_key cfg t k q n Hok Hf).
      now rewrite (found_key cfg t k0 q n Hok Hf0).
    + destruct Hf as (m & p & Hm & Ha & Hq & Hpre & Hps).
      exists n. split; auto. exists m, p. simpl. repeat split; auto.
      * eapply same_shape_arrives; eauto. now apply same_shape_set_value.
      * now rewrite toLocal_store_other.
  - exists n; auto.
  - destruct Hf as (m & p & Hm & Ha & Hq & Hpre & Hps).
    destruct (grafted_keeps _ _ _ _ _ _ _ _ _ G Hq)
      as (n' & Hn' & Ek & Ep & Ev).
    exists n'. split; auto.
    assert (Hend : forall m' p', arrives h' k m' None (root t) p' q ->
                                 found (with_heap t h') k q n').
    { intros m' p' A. exists m', p'. simpl. rewrite Ek, Ep.
      repeat split; auto.
      destruct Hwf' as (Hok' & rt' & Hrt' & Hrt0'). simpl in *.
      pose proof (arrives_ps_le cfg _ _ _ _ _ _ _ _ _ Hok' A Hrt' Hn') as L.
      lia. }
    destruct (grafted_arrives_fwd _ _ _ _ _ _ _ _ _ _ _ _ _ G Ha)
      as [L|(m1 & p1 & m2 & -> & A1 & P & B & R)]; [eapply Hend; eauto|].
    pose proof (gr_parent _ _ _ _ _ _ _ G) as Hpar.
    assert (Hold : exists nq, toLocal (heap t) (child par b) = Some nq).
    { inversion R as [|? ? n1 ? ? ? ? H1]; subst; eauto. }
    destruct Hold as (nq & Hnq).
    destruct (arrives_first_prefix _ _ _ _ _ _ _ _ _ R Hnq Hq Hpre Hps)
      as (K1 & K2).
    destruct (Hok _ _ Hpar) as (_ & _ & Hch).
    destruct (Hch b) as (nc & Hnc & Hlt & _);
      [apply toLocal_Some_pos in Hnq; lia|].
    assert (nc = nq) by congruence. subst nc.
    destruct (Hok _ _ Hnq) as (Hlen & _ & _).
    pose proof (grafted_arrives_below_fwd _ _ _ _ _ _ _ _ _ _ _ _ _ Hok G R
                  nq Hnq Hlt) as R'.
    assert (Hvia : forall ip nip,
               top = ip -> toLocal h' ip = Some nip ->
               (prefix_size nip < prefix_size nq)%nat ->
               firstn (prefix_size nip) (key nip)
               = firstn (prefix_size nip) (key nq) ->
               child nip (nth (prefix_size nip) (key nq) x00%byte)
               = child par b ->
               found (with_heap t h') k q n').
    { intros ip nip -> Hip Hps' Hkey Hchild.
      destruct (lt_nth_error_Some (key nq) (prefix_size nip)) as (y & Hy);
        [lia|].
      rewrite (nth_error_nth_default _ _ _ x00%byte Hy) in Hchild.
      destruct (arrives_any_slot _ _ _ _ _ _ _ R' (Some (ip, y)))
        as (p' & R'').
      apply (Hend (m1 + S (S m2))%nat p').
      eapply arrives_trans; [exact A1|].
      apply (arrives_down h' k p1 pn (set_child par b ip) b); auto;
        [apply G|].
      simpl. rewrite upd_same.
      apply (arrives_down h' k _ ip nip y); auto.
      - rewrite Hkey. apply (firstn_prefix_trans _ _ _ (prefix_size nq));
          auto; lia.
      - rewrite <- Hy. apply (firstn_eq_nth_error _ _ (prefix_size nq)); auto.
      - now rewrite Hchild. }
    destruct K as [lp Hz|n1 ip Hq1 Hpre1 Hl|n1 ip lp i kb Hq1 Hi Hil Hkb Hne].
    + rewrite Hz in Hnq. discriminate.
    + assert (n1 = nq) by congruence. subst n1.
      destruct (gr_news _ _ _ _ _ _ _ G ip
                  (split_node_here cfg k0 v nq (child par b))) as (_ & Hip);
        [now left|].
      apply (Hvia ip _ eq_refl Hip); simpl; auto.
      * rewrite firstn_key_buffer by lia. rewrite <- Hpre1. reflexivity.
      * now rewrite upd_same.
    + assert (n1 = nq) by congruence. subst n1.
      destruct (gr_news _ _ _ _ _ _ _ G ip
                  (split_node_leaf cfg k0 nq i kb lp (child par b)))
        as (_ & Hip); [now left|].
      apply (Hvia ip _ eq_refl Hip); simpl; auto; [lia| |].
      * rewrite firstn_key_buffer by lia. subst i.
        apply first_mismatch_prefix.
      * now rewrite upd_same.
Qed.

(** X5 (a put leaves the other keys alone).  After a [put] of one key that
    returns on a well-formed tree, [get] of any other key returns a given
    valid tagged value exactly when it returned it before: no other key
    loses, gains or changes a valid value, tag included.  The allocator is
    the model's: a block [Alloc] hands out is zero-filled ([zero_node]),
    which the source relies on and does not establish. *)
Theorem put_leaves_other_keys (t t' : RadixTree) (k0 k : list byte)
  (v : Gptr) (u : bool) (r : TagGptr) (fuel : nat) :
  wf cfg t -> (length k0 + 2 <= fuel)%nat -> (length k + 2 <= fuel)%nat ->
  put cfg fuel t k0 v u = Ret (r, t') -> k <> k0 ->
  forall tq, IsValid tq = true ->
    (get cfg fuel t k = Ret tq <-> get cfg fuel t' k = Ret tq).
Proof.
  intros Hwf Hf0 Hf Hput Hk tq Hv.
  rewrite put_unfold in Hput. apply assert_Ret in Hput.
  destruct (put_loop cfg fuel (heap t) k0 v u (locals_at None (root t)))
    as [[r' h']| | |] eqn:E; try discriminate.
  simpl in Hput; inversion Hput; subst r' t'; clear Hput.
  pose proof (put_loop_effect cfg _ _ _ _ _ _ _ Hwf Hf0 E) as He.
  pose proof (put_effect_wf cfg _ _ _ _ _ _ Hwf He) as Hwf'.
  rewrite !get_unfold. split; intros Hg;
    pose proof (assert_Ret_passes cfg _ _ _ Hg) as Ha;
    apply assert_Ret in Hg; rewrite (assert_bind cfg _ _ Ha).
  - destruct (get_loop_found cfg t k fuel tq Hwf Hf Hg Hv)
      as (q & n & Hfound & <-).
    destruct (put_effect_found_fwd _ _ _ _ _ _ _ _ _ Hwf He Hfound Hk)
      as (n' & Hf' & <-).
    eapply found_get; eauto.
  - destruct (get_loop_found cfg _ k fuel tq Hwf' Hf Hg Hv)
      as (q & n & Hfound & <-).
    destruct (put_effect_found cfg _ _ _ _ _ _ _ _ _ Hwf He Hfound Hv)
      as [->|(n1 & Hf1 & <-)]; [congruence|].
    eapply found_get; eauto.
Qed.

(** X6 (a deletion leaves the other keys alone).  After a [destroy] of
    one key that returns on a well-formed tree, [get] of any other key
    returns a given valid tagged value exactly when it returned it
    before. *)
Theorem destroy_leaves_other_keys (t t' : RadixTree) (k0 k : list byte)
  (old : TagGptr) (fuel : nat) :
  wf cfg t -> (length k0 + 2 <= fuel)%nat -> (length k + 2 <= fuel)%nat ->
  destroy cfg fuel t k0 = Ret (old, t') -> k <> k0 ->
  forall tq, IsValid tq = true ->
    (get cfg fuel t k = Ret tq <-> get cfg fuel t' k = Ret tq).
Proof.
  intros Hwf Hf0 Hf Hd Hk tq Hv. pose proof Hwf as (Hok & _).
  pose proof (wf_destroy cfg _ _ _ _ _ Hwf Hd) as Hwf'.
  rewrite destroy_unfold in Hd. apply assert_Ret in Hd.
  rewrite destroy_destroyC, destroyC_loop_getC in Hd.
  destruct (getC_loop cfg fuel (heap t) k0 (root t)) as [[q0 tq0]| | |] eqn:E;
    try discriminate.
  cbn [bind tombstone] in Hd.
  destruct (q0 =? 0) eqn:E0.
  { simpl in Hd. inversion Hd; subst. rewrite with_heap_same. tauto. }
  apply Z.eqb_neq in E0.
  destruct (getC_loop_found cfg t k0 fuel q0 tq0 Hwf Hf0 E E0)
    as (n0 & Hf0' & <-).
  pose proof Hf0' as (_ & _ & _ & _ & Hq0 & _).
  rewrite Hq0 in Hd. simpl in Hd. inversion Hd; subst old t'; clear Hd.
  rewrite !get_unfold. split; intros Hg;
    pose proof (assert_Ret_passes cfg _ _ _ Hg) as Ha;
    apply assert_Ret in Hg; rewrite (assert_bind cfg _ _ Ha).
  - destruct (get_loop_found cfg t k fuel tq Hwf Hf Hg Hv)
      as (q & n & Hfound & <-).
    assert (Hne : q0 <> q).
    { intros ->. apply Hk.
      pose proof Hfound as (_ & _ & _ & _ & Hq & _).
      assert (n0 = n) by congruence. subst n0.
      rewrite (found_key cfg t k q n Hok Hfound).
      now rewrite (found_key cfg t k0 q n Hok Hf0'). }
    apply (found_get cfg _ k q n fuel Hwf' Hf).
    destruct Hfound as (m & p & Hm & Ha' & Hq & Hpre & Hps).
    exists m, p. simpl. repeat split; auto.
    + eapply same_shape_arrives; eauto. now apply same_shape_set_value.
    + now rewrite toLocal_store_other.
  - destruct (get_loop_found cfg _ k fuel tq Hwf' Hf Hg Hv)
      as (q & n & Hfound & <-).
    apply (found_get cfg t k q n fuel Hwf Hf).
    apply (value_bump_found t
             (store (heap t) q0 (set_value n0 (bumped 0 (value n0)))) k q n);
      auto.
    now constructor.
Qed.

End OtherKeys.

(** ** What a put allocates *)

Section Footprint.

Variable cfg : Config.

Lemma fresh_store_cells h h1 ptr n :
  fresh_store cfg h h1 ptr n ->
  length (cells h1) = S (length (cells h)) /\ freed h1 = freed h.
Proof.
  intros (h0 & (_ & Hc & Hfr) & ->).
  rewrite cells_store_length, freed_store, Hc, length_app. simpl.
  split; [lia|exact Hfr].
Qed.

(** X13 (what a put allocates).  A [put] that returns on a well-formed
    tree, run on its own, frees no block and adds at most two: none when
    the key already has a node (its value slot is swapped or kept), one
    for a new leaf or for an intermediate node that carries the value,
    two for an intermediate node with a separate leaf.  The allocator is
    the model's: a block [Alloc] hands out is zero-filled ([zero_node]),
    which the source relies on and does not establish. *)
Theorem put_allocates_at_most_two_nodes (t t' : RadixTree) (k : list byte)
  (v : Gptr) (u : bool) (r : TagGptr) (fuel : nat) :
  wf cfg t -> (length k + 2 <= fuel)%nat ->
  put cfg fuel t k v u = Ret (r, t') ->
  freed (heap t') = freed (heap t) /\
  (exists a, (a <= 2)%nat /\
             length (cells (heap t')) = (length (cells (heap t)) + a)%nat) /\
  (forall q tq, getC cfg fuel t k = Ret (q, tq) -> q <> 0 ->
                length (cells (heap t')) = length (cells (heap t))).
Proof.
  intros Hwf Hf Hput. rewrite put_unfold in Hput.
  pose proof (assert_Ret_passes cfg _ _ _ Hput) as Ha.
  apply assert_Ret in Hput.
  destruct (put_loop cfg fuel (heap t) k v u (locals_at None (root t)))
    as [[r' h']| | |] eqn:E; try discriminate.
  simpl in Hput; inversion Hput; subst r' t'; clear Hput. simpl.
  destruct (put_loop_shape cfg t k v u fuel Hwf Hf)
    as [q n Hfound Hres|m pn b par Hm Ha' Hpn Hpre Hb Hnf Hres].
  - rewrite Hres in E.
    assert (Hsame : length (cells h') = length (cells (heap t))
                    /\ freed h' = freed (heap t)).
    { destruct (u || negb (IsValid (value n))); inversion E; subst; auto.
      now rewrite cells_store_length, freed_store. }
    destruct Hsame as (Hc & Hfr). split; [exact Hfr|]. split; [|auto].
    exists 0%nat. split; lia.
  - assert (Hnone : forall q tq, getC cfg fuel t k = Ret (q, tq) -> q <> 0 ->
                      length (cells h') = length (cells (heap t))).
    { intros q tq Hg Hq. rewrite getC_unfold, (assert_bind cfg _ _ Ha) in Hg.
      destruct (getC_loop_found cfg t k fuel q tq Hwf Hf Hg Hq)
        as (n & Hfound & _).
      destruct (Hnf q n Hfound). }
    destruct Hres as [(_ & Hres)|[(n & _ & _ & _ & Hres)|(n & _ & _ & Hres)]];
      rewrite Hres in E; clear Hres.
    + destruct (make_leaf cfg (heap t) k v 0) as [[lp h1]| | |] eqn:EL;
        try discriminate.
      simpl in E; inversion E; subst.
      destruct (make_leaf_Ret _ _ _ _ _ _ EL) as (Hfs & _).
      destruct (fresh_store_cells _ _ _ _ Hfs) as (Hc & Hfr).
      split; [now rewrite freed_store|]. split; [|exact Hnone].
      exists 1%nat. rewrite cells_store_length. split; lia.
    + destruct (make_intermediate cfg (heap t) k 0) as [[ip h1]| | |] eqn:EI;
        try discriminate.
      simpl in E; inversion E; subst.
      destruct (make_intermediate_Ret _ _ _ _ _ EI) as (Hfs & _).
      destruct (fresh_store_cells _ _ _ _ Hfs) as (Hc & Hfr).
      split; [now rewrite !freed_store|]. split; [|exact Hnone].
      exists 1%nat. rewrite !cells_store_length. split; lia.
    + destruct (make_intermediate cfg (heap t) k 0) as [[ip h1]| | |] eqn:EI;
        try discriminate.
      simpl in E.
      destruct (make_leaf cfg h1 k v 0) as [[lp h2]| | |] eqn:EL;
        try discriminate.
      simpl in E; inversion E; subst.
      destruct (make_intermediate_Ret _ _ _ _ _ EI) as (Hfs & _).
      destruct (make_leaf_Ret _ _ _ _ _ _ EL) as (Hfl & _).
      destruct (fresh_store_cells _ _ _ _ Hfs) as (Hc & Hfr).
      destruct (fresh_store_cells _ _ _ _ Hfl) as (Hc2 & Hfr2).
      split; [rewrite !freed_store; congruence|]. split; [|exact Hnone].
      exists 2%nat. rewrite !cells_store_length. split; lia.
Qed.

End Footprint.

(** ** What a scan can yield *)

Section ScanSound.

Variable cfg : Config.

(** A descent for a key is also the descent for every key that extends
    it. *)
Lemma arrives_longer_key h k m p0 q0 p q :
  arrives h k m p0 q0 p q ->
  forall k', firstn (length k) k' = k -> arrives h k' m p0 q0 p q.
Proof.
  induction 1 as [|p q n b p' q' m Hq Hpre Hb _ IH]; intros k' Hk';
    [constructor|].
  pose proof (nth_error_Some_lt _ _ _ Hb) as Hlt.
  assert (E : firstn (length k) k' = firstn (length k) k)
    by (now rewrite firstn_all).
  apply (arrives_down h k' p q n b p' q' m); auto.
  - rewrite <- Hpre. apply (firstn_prefix_trans _ _ _ (length k)); auto. lia.
  - rewrite <- Hb. apply (firstn_eq_nth_error _ _ (length k)); auto.
Qed.

(** Every node of the tree is the node its own key is found at. *)
Lemma linked_found t q :
  wf cfg t -> linked (heap t) (root t) q ->
  forall n, toLocal (heap t) q = Some n -> found t (node_key n) q n.
Proof.
  intros Hwf. pose proof Hwf as (Hok & r & Hr & Hr0).
  induction 1 as [|q n b _ IH Hq]; intros n' Hn'.
  - assert (n' = r) by congruence. subst n'.
    exists 0%nat, None. unfold node_key. rewrite Hr0. simpl.
    repeat split; auto. constructor.
  - destruct (IH n Hq) as (m & p & Hm & Ha & _ & Hpre & Hps).
    destruct (Hok _ _ Hq) as (_ & _ & Hch).
    destruct (Hch b) as (nc & Hnc & Hlt & Hext & Hbyte);
      [apply toLocal_Some_pos in Hn'; lia|].
    assert (nc = n') by congruence. subst nc.
    destruct (Hok _ _ Hn') as (Hlen' & _ & _).
    pose proof (length_node_key cfg _ _ _ Hok Hq) as Ln.
    pose proof (length_node_key cfg _ _ _ Hok Hn') as Ln'.
    assert (Hk' : firstn (length (node_key n)) (node_key n') = node_key n).
    { rewrite Ln. unfold node_key. rewrite firstn_firstn.
      rewrite Nat.min_l by lia. exact Hext. }
    assert (Ha' : arrives (heap t) (node_key n') (m + 1) None (root t)
                          (Some (q, b)) (child n b)).
    { eapply arrives_trans.
      - eapply arrives_longer_key; eauto.
      - apply (arrives_down _ _ p q n b); auto.
        + rewrite <- Ln at 1. rewrite Hk'. reflexivity.
        + unfold node_key. rewrite nth_error_firstn.
          replace (prefix_size n <? prefix_size n')%nat with true
            by (symmetry; apply Nat.ltb_lt; lia).
          exact Hbyte.
        + constructor. }
    exists (m + 1)%nat, (Some (q, b)). repeat split; auto.
    + pose proof (arrives_ps_le cfg _ _ _ _ _ _ _ _ _ Hok Ha' Hr Hn') as L.
      lia.
    + unfold node_key. now rewrite firstn_firstn, Nat.min_id.
Qed.

Lemma iter_linked_same h r it it' :
  node it' = node it -> path it' = path it ->
  iter_linked h r it -> iter_linked h r it'.
Proof. unfold iter_linked. intros -> ->. auto. Qed.

Lemma iter_linked_null h r it :
  iter_linked h r it -> iter_linked h r (set_node it 0).
Proof. intros (_ & Hp). split; [now left|exact Hp]. Qed.

Lemma iter_linked_node h r it n :
  iter_linked h r it -> toLocal h (node it) = Some n ->
  linked h r (node it).
Proof.
  intros ([E|L] & _) Hn; auto.
  rewrite E in Hn. discriminate.
Qed.

Lemma pop_path_linked h r s :
  forall it b it1,
    path it = s -> iter_linked h r it -> pop_path s it = (b, it1) ->
    iter_linked h r it1.
Proof.
  induction s as [|parent s IH]; intros it b it1 Hs Hl; simpl.
  - destruct (next_pos it =? 257); intros E; inversion E; subst; auto.
  - destruct (next_pos it =? 257); [|intros E; inversion E; subst; auto].
    apply IH; [reflexivity|].
    destruct Hl as (_ & Hp). rewrite Hs in Hp.
    inversion Hp as [|? ? Hpar Hrest]; subst.
    split; [right; exact Hpar|exact Hrest].
Qed.

Lemma child_at_child n i q : child_at n i = Ret q -> exists b, q = child n b.
Proof.
  unfold child_at. destruct (Byte.of_N _) as [b|]; [|discriminate].
  intros E; inversion E. eauto.
Qed.

Lemma child_scan_linked h r n bound :
  forall f it it',
    toLocal h (node it) = Some n -> iter_linked h r it ->
    child_scan f n bound it = Ret it' -> iter_linked h r it'.
Proof.
  induction f as [|f IH]; intros it it' Hn Hl; simpl; [discriminate|].
  destruct (next_pos it <=? bound); [|intros E; inversion E; subst; auto].
  destruct (child_at n _) as [q| | |] eqn:Ec; simpl; try discriminate.
  destruct (q =? 0).
  - apply IH; auto.
  - intros E; inversion E; subst it'. unfold descend; simpl.
    destruct (child_at_child _ _ _ Ec) as (b & ->).
    pose proof (iter_linked_node _ _ _ _ Hl Hn) as L.
    split; simpl.
    + right. eapply linked_child; eauto.
    + constructor; [exact L|apply Hl].
Qed.

Lemma deref_Ret h q n : deref cfg h q = Ret n -> toLocal h q = Some n.
Proof.
  unfold deref. destruct (toLocal h q); [intros E; now inversion E|].
  destruct (NDEBUG cfg); discriminate.
Qed.

Lemma loadTagGptr_Ret h q n tq :
  toLocal h q = Some n -> loadTagGptr h q = Ret tq -> tq = value n.
Proof. unfold loadTagGptr. intros ->. intros E; now inversion E. Qed.

End ScanSound.

Section ScanResults.

Variable cfg : Config.

Lemma next_value_linked h r :
  forall f it b it',
    iter_linked h r it -> next_value cfg f h it = Ret (b, it') ->
    iter_linked h r it' /\ yields h r b it'.
Proof.
  induction f as [|f IH]; intros it b it' Hl; [discriminate|].
  cbn [next_value].
  destruct (node it =? 0).
  { intros E; inversion E; subst. split; auto. discriminate. }
  destruct (pop_path (path it) it) as [[|] it1] eqn:Ep.
  2: { intros E; inversion E; subst. split; [|discriminate].
       eapply pop_path_linked; eauto. }
  pose proof (pop_path_linked h r _ _ _ _ eq_refl Hl Ep) as Hl1.
  destruct (deref cfg h (node it1)) as [n| | |] eqn:Ed; cbn [bind];
    try discriminate.
  apply deref_Ret in Ed.
  pose proof (iter_linked_node _ _ _ _ Hl1 Ed) as L1.
  assert (Hyield : forall it2,
             IsValid (value n) = true ->
             it_key it2 = node_key n -> it_value it2 = value n ->
             yields h r true it2).
  { intros it2 Hv Hk Hval _. exists (node it1), n. auto. }
  assert (Hscan : forall bound it2 c,
             (it3 <- child_scan (S f) n bound it2 ;; c it3) = Ret (b, it') ->
             node it2 = node it1 -> path it2 = path it1 ->
             exists it3, iter_linked h r it3 /\ c it3 = Ret (b, it')).
  { intros bound it2 c E En Epath.
    destruct (child_scan (S f) n bound it2) as [it3| | |] eqn:Ec;
      cbn [bind] in E; try discriminate.
    exists it3. split; auto.
    apply (child_scan_linked h r n bound (S f) it2 it3); auto.
    - now rewrite En.
    - eapply iter_linked_same; eauto. }
  set (res := if end_key_open it1 then 1 else _).
  destruct (res <? 0).
  { intros E; inversion E; subst. split; [auto|discriminate]. }
  destruct (0 <? res).
  { destruct (next_pos it1 =? 0).
    - cbn [node set_next_pos].
      destruct (loadTagGptr h (node it1)) as [tq| | |] eqn:El; cbn [bind];
        try discriminate.
      pose proof (loadTagGptr_Ret _ _ _ _ Ed El); subst tq.
      destruct (IsValid (value n)) eqn:Ev.
      + intros E; inversion E; subst. split; [exact Hl1|].
        eapply Hyield; eauto.
      + intros E. destruct (Hscan _ _ _ E eq_refl eq_refl) as (it3 & Hl3 & E3).
        eapply IH; eauto.
    - intros E. destruct (Hscan _ _ _ E eq_refl eq_refl) as (it3 & Hl3 & E3).
      eapply IH; eauto. }
  destruct (prefix_size n =? _)%nat.
  { destruct (end_key_inclusive it1).
    - destruct (loadTagGptr h (node it1)) as [tq| | |] eqn:El; cbn [bind];
        try discriminate.
      pose proof (loadTagGptr_Ret _ _ _ _ Ed El); subst tq.
      destruct ((next_pos it1 =? 0) && IsValid (value n)) eqn:Ec.
      + apply andb_true_iff in Ec as (_ & Ev).
        intros E; inversion E; subst. split.
        * apply (iter_linked_null h r it1 Hl1).
        * eapply Hyield; eauto.
      + intros E; inversion E; subst. split; [|discriminate].
        apply (iter_linked_null h r it1 Hl1).
    - intros E; inversion E; subst. split; [|discriminate].
      apply (iter_linked_null h r it1 Hl1). }
  assert (Hb : forall it2,
             node it2 = node it1 -> path it2 = path it1 ->
             (c <- data_at (end_key it1) (prefix_size n) ;;
              it0 <- child_scan (S f) n (wrap64 (char_to_u64 cfg c + 1)) it2 ;;
              (if wrap64 (char_to_u64 cfg c + 1) <? next_pos it0
               then Ret (false, set_node it0 0)
               else next_value cfg f h it0)) = Ret (b, it') ->
             iter_linked h r it' /\ yields h r b it').
  { intros it2 En Epath E.
    destruct (data_at _ _) as [c| | |]; cbn [bind] in E; try discriminate.
    destruct (Hscan _ _ _ E En Epath) as (it3 & Hl3 & E3). cbv beta in E3.
    destruct (_ <? _) in E3.
    - inversion E3; subst. split; [|discriminate].
      apply (iter_linked_null h r it3 Hl3).
    - eapply IH; eauto. }
  destruct (next_pos it1 =? 0).
  - cbn [node set_next_pos].
    destruct (loadTagGptr h (node it1)) as [tq| | |] eqn:El; cbn [bind];
      try discriminate.
    pose proof (loadTagGptr_Ret _ _ _ _ Ed El); subst tq.
    destruct (IsValid (value n)) eqn:Ev.
    + intros E; inversion E; subst. split; [exact Hl1|].
      eapply Hyield; eauto.
    + apply Hb; reflexivity.
  - apply Hb; reflexivity.
Qed.

Lemma lower_bound_loop_linked h r :
  forall f it b it',
    iter_linked h r it -> lower_bound_loop cfg f h it = Ret (b, it') ->
    iter_linked h r it' /\ yields h r b it'.
Proof.
  induction f as [|f IH]; intros it b it' Hl; [discriminate|].
  cbn [lower_bound_loop].
  destruct (node it =? 0).
  { intros E; inversion E; subst. split; [|discriminate].
    apply (iter_linked_null h r it Hl). }
  destruct (deref cfg h (node it)) as [n| | |] eqn:Ed; cbn [bind];
    try discriminate.
  apply deref_Ret in Ed.
  pose proof (iter_linked_node _ _ _ _ Hl Ed) as L.
  set (res := if begin_key_open it then -1 else _).
  destruct (0 <? res); [apply next_value_linked; exact Hl|].
  destruct (res <? 0); [apply next_value_linked; exact Hl|].
  destruct (prefix_size n =? _)%nat.
  { destruct (begin_key_inclusive it); apply next_value_linked; exact Hl. }
  destruct (data_at _ _) as [idx| | |]; cbn [bind]; try discriminate.
  cbn [read_slot]. rewrite Ed. cbn [bind].
  destruct (negb (child n idx =? 0)).
  - apply IH. split; simpl.
    + right. eapply linked_child; eauto.
    + constructor; [exact L|apply Hl].
  - apply next_value_linked; exact Hl.
Qed.

Lemma pop_path_false s :
  forall it it1, path it = s -> pop_path s it = (false, it1) ->
                 next_pos it1 = 257 /\ path it1 = [].
Proof.
  induction s as [|parent s IH]; intros it it1 Hs; simpl.
  - destruct (next_pos it =? 257) eqn:E; intros H; inversion H; subst.
    split; [now apply Z.eqb_eq|exact Hs].
  - destruct (next_pos it =? 257); [|discriminate].
    apply IH. reflexivity.
Qed.

Lemma pop_path_true s :
  forall it it1, pop_path s it = (true, it1) ->
                 pop_path (path it1) it1 = (true, it1).
Proof.
  induction s as [|parent s IH]; intros it it1; simpl.
  - destruct (next_pos it =? 257) eqn:E; intros H; inversion H; subst.
    destruct (path it1); simpl; now rewrite E.
  - destruct (next_pos it =? 257) eqn:E; [apply IH|].
    intros H; inversion H; subst.
    destruct (path it1); simpl; now rewrite E.
Qed.

Lemma next_value_at_null f h it :
  next_value cfg (S f) h (set_node it 0) = Ret (false, set_node it 0).
Proof. reflexivity. Qed.

Lemma next_value_false_again h :
  forall f it it',
    next_value cfg f h it = Ret (false, it') ->
    forall f', next_value cfg (S f') h it' = Ret (false, it').
Proof.
  induction f as [|f IH]; intros it it'; [discriminate|].
  cbn [next_value].
  destruct (node it =? 0) eqn:En.
  { intros E f'; inversion E; subst. cbn [next_value]. now rewrite En. }
  destruct (pop_path (path it) it) as [[|] it1] eqn:Ep.
  2: { intros E f'; inversion E; subst. cbn [next_value].
       destruct (pop_path_false _ _ _ eq_refl Ep) as (Hp & Hs).
       destruct (node it' =? 0); auto.
       rewrite Hs. simpl. apply Z.eqb_eq in Hp. now rewrite Hp. }
  pose proof (pop_path_true _ _ _ Ep) as Ep1.
  destruct (deref cfg h (node it1)) as [n| | |] eqn:Ed; cbn [bind];
    try discriminate.
  pose proof (deref_Ret cfg _ _ _ Ed) as Hn.
  assert (Hscan : forall bound it2 (c : Iter -> outcome (bool * Iter)),
             (it3 <- child_scan (S f) n bound it2 ;; c it3) = Ret (false, it') ->
             exists it3, c it3 = Ret (false, it')).
  { intros bound it2 c E.
    destruct (child_scan (S f) n bound it2) as [it3| | |];
      cbn [bind] in E; try discriminate. eauto. }
  set (res := if end_key_open it1 then 1 else _).
  destruct (res <? 0) eqn:E1.
  { intros E f'; inversion E; subst. cbn [next_value].
    rewrite (eqb_0_mapped _ _ _ Hn), Ep1, Ed. cbn [bind].
    fold res. now rewrite E1. }
  destruct (0 <? res).
  { destruct (next_pos it1 =? 0).
    - cbn [node set_next_pos].
      destruct (loadTagGptr h (node it1)) as [tq| | |]; cbn [bind];
        try discriminate.
      destruct (IsValid tq); [discriminate|].
      intros E. destruct (Hscan _ _ _ E) as (it3 & E3). eapply IH; eauto.
    - intros E. destruct (Hscan _ _ _ E) as (it3 & E3). eapply IH; eauto. }
  destruct (prefix_size n =? _)%nat.
  { destruct (end_key_inclusive it1).
    - destruct (loadTagGptr h (node it1)) as [tq| | |]; cbn [bind];
        try discriminate.
      destruct ((next_pos it1 =? 0) && IsValid tq); [discriminate|].
      intros E f'; inversion E; subst; reflexivity.
    - intros E f'; inversion E; subst; reflexivity. }
  assert (Hb : forall it2,
             (c <- data_at (end_key it1) (prefix_size n) ;;
              it0 <- child_scan (S f) n (wrap64 (char_to_u64 cfg c + 1)) it2 ;;
              (if wrap64 (char_to_u64 cfg c + 1) <? next_pos it0
               then Ret (false, set_node it0 0)
               else next_value cfg f h it0)) = Ret (false, it') ->
             forall f', next_value cfg (S f') h it' = Ret (false, it')).
  { intros it2 E.
    destruct (data_at _ _) as [c| | |]; cbn [bind] in E; try discriminate.
    destruct (Hscan _ _ _ E) as (it3 & E3). cbv beta in E3.
    destruct (_ <? _) in E3.
    - inversion E3; subst. intros f'. reflexivity.
    - eapply IH; eauto. }
  destruct (next_pos it1 =? 0).
  - cbn [node set_next_pos].
    destruct (loadTagGptr h (node it1)) as [tq| | |]; cbn [bind];
      try discriminate.
    destruct (IsValid tq); [discriminate|]. apply Hb.
  - apply Hb.
Qed.

Lemma lower_bound_loop_false_again h :
  forall f it it',
    lower_bound_loop cfg f h it = Ret (false, it') ->
    forall f', next_value cfg (S f') h it' = Ret (false, it').
Proof.
  induction f as [|f IH]; intros it it'; [discriminate|].
  cbn [lower_bound_loop].
  destruct (node it =? 0).
  { intros E f'; inversion E; subst; reflexivity. }
  destruct (deref cfg h (node it)) as [n| | |] eqn:Ed; cbn [bind];
    try discriminate.
  set (res := if begin_key_open it then -1 else _).
  destruct (0 <? res); [apply next_value_false_again|].
  destruct (res <? 0); [apply next_value_false_again|].
  destruct (prefix_size n =? _)%nat.
  { destruct (begin_key_inclusive it); apply next_value_false_again. }
  destruct (data_at _ _) as [idx| | |]; cbn [bind]; try discriminate.
  destruct (read_slot h _) as [q| | |]; cbn [bind]; try discriminate.
  destruct (negb (q =? 0)); [apply IH|apply next_value_false_again].
Qed.


Lemma yields_entry S t b it :
  built cfg S t -> yields (heap t) (root t) b it -> b = true ->
  In (it_key it) S /\ IsValid (it_value it) = true /\
  forall f, (length (it_key it) + 2 <= f)%nat ->
            get cfg f t (it_key it) = Ret (it_value it).
Proof.
  intros Hb Hy E.
  destruct (built_inv cfg S t Hb) as (Hwf & HS & Hin).
  destruct (Hy E) as (q & n & Hl & Hn & Hk & Hv & Hval).
  pose proof (linked_found cfg t q Hwf Hl n Hn) as Hfound.
  rewrite Hk, Hv.
  pose proof (Hin _ _ _ Hfound Hval) as HkS.
  split; [exact HkS|]. split; [exact Hval|].
  intros f Hf. rewrite get_unfold, assert_bind.
  - now apply (found_get cfg t _ q n).
  - apply assert_key_ok. rewrite Forall_forall in HS. auto.
Qed.

Lemma get_loop_more h k :
  forall f q tq d,
    get_loop cfg f h k q = Ret tq -> get_loop cfg (f + d) h k q = Ret tq.
Proof.
  induction f as [|f IH]; intros q tq d; [discriminate|].
  cbn [Nat.add get_loop].
  destruct (q =? 0); auto.
  destruct (deref cfg h q) as [n| | |]; cbn [bind]; auto.
  destruct (negb _); auto.
  destruct (_ =? _)%nat; auto.
  destruct (key_at _ _) as [b| | |]; cbn [bind]; auto.
  destruct (read_slot _ _) as [q'| | |]; cbn [bind]; auto.
Qed.

Lemma scan_result_sound S t it0 bk bi ek ei r it :
  built cfg S t -> scan_result cfg t it0 bk bi ek ei r it ->
  iter_linked (heap t) (root t) it /\ entry_stored cfg S t r.
Proof.
  intros Hb. destruct (built_inv cfg S t Hb) as (Hwf & HS & Hin).
  induction 1 as [fuel r it H|fuel r it r' it' _ (Hit & _) H].
  - unfold scan in H.
    assert (Hinit : iter_linked (heap t) (root t)
                      (scan_init cfg it0 bk bi ek ei)).
    { split; [now left|constructor]. }
    set (i0 := scan_init cfg it0 bk bi ek ei) in *.
    destruct (assert cfg (key_size_ok cfg bk)) as [[]| | |] eqn:A1;
      cbn [bind] in H; try discriminate.
    destruct (assert cfg (key_size_ok cfg ek)) as [[]| | |] eqn:A2;
      cbn [bind] in H; try discriminate.
    destruct (bytes_eqb bk ek && bi && ei).
    + destruct (get cfg fuel t bk) as [val| | |] eqn:Eg; cbn [bind] in H;
        try discriminate.
      destruct (IsValid val) eqn:Ev; inversion H; subst;
        (split; [exact Hinit|]); intros k tq E; [|discriminate].
      inversion E; subst.
      rewrite get_unfold, A1 in Eg. cbn [bind] in Eg.
      apply (get_loop_more _ _ _ _ _ (length k + 2)) in Eg.
      destruct (get_loop_found cfg t k _ tq Hwf (Nat.le_add_l _ _) Eg Ev)
        as (q & n & Hfound & Hval).
      subst tq. split; [eapply Hin; eauto|]. split; [exact Ev|].
      intros f Hf. rewrite get_unfold, A1. cbn [bind].
      now apply (found_get cfg t _ q n).
    + destruct (_ || _).
      * unfold lower_bound in H.
        destruct (assert cfg _) as [[]| | |] in H; cbn [bind] in H;
          try discriminate.
        match type of H with
        | context [lower_bound_loop cfg fuel (heap t) ?i] => set (i1 := i) in *
        end.
        assert (Hi1 : iter_linked (heap t) (root t) i1).
        { split; [right; apply linked_here|constructor]. }
        destruct (lower_bound_loop cfg fuel (heap t) i1) as [[b i2]| | |] eqn:E;
          cbn [bind] in H; try discriminate.
        destruct (lower_bound_loop_linked _ _ _ _ _ _ Hi1 E) as (Hi2 & Hy).
        destruct b; inversion H; subst; (split; [exact Hi2|]);
          intros k tq Ek; [|discriminate].
        inversion Ek; subst. now apply (yields_entry S t true it).
      * inversion H; subst. split; [exact Hinit|]. intros k tq E. discriminate.
  - unfold get_next in H.
    destruct (next_value cfg fuel (heap t) it) as [[b i1]| | |] eqn:E;
      cbn [bind] in H; try discriminate.
    destruct (next_value_linked _ _ _ _ _ _ Hit E) as (Hi1 & Hy).
    destruct b; inversion H; subst; (split; [exact Hi1|]);
      intros k tq Ek; [|discriminate].
    inversion Ek; subst. now apply (yields_entry S t true it').
Qed.

(** X12 (scan, get_next, lower_bound, next_value).  Whatever boundaries a
    scan is given and whatever iterator it starts from, every pair that
    the scan or one of the following [get_next] calls hands out, on a tree
    built by [put] and [destroy], is a key that was put, with a valid
    value, and [get] on that key returns the same value.  This holds for
    each pair as it is handed out, whatever the later calls do.  The
    allocator is the model's: a block [Alloc] hands out is zero-filled
    ([zero_node]), which the source relies on and does not establish. *)
Theorem scan_yields_only_stored_entries (S : list (list byte))
  (t : RadixTree) (it0 it : Iter) (bk ek : list byte) (bi ei : bool)
  (k : list byte) (tq : TagGptr) :
  built cfg S t ->
  scan_result cfg t it0 bk bi ek ei (Some (k, tq)) it ->
  In k S /\ IsValid tq = true /\
  forall f, (length k + 2 <= f)%nat -> get cfg f t k = Ret tq.
Proof.
  intros Hb Hr.
  destruct (scan_result_sound S t it0 bk bi ek ei _ it Hb Hr) as (_ & Hs).
  now apply Hs.
Qed.

(** X14 (get_next, scan, next_value).  Once [scan] or [get_next] has
    reported not-found, every further [get_next] on that iterator reports
    not-found again and leaves the iterator as it is. *)
Theorem not_found_is_final (t : RadixTree) (it it' : Iter) (fuel : nat) :
  (get_next cfg fuel t it = Ret (None, it') \/
   exists bk bi ek ei, scan cfg fuel t it bk bi ek ei = Ret (None, it')) ->
  forall f, get_next cfg (Datatypes.S f) t it' = Ret (None, it').
Proof.
  assert (Hn : forall f, next_value cfg (Datatypes.S f) (heap t) it'
                         = Ret (false, it') ->
                         get_next cfg (Datatypes.S f) t it' = Ret (None, it')).
  { intros f E. unfold get_next. now rewrite E. }
  intros [H|(bk & bi & ek & ei & H)] f; apply Hn.
  - unfold get_next in H.
    destruct (next_value cfg fuel (heap t) it) as [[b it1]| | |] eqn:E;
      cbn [bind] in H; try discriminate.
    destruct b; inversion H; subst.
    eapply next_value_false_again; eauto.
  - unfold scan in H.
    destruct (assert cfg (key_size_ok cfg bk)) as [[]| | |];
      cbn [bind] in H; try discriminate.
    destruct (assert cfg (key_size_ok cfg ek)) as [[]| | |];
      cbn [bind] in H; try discriminate.
    destruct (bytes_eqb bk ek && bi && ei).
    + destruct (get cfg fuel t bk) as [val| | |]; cbn [bind] in H;
        try discriminate.
      destruct (IsValid val); inversion H; subst. reflexivity.
    + destruct (_ || _).
      * unfold lower_bound in H.
        destruct (assert cfg _) as [[]| | |] in H; cbn [bind] in H;
          try discriminate.
        destruct (lower_bound_loop cfg fuel (heap t) _) as [[b it2]| | |] eqn:E;
          cbn [bind] in H; try discriminate.
        destruct b; inversion H; subst.
        eapply lower_bound_loop_false_again; eauto.
      * inversion H; subst. reflexivity.
Qed.

End ScanResults.


Section ListingResults.

Variable cfg : Config.
Variable gptr_nomark : TagGptr -> Gptr.

Lemma wrap64_range z : 0 <= wrap64 z < u64_mod.
Proof. unfold wrap64. apply Z.mod_pos_bound. reflexivity. Qed.

Lemma wrap64_add_l a b : wrap64 (wrap64 a + b) = wrap64 (a + b).
Proof. unfold wrap64. apply Zplus_mod_idemp_l. Qed.

Lemma listed_nil s : in_range s -> listed gptr_nomark [] s s.
Proof.
  intros (_ & Hv). split; [reflexivity|]. split.
  - simpl. rewrite Z.add_0_r. symmetry. now apply wrap64_small.
  - exists []. now rewrite app_nil_r.
Qed.

Lemma listed_app a b s s1 s2 :
  listed gptr_nomark a s s1 -> listed gptr_nomark b s1 s2 ->
  listed gptr_nomark (a ++ b) s s2.
Proof.
  intros (Hl1 & Hv1 & n1 & Hr1 & Hm1) (Hl2 & Hv2 & n2 & Hr2 & Hm2).
  split; [congruence|]. split.
  - rewrite Hv2, Hv1, wrap64_add_l, length_app, Nat2Z.inj_add.
    f_equal. lia.
  - exists (n1 ++ n2). rewrite Hr2, Hr1, <- app_assoc. split; auto.
    now rewrite !map_app, Hm1, Hm2.
Qed.

Lemma listed_range ws s s' :
  in_range s -> listed gptr_nomark ws s s' -> in_range s'.
Proof.
  intros (Hl & _) (Hl' & Hv' & _). split; [now rewrite Hl'|].
  rewrite Hv'. apply wrap64_range.
Qed.

Lemma recursive_list_walk h :
  heap_ok cfg h ->
  forall d q n s f,
    toLocal h q = Some n ->
    (MAX_KEY_LEN cfg - prefix_size n < d)%nat -> (d < f)%nat ->
    in_range s ->
    exists s', recursive_list cfg gptr_nomark f h q s = Ret s' /\
               listed gptr_nomark (walk d h q) s s'.
Proof.
  intros Hok. induction d as [|d IHd]; intros q n s f Hq Hd Hf Hs; [lia|].
  destruct f as [|f]; [lia|].
  assert (Hloop : forall k i s1, (i + k = 256)%nat -> in_range s1 ->
            exists s2,
              for_each (fun i s => q <- child_at n (Z.of_nat i) ;;
                                   recursive_list cfg gptr_nomark f h q s)
                       (seq i k) s1 = Ret s2 /\
              listed gptr_nomark (below d h n i) s1 s2).
  { induction k as [|k IHk]; intros i s1 Hik Hs1.
    { exists s1. split; [reflexivity|].
      rewrite below_end by lia. now apply listed_nil. }
    cbn [seq for_each]. rewrite child_at_ix by lia. cbn [bind].
    rewrite (below_step d h n i) by lia.
    assert (Hc : exists s2,
               recursive_list cfg gptr_nomark f h (child_ix n i) s1 = Ret s2 /\
               listed gptr_nomark (walk d h (child_ix n i)) s1 s2).
    { destruct (Z.eq_dec (child_ix n i) 0) as [E|E].
      - rewrite E, walk_null. exists s1.
        destruct f; [lia|]. split; [reflexivity|now apply listed_nil].
      - destruct (child_ix_mapped cfg h n i Hok (ex_intro _ q Hq) E)
          as (b & nc & Hb & Hcb & Hnc & Hps & _).
        destruct (Hok _ _ Hnc) as (Hlen & Hmax & _).
        rewrite Hcb. apply (IHd _ nc); auto; lia. }
    destruct Hc as (s2 & E2 & L2). rewrite E2. cbn [bind].
    destruct (IHk (Datatypes.S i) s2) as (s3 & E3 & L3);
      [lia|eapply listed_range; eauto|].
    exists s3. split; [exact E3|]. eapply listed_app; eauto. }
  cbn [recursive_list].
  assert (Hq0 : (q =? 0) = false).
  { apply Z.eqb_neq. intros ->. discriminate. }
  rewrite Hq0. unfold deref. rewrite Hq. cbn [bind].
  rewrite (walk_unfold d h q n Hq).
  set (s0 := if IsValid (value n) then _ else s).
  assert (H0 : in_range s0 /\ listed gptr_nomark (own n) s s0).
  { unfold s0, own. destruct Hs as (Hl & Hv).
    destruct (IsValid (value n)).
    - split; [split; [exact Hl|apply wrap64_range]|].
      split; [reflexivity|]. split; [reflexivity|].
      exists [(key n, prefix_size n, gptr_nomark (value n))].
      split; reflexivity.
    - split; [split; auto|]. apply listed_nil. split; auto. }
  destruct H0 as ((Hl0 & Hv0) & L0).
  cbn [level depth value_cnt node_cnt reported].
  match goal with
  | |- context [for_each _ _ ?s1] => set (s1' := s1)
  end.
  assert (Hs1 : in_range s1').
  { split; [apply wrap64_range|exact Hv0]. }
  destruct (Hloop 256%nat 0%nat s1' eq_refl Hs1) as (s2 & E2 & Hl2 & Hv2 & Hn2).
  rewrite E2. cbn [bind]. eexists. split; [reflexivity|].
  apply (listed_app _ _ s s0); auto.
  split; [|split; [exact Hv2|exact Hn2]].
  cbn [level]. rewrite Hl2. unfold s1'. cbn [level].
  unfold wrap64. rewrite Zminus_mod_idemp_l.
  replace (level s0 + 1 - 1) with (level s0) by lia.
  now apply Z.mod_small.
Qed.


(** X17 (list, recursive_list).  On a tree built by [put] and [destroy],
    [list] terminates; it calls the callback exactly once for each key
    that holds a valid value, in strictly ascending key order, with the
    value [get] returns for that key; it counts these calls in the value
    counter and ends at level 0.  The allocator is
    the model's: a block [Alloc] hands out is zero-filled ([zero_node]),
    which the source relies on and does not establish. *)
Theorem list_reports_each_stored_key (S : list (list byte))
  (t : RadixTree) (fuel : nat) :
  built cfg S t -> (MAX_KEY_LEN cfg + 2 <= fuel)%nat ->
  exists s,
    RadixTree_list cfg gptr_nomark fuel t = Ret s /\
    level s = 0 /\
    value_cnt s = wrap64 (Z.of_nat (length (reported s))) /\
    StronglySorted bytes_lt (map fst (map call_view (reported s))) /\
    forall k g,
      In (k, g) (map call_view (reported s)) <->
      exists tq, In k S /\ IsValid tq = true /\ g = gptr_nomark tq /\
                 forall f, (length k + 2 <= f)%nat -> get cfg f t k = Ret tq.
Proof.
  intros Hb Hfuel.
  destruct (built_inv cfg S t Hb) as (Hwf & HS & Hin).
  pose proof Hwf as (Hok & r & Hr & Hr0).
  destruct (recursive_list_walk (heap t) Hok (Datatypes.S (MAX_KEY_LEN cfg))
              (root t) r (mkListing 0 0 0 0 []) fuel Hr)
    as (s & Es & Hl & Hv & new & Hnew & Hmap); [lia|lia| |].
  { split; cbn; split; try lia; reflexivity. }
  fold (contents cfg t) in Hv, Hmap.
  cbn [level value_cnt reported app] in Hl, Hv, Hnew. subst new.
  exists s. split; [exact Es|]. split; [exact Hl|]. split; [|split].
  - rewrite Hv. f_equal.
    rewrite <- (length_map call_view), Hmap, length_map. reflexivity.
  - rewrite Hmap, map_map. cbn [fst]. apply (walk_sorted cfg); auto.
  - intros k g. rewrite Hmap, in_map_iff. split.
    + intros ([k' tq] & E & Hc). cbn [fst snd] in E. inversion E; subst.
      apply (contents_found cfg t k tq Hwf) in Hc.
      destruct Hc as (q & n & Hf & <- & Hval).
      pose proof (Hin k q n Hf Hval) as HkS.
      exists (value n). repeat split; auto.
      intros f Hf'. rewrite get_unfold.
      rewrite Forall_forall in HS.
      rewrite (assert_bind cfg _ _ (assert_key_ok cfg k (HS k HkS))).
      eapply found_get; eauto.
    + intros (tq & HkS & Hval & -> & Hg).
      exists (k, tq). split; [reflexivity|].
      apply (contents_found cfg t k tq Hwf).
      specialize (Hg (length k + 2)%nat (le_n _)).
      rewrite get_unfold in Hg. apply assert_Ret in Hg.
      destruct (get_loop_found cfg t k _ tq Hwf (le_n _) Hg Hval)
        as (q & n & Hf & Ev).
      exists q, n. auto.
Qed.

End ListingResults.


(** ** The tree as a map *)

Section MapRefinement.

Variable cfg : Config.

Lemma map_set_same m k v : map_set m k v k = v.
Proof. unfold map_set. now rewrite bytes_eqb_refl. Qed.

Lemma map_set_other m k v k' : k' <> k -> map_set m k v k' = m k'.
Proof.
  intros H. unfold map_set, bytes_eqb.
  destruct (list_eq_dec Byte.byte_eq_dec k' k); congruence.
Qed.

Lemma IsValid_gptr tq : IsValid tq = true <-> gptr tq <> 0.
Proof.
  unfold IsValid. rewrite negb_true_iff. apply Z.eqb_neq.
Qed.

Lemma found_unique t k q n q' n' :
  wf cfg t -> found t k q n -> found t k q' n' -> q = q' /\ value n = value n'.
Proof.
  intros Hwf H1 H2.
  pose proof (found_getC cfg t k q n _ Hwf (le_n _) H1) as E1.
  pose proof (found_getC cfg t k q' n' _ Hwf (le_n _) H2) as E2.
  rewrite E1 in E2. now inversion E2.
Qed.

Lemma found_store_other t k0 q0 n0 tv k q n :
  wf cfg t -> found t k0 q0 n0 -> found t k q n -> k <> k0 ->
  found (with_heap t (store (heap t) q0 (set_value n0 tv))) k q n.
Proof.
  intros Hwf Hf0 Hfound Hk. pose proof Hwf as (Hok & _).
  pose proof Hf0 as (_ & _ & _ & _ & Hq0 & _).
  assert (Hne : q0 <> q).
  { intros ->. apply Hk.
    pose proof Hfound as (_ & _ & _ & _ & Hq & _).
    assert (n0 = n) by congruence. subst n0.
    rewrite (found_key cfg t k q n Hok Hfound).
    now rewrite (found_key cfg t k0 q n Hok Hf0). }
  destruct Hfound as (m & p & Hm & Ha' & Hq & Hpre & Hps).
  exists m, p. simpl. repeat split; auto.
  - eapply same_shape_arrives; eauto. now apply same_shape_set_value.
  - now rewrite toLocal_store_other.
Qed.

(** What [put] returns: the value of the key's node, or the default value
    when the key has no node. *)
Lemma put_loop_old_value t k v u fuel r h' :
  wf cfg t -> (length k + 2 <= fuel)%nat ->
  put_loop cfg fuel (heap t) k v u (locals_at None (root t)) = Ret (r, h') ->
  (exists q n, found t k q n /\ r = value n) \/
  ((forall q n, ~ found t k q n) /\ r = TagGptr0).
Proof.
  intros Hwf Hf Hput.
  destruct (put_loop_shape cfg t k v u fuel Hwf Hf)
    as [q n Hfound Hres|m pn b par Hm Ha' Hpn Hpre Hb Hnf Hres].
  - rewrite Hres in Hput. left. exists q, n. split; [exact Hfound|].
    destruct (u || negb (IsValid (value n))); now inversion Hput.
  - right. split; [exact Hnf|].
    destruct Hres as [(_ & Hres)|[(n & _ & _ & _ & Hres)|(n & _ & _ & Hres)]];
      rewrite Hres in Hput; clear Hres.
    + destruct (make_leaf cfg (heap t) k v 0) as [[lp h1]| | |];
        simpl in Hput; try discriminate. now inversion Hput.
    + destruct (make_intermediate cfg (heap t) k 0) as [[ip h1]| | |];
        simpl in Hput; try discriminate. now inversion Hput.
    + destruct (make_intermediate cfg (heap t) k 0) as [[ip h1]| | |];
        simpl in Hput; try discriminate.
      destruct (make_leaf cfg h1 k v 0) as [[lp h2]| | |];
        simpl in Hput; try discriminate. now inversion Hput.
Qed.

Lemma agrees_put m t k0 v u fuel r t' :
  wf cfg t -> agrees m t -> (length k0 + 2 <= fuel)%nat ->
  put cfg fuel t k0 v u = Ret (r, t') ->
  wf cfg t' /\ agrees (if u || (m k0 =? 0) then map_set m k0 v else m) t'.
Proof.
  intros Hwf Hag Hf0 Hput.
  rewrite put_unfold in Hput. apply assert_Ret in Hput.
  destruct (put_loop cfg fuel (heap t) k0 v u (locals_at None (root t)))
    as [[r' h']| | |] eqn:E; try discriminate.
  simpl in Hput; inversion Hput; subst r' t'; clear Hput.
  pose proof (put_loop_effect cfg _ _ _ _ _ _ _ Hwf Hf0 E) as He.
  pose proof (put_effect_wf cfg _ _ _ _ _ _ Hwf He) as Hwf'.
  assert (Hret : forall q n, found t k0 q n -> r = value n).
  { intros q n Hfound.
    destruct (put_loop_old_value _ _ _ _ _ _ _ Hwf Hf0 E)
      as [(q1 & n1 & Hf1 & ->)|(Hnf & _)].
    - now destruct (found_unique t k0 q1 n1 q n Hwf Hf1 Hfound).
    - now destruct (Hnf q n). }
  split; [exact Hwf'|].
  (* the keys other than [k0] *)
  assert (Hother : forall k, k <> k0 ->
            (forall q n, found (with_heap t h') k q n -> gptr (value n) = m k) /\
            (m k <> 0 -> exists q n, found (with_heap t h') k q n /\
                                     gptr (value n) = m k)).
  { intros k Hk. destruct (Hag k) as (H1 & H2).
    assert (H2' : m k <> 0 -> exists q n, found (with_heap t h') k q n /\
                                          gptr (value n) = m k).
    { intros Hm. destruct (H2 Hm) as (q & n & Hfound & Hg).
      destruct (put_effect_found_fwd cfg _ _ _ _ _ _ _ _ _ Hwf He Hfound Hk)
        as (n' & Hf' & Hv').
      exists q, n'. split; [exact Hf'|congruence]. }
    split; [|exact H2'].
    intros q n Hfound.
    destruct (IsValid (value n)) eqn:Hv.
    - destruct (put_effect_found cfg _ _ _ _ _ _ _ _ _ Hwf He Hfound Hv)
        as [->|(n1 & Hf1 & Hv1)]; [congruence|].
      rewrite <- Hv1. eauto.
    - destruct (Z.eq_dec (m k) 0) as [Hz|Hnz].
      + rewrite Hz. unfold IsValid in Hv. apply negb_false_iff in Hv.
        now apply Z.eqb_eq.
      + destruct (H2' Hnz) as (q1 & n1 & Hf1 & Hg1).
        destruct (found_unique _ _ _ _ _ _ Hwf' Hfound Hf1) as (_ & Ev).
        congruence. }
  destruct (u || negb (IsValid r)) eqn:Hu.
  - (* the value is stored *)
    assert (Hset : u || (m k0 =? 0) = true).
    { destruct u; [reflexivity|]. simpl in Hu |- *. apply Z.eqb_eq.
      destruct (Z.eq_dec (m k0) 0) as [|Hnz]; [assumption|].
      destruct (proj2 (Hag k0) Hnz) as (q & n & Hfound & Hg).
      rewrite (Hret q n Hfound) in Hu. apply negb_true_iff in Hu.
      unfold IsValid in Hu. apply negb_false_iff, Z.eqb_eq in Hu. congruence. }
    rewrite Hset.
    destruct (put_effect_get cfg _ _ _ _ _ _ (length k0 + 2) Hwf He)
      as (tg & Hget); [|lia|].
    { destruct u; [now left|right]. simpl in Hu. now apply negb_true_iff. }
    intros k. destruct (list_eq_dec Byte.byte_eq_dec k k0) as [->|Hk].
    + rewrite map_set_same. split.
      * intros q n Hfound.
        rewrite (found_get cfg _ _ _ _ _ Hwf' (le_n _) Hfound) in Hget.
        inversion Hget as [Hv]. now rewrite Hv.
      * intros Hv.
        destruct (get_loop_found cfg _ k0 _ _ Hwf' (le_n _) Hget)
          as (q & n & Hfound & Hval).
        { now apply IsValid_gptr. }
        exists q, n. split; [exact Hfound|]. now rewrite Hval.
    + rewrite map_set_other by exact Hk. now apply Hother.
  - (* the tree is kept *)
    apply orb_false_iff in Hu as (-> & Hv). apply negb_false_iff in Hv.
    assert (Et : with_heap t h' = t /\ m k0 <> 0).
    { inversion He as [q n Hfound Hu Er Et|q n Hfound Hu Er Et|
                       mm pn b par top news h2 Hm Ha' Hpre Hb G K Hk Er Et].
      - subst r. simpl in Hu. rewrite Hv in Hu. discriminate.
      - split; [now symmetry|]. rewrite <- Et in Hfound.
        rewrite <- (proj1 (Hag k0) q n Hfound), Er. now apply IsValid_gptr.
      - subst r. discriminate. }
    destruct Et as (Et & Hm). rewrite Et. simpl.
    destruct (m k0 =? 0) eqn:Ez; [apply Z.eqb_eq in Ez; congruence|].
    exact Hag.
Qed.

Lemma agrees_destroy m t k0 fuel r t' :
  wf cfg t -> agrees m t -> (length k0 + 2 <= fuel)%nat ->
  destroy cfg fuel t k0 = Ret (r, t') ->
  wf cfg t' /\ agrees (map_set m k0 0) t'.
Proof.
  intros Hwf Hag Hf0 Hd. pose proof Hwf as (Hok & _).
  pose proof (wf_destroy cfg _ _ _ _ _ Hwf Hd) as Hwf'.
  split; [exact Hwf'|].
  rewrite destroy_unfold in Hd. apply assert_Ret in Hd.
  rewrite destroy_destroyC, destroyC_loop_getC in Hd.
  destruct (getC_loop cfg fuel (heap t) k0 (root t)) as [[q0 tq0]| | |] eqn:E;
    try discriminate.
  cbn [bind tombstone] in Hd.
  destruct (q0 =? 0) eqn:E0.
  { simpl in Hd. inversion Hd; subst. rewrite with_heap_same.
    apply Z.eqb_eq in E0. subst q0.
    assert (Hnf : forall q n, ~ found t k0 q n).
    { intros q n Hfound.
      rewrite (found_getC cfg _ _ _ _ _ Hwf Hf0 Hfound) in E.
      inversion E; subst.
      destruct Hfound as (_ & _ & _ & _ & Hq & _). discriminate. }
    intros k. destruct (list_eq_dec Byte.byte_eq_dec k k0) as [->|Hk].
    - rewrite map_set_same. split.
      + intros q n Hfound. now destruct (Hnf q n).
      + congruence.
    - rewrite map_set_other by exact Hk. apply Hag. }
  apply Z.eqb_neq in E0.
  destruct (getC_loop_found cfg t k0 fuel q0 tq0 Hwf Hf0 E E0)
    as (n0 & Hf0' & <-).
  pose proof Hf0' as (_ & _ & _ & _ & Hq0 & _).
  rewrite Hq0 in Hd. simpl in Hd. inversion Hd; subst r t'; clear Hd.
  intros k. destruct (list_eq_dec Byte.byte_eq_dec k k0) as [->|Hk].
  - rewrite map_set_same. split; [|congruence].
    intros q n Hfound.
    pose proof (found_set_value t k0 q0 n0 (bumped 0 (value n0)) Hf0') as H1.
    destruct (found_unique _ _ _ _ _ _ Hwf' Hfound H1) as (_ & ->).
    reflexivity.
  - rewrite map_set_other by exact Hk. destruct (Hag k) as (H1 & H2).
    assert (H2' : m k <> 0 ->
              exists q n,
                found (with_heap t (store (heap t) q0
                                      (set_value n0 (bumped 0 (value n0)))))
                      k q n /\ gptr (value n) = m k).
    { intros Hm. destruct (H2 Hm) as (q & n & Hfound & Hg).
      exists q, n. split; [|exact Hg].
      now apply (found_store_other t k0 q0 n0 _ k q n). }
    split; [|exact H2'].
    intros q n Hfound.
    destruct (IsValid (value n)) eqn:Hv.
    + apply (H1 q n).
      apply (value_bump_found t
               (store (heap t) q0 (set_value n0 (bumped 0 (value n0)))) k q n);
        auto.
      now constructor.
    + destruct (Z.eq_dec (m k) 0) as [Hz|Hnz].
      * rewrite Hz. unfold IsValid in Hv. apply negb_false_iff in Hv.
        now apply Z.eqb_eq.
      * destruct (H2' Hnz) as (q1 & n1 & Hf1 & Hg1).
        destruct (found_unique _ _ _ _ _ _ Hwf' Hfound Hf1) as (_ & Ev).
        congruence.
Qed.

Lemma tracks_agrees m t : tracks cfg m t -> wf cfg t /\ agrees m t.
Proof.
  induction 1 as [h t Hok Hnew|m t k v u fuel r t' _ (Hwf & Hag) Hk Hf Hput
                  |m t k fuel r t' _ (Hwf & Hag) Hk Hf Hd].
  - split; [eapply wf_new; eauto|].
    intros k. split; [|congruence].
    intros q n Hfound. now rewrite (new_found cfg h t k q n Hnew Hfound).
  - eapply agrees_put; eauto.
  - eapply agrees_destroy; eauto.
Qed.

(** X18 (put, get, destroy).  The tree is a map from keys to pointers.
    Let [m] be the map the calls made so far describe.  For a key of legal
    size: when [m] has a pointer for it, [get] returns, with that pointer;
    whenever [get] returns, its pointer is the one of [m], 0 for a key
    without a value; and a further [put] or [destroy] of the key that
    returns hands back the pointer of [m] as the old value.  The allocator is
    the model's: a block [Alloc] hands out is zero-filled ([zero_node]),
    which the source relies on and does not establish. *)
Theorem tree_is_a_map (m : list byte -> Gptr) (t : RadixTree)
  (k : list byte) (fuel : nat) :
  tracks cfg m t -> key_size_ok cfg k = true -> (length k + 2 <= fuel)%nat ->
  (m k <> 0 -> exists tq, get cfg fuel t k = Ret tq /\ gptr tq = m k) /\
  (forall tq, get cfg fuel t k = Ret tq -> gptr tq = m k) /\
  (forall v u r t', put cfg fuel t k v u = Ret (r, t') -> gptr r = m k) /\
  (forall r t', destroy cfg fuel t k = Ret (r, t') -> gptr r = m k).
Proof.
  intros Htr Hk Hf.
  destruct (tracks_agrees m t Htr) as (Hwf & Hag).
  destruct (Hag k) as (H1 & H2).
  assert (Hget : m k <> 0 ->
                 exists tq, get cfg fuel t k = Ret tq /\ gptr tq = m k).
  { intros Hm. destruct (H2 Hm) as (q & n & Hfound & Hg).
    exists (value n). split; [|exact Hg].
    rewrite get_unfold, (assert_bind cfg _ _ (assert_key_ok cfg k Hk)).
    now apply (found_get cfg t k q n). }
  assert (Hnone : (forall q n, ~ found t k q n) -> m k = 0).
  { intros Hnf. destruct (Z.eq_dec (m k) 0) as [|Hm]; [assumption|].
    destruct (H2 Hm) as (q & n & Hfound & _). now destruct (Hnf q n). }
  split; [exact Hget|]. split; [|split].
  - intros tq Hg.
    destruct (Z.eq_dec (m k) 0) as [Hz|Hm].
    + destruct (IsValid tq) eqn:Hv.
      * rewrite get_unfold in Hg. apply assert_Ret in Hg.
        destruct (get_loop_found cfg t k fuel tq Hwf Hf Hg Hv)
          as (q & n & Hfound & <-).
        eauto.
      * rewrite Hz. unfold IsValid in Hv. apply negb_false_iff in Hv.
        now apply Z.eqb_eq.
    + destruct (Hget Hm) as (tq' & Hg' & Hq'). congruence.
  - intros v u r t' Hput.
    rewrite put_unfold in Hput. apply assert_Ret in Hput.
    destruct (put_loop cfg fuel (heap t) k v u (locals_at None (root t)))
      as [[r' h']| | |] eqn:E; try discriminate.
    simpl in Hput; inversion Hput; subst r' t'; clear Hput.
    destruct (put_loop_old_value _ _ _ _ _ _ _ Hwf Hf E)
      as [(q & n & Hfound & ->)|(Hnf & ->)]; [eauto|].
    now rewrite (Hnone Hnf).
  - intros r t' Hd.
    rewrite destroy_unfold in Hd. apply assert_Ret in Hd.
    rewrite destroy_destroyC, destroyC_loop_getC in Hd.
    destruct (getC_loop cfg fuel (heap t) k (root t)) as [[q0 tq0]| | |] eqn:E;
      try discriminate.
    cbn [bind tombstone] in Hd.
    destruct (q0 =? 0) eqn:E0.
    + simpl in Hd. inversion Hd; subst.
      apply Z.eqb_eq in E0. subst q0.
      rewrite Hnone; [reflexivity|].
      intros q n Hfound.
      rewrite (found_getC cfg _ _ _ _ _ Hwf Hf Hfound) in E.
      inversion E; subst.
      destruct Hfound as (_ & _ & _ & _ & Hq & _). discriminate.
    + apply Z.eqb_neq in E0.
      destruct (getC_loop_found cfg t k fuel q0 tq0 Hwf Hf E E0)
        as (n0 & Hf0' & <-).
      pose proof Hf0' as (_ & _ & _ & _ & Hq0 & _).
      rewrite Hq0 in Hd. simpl in Hd. inversion Hd; subst. eauto.
Qed.

End MapRefinement.


(** ** A scan that starts at a stored key *)

Section Seek.

Variable cfg : Config.

(** Along the descent of a key that has a node, [lower_bound] follows the
    key down to that node and, the begin boundary being inclusive, hands
    the node to [next_value]. *)
Lemma lower_bound_loop_seek h k m p0 q0 p q :
  heap_ok cfg h -> arrives h k m p0 q0 p q ->
  forall n, toLocal h q = Some n ->
    firstn (prefix_size n) k = firstn (prefix_size n) (key n) ->
    prefix_size n = length k -> IsValid (value n) = true ->
    forall f it s,
      at_pos it q0 0 s -> begin_key it = k -> begin_key_open it = false ->
      begin_key_inclusive it = true ->
      exists it',
        lower_bound_loop cfg (m + S f) h it = Ret (true, it') /\
        it_key it' = node_key n /\ it_value it' = value n.
Proof.
  intros Hok. induction 1 as [p q|p q n0 b p' q' m Hq Hpre Hb Ha IH];
    intros n Hn Hpn Hps Hv f it s Hat Hbk Hbo Hbi.
  - pose proof Hat as (Hnode & _).
    destruct (Hok _ _ Hn) as (Hlen & _ & _).
    cbn [Nat.add lower_bound_loop].
    rewrite Hnode, (eqb_0_mapped _ _ _ Hn), (deref_Some cfg _ _ _ Hn).
    cbn [bind]. rewrite Hbo, Hbk, Hbi.
    rewrite Nat.min_l by lia.
    assert (Hz : fam_memcmp k (key n) (prefix_size n) = 0).
    { apply fam_memcmp_zero_iff; auto; lia. }
    rewrite Hz.
    cbn [Z.ltb Z.compare]. rewrite Hps, Nat.eqb_refl.
    destruct (nv_yield cfg h it q s n f Hat Hn Hv) as (it' & E & _ & Hk & Hval).
    exists it'. auto.
  - pose proof Hat as (Hnode & Hpos & Hpath & Hopen).
    destruct (step_facts_intro cfg _ _ _ _ _ Hok Hq Hpre Hb)
      as [Fnonnull Fderef Fmemcmp Fsize _ Fkey Fslot _].
    assert (Hc : (child n0 b =? 0) = false).
    { apply Z.eqb_neq. intros E. rewrite E in Ha.
      eapply arrives_from_null; eauto. }
    cbn [Nat.add lower_bound_loop].
    rewrite Hnode, Fnonnull, Fderef. cbn [bind].
    rewrite Hbo, Hbk, Fmemcmp. cbn [Z.ltb Z.compare]. rewrite Fsize.
    unfold data_at. rewrite Fsize, Fkey. cbn [bind].
    rewrite Fslot. cbn [bind]. rewrite Hc. cbn [negb].
    apply (IH n Hn Hpn Hps Hv f _ ((q, Z.of_N (Byte.to_N b)) :: s)); auto.
    unfold at_pos. simpl. rewrite Hpos, Hpath, Hopen. auto.
Qed.

(** X19 (scan, lower_bound, next_value).  A scan that begins, inclusive,
    at a key whose [get] returns a valid value, and whose end boundary is
    open, returns that key and that value first, whatever state the
    iterator comes in with. *)
Theorem scan_from_stored_key (t : RadixTree) (it : Iter) (k : list byte)
  (tq : TagGptr) (fuel : nat) :
  wf cfg t -> key_size_ok cfg (OPEN_BOUNDARY_KEY cfg) = true ->
  k <> OPEN_BOUNDARY_KEY cfg -> (length k + 2 <= fuel)%nat ->
  get cfg fuel t k = Ret tq -> IsValid tq = true ->
  exists it',
    scan cfg fuel t it k true (OPEN_BOUNDARY_KEY cfg) false
    = Ret (Some (k, tq), it').
Proof.
  intros Hwf Hopen Hne Hf Hg Hv. pose proof Hwf as (Hok & _).
  rewrite get_unfold in Hg.
  pose proof (assert_Ret_passes cfg _ _ _ Hg) as Ha.
  apply assert_Ret in Hg.
  destruct (get_loop_found cfg t k fuel tq Hwf Hf Hg Hv)
    as (q & n & Hfound & <-).
  pose proof (found_key cfg t k q n Hok Hfound) as Hkey.
  destruct Hfound as (m & p & Hm & Harr & Hq & Hpre & Hps).
  assert (Hbne : bytes_eqb k (OPEN_BOUNDARY_KEY cfg) = false).
  { unfold bytes_eqb. destruct (list_eq_dec _ _ _); congruence. }
  unfold scan. rewrite Ha, (assert_key_ok cfg _ Hopen). cbn [bind].
  rewrite Hbne. cbn [andb].
  unfold scan_init at 1 2. cbn [begin_key_open end_key_open].
  rewrite Hbne, bytes_eqb_refl. cbn [andb orb Bool.eqb].
  unfold lower_bound. cbn [it_key scan_init set_node set_next_pos].
  rewrite assert_true. cbn [bind].
  match goal with
  | |- context [lower_bound_loop cfg fuel (heap t) ?i] => set (it1 := i)
  end.
  destruct (lower_bound_loop_seek (heap t) k m None (root t) p q Hok Harr
              n Hq Hpre Hps Hv (fuel - m - 1) it1 [])
    as (it' & E & Hk' & Hv').
  - unfold at_pos, it1. simpl. rewrite bytes_eqb_refl. auto.
  - reflexivity.
  - unfold it1. simpl. now rewrite Hbne.
  - reflexivity.
  - replace (m + Datatypes.S (fuel - m - 1))%nat with fuel in E by lia.
    rewrite E. cbn [bind]. exists it'. now rewrite Hk', Hv', <- Hkey.
Qed.

End Seek.


(** ** The tag at a value slot *)

Section ValueCas.

Variable cfg : Config.

Lemma value_cas_fun fuel t o q old g q' old' g' :
  value_cas cfg fuel t o q old g -> value_cas cfg fuel t o q' old' g' ->
  q = q' /\ old = old' /\ g = g'.
Proof.
  intros H1 H2; inversion H1; subst; inversion H2; subst;
    repeat match goal with
           | A : ?x = Ret _, B : ?x = Ret _ |- _ =>
               rewrite A in B; inversion B; subst; clear B
           end; auto.
Qed.

Lemma put_loop_swaps t k v u fuel r h' :
  wf cfg t -> (length k + 2 <= fuel)%nat ->
  assert cfg (key_size_ok cfg k) = Ret tt ->
  put_loop cfg fuel (heap t) k v u (locals_at None (root t)) = Ret (r, h') ->
  (exists q n,
      getC cfg fuel t k = Ret (q, value n) /\ q <> 0 /\
      u || negb (IsValid (value n)) = true /\
      toLocal (heap t) q = Some n /\
      h' = store (heap t) q (set_value n (bumped v (value n))))
  \/ ((forall q old, getC cfg fuel t k = Ret (q, old) -> q <> 0 ->
                     u || negb (IsValid old) = false) /\
      forall x n, toLocal (heap t) x = Some n ->
                  exists n', toLocal h' x = Some n' /\ value n' = value n).
Proof.
  intros Hwf Hf Ha Hput.
  pose proof (put_loop_effect cfg _ _ _ _ _ _ _ Hwf Hf Hput) as He.
  assert (HgetC : forall q n, found t k q n ->
                              getC cfg fuel t k = Ret (q, value n)).
  { intros q n Hfound. rewrite getC_unfold, (assert_bind cfg _ _ Ha).
    now apply found_getC. }
  destruct (put_loop_shape cfg t k v u fuel Hwf Hf)
    as [q n Hfound Hres|m pn b par Hm Ha' Hpn Hpre Hb Hnf Hres].
  - rewrite Hres in Hput. pose proof Hfound as (_ & _ & _ & _ & Hq & _).
    destruct (u || negb (IsValid (value n))) eqn:Hu; inversion Hput; subst.
    + left. exists q, n. repeat split; auto.
      apply toLocal_Some_pos in Hq. lia.
    + right. split; [|eauto].
      intros q' old Hg _. rewrite (HgetC q n Hfound) in Hg.
      inversion Hg; subst. exact Hu.
  - right. split.
    + intros q old Hg Hq. exfalso.
      rewrite getC_unfold, (assert_bind cfg _ _ Ha) in Hg.
      destruct (getC_loop_found cfg t k fuel q old Hwf Hf Hg Hq)
        as (n & Hfound & _).
      now apply (Hnf q n).
    + intros x n Hx.
      inversion He as [q n0 Hfound Hu Er Et|q n0 Hfound Hu Er Et|
                       mm pn' b' par' top news h2 Hm' Ha2 Hpre2 Hb2 G K Hk Er Et];
        [exfalso; now apply (Hnf q n0)
        |exfalso; rewrite <- Et in Hfound; now apply (Hnf q n0)|].
      clear Et Er.
      destruct (Z.eq_dec x pn') as [->|Hne].
      * rewrite (gr_parent _ _ _ _ _ _ _ G) in Hx. inversion Hx; subst.
        eexists. split; [apply (gr_parent' _ _ _ _ _ _ _ G)|reflexivity].
      * exists n. split; [|reflexivity].
        rewrite (gr_rest _ _ _ _ _ _ _ G x Hne); auto.
        intros n1 Hin.
        destruct (gr_news _ _ _ _ _ _ _ G x n1 Hin) as (Hnone & _).
        congruence.
Qed.

Lemma tombstone_swaps fuel t k q0 tq0 q nv old h' :
  getC_loop cfg fuel (heap t) k (root t) = Ret (q0, tq0) ->
  tombstone (heap t) (q0, tq0) = Ret (q, nv, old, h') ->
  (exists n, q0 <> 0 /\ tq0 = value n /\ toLocal (heap t) q0 = Some n /\
             h' = store (heap t) q0 (set_value n (bumped 0 (value n))))
  \/ (q0 = 0 /\ h' = heap t).
Proof.
  intros E Ht. cbn [tombstone] in Ht.
  destruct (q0 =? 0) eqn:E0.
  - apply Z.eqb_eq in E0. inversion Ht; subst. now right.
  - apply Z.eqb_neq in E0.
    destruct (getC_loop_ptr cfg _ _ _ _ _ _ E E0) as (n & Hn & Hv).
    rewrite Hn in Ht. inversion Ht; subst. left. exists n. auto.
Qed.

Lemma cas_value_loop_swaps fuel h q n g old nv h' :
  toLocal h q = Some n ->
  cas_value_loop fuel h q (value n) g = Ret (old, nv, h') ->
  h' = store h q (set_value n (bumped g (value n))).
Proof.
  intros Hq E. destruct fuel as [|fuel]; [discriminate|].
  rewrite (cas_value_loop_hit _ _ _ _ _ Hq) in E. now inversion E.
Qed.

Lemma run_swaps t t' o fuel :
  wf cfg t -> (enough o <= fuel)%nat -> run cfg fuel t o = Ret t' ->
  swaps cfg fuel t t' o.
Proof.
  intros Hwf Hf Hrun.
  destruct o as [k v u|k|k v|q v|k|q]; cbn [run enough] in *.
  - destruct (put cfg fuel t k v u) as [[r t1]| | |] eqn:E; try discriminate.
    simpl in Hrun; inversion Hrun; subst t1.
    rewrite put_unfold in E.
    pose proof (assert_Ret_passes cfg _ _ _ E) as Ha. apply assert_Ret in E.
    destruct (put_loop cfg fuel (heap t) k v u _) as [[r' h']| | |] eqn:EL;
      try discriminate.
    simpl in E; inversion E; subst.
    destruct (put_loop_swaps _ _ _ _ _ _ _ Hwf Hf Ha EL)
      as [(q & n & Hg & Hq & Hu & Hn & ->)|(Hno & Hsame)].
    + left. exists q, n, v. repeat split; auto. now constructor.
    + right. split; [|exact Hsame].
      intros q old g Hc. inversion Hc; subst.
      match goal with H : _ || _ = true |- _ =>
        rewrite (Hno q old) in H by auto; discriminate end.
  - destruct (destroy cfg fuel t k) as [[r t1]| | |] eqn:E; try discriminate.
    simpl in Hrun; inversion Hrun; subst t1.
    rewrite destroy_unfold in E.
    pose proof (assert_Ret_passes cfg _ _ _ E) as Ha. apply assert_Ret in E.
    rewrite destroy_destroyC, destroyC_loop_getC in E.
    destruct (getC_loop cfg fuel (heap t) k (root t)) as [[q0 tq0]| | |] eqn:EG;
      try discriminate.
    cbn [bind] in E.
    destruct (tombstone (heap t) (q0, tq0)) as [[[[q nv] old] h']| | |] eqn:ET;
      try discriminate.
    simpl in E; inversion E; subst.
    destruct (tombstone_swaps _ _ _ _ _ _ _ _ _ EG ET)
      as [(n & Hq & -> & Hn & ->)|(-> & ->)].
    + left. exists q0, n, 0. repeat split; auto. constructor; auto.
      now rewrite getC_unfold, (assert_bind cfg _ _ Ha).
    + right. split; [|eauto].
      intros q' old' g Hc. inversion Hc; subst.
      match goal with H : getC _ _ _ _ = _ |- _ =>
        rewrite getC_unfold, (assert_bind cfg _ _ Ha), EG in H;
        inversion H; subst end.
      congruence.
  - destruct (putC cfg fuel t k v) as [[[[q nv] old] t1]| | |] eqn:E;
      try discriminate.
    simpl in Hrun; inversion Hrun; subst t1.
    unfold putC in E.
    pose proof (assert_Ret_passes cfg _ _ _ E) as Ha. apply assert_Ret in E.
    destruct (putC_loop cfg fuel (heap t) k v _)
      as [[[[q' nv'] old'] h']| | |] eqn:EL; try discriminate.
    simpl in E; inversion E; subst.
    assert (EP : put_loop cfg fuel (heap t) k v true (locals_at None (root t))
                 = Ret (old, h')).
    { rewrite put_loop_putC. unfold locals_at. unfold put_init in EL.
      now rewrite EL. }
    destruct (put_loop_swaps _ _ _ _ _ _ _ Hwf Hf Ha EP)
      as [(q0 & n & Hg & Hq & Hu & Hn & ->)|(Hno & Hsame)].
    + left. exists q0, n, v. repeat split; auto. now constructor.
    + right. split; [|exact Hsame].
      intros q0 old0 g Hc. inversion Hc; subst.
      match goal with H : getC _ _ _ _ = _ |- _ =>
        pose proof (Hno _ _ H) as Hf' end.
      simpl in Hf'. match goal with H : q0 <> 0 |- _ =>
        specialize (Hf' H) end. discriminate.
  - destruct (putC_ptr cfg fuel t q v) as [[[nv old] t1]| | |] eqn:E;
      try discriminate.
    simpl in Hrun; inversion Hrun; subst t1.
    unfold putC_ptr in E. apply assert_Ret in E.
    destruct (deref cfg (heap t) q) as [n| | |] eqn:Ed; try discriminate.
    cbn [bind] in E. pose proof (deref_Ret cfg _ _ _ Ed) as Hn.
    destruct (loadTagGptr (heap t) q) as [tq| | |] eqn:EL; try discriminate.
    cbn [bind] in E. pose proof (loadTagGptr_Ret _ _ _ _ Hn EL); subst tq.
    destruct (cas_value_loop fuel (heap t) q (value n) v)
      as [[[o' nv'] h']| | |] eqn:EC; try discriminate.
    simpl in E; inversion E; subst.
    left. exists q, n, v. split; [|split; [exact Hn|]].
    + constructor. now apply getC_ptr_mapped.
    + simpl. eapply cas_value_loop_swaps; eauto.
  - destruct (destroyC cfg fuel t k) as [[[[q nv] old] t1]| | |] eqn:E;
      try discriminate.
    simpl in Hrun; inversion Hrun; subst t1.
    unfold destroyC in E.
    pose proof (assert_Ret_passes cfg _ _ _ E) as Ha. apply assert_Ret in E.
    rewrite destroyC_loop_getC in E.
    destruct (getC_loop cfg fuel (heap t) k (root t)) as [[q0 tq0]| | |] eqn:EG;
      try discriminate.
    cbn [bind] in E.
    destruct (tombstone (heap t) (q0, tq0)) as [[[[q1 nv1] old1] h']| | |] eqn:ET;
      try discriminate.
    simpl in E; inversion E; subst.
    destruct (tombstone_swaps _ _ _ _ _ _ _ _ _ EG ET)
      as [(n & Hq & -> & Hn & ->)|(-> & ->)].
    + left. exists q0, n, 0. repeat split; auto. constructor; auto.
      now rewrite getC_unfold, (assert_bind cfg _ _ Ha).
    + right. split; [|eauto].
      intros q' old' g Hc. inversion Hc; subst.
      match goal with H : getC _ _ _ _ = _ |- _ =>
        rewrite getC_unfold, (assert_bind cfg _ _ Ha), EG in H;
        inversion H; subst end.
      congruence.
  - destruct (destroyC_ptr cfg fuel t q) as [[[nv old] t1]| | |] eqn:E;
      try discriminate.
    simpl in Hrun; inversion Hrun; subst t1.
    unfold destroyC_ptr in E. apply assert_Ret in E.
    destruct (deref cfg (heap t) q) as [n| | |] eqn:Ed; try discriminate.
    cbn [bind] in E. pose proof (deref_Ret cfg _ _ _ Ed) as Hn.
    destruct (loadTagGptr (heap t) q) as [tq| | |] eqn:EL; try discriminate.
    cbn [bind] in E. pose proof (loadTagGptr_Ret _ _ _ _ Hn EL); subst tq.
    destruct (cas_value_loop fuel (heap t) q (value n) 0)
      as [[[o' nv'] h']| | |] eqn:EC; try discriminate.
    simpl in E; inversion E; subst.
    left. exists q, n, 0. split; [|split; [exact Hn|]].
    + constructor. now apply getC_ptr_mapped.
    + simpl. eapply cas_value_loop_swaps; eauto.
Qed.

(** C4 (tags), as the code has it.  Let a value-mutating operation return
    on a well-formed tree.  Where it reaches a compare-and-swap on a value
    slot, the slot holds afterwards the pointer the operation stores and
    the tag it observed plus one in 64-bit arithmetic: the observed tag
    plus one whenever that tag is below 2^64 - 1.  And every node the tree
    had is still there, its value slot untouched unless it is the slot of
    such a compare-and-swap. *)
Theorem value_tag_steps (t t' : RadixTree) (o : operation) (fuel : nat) :
  wf cfg t -> (enough o <= fuel)%nat ->
  run cfg fuel t o = Ret t' ->
  (forall q old g, value_cas cfg fuel t o q old g ->
     exists n', toLocal (heap t') q = Some n' /\
       value n' = mkTagGptr g (wrap64 (tag old + 1)) /\
       (0 <= tag old < u64_mod - 1 -> tag (value n') = tag old + 1))
  /\
  (forall x n, toLocal (heap t) x = Some n ->
     exists n', toLocal (heap t') x = Some n' /\
       (value n' = value n
        \/ ((exists g, value_cas cfg fuel t o x (value n) g) /\
            tag (value n') = wrap64 (tag (value n) + 1) /\
            (0 <= tag (value n) < u64_mod - 1 ->
             tag (value n') = tag (value n) + 1)))).
Proof.
  intros Hwf Hf Hrun.
  destruct (run_swaps t t' o fuel Hwf Hf Hrun)
    as [(q & n & g & Hc & Hn & Hh)|(Hno & Hsame)].
  - assert (Hq' : toLocal (heap t') q
                  = Some (set_value n (bumped g (value n)))).
    { rewrite Hh. eapply toLocal_store_same; eauto. }
    split.
    + intros q1 old1 g1 Hc1.
      destruct (value_cas_fun _ _ _ _ _ _ _ _ _ Hc Hc1) as (<- & <- & <-).
      eexists. split; [exact Hq'|]. split; [reflexivity|].
      intros Hr. simpl. now apply wrap64_succ.
    + intros x n0 Hx. destruct (Z.eq_dec x q) as [->|Hne].
      * assert (n0 = n) by congruence. subst n0.
        eexists. split; [exact Hq'|]. right. split; [eauto|].
        split; [reflexivity|]. intros Hr. simpl. now apply wrap64_succ.
      * exists n0. split; [|now left].
        rewrite Hh, toLocal_store_other; auto.
  - split.
    + intros q old g Hc. now destruct (Hno q old g).
    + intros x n Hx. destruct (Hsame x n Hx) as (n' & Hn' & Hv).
      exists n'. split; [exact Hn'|now left].
Qed.

End ValueCas.

(** ** A failing allocator *)

Section AllocationFailure.

Variable cfg : Config.

(** The inner loop of [put] leaves the two node pointers as they are. *)
Lemma put_descend_keeps_pointers k v u :
  forall f h l l' h',
    put_descend cfg f h k v u l = Ret (Fell l', h') ->
    l_new_leaf_ptr l' = l_new_leaf_ptr l /\
    l_intermediate_node_ptr l' = l_intermediate_node_ptr l.
Proof.
  induction f as [|f IH]; intros h l l' h'; [discriminate|].
  cbn [put_descend].
  destruct (l_q l =? 0); [intros E; inversion E; subst; auto|].
  destruct (deref cfg h (l_q l)) as [n| | |]; cbn [bind]; try discriminate.
  destruct (_ <? _)%nat; [intros E; inversion E; subst; auto|].
  destruct (if u then Ret tt else assert cfg _) as [[]| | |]; cbn [bind];
    try discriminate.
  destruct (_ =? _)%nat.
  - destruct (loadTagGptr _ _) as [tq| | |]; cbn [bind]; try discriminate.
    destruct u.
    + destruct (cas_value_loop _ _ _ _ _) as [[[old nv] h1]| | |];
        cbn [bind]; discriminate.
    + destruct (IsValid tq); [discriminate|].
      destruct (casTagGptr _ _ _ _) as [[seen h1]| | |]; cbn [bind];
        try discriminate.
      destruct (TagGptr_eqb seen tq); [discriminate|].
      intros E; inversion E; subst; auto.
  - destruct (key_at _ _) as [b| | |]; cbn [bind]; try discriminate.
    destruct (read_slot _ _) as [q'| | |]; cbn [bind]; try discriminate.
    intros E. destruct (IH _ _ _ _ E) as (E1 & E2). auto.
Qed.

(** [put] at the retry loop that fails: the one for the first node it
    needs, or the one for the leaf of a split that has its intermediate
    node already. *)
Lemma put_stops_at_failed_allocation (t : RadixTree) (k : list byte) (v : Gptr)
  (u : bool) (fuel : nat) (l : PutLocals) (h : Heap) :
  key_size_ok cfg k = true ->
  put_descend cfg fuel (heap t) k v u (put_init t) = Ret (Fell l, h) ->
  (exhausted (Z.to_nat (alloc_retry_cnt cfg)) h ->
   put cfg fuel t k v u = if NDEBUG cfg then Fault NullDeref else AssertFail)
  /\
  (l_q l <> 0 -> l_prefix_size l <> length k ->
   forall ip h1,
     make_intermediate cfg h k 0 = Ret (ip, h1) ->
     exhausted (Z.to_nat (alloc_retry_cnt cfg)) h1 ->
     put cfg fuel t k v u = if NDEBUG cfg then Fault NullDeref else AssertFail).
Proof.
  intros Hk Hd.
  destruct (put_descend_keeps_pointers _ _ _ _ _ _ _ _ Hd) as (El & Ei).
  cbn in El, Ei.
  assert (Hstops : forall A B (f : A -> outcome B),
             (x <- (if NDEBUG cfg then Fault NullDeref else AssertFail) ;; f x)
             = if NDEBUG cfg then Fault NullDeref else AssertFail).
  { intros. now destruct (NDEBUG cfg). }
  assert (Hput : put_loop cfg fuel (heap t) k v u (put_init t)
                 = (if NDEBUG cfg then Fault NullDeref else AssertFail) ->
                 put cfg fuel t k v u
                 = if NDEBUG cfg then Fault NullDeref else AssertFail).
  { intros E. rewrite put_unfold, (assert_key_ok cfg k Hk). cbn [bind].
    change (locals_at None (root t)) with (put_init t).
    rewrite E. now destruct (NDEBUG cfg). }
  destruct fuel as [|f]; [discriminate|].
  split.
  - intros He. apply Hput. rewrite put_loop_unfold, Hd.
    cbn [bind put_finish]. rewrite El, Ei.
    destruct (l_q l =? 0).
    + rewrite make_leaf_exhausted by exact He. apply Hstops.
    + rewrite make_intermediate_exhausted by exact He. apply Hstops.
  - intros Hq Hps ip h1 Hmi He. apply Hput. rewrite put_loop_unfold, Hd.
    cbn [bind put_finish]. rewrite Ei, El.
    apply Z.eqb_neq in Hq. rewrite Hq, Hmi. cbn [bind].
    cbn [l_prefix_size set_intermediate_node_ptr].
    apply Nat.eqb_neq in Hps. rewrite Hps.
    change (l_new_leaf_ptr (set_intermediate_node_ptr l ip))
      with (l_new_leaf_ptr l). rewrite El.
    rewrite make_leaf_exhausted by exact He. apply Hstops.
Qed.

(** C8 (allocation failure), as the code has it.  When every one of the
    [alloc_retry_cnt] calls of [Alloc] for a node that [put] needs
    returns 0, [put] does not return to its caller and reports no error:
    built with assertions it stops at the assertion that follows the
    retry loop, built without them it goes on and dereferences the null
    pointer.  First, for a key that has no node in a well-formed tree and
    an allocator that fails from the start.  Then, whenever the inner loop
    of [put] ends without returning, so that [put] needs a new node, for
    each retry loop: the one for the new leaf or for the intermediate node
    of a split; and, in a split that needs both, the one for the leaf,
    after the intermediate node has been allocated and filled. *)
Theorem put_allocation_failure (t : RadixTree) (k : list byte) (v : Gptr)
  (u : bool) (fuel : nat) :
  key_size_ok cfg k = true ->
  (wf cfg t -> (length k + 2 <= fuel)%nat ->
   (forall q tq, getC cfg fuel t k = Ret (q, tq) -> q = 0) ->
   exhausted (Z.to_nat (alloc_retry_cnt cfg)) (heap t) ->
   put cfg fuel t k v u = if NDEBUG cfg then Fault NullDeref else AssertFail)
  /\
  (forall l h,
     put_descend cfg fuel (heap t) k v u (put_init t) = Ret (Fell l, h) ->
     (exhausted (Z.to_nat (alloc_retry_cnt cfg)) h ->
      put cfg fuel t k v u
      = if NDEBUG cfg then Fault NullDeref else AssertFail)
     /\
     (l_q l <> 0 -> l_prefix_size l <> length k ->
      forall ip h1,
        make_intermediate cfg h k 0 = Ret (ip, h1) ->
        exhausted (Z.to_nat (alloc_retry_cnt cfg)) h1 ->
        put cfg fuel t k v u
        = if NDEBUG cfg then Fault NullDeref else AssertFail)).
Proof.
  intros Hk. split.
  - intros Hwf Hf Hnone He.
    rewrite put_unfold, (assert_key_ok cfg k Hk). cbn [bind].
    rewrite (put_loop_exhausted cfg t k v u fuel Hwf Hf He).
    + now destruct (NDEBUG cfg).
    + intros q n Hfound.
      pose proof (found_getC cfg t k q n fuel Hwf Hf Hfound) as Hg.
      destruct Hfound as (m & p & _ & _ & Hq & _).
      apply toLocal_Some_pos in Hq.
      specialize (Hnone q (value n)).
      rewrite getC_unfold, (assert_key_ok cfg k Hk) in Hnone.
      specialize (Hnone Hg). lia.
  - intros l h Hd. now apply put_stops_at_failed_allocation.
Qed.

End AllocationFailure.

(** * Concrete runs *)

Lemma wf_tree0 : wf cfg64 tree0.
Proof.
  apply (wf_new cfg64 empty_heap); [now apply heap_ok_no_cells|reflexivity].
Qed.

Lemma wf_tree_A : wf cfg64 tree_A.
Proof.
  apply (wf_put cfg64 3 tree0 keyA 100 true TagGptr0 tree_A wf_tree0);
    [simpl; lia|reflexivity].
Qed.

Lemma wf_tree_AB : wf cfg64 tree_AB.
Proof.
  apply (wf_put cfg64 4 tree0 keyAB 200 true TagGptr0 tree_AB wf_tree0);
    [simpl; lia|reflexivity].
Qed.

Lemma wf_tree_A_destroyed : wf cfg64 tree_A_destroyed.
Proof.
  apply (wf_destroy cfg64 3 tree_A keyA (mkTagGptr 100 0) tree_A_destroyed
           wf_tree_A).
  reflexivity.
Qed.

Lemma wf_tree0_pressed : wf cfg64 tree0_pressed.
Proof.
  apply (wf_new cfg64 (mkHeap [] [false; true; true; true] []));
    [now apply heap_ok_no_cells|reflexivity].
Qed.

Lemma wf_tree_tagged tq : wf cfg64 (tree_tagged tq).
Proof.
  split.
  - intros q n H. pose proof (toLocal_Some_bound _ _ _ H) as B. simpl in B.
    assert (E : q = 1 \/ q = 2) by lia.
    destruct E as [-> | ->]; simpl in H; inversion H; subst n; clear H.
    + split; [simpl; lia|]. split; [reflexivity|].
      intros b Hb. simpl in Hb |- *.
      destruct (Byte.byte_eq_dec b "A"%byte) as [->|N].
      * rewrite upd_same. eexists; split; [reflexivity|].
        simpl. repeat split. lia.
      * rewrite upd_other in Hb by auto. congruence.
    + split; [simpl; lia|]. split; [reflexivity|].
      intros b Hb. simpl in Hb. congruence.
  - eexists; split; reflexivity.
Qed.

Lemma put_get_roundtrip_witness :
  exists r t' tq,
    put cfg64 3 tree0 keyA 100 true = Ret (r, t') /\
    get cfg64 3 t' keyA = Ret tq /\ IsValid tq = true /\ gptr tq = 100.
Proof.
  destruct (put_get_roundtrip cfg64 tree0 keyA 100 3 wf_tree0 eq_refl)
    as [H1 H2]; [lia|simpl; lia|].
  destruct (H1 eq_refl eq_refl) as (r & t' & E).
  destruct (H2 r t' E) as (tq & G).
  exists r, t', tq. split; [exact E|exact G].
Defined.

Lemma put_no_update_keeps_tree_witness :
  put cfg64 3 tree_A keyA 7 false = Ret (mkTagGptr 100 0, tree_A)
  /\ get cfg64 3 tree_A keyA = Ret (mkTagGptr 100 0).
Proof.
  apply (put_no_update_keeps_tree cfg64 tree_A keyA (mkTagGptr 100 0) 7 3
           wf_tree_A).
  - simpl; lia.
  - reflexivity.
  - reflexivity.
Defined.

Lemma destroy_then_put_witness :
  exists t1 tq1,
    destroy cfg64 3 tree_A keyA = Ret (mkTagGptr 100 0, t1) /\
    get cfg64 3 t1 keyA = Ret tq1 /\ IsValid tq1 = false /\
    forall v u, exists t2 tq2,
      put cfg64 3 t1 keyA v u = Ret (tq1, t2) /\
      get cfg64 3 t2 keyA = Ret tq2 /\ gptr tq2 = v.
Proof.
  apply (destroy_then_put cfg64 tree_A keyA (mkTagGptr 100 0) 3 wf_tree_A).
  - simpl; lia.
  - reflexivity.
  - reflexivity.
Defined.

Lemma value_tag_steps_witness :
  exists t',
    run cfg64 3 tree_A (Put keyA 100 true) = Ret t' /\
    exists n', toLocal (heap t') 2 = Some n' /\
               value n' = mkTagGptr 100 (wrap64 (0 + 1)) /\
               (0 <= 0 < u64_mod - 1 -> tag (value n') = 0 + 1).
Proof.
  eexists. split; [reflexivity|].
  refine (proj1 (value_tag_steps cfg64 tree_A _ (Put keyA 100 true) 3
                   wf_tree_A ltac:(simpl; lia) eq_refl)
                2 (mkTagGptr 100 0) 100 _).
  constructor; [reflexivity|discriminate|reflexivity].
Defined.

(** At the largest tag the stored tag is 0: it is not the old tag plus
    one, and it is smaller than the tag it replaces. *)
Lemma tag_wraps_at_u64_max :
  wf cfg64 (tree_tagged (mkTagGptr 7 u64_max)) /\
  exists t' n',
    run cfg64 3 (tree_tagged (mkTagGptr 7 u64_max)) (Destroy keyA) = Ret t' /\
    toLocal (heap t') 2 = Some n' /\
    tag (value n') = 0 /\
    tag (value n') <> u64_max + 1 /\
    tag (value n') < u64_max.
Proof.
  split; [apply wf_tree_tagged|].
  eexists _, _. split; [reflexivity|]. split; [reflexivity|].
  split; [vm_compute; reflexivity|].
  split; [vm_compute; discriminate|vm_compute; reflexivity].
Qed.

Lemma getC_tree0_pressed_null :
  forall q tq, getC cfg64 3 tree0_pressed keyA = Ret (q, tq) -> q = 0.
Proof. intros q tq H. vm_compute in H. now inversion H. Qed.

Lemma put_allocation_failure_witness :
  make_intermediate cfg64 (heap tree_AB_pressed) keyAC 0
  = Ret (3, store (snd (Alloc cfg64 (heap tree_AB_pressed))) 3
              (blank_intermediate cfg64 keyAC)) /\
  put cfg64 4 tree_AB_pressed keyAC 300 true = AssertFail.
Proof.
  split; [reflexivity|].
  refine (proj2 (proj2 (put_allocation_failure cfg64 tree_AB_pressed keyAC
                          300 true 4 eq_refl) _ _ eq_refl)
                _ _ 3 _ eq_refl eq_refl).
  - discriminate.
  - simpl. lia.
Defined.

(** Built without assertions, [put] meets a failing allocator by going on
    with the null pointer and dereferencing it: no allocation error
    reaches the caller. *)
Lemma put_allocation_failure_derefs_null :
  exhausted (Z.to_nat (alloc_retry_cnt cfg64_ndebug)) (heap tree0_pressed) /\
  put cfg64_ndebug 3 tree0_pressed keyA 100 true = Fault NullDeref.
Proof. split; reflexivity. Qed.

Lemma destroy_tombstone_bumps_tag_witness :
  exists t',
    destroy cfg64 3 tree_A_destroyed keyA = Ret (mkTagGptr 0 1, t') /\
    destroyC cfg64 3 tree_A_destroyed keyA
      = Ret (2, mkTagGptr 0 (wrap64 (1 + 1)), mkTagGptr 0 1, t') /\
    getC cfg64 3 t' keyA = Ret (2, mkTagGptr 0 (wrap64 (1 + 1))) /\
    (0 <= 1 < u64_mod - 1 -> wrap64 (1 + 1) = 1 + 1).
Proof.
  apply (destroy_tombstone_bumps_tag cfg64 tree_A_destroyed keyA 2
           (mkTagGptr 0 1) 3 wf_tree_A_destroyed).
  - simpl; lia.
  - reflexivity.
  - lia.
  - reflexivity.
Defined.

(** A tombstone carrying the largest tag: [destroy] leaves tag 0 in the
    slot, not the old tag plus one. *)
Lemma destroy_tombstone_tag_wraps :
  wf cfg64 (tree_tagged (mkTagGptr 0 u64_max)) /\
  getC cfg64 3 (tree_tagged (mkTagGptr 0 u64_max)) keyA
    = Ret (2, mkTagGptr 0 u64_max) /\
  exists t',
    destroy cfg64 3 (tree_tagged (mkTagGptr 0 u64_max)) keyA
      = Ret (mkTagGptr 0 u64_max, t') /\
    getC cfg64 3 t' keyA = Ret (2, mkTagGptr 0 0) /\
    0 <> u64_max + 1.
Proof.
  split; [apply wf_tree_tagged|]. split; [reflexivity|].
  eexists. split; [reflexivity|]. split; [reflexivity|].
  unfold u64_max; lia.
Qed.

(** C9 (reads past the key).  The tree holding only "AB" is reached by
    one [put]; its leaf has a 2-byte prefix that agrees with the 1-byte
    key "A" on their common length.  There [get] and [destroy] of "A"
    read key[2], past the key, and so does the scan's [next_value] with
    the end boundary "A": its first call yields the leaf, the next one
    reads end_key[2]. *)
Theorem short_key_indexed_past_its_end :
  put cfg64 4 tree0 keyAB 200 true = Ret (TagGptr0, tree_AB) /\
  (exists n, toLocal (heap tree_AB) 2 = Some n /\
             prefix_size n = 2%nat /\ node_key n = keyAB /\
             arrives (heap tree_AB) keyA 1 None (root tree_AB)
                     (Some (1, "A"%byte)) 2 /\
             firstn (length keyA) keyA = firstn (length keyA) (key n)) /\
  get cfg64 4 tree_AB keyA = Fault KeyIndexOutOfRange /\
  destroy cfg64 4 tree_AB keyA = Fault KeyIndexOutOfRange /\
  (exists it,
     scan cfg64 300 tree_AB iter_fresh key0 true keyA true
       = Ret (Some (keyAB, mkTagGptr 200 0), it) /\
     node it = 2 /\
     next_value cfg64 300 (heap tree_AB) it = Fault KeyIndexOutOfRange /\
     get_next cfg64 300 tree_AB it = Fault KeyIndexOutOfRange).
Proof.
  split; [reflexivity|]. split.
  - eexists. split; [reflexivity|]. split; [reflexivity|].
    split; [reflexivity|]. split; [|reflexivity].
    eapply arrives_down; [reflexivity|reflexivity|reflexivity|].
    simpl. constructor.
  - split; [reflexivity|]. split; [reflexivity|].
    eexists. split; [vm_compute; reflexivity|].
    split; [reflexivity|]. split; vm_compute; reflexivity.
Qed.

(** C6 at its failing input: over the tree holding only "AB", the scan
    from "0" to "A", both inclusive, yields "AB", a key greater than the
    end boundary. *)
Theorem scan_yields_key_beyond_end :
  exists it,
    scan cfg64 300 tree_AB iter_fresh key0 true keyA true
      = Ret (Some (keyAB, mkTagGptr 200 0), it) /\
    bytes_ltb keyA keyAB = true /\
    get cfg64 4 tree_AB keyAB = Ret (mkTagGptr 200 0).
Proof.
  eexists. split; [vm_compute; reflexivity|]. split; reflexivity.
Qed.

(** C7 at its failing inputs: the begin boundary is open exactly when the
    begin key is the sentinel and the iterator's end flag, as the
    previous scan left it, is off.  The begin flag plays no part: an
    iterator last used with an inclusive end does not get an open begin
    for the sentinel with the begin flag off, and an unused one gets it
    even with the begin flag on. *)
Theorem scan_begin_open_reads_stale_end_flag :
  (forall cfg it begin_k begin_inclusive end_k end_inclusive,
     begin_key_open
       (scan_init cfg it begin_k begin_inclusive end_k end_inclusive)
     = bytes_eqb begin_k (OPEN_BOUNDARY_KEY cfg)
       && negb (end_key_inclusive it)) /\
  begin_key_open
    (scan_init cfg64 iter_used (OPEN_BOUNDARY_KEY cfg64) false
               (OPEN_BOUNDARY_KEY cfg64) false) = false /\
  begin_key_open
    (scan_init cfg64 iter_fresh (OPEN_BOUNDARY_KEY cfg64) true keyA false)
  = true /\
  (exists r it,
     scan cfg64 300 tree_A iter_used (OPEN_BOUNDARY_KEY cfg64) false
          (OPEN_BOUNDARY_KEY cfg64) false = Ret (r, it) /\
     begin_key_open it = false).
Proof.
  split.
  - intros cfg it bk bi ek ei. simpl.
    now destruct (end_key_inclusive it).
  - split; [reflexivity|]. split; [reflexivity|].
    eexists _, _. split; [vm_compute; reflexivity|reflexivity].
Qed.

Lemma built_tree_0A : built cfg64 [key0A] tree_0A.
Proof.
  apply (built_put cfg64 [] tree0 key0A 1 true 4 TagGptr0 tree_0A).
  - apply (built_new cfg64 empty_heap); [now apply heap_ok_no_cells|].
    reflexivity.
  - reflexivity.
  - simpl; lia.
  - reflexivity.
Qed.

(** On a fresh iterator the open scan of that tree yields its one key. *)
Lemma open_scan_tree_0A :
  exists ys,
    (exists F, forall fuel calls,
        (F <= fuel)%nat -> (length ys < calls)%nat ->
        scan_all cfg64 calls fuel tree_0A iter_fresh
                 (OPEN_BOUNDARY_KEY cfg64) false
                 (OPEN_BOUNDARY_KEY cfg64) false = Ret ys)
    /\ StronglySorted bytes_lt (map fst ys)
    /\ NoDup (map fst ys)
    /\ forall k tq,
         In (k, tq) ys <->
         In k [key0A] /\ IsValid tq = true /\
         forall fuel, (length k + 2 <= fuel)%nat ->
                      get cfg64 fuel tree_0A k = Ret tq.
Proof.
  apply (open_scan_yields_inserted_keys cfg64 [key0A] tree_0A iter_fresh
           built_tree_0A); reflexivity.
Defined.

(** C5 (an open scan followed by get_next yields exactly the inserted keys
    with a valid value, in ascending order), at a failing input.  The tree
    holds the single key NUL "A" with the valid value 1, and [get] finds
    it.  The point query [scan(iter, key, inclusive, key, inclusive)]
    returns it and leaves [end_key_inclusive] set in the iterator.  The
    scan with both boundaries [OPEN_BOUNDARY_KEY] and exclusive on that
    same iterator then does not treat the begin boundary as open:
    [lower_bound] compares the one-byte begin key with the leaf and reads
    the begin key at index 2, so the scan yields nothing of the tree,
    whereas on an iterator with the flag clear it yields the key. *)
Theorem open_scan_on_reused_iterator_loses_key :
  built cfg64 [key0A] tree_0A /\
  get cfg64 4 tree_0A key0A = Ret (mkTagGptr 1 0) /\
  scan cfg64 1000 tree_0A iter_fresh key0A true key0A true
  = Ret (Some (key0A, mkTagGptr 1 0), iter_reused) /\
  end_key_inclusive iter_reused = true /\
  scan cfg64 1000 tree_0A iter_reused (OPEN_BOUNDARY_KEY cfg64) false
       (OPEN_BOUNDARY_KEY cfg64) false
  = Fault KeyIndexOutOfRange /\
  scan_all cfg64 3 1000 tree_0A iter_fresh (OPEN_BOUNDARY_KEY cfg64) false
           (OPEN_BOUNDARY_KEY cfg64) false
  = Ret [(key0A, mkTagGptr 1 0)].
Proof.
  split; [exact built_tree_0A|].
  repeat split; vm_compute; reflexivity.
Qed.

(** ** Instances of the further properties *)

Lemma new_tree_is_empty_witness :
  exists t,
    RadixTree_new cfg64 empty_heap 0 = Ret t /\ wf cfg64 t /\
    contents cfg64 t = [] /\ get cfg64 2 t keyA = Ret TagGptr0.
Proof.
  destruct (new_tree_is_empty cfg64 empty_heap
              (heap_ok_no_cells cfg64 empty_heap eq_refl)) as [H1 H2].
  destruct (H1 eq_refl) as (t & E). exists t.
  destruct (H2 t E) as (W & C & G).
  split; [exact E|]. split; [exact W|]. split; [exact C|].
  apply G; [reflexivity|lia].
Defined.

Lemma operations_keep_tree_well_formed_witness :
  wf cfg64 tree_A /\ root tree_A = root tree0.
Proof.
  apply (operations_keep_tree_well_formed cfg64 tree0 tree_A
           (Put keyA 100 true) 3 wf_tree0); [simpl; lia|reflexivity].
Defined.

Lemma destroy_changes_one_value_slot_only_witness :
  root tree_A_destroyed = root tree_A /\
  length (cells (heap tree_A_destroyed)) = length (cells (heap tree_A)) /\
  pressure (heap tree_A_destroyed) = pressure (heap tree_A) /\
  freed (heap tree_A_destroyed) = freed (heap tree_A) /\
  (forall x n, toLocal (heap tree_A) x = Some n ->
     exists n', toLocal (heap tree_A_destroyed) x = Some n' /\
                key n' = key n /\ prefix_size n' = prefix_size n /\
                child n' = child n) /\
  exists q, forall x, x <> q ->
    toLocal (heap tree_A_destroyed) x = toLocal (heap tree_A) x.
Proof.
  apply (destroy_changes_one_value_slot_only cfg64 tree_A tree_A_destroyed
           keyA (mkTagGptr 100 0) 3).
  reflexivity.
Defined.

Lemma get_of_key_never_put_witness :
  get cfg64 3 tree_0A keyA = Fault KeyIndexOutOfRange
  \/ exists tq, get cfg64 3 tree_0A keyA = Ret tq /\ IsValid tq = false.
Proof.
  apply (get_of_key_never_put cfg64 [key0A] tree_0A keyA 3 built_tree_0A).
  - intros [H|[]]. discriminate H.
  - reflexivity.
  - simpl; lia.
Defined.

Lemma put_leaves_other_keys_witness :
  exists t',
    put cfg64 4 tree_A keyAB 200 true = Ret (TagGptr0, t') /\
    (get cfg64 4 tree_A keyA = Ret (mkTagGptr 100 0)
     <-> get cfg64 4 t' keyA = Ret (mkTagGptr 100 0)).
Proof.
  eexists. split; [reflexivity|].
  apply (put_leaves_other_keys cfg64 tree_A _ keyAB keyA 200 true TagGptr0 4
           wf_tree_A).
  - simpl; lia.
  - simpl; lia.
  - reflexivity.
  - discriminate.
  - reflexivity.
Defined.

Lemma destroy_leaves_other_keys_witness :
  destroy cfg64 4 tree_A keyA = Ret (mkTagGptr 100 0, tree_A_destroyed) /\
  (get cfg64 4 tree_A keyAB = Ret (mkTagGptr 200 0)
   <-> get cfg64 4 tree_A_destroyed keyAB = Ret (mkTagGptr 200 0)).
Proof.
  split; [reflexivity|].
  apply (destroy_leaves_other_keys cfg64 tree_A tree_A_destroyed keyA keyAB
           (mkTagGptr 100 0) 4 wf_tree_A).
  - simpl; lia.
  - simpl; lia.
  - reflexivity.
  - discriminate.
  - reflexivity.
Defined.

Lemma putC_is_put_with_the_node_witness :
  put cfg64 3 tree0 keyA 100 true = Ret (TagGptr0, tree_A) /\
  gptr (mkTagGptr 100 0) = 100 /\
  getC cfg64 3 tree_A keyA = Ret (2, mkTagGptr 100 0) /\
  getC_ptr cfg64 tree_A 2 = Ret (mkTagGptr 100 0).
Proof.
  apply (putC_is_put_with_the_node cfg64 tree0 tree_A keyA 100 2
           (mkTagGptr 100 0) TagGptr0 3 wf_tree0).
  - simpl; lia.
  - reflexivity.
Defined.

Lemma destroyC_is_destroy_with_the_node_witness :
  (2 = 0 /\ tree_A_destroyed = tree_A /\
   destroy cfg64 3 tree_A keyA = Ret (TagGptr0, tree_A))
  \/ (2 <> 0 /\
      getC cfg64 3 tree_A keyA = Ret (2, mkTagGptr 100 0) /\
      destroy cfg64 3 tree_A keyA = Ret (mkTagGptr 100 0, tree_A_destroyed) /\
      mkTagGptr 0 1 = mkTagGptr 0 (wrap64 (tag (mkTagGptr 100 0) + 1)) /\
      getC_ptr cfg64 tree_A_destroyed 2 = Ret (mkTagGptr 0 1)).
Proof.
  apply (destroyC_is_destroy_with_the_node cfg64 tree_A tree_A_destroyed keyA
           2 (mkTagGptr 0 1) (mkTagGptr 100 0) 3).
  reflexivity.
Defined.

Lemma pointer_variants_act_on_the_key_witness :
  (forall v, exists nv t',
      putC_ptr cfg64 3 tree_A 2 v = Ret (nv, mkTagGptr 100 0, t') /\
      putC cfg64 3 tree_A keyA v = Ret (2, nv, mkTagGptr 100 0, t') /\
      nv = mkTagGptr v (wrap64 (tag (mkTagGptr 100 0) + 1)))
  /\ exists nv t',
      destroyC_ptr cfg64 3 tree_A 2 = Ret (nv, mkTagGptr 100 0, t') /\
      destroyC cfg64 3 tree_A keyA = Ret (2, nv, mkTagGptr 100 0, t') /\
      nv = mkTagGptr 0 (wrap64 (tag (mkTagGptr 100 0) + 1)).
Proof.
  apply (pointer_variants_act_on_the_key cfg64 tree_A keyA 2
           (mkTagGptr 100 0) 3 wf_tree_A).
  - simpl; lia.
  - reflexivity.
  - discriminate.
Defined.

Lemma put_allocates_at_most_two_nodes_witness :
  freed (heap tree_A) = freed (heap tree0) /\
  (exists a, (a <= 2)%nat /\
             length (cells (heap tree_A))
             = (length (cells (heap tree0)) + a)%nat) /\
  (forall q tq, getC cfg64 3 tree0 keyA = Ret (q, tq) -> q <> 0 ->
                length (cells (heap tree_A)) = length (cells (heap tree0))).
Proof.
  apply (put_allocates_at_most_two_nodes cfg64 tree0 tree_A keyA 100 true
           TagGptr0 3 wf_tree0).
  - simpl; lia.
  - reflexivity.
Defined.

Lemma put_and_destroy_return_prior_value_witness :
  (exists t', destroy cfg64 3 tree_A keyA = Ret (mkTagGptr 100 0, t'))
  /\ forall v u r t',
       put cfg64 3 tree_A keyA v u = Ret (r, t') -> r = mkTagGptr 100 0.
Proof.
  apply (put_and_destroy_return_prior_value cfg64 tree_A keyA
           (mkTagGptr 100 0) 3 wf_tree_A).
  - simpl; lia.
  - reflexivity.
Defined.

Lemma put_no_update_stores_iff_prior_invalid_witness :
  (IsValid TagGptr0 = true /\ tree_A = tree0)
  \/ (IsValid TagGptr0 = false /\
      exists tg, get cfg64 3 tree_A keyA = Ret (mkTagGptr 100 tg)).
Proof.
  apply (put_no_update_stores_iff_prior_invalid cfg64 tree0 keyA 100
           TagGptr0 tree_A 3 wf_tree0).
  - simpl; lia.
  - reflexivity.
Defined.

Lemma built_tree_AB : built cfg64 [keyAB] tree_AB.
Proof.
  apply (built_put cfg64 [] tree0 keyAB 200 true 4 TagGptr0 tree_AB).
  - apply (built_new cfg64 empty_heap); [now apply heap_ok_no_cells|].
    reflexivity.
  - reflexivity.
  - simpl; lia.
  - reflexivity.
Qed.

Lemma scan_yields_only_stored_entries_witness :
  exists it,
    scan cfg64 300 tree_AB iter_fresh key0 true keyA true
    = Ret (Some (keyAB, mkTagGptr 200 0), it) /\
    get_next cfg64 300 tree_AB it = Fault KeyIndexOutOfRange /\
    In keyAB [keyAB] /\ IsValid (mkTagGptr 200 0) = true /\
    forall f, (length keyAB + 2 <= f)%nat ->
              get cfg64 f tree_AB keyAB = Ret (mkTagGptr 200 0).
Proof.
  eexists. split; [vm_compute; reflexivity|].
  split; [vm_compute; reflexivity|].
  eapply (scan_yields_only_stored_entries cfg64 [keyAB] tree_AB iter_fresh _
            key0 keyA true true keyAB (mkTagGptr 200 0) built_tree_AB).
  apply (sr_scan cfg64 tree_AB iter_fresh key0 true keyA true 300).
  vm_compute. reflexivity.
Defined.

Lemma not_found_is_final_witness :
  exists it',
    scan cfg64 3 tree0 iter_fresh keyA true keyAB true = Ret (None, it') /\
    forall f, get_next cfg64 (S f) tree0 it' = Ret (None, it').
Proof.
  eexists. split; [reflexivity|].
  apply (not_found_is_final cfg64 tree0 iter_fresh _ 3).
  right. exists keyA, true, keyAB, true. reflexivity.
Defined.

Lemma list_reports_each_stored_key_witness :
  exists s,
    RadixTree_list cfg64 gptr 66 tree_0A = Ret s /\
    level s = 0 /\
    value_cnt s = wrap64 (Z.of_nat (length (reported s))) /\
    StronglySorted bytes_lt (map fst (map call_view (reported s))) /\
    forall k g,
      In (k, g) (map call_view (reported s)) <->
      exists tq, In k [key0A] /\ IsValid tq = true /\ g = gptr tq /\
                 forall f, (length k + 2 <= f)%nat ->
                           get cfg64 f tree_0A k = Ret tq.
Proof.
  apply (list_reports_each_stored_key cfg64 gptr [key0A] tree_0A 66
           built_tree_0A).
  simpl; lia.
Defined.

Lemma tracks_tree_A : tracks cfg64 (map_set (fun _ => 0) keyA 100) tree_A.
Proof.
  exact (tracks_put cfg64 (fun _ => 0) tree0 keyA 100 true 3 TagGptr0 tree_A
           (tracks_new cfg64 empty_heap tree0
              (heap_ok_no_cells cfg64 empty_heap eq_refl) eq_refl)
           eq_refl (le_n 3) eq_refl).
Qed.

Lemma tree_is_a_map_witness :
  (map_set (fun _ => 0) keyA 100 keyA <> 0 ->
   exists tq, get cfg64 3 tree_A keyA = Ret tq /\
              gptr tq = map_set (fun _ => 0) keyA 100 keyA) /\
  (forall tq, get cfg64 3 tree_A keyA = Ret tq ->
              gptr tq = map_set (fun _ => 0) keyA 100 keyA) /\
  (forall v u r t', put cfg64 3 tree_A keyA v u = Ret (r, t') ->
                    gptr r = map_set (fun _ => 0) keyA 100 keyA) /\
  (forall r t', destroy cfg64 3 tree_A keyA = Ret (r, t') ->
                gptr r = map_set (fun _ => 0) keyA 100 keyA).
Proof.
  apply (tree_is_a_map cfg64 (map_set (fun _ => 0) keyA 100) tree_A keyA 3
           tracks_tree_A).
  - reflexivity.
  - simpl; lia.
Defined.

Lemma scan_from_stored_key_witness :
  exists it',
    scan cfg64 3 tree_A iter_used keyA true (OPEN_BOUNDARY_KEY cfg64) false
    = Ret (Some (keyA, mkTagGptr 100 0), it').
Proof.
  apply (scan_from_stored_key cfg64 tree_A iter_used keyA (mkTagGptr 100 0) 3
           wf_tree_A).
  - reflexivity.
  - discriminate.
  - simpl; lia.
  - reflexivity.
  - reflexivity.
Defined.
